(** * hash_containers: closed hashing with linear probing

    A shallow embedding of the header-only C++ library
    (common.h, closed_linear_probing_hash_table.h and
    closed_linear_probing_hash_table2.h) together with the properties of
    its probing engine, its two erase policies, its bitmap iteration and
    its growth policy.

    Conventions of the embedding.
    - [uint32_t] and [uint64_t] values are integers of [Z] kept in range
      by an explicit reduction modulo [2^32] or [2^64] wherever the C++
      operation can leave the range (decrement, increment, left shift,
      complement).
    - [size_t] slot indices, sizes and capacities are non-negative
      integers of [Z], without the wrap-around at [2^64] that no storage
      fitting an address space reaches; the all-ones value [~size_t(0)]
      that the library uses as end sentinel is [Z.lnot 0]. Where a
      [size_t] meets a 32-bit [unsigned] operand the width of the latter
      is kept.
    - An array of objects built with placement new ([key_table],
      [value_table]) is a finite map from the slot index to the object
      that is alive in the slot; [internal::construct] inserts,
      [internal::destroy] deletes.
    - A function returns [None] when the C++ run fails an [assert], reads
      a slot that holds no object, or exceeds the step bound of a loop of
      the model. *)

From Stdlib Require Import ZArith Lia List Bool.
From stdpp Require Import base tactics option list gmap.

Local Open Scope Z_scope.

(** ** Fixed-width words *)

Definition wrap32 (x : Z) : Z := x mod 2 ^ 32.
Definition wrap64 (x : Z) : Z := x mod 2 ^ 64.

(** [v |= v >> s], the smearing step shared by both overloads. *)
Definition smear (s : Z) (v : Z) : Z := Z.lor v (Z.shiftr v s).

(** ** common.h (src/include/common.h): the helpers before they moved to
    namespace [internal]. *)
Module Common.

(** [size_t round_up_to_next_power_of_2(uint32_t v)]: the body computes
    [v] and then reaches the closing brace; there is no [return]
    statement, so no value is delivered to the caller. *)
Definition round_up_to_next_power_of_2_u32 (v : Z) : option Z :=
  let v := wrap32 (v - 1) in
  let v := smear 1 v in
  let v := smear 2 v in
  let v := smear 4 v in
  let v := smear 8 v in
  let v := smear 16 v in
  let v := wrap32 (v + 1) in
  let _ := v in
  None.

(** [size_t round_up_to_next_power_of_2(uint64_t v)]: same shape, same
    missing [return]. *)
Definition round_up_to_next_power_of_2_u64 (v : Z) : option Z :=
  let v := wrap64 (v - 1) in
  let v := smear 1 v in
  let v := smear 2 v in
  let v := smear 4 v in
  let v := smear 8 v in
  let v := smear 16 v in
  let v := smear 32 v in
  let v := wrap64 (v + 1) in
  let _ := v in
  None.

End Common.

(** ** common.h (src/unnamed/part_001): namespace [internal] *)
Module Internal.

(** [__builtin_ctz] on a non-zero 32-bit word: position of the lowest
    set bit. *)
Fixpoint ctz_from (n : nat) (i : Z) (x : Z) : Z :=
  match n with
  | O => i
  | S n' => if Z.testbit x i then i else ctz_from n' (i + 1) x
  end.

Definition bsf32_nonzero (x : Z) : Z := ctz_from 32 0 x.

Definition round_up_to_next_power_of_2_u32 (orig : Z) : option Z :=
  let v := orig in
  (* assert(((v & 0x80000000) == 0) || (v == 0x80000000)); *)
  if negb ((Z.land v 0x80000000 =? 0) || (v =? 0x80000000)) then None else
  let v := wrap32 (v - 1) in
  let v := smear 1 v in
  let v := smear 2 v in
  let v := smear 4 v in
  let v := smear 8 v in
  let v := smear 16 v in
  let v := wrap32 (v + 1) in
  (* assert(!orig || v); *)
  if negb ((orig =? 0) || negb (v =? 0)) then None else
  Some v.

Definition round_up_to_next_power_of_2_u64 (orig : Z) : option Z :=
  let v := orig in
  (* assert(((v & 0x8000000000000000ull) == 0) || (v == 0x8000000000000000ull)); *)
  if negb ((Z.land v 0x8000000000000000 =? 0) || (v =? 0x8000000000000000)) then None else
  let v := wrap64 (v - 1) in
  let v := smear 1 v in
  let v := smear 2 v in
  let v := smear 4 v in
  let v := smear 8 v in
  let v := smear 16 v in
  let v := smear 32 v in
  let v := wrap64 (v + 1) in
  (* assert(!orig || v); *)
  if negb ((orig =? 0) || negb (v =? 0)) then None else
  Some v.

End Internal.

(** ** Template parameters

    [K], [V], [operator==] on [K], the hash functor and the value built by
    [V()]. *)
Class hash_params := {
  K : Type;
  V : Type;
  K_eq_dec :: EqDecision K;
  hash_functor : K -> Z;
  V_default : V
}.

(** ** Meta-data parameters of the erase policies *)

Inductive erase_policy := erase_policy_rehash | erase_policy_use_marker.

Definition META_BITS_PER_WORD : Z := 32.

Definition META_BITS_PER_ELEMENT (p : erase_policy) : Z :=
  match p with
  | erase_policy_rehash => 1
  | erase_policy_use_marker => 2
  end.

Definition META_ELEMENTS_PER_WORD (p : erase_policy) : Z :=
  META_BITS_PER_WORD / META_BITS_PER_ELEMENT p.

Definition INVALID : Z := 0.
Definition VALID : Z := 1.
Definition DELETED : Z := 2.

(** [~size_t(0)]. *)
Definition NPOS : Z := Z.lnot 0.

(** [uint32_t] operators that can leave the range. *)
Definition shl32 (x s : Z) : Z := wrap32 (Z.shiftl x s).
Definition not32 (x : Z) : Z := wrap32 (Z.lnot x).

(** [valid[w]] and [valid[w] = x] on the array of meta-data words. *)
Definition rd (valid : list Z) (w : Z) : Z := default 0 (valid !! Z.to_nat w).
Definition wr (valid : list Z) (w : Z) (x : Z) : list Z := <[Z.to_nat w := x]> valid.

(** [(meta_t(1) << META_BITS_PER_ELEMENT) - 1] *)
Definition elem_mask (p : erase_policy) : Z := shl32 1 (META_BITS_PER_ELEMENT p) - 1.

(** [META_BITS_PER_ELEMENT * (idx & (META_ELEMENTS_PER_WORD - 1))] *)
Definition elem_shift (p : erase_policy) (idx : Z) : Z :=
  META_BITS_PER_ELEMENT p * Z.land idx (META_ELEMENTS_PER_WORD p - 1).

(** [elem_mask << elem_shift] *)
Definition field_mask (p : erase_policy) (idx : Z) : Z :=
  shl32 (elem_mask p) (elem_shift p idx).

(** The state of slot [idx] as the bitmap holds it: bits
    [idx*B .. (idx+1)*B) of the meta-data array. *)
Definition slot_state (p : erase_policy) (valid : list Z) (idx : Z) : Z :=
  Z.land (Z.shiftr (rd valid (idx / META_ELEMENTS_PER_WORD p)) (elem_shift p idx))
         (elem_mask p).

(** [(capacity_minus_1 + META_ELEMENTS_PER_WORD) / META_ELEMENTS_PER_WORD] *)
Definition num_valid_words (p : erase_policy) (capacity_minus_1 : Z) : Z :=
  (capacity_minus_1 + META_ELEMENTS_PER_WORD p) / META_ELEMENTS_PER_WORD p.

(** The condition under which [do_erase] leaves the entry at [idx2] where it
    is: its home [key2] lies in the circular interval (idx, idx2]. *)
Definition keeps_place (idx idx2 key2 : Z) : bool :=
  if idx <=? idx2 then (idx <? key2) && (key2 <=? idx2)
  else (idx <? key2) || (key2 <=? idx2).

(** ** erase_policy_rehash *)
Module Rehash.
Section Rehash.
Context {hp : hash_params}.
Let p := erase_policy_rehash.

(** The body of [do_erase] from the label [next_entry] on. A transfer of
    the entry at [idx2] into the hole [idx] is followed by the head of the
    next turn of [while (true)], which marks the new hole invalid. *)
Fixpoint do_erase_next_entry (fuel : nat) (idx idx2 : Z) (valid : list Z)
    (capacity_minus_1 : Z) (key_table : gmap Z K) (value_table : gmap Z V)
    : option (list Z * gmap Z K * gmap Z V) :=
  match fuel with
  | O => None
  | S fuel =>
    let idx2 := Z.land (idx2 + 1) capacity_minus_1 in
    let word2 := idx2 / META_ELEMENTS_PER_WORD p in
    if Z.land (rd valid word2) (field_mask p idx2) =? 0 then
      Some (valid, key_table, value_table)
    else
      match key_table !! idx2 with
      | None => None
      | Some k2 =>
        let key2 := Z.land (hash_functor k2) capacity_minus_1 in
        if keeps_place idx idx2 key2 then
          do_erase_next_entry fuel idx idx2 valid capacity_minus_1 key_table value_table
        else
          match value_table !! idx2 with
          | None => None
          | Some v2 =>
            let key_table := <[idx := k2]> key_table in
            let value_table := <[idx := v2]> value_table in
            let key_table := delete idx2 key_table in
            let value_table := delete idx2 value_table in
            let word := idx / META_ELEMENTS_PER_WORD p in
            let valid := wr valid word (Z.lor (rd valid word) (field_mask p idx)) in
            let idx := idx2 in
            let word := idx / META_ELEMENTS_PER_WORD p in
            let valid := wr valid word (Z.land (rd valid word) (not32 (field_mask p idx))) in
            do_erase_next_entry fuel idx idx2 valid capacity_minus_1 key_table value_table
          end
      end
  end.

(** Step bound of the model for the scan of [do_erase]: the sum of the
    displacements of the entries is below [capacity^2] and every stretch
    between two transfers is shorter than [capacity]. *)
Definition do_erase_fuel (capacity_minus_1 : Z) : nat :=
  Z.to_nat ((capacity_minus_1 + 1) * (capacity_minus_1 + 1) * (capacity_minus_1 + 1)).

Definition do_erase (orig_idx : Z) (valid : list Z) (capacity_minus_1 : Z)
    (key_table : gmap Z K) (value_table : gmap Z V)
    : option (list Z * gmap Z K * gmap Z V) :=
  let idx := orig_idx in
  let idx2 := orig_idx in
  let word := idx / META_ELEMENTS_PER_WORD p in
  let valid := wr valid word (Z.land (rd valid word) (not32 (field_mask p idx))) in
  do_erase_next_entry (do_erase_fuel capacity_minus_1) idx idx2 valid capacity_minus_1
    key_table value_table.

(** The [for] loop over the meta-data words shared by [get_first] and
    [get_next]; [valid_ptr] is [&valid[word]] at every turn. *)
Fixpoint scan_words (remaining : nat) (word : Z) (valid : list Z) : Z :=
  match remaining with
  | O => NPOS
  | S remaining =>
    if rd valid word =? 0 then scan_words remaining (word + 1) valid
    else
      let bit := Internal.bsf32_nonzero (rd valid word) in
      word * META_ELEMENTS_PER_WORD p + bit / META_BITS_PER_ELEMENT p
  end.

Definition get_first (capacity_minus_1 : Z) (valid : list Z) : Z :=
  let num_valid_words := num_valid_words p capacity_minus_1 in
  scan_words (Z.to_nat num_valid_words) 0 valid.

(** [valid_ptr] is passed as the index of the word it points to. In
    [old_pos & ~(META_ELEMENTS_PER_WORD - 1)] the constant is an
    [unsigned]: its complement is a 32-bit word, which the conjunction
    with the [size_t] position extends with zeros. *)
Definition get_next (old_pos : Z) (valid : list Z) (valid_ptr : Z) (num_valid_words : Z) : Z :=
  let next_mask :=
    Z.land (rd valid valid_ptr)
      (shl32 (shl32 (not32 0)
                (Z.land old_pos (META_ELEMENTS_PER_WORD p - 1) * META_BITS_PER_ELEMENT p)) 1) in
  if negb (next_mask =? 0) then
    let bit := Internal.bsf32_nonzero next_mask in
    Z.land old_pos (not32 (META_ELEMENTS_PER_WORD p - 1)) + bit / META_BITS_PER_ELEMENT p
  else
    let word := old_pos / META_ELEMENTS_PER_WORD p + 1 in
    scan_words (Z.to_nat (num_valid_words - word)) word valid.

End Rehash.
End Rehash.

(** ** erase_policy_use_marker *)
Module UseMarker.
Section UseMarker.
Context {hp : hash_params}.
Let p := erase_policy_use_marker.

Definition do_erase (idx : Z) (valid : list Z) (capacity_minus_1 : Z)
    (key_table : gmap Z K) (value_table : gmap Z V)
    : option (list Z * gmap Z K * gmap Z V) :=
  let word := idx / META_ELEMENTS_PER_WORD p in
  let valid :=
    wr valid word
      (Z.lor (Z.land (rd valid word) (not32 (field_mask p idx)))
             (shl32 DELETED (elem_shift p idx))) in
  Some (valid, key_table, value_table).

Definition mask : Z := 0x55555555.

Fixpoint scan_words (remaining : nat) (word : Z) (valid : list Z) : Z :=
  match remaining with
  | O => NPOS
  | S remaining =>
    if Z.land (rd valid word) mask =? 0 then scan_words remaining (word + 1) valid
    else
      let bit := Internal.bsf32_nonzero (Z.land (rd valid word) mask) in
      word * META_ELEMENTS_PER_WORD p + bit / META_BITS_PER_ELEMENT p
  end.

Definition get_first (capacity_minus_1 : Z) (valid : list Z) : Z :=
  let num_valid_words := num_valid_words p capacity_minus_1 in
  scan_words (Z.to_nat num_valid_words) 0 valid.

Definition get_next (old_pos : Z) (valid : list Z) (valid_ptr : Z) (num_valid_words : Z) : Z :=
  let next_mask :=
    Z.land (rd valid valid_ptr)
      (shl32 (not32 0)
         (Z.land old_pos (META_ELEMENTS_PER_WORD p - 1) * META_BITS_PER_ELEMENT p + 1)) in
  if negb (Z.land next_mask mask =? 0) then
    let bit := Internal.bsf32_nonzero (Z.land next_mask mask) in
    Z.land old_pos (not32 (META_ELEMENTS_PER_WORD p - 1)) + bit / META_BITS_PER_ELEMENT p
  else
    let word := old_pos / META_ELEMENTS_PER_WORD p + 1 in
    scan_words (Z.to_nat (num_valid_words - word)) word valid.

End UseMarker.
End UseMarker.

(** ** closed_linear_probing_hash_table_data_t *)

Record data_t {hp : hash_params} := Build_data_t {
  key_table : gmap Z K;
  value_table : gmap Z V;
  valid : list Z;
  size : Z;
  capacity_minus_1 : Z
}.

(** Outcome of one pass of the [do ... while] loop of [add_new]. *)
Inductive add_new_walk {hp : hash_params} :=
  | Placed (data : data_t) (idx : Z)  (* element stored, [return idx] *)
  | NeedsGrowth                        (* collision with [size * 2 > capacity_minus_1] *)
  | NoSpot.                            (* [assert(0)] after a full revolution *)

(** ** closed_linear_probing_hash_table *)
Module Table.
Section Table.
Context {hp : hash_params}.
Variable p : erase_policy.

(** [data_t(size_t capacity)]: one zeroed block of meta-data words, no
    object constructed yet. *)
Definition new_data (capacity : Z) : option data_t :=
  (* assert(capacity > 0); assert((capacity & (capacity - 1)) == 0); *)
  if negb (0 <? capacity) then None else
  if negb (Z.land capacity (capacity - 1) =? 0) then None else
  Some {| key_table := ∅;
          value_table := ∅;
          valid := replicate
                     (Z.to_nat ((capacity + META_ELEMENTS_PER_WORD p - 1)
                                  / META_ELEMENTS_PER_WORD p)) 0;
          size := 0;
          capacity_minus_1 := capacity - 1 |}.

(** The default constructor of the table for template argument
    [default_size]; the table starts on its inline buffers. *)
Definition create (default_size : Z) : option data_t :=
  (* assert(default_size > 0 && (default_size & (default_size-1)) == 0); *)
  if negb ((0 <? default_size) && (Z.land default_size (default_size - 1) =? 0))
  then None else
  Some {| key_table := ∅;
          value_table := ∅;
          valid := replicate
                     (Z.to_nat ((default_size + META_ELEMENTS_PER_WORD p - 1)
                                  / META_ELEMENTS_PER_WORD p)) 0;
          size := 0;
          capacity_minus_1 := default_size - 1 |}.

(** [step_idx]: returns the new [idx], [valid_val] and [valid_ptr] (the
    latter as the index of the word it points to). *)
Definition step_idx (idx valid_val valid_ptr : Z) (data : data_t) : Z * Z * Z :=
  let idx := idx + 1 in
  let valid_val := Z.shiftr valid_val (META_BITS_PER_ELEMENT p) in
  let idx := Z.land idx (capacity_minus_1 data) in
  if Z.land idx (META_ELEMENTS_PER_WORD p - 1) =? 0 then
    let valid_ptr := idx / META_ELEMENTS_PER_WORD p in
    let valid_val := rd (valid data) valid_ptr in
    (idx, valid_val, valid_ptr)
  else (idx, valid_val, valid_ptr).

(** The [do ... while (idx != orig_idx)] loop of [get_index]. The result
    is the pair of the out-parameter [valid] and the returned index. *)
Fixpoint get_index_loop (fuel : nat) (key : K) (data : data_t)
    (orig_idx idx valid_val valid_ptr : Z) : option (bool * Z) :=
  match fuel with
  | O => None
  | S fuel =>
    let m := Z.land valid_val (elem_mask p) in
    if m =? INVALID then Some (false, NPOS)
    else
      match (if m =? VALID
             then (λ k', bool_decide (k' = key)) <$> key_table data !! idx
             else Some false) with
      | None => None
      | Some true => Some (true, idx)
      | Some false =>
        let '(idx, valid_val, valid_ptr) := step_idx idx valid_val valid_ptr data in
        if idx =? orig_idx then Some (false, NPOS)
        else get_index_loop fuel key data orig_idx idx valid_val valid_ptr
      end
  end.

Definition get_index_hash (key : K) (data : data_t) (hash : Z) : option (bool * Z) :=
  let orig_idx := Z.land hash (capacity_minus_1 data) in
  let idx := orig_idx in
  let valid_ptr := idx / META_ELEMENTS_PER_WORD p in
  let valid_val := Z.shiftr (rd (valid data) valid_ptr) (elem_shift p idx) in
  get_index_loop (Z.to_nat (capacity_minus_1 data + 1)) key data
    orig_idx idx valid_val valid_ptr.

Definition get_index (key : K) (data : data_t) : option (bool * Z) :=
  let hash := hash_functor key in
  get_index_hash key data hash.

(** The [do ... while (idx != orig_idx)] loop of [add_new]. *)
Fixpoint add_new_loop (fuel : nat) (key : K) (value : V) (data : data_t)
    (orig_idx idx valid_val valid_ptr : Z) : option add_new_walk :=
  match fuel with
  | O => None
  | S fuel =>
    if negb (Z.land valid_val (elem_mask p) =? VALID) then
      let valid' :=
        wr (valid data) valid_ptr
           (Z.lor (Z.land (rd (valid data) valid_ptr) (not32 (field_mask p idx)))
                  (shl32 VALID (elem_shift p idx))) in
      Some (Placed {| key_table := <[idx := key]> (key_table data);
                      value_table := <[idx := value]> (value_table data);
                      valid := valid';
                      size := size data + 1;
                      capacity_minus_1 := capacity_minus_1 data |} idx)
    else
      (* assert(data.key_table[idx] != key); *)
      match key_table data !! idx with
      | None => None
      | Some k' =>
        if bool_decide (k' = key) then None else
        if capacity_minus_1 data <? size data * 2 then Some NeedsGrowth
        else
          let '(idx, valid_val, valid_ptr) := step_idx idx valid_val valid_ptr data in
          if idx =? orig_idx then Some NoSpot
          else add_new_loop fuel key value data orig_idx idx valid_val valid_ptr
      end
  end.

(** [add_new] from the label [restart] down to the end of the loop. *)
Definition add_new_pass (key : K) (value : V) (data : data_t) (hash : Z)
    : option add_new_walk :=
  let idx := Z.land hash (capacity_minus_1 data) in
  let orig_idx := idx in
  let valid_ptr := idx / META_ELEMENTS_PER_WORD p in
  let valid_val := Z.shiftr (rd (valid data) valid_ptr) (elem_shift p idx) in
  add_new_loop (Z.to_nat (capacity_minus_1 data + 1)) key value data
    orig_idx idx valid_val valid_ptr.

(** [add_new(key, value, new_data, hash)] as [increase_table_size] calls
    it, on storage that is not [this->data]: the pass that would grow
    fails [assert(&data == &this->data)]. *)
Definition add_new_to (key : K) (value : V) (data : data_t) (hash : Z)
    : option (data_t * Z) :=
  match add_new_pass key value data hash with
  | Some (Placed data' idx) => Some (data', idx)
  | _ => None
  end.

Definition get_first (data : data_t) : Z :=
  match p with
  | erase_policy_rehash => Rehash.get_first (capacity_minus_1 data) (valid data)
  | erase_policy_use_marker => UseMarker.get_first (capacity_minus_1 data) (valid data)
  end.

Definition get_next (data : data_t) (old_pos : Z) : option Z :=
  (* assert(old_pos != ~size_t(0)); *)
  if old_pos =? NPOS then None else
  let num_valid_words := num_valid_words p (capacity_minus_1 data) in
  let valid_ptr := old_pos / META_ELEMENTS_PER_WORD p in
  Some match p with
       | erase_policy_rehash =>
           Rehash.get_next old_pos (valid data) valid_ptr num_valid_words
       | erase_policy_use_marker =>
           UseMarker.get_next old_pos (valid data) valid_ptr num_valid_words
       end.

(** The [for (i = get_first(); i != ~size_t(0); i = get_next(i))] loop of
    [increase_table_size]; the state is the old storage, whose objects are
    destroyed one by one, and the new storage. *)
Fixpoint rehash_loop (fuel : nat) (data new_data : data_t) (i : Z)
    : option (data_t * data_t) :=
  match fuel with
  | O => None
  | S fuel =>
    if i =? NPOS then Some (data, new_data)
    else
      match key_table data !! i, value_table data !! i with
      | Some k, Some v =>
        let hash := hash_functor k in
        match add_new_to k v new_data hash with
        | None => None
        | Some (new_data, _) =>
          let data := {| key_table := delete i (key_table data);
                         value_table := delete i (value_table data);
                         valid := valid data;
                         size := size data;
                         capacity_minus_1 := capacity_minus_1 data |} in
          match get_next data i with
          | None => None
          | Some i => rehash_loop fuel data new_data i
          end
        end
      | _, _ => None
      end
  end.

Definition increase_table_size (data : data_t) (new_size : Z) : option data_t :=
  (* assert((new_size & (new_size - 1)) == 0); assert(new_size > 0); *)
  if negb (Z.land new_size (new_size - 1) =? 0) then None else
  if negb (0 <? new_size) then None else
  match new_data new_size with
  | None => None
  | Some nd =>
    match rehash_loop (Z.to_nat (capacity_minus_1 data + 2)) data nd (get_first data) with
    | None => None
    | Some (_, nd) => Some nd  (* this->data = new_data *)
    end
  end.

(** [add_new(key, value, this->data, hash)]: every [goto restart] follows
    a doubling of the capacity; [fuel] bounds the number of restarts. *)
Fixpoint add_new_restart (fuel : nat) (key : K) (value : V) (data : data_t) (hash : Z)
    : option (data_t * Z) :=
  match fuel with
  | O => None
  | S fuel =>
    match add_new_pass key value data hash with
    | None => None
    | Some (Placed data' idx) => Some (data', idx)
    | Some NoSpot => None
    | Some NeedsGrowth =>
      match increase_table_size data ((capacity_minus_1 data + 1) * 2) with
      | None => None
      | Some data' => add_new_restart fuel key value data' hash
      end
    end
  end.

(** A capacity held in a 64-bit [size_t] can double at most 64 times. *)
Definition add_new_hash (key : K) (value : V) (data : data_t) (hash : Z)
    : option (data_t * Z) :=
  add_new_restart 64 key value data hash.

Definition add_new (key : K) (value : V) (data : data_t) : option (data_t * Z) :=
  let hash := hash_functor key in
  add_new_hash key value data hash.

Definition do_erase (idx : Z) (data : data_t) : option (list Z * gmap Z K * gmap Z V) :=
  match p with
  | erase_policy_rehash =>
      Rehash.do_erase idx (valid data) (capacity_minus_1 data)
        (key_table data) (value_table data)
  | erase_policy_use_marker =>
      UseMarker.do_erase idx (valid data) (capacity_minus_1 data)
        (key_table data) (value_table data)
  end.

(** [void erase(const K &key)] *)
Definition erase (key : K) (data : data_t) : option data_t :=
  let hash := hash_functor key in
  match get_index_hash key data hash with
  | None => None
  | Some (false, _) => Some data
  | Some (true, idx) =>
    (* assert(data.size); assert(data.key_table[idx] == key); *)
    if size data =? 0 then None else
    match key_table data !! idx with
    | None => None
    | Some k' =>
      if negb (bool_decide (k' = key)) then None else
      let data := {| key_table := delete idx (key_table data);
                     value_table := delete idx (value_table data);
                     valid := valid data;
                     size := size data;
                     capacity_minus_1 := capacity_minus_1 data |} in
      match do_erase idx data with
      | None => None
      | Some (valid', key_table', value_table') =>
        Some {| key_table := key_table';
                value_table := value_table';
                valid := valid';
                size := size data - 1;
                capacity_minus_1 := capacity_minus_1 data |}
      end
    end
  end.

(** [bool insert(const K &key, const V &value)] *)
Definition insert (key : K) (value : V) (data : data_t) : option (bool * data_t) :=
  let hash := hash_functor key in
  match get_index_hash key data hash with
  | None => None
  | Some (true, _) => Some (false, data)
  | Some (false, _) =>
    match add_new_hash key value data hash with
    | None => None
    | Some (data', _) => Some (true, data')
    end
  end.

Definition size_ (data : data_t) : Z := size data.

Definition capacity (data : data_t) : Z := capacity_minus_1 data + 1.

(** [void reserve(size_t new_capacity)]; [size_t] is the 64-bit type, so
    the call resolves to the [uint64_t] overload of the rounding helper. *)
Definition reserve (new_capacity : Z) (data : data_t) : option data_t :=
  if capacity_minus_1 data + 1 <? new_capacity then
    match Internal.round_up_to_next_power_of_2_u64 new_capacity with
    | None => None
    | Some new_capacity => increase_table_size data new_capacity
    end
  else Some data.

(** Iterators are positions; [begin], [end], [operator++], [operator*]. *)
Definition begin_ (data : data_t) : Z := get_first data.
Definition end_ : Z := NPOS.
Definition iter_next (data : data_t) (pos : Z) : option Z := get_next data pos.
Definition iter_deref (data : data_t) (pos : Z) : option (K * V) :=
  match key_table data !! pos, value_table data !! pos with
  | Some k, Some v => Some (k, v)
  | _, _ => None
  end.

(** [V& operator[](const K& key)]: the position of the value that the
    returned reference designates, and the storage after the call. *)
Definition index (key : K) (data : data_t) : option (Z * data_t) :=
  let hash := hash_functor key in
  match get_index_hash key data hash with
  | None => None
  | Some (true, idx) => Some (idx, data)
  | Some (false, _) =>
    match add_new_hash key V_default data hash with
    | None => None
    | Some (data', idx) =>
      (* assert(this->data.key_table[idx] == key); *)
      match key_table data' !! idx with
      | Some k' => if bool_decide (k' = key) then Some (idx, data') else None
      | None => None
      end
    end
  end.

(** Assignment through the reference returned by [operator[]]. *)
Definition assign (idx : Z) (value : V) (data : data_t) : data_t :=
  {| key_table := key_table data;
     value_table := <[idx := value]> (value_table data);
     valid := valid data;
     size := size data;
     capacity_minus_1 := capacity_minus_1 data |}.

(** [size_t count(const K& key) const] *)
Definition count (key : K) (data : data_t) : option Z :=
  match get_index key data with
  | None => None
  | Some (valid, _) => Some (if valid then 1 else 0)
  end.

(** [iterator find(const K& key)] *)
Definition find (key : K) (data : data_t) : option Z :=
  match get_index key data with
  | None => None
  | Some (_, pos) => Some pos
  end.

(** The loop of [clear] (and of the destructor) over the slots
    [i .. capacity_minus_1], destroying the objects of the [VALID]
    slots. *)
Fixpoint clear_loop (remaining : nat) (i valid_val valid_ptr : Z) (data : data_t)
    : data_t :=
  match remaining with
  | O => data
  | S remaining =>
    let data :=
      if Z.land valid_val (elem_mask p) =? VALID then
        {| key_table := delete i (key_table data);
           value_table := delete i (value_table data);
           valid := valid data;
           size := size data;
           capacity_minus_1 := capacity_minus_1 data |}
      else data in
    let valid_val := Z.shiftr valid_val (META_BITS_PER_ELEMENT p) in
    if Z.land i (META_ELEMENTS_PER_WORD p - 1) =? META_ELEMENTS_PER_WORD p - 1 then
      let valid_ptr := valid_ptr + 1 in
      let valid_val := rd (valid data) valid_ptr in
      clear_loop remaining (i + 1) valid_val valid_ptr data
    else clear_loop remaining (i + 1) valid_val valid_ptr data
  end.

(** [void clear()] *)
Definition clear (data : data_t) : data_t :=
  let data := clear_loop (Z.to_nat (capacity_minus_1 data + 1)) 0
                (rd (valid data) 0) 0 data in
  (* memset(this->data.valid, 0, ...); this->data.size = 0; *)
  let n := Z.to_nat ((capacity data + META_ELEMENTS_PER_WORD p - 1)
                       / META_ELEMENTS_PER_WORD p) in
  {| key_table := key_table data;
     value_table := value_table data;
     valid := replicate n 0 ++ drop n (valid data);
     size := 0;
     capacity_minus_1 := capacity_minus_1 data |}.

(** The positions that [for (it = begin(); it != end(); ++it)] visits. *)
Fixpoint iterate_from (fuel : nat) (data : data_t) (pos : Z) : option (list Z) :=
  match fuel with
  | O => None
  | S fuel =>
    if pos =? NPOS then Some []
    else
      match get_next data pos with
      | None => None
      | Some pos' => cons pos <$> iterate_from fuel data pos'
      end
  end.

Definition iterate (data : data_t) : option (list Z) :=
  iterate_from (Z.to_nat (capacity_minus_1 data + 2)) data (get_first data).

End Table.
End Table.

(** ** closed_linear_probing_hash_table2

    The standalone variant: one bit of meta-data per slot, the rehashing
    erase written inline with [memcpy], growth by a linear scan of the
    slots. *)
Module Table2.
Section Table2.
Context {hp : hash_params}.

Definition META_BITS_PER_ELEMENT : Z := 1.
Definition META_ELEMENTS_PER_WORD : Z := META_BITS_PER_WORD / META_BITS_PER_ELEMENT.

(** [((meta_t(1) << META_BITS_PER_ELEMENT) - 1)] *)
Definition elem_mask : Z := shl32 1 META_BITS_PER_ELEMENT - 1.

(** [META_BITS_PER_ELEMENT * (idx & (META_ELEMENTS_PER_WORD - 1))] *)
Definition elem_shift (idx : Z) : Z :=
  META_BITS_PER_ELEMENT * Z.land idx (META_ELEMENTS_PER_WORD - 1).

Definition new_data (capacity : Z) : option data_t :=
  (* assert(capacity > 0); assert((capacity & (capacity - 1)) == 0); *)
  if negb (0 <? capacity) then None else
  if negb (Z.land capacity (capacity - 1) =? 0) then None else
  Some {| key_table := ∅;
          value_table := ∅;
          valid := replicate
                     (Z.to_nat ((capacity + META_ELEMENTS_PER_WORD - 1)
                                  / META_ELEMENTS_PER_WORD)) 0;
          size := 0;
          capacity_minus_1 := capacity - 1 |}.

Definition create (default_size : Z) : option data_t :=
  (* assert(default_size > 0 && (default_size & (default_size-1)) == 0); *)
  if negb ((0 <? default_size) && (Z.land default_size (default_size - 1) =? 0))
  then None else
  Some {| key_table := ∅;
          value_table := ∅;
          valid := replicate
                     (Z.to_nat ((default_size + META_ELEMENTS_PER_WORD - 1)
                                  / META_ELEMENTS_PER_WORD)) 0;
          size := 0;
          capacity_minus_1 := default_size - 1 |}.

Definition step_idx (idx valid_val valid_ptr : Z) (data : data_t) : Z * Z * Z :=
  let idx := idx + 1 in
  let valid_val := Z.shiftr valid_val META_BITS_PER_ELEMENT in
  let idx := Z.land idx (capacity_minus_1 data) in
  if Z.land idx (META_ELEMENTS_PER_WORD - 1) =? 0 then
    let valid_ptr := idx / META_ELEMENTS_PER_WORD in
    let valid_val := rd (valid data) valid_ptr in
    (idx, valid_val, valid_ptr)
  else (idx, valid_val, valid_ptr).

Fixpoint get_index_loop (fuel : nat) (key : K) (data : data_t)
    (orig_idx idx valid_val valid_ptr : Z) : option (bool * Z) :=
  match fuel with
  | O => None
  | S fuel =>
    let m := Z.land valid_val elem_mask in
    if m =? 0 then Some (false, NPOS)
    else
      match key_table data !! idx with
      | None => None
      | Some k' =>
        if bool_decide (k' = key) then Some (true, idx)
        else
          let '(idx, valid_val, valid_ptr) := step_idx idx valid_val valid_ptr data in
          if idx =? orig_idx then Some (false, NPOS)
          else get_index_loop fuel key data orig_idx idx valid_val valid_ptr
      end
  end.

Definition get_index_hash (key : K) (data : data_t) (hash : Z) : option (bool * Z) :=
  let idx := Z.land hash (capacity_minus_1 data) in
  let orig_idx := idx in
  let valid_ptr := idx / META_ELEMENTS_PER_WORD in
  let valid_val := Z.shiftr (rd (valid data) valid_ptr) (elem_shift idx) in
  get_index_loop (Z.to_nat (capacity_minus_1 data + 1)) key data
    orig_idx idx valid_val valid_ptr.

Definition get_index (key : K) (data : data_t) : option (bool * Z) :=
  let hash := hash_functor key in
  get_index_hash key data hash.

Fixpoint add_new_loop (fuel : nat) (key : K) (value : V) (data : data_t)
    (orig_idx idx valid_val valid_ptr : Z) : option add_new_walk :=
  match fuel with
  | O => None
  | S fuel =>
    if Z.land valid_val elem_mask =? 0 then
      let valid' :=
        wr (valid data) valid_ptr
           (Z.lor (rd (valid data) valid_ptr) (shl32 1 (elem_shift idx))) in
      Some (Placed {| key_table := <[idx := key]> (key_table data);
                      value_table := <[idx := value]> (value_table data);
                      valid := valid';
                      size := size data + 1;
                      capacity_minus_1 := capacity_minus_1 data |} idx)
    else
      (* assert(data.key_table[idx] != key); *)
      match key_table data !! idx with
      | None => None
      | Some k' =>
        if bool_decide (k' = key) then None else
        if capacity_minus_1 data <? size data * 2 then Some NeedsGrowth
        else
          let '(idx, valid_val, valid_ptr) := step_idx idx valid_val valid_ptr data in
          if idx =? orig_idx then Some NoSpot
          else add_new_loop fuel key value data orig_idx idx valid_val valid_ptr
      end
  end.

Definition add_new_pass (key : K) (value : V) (data : data_t) (hash : Z)
    : option add_new_walk :=
  let idx := Z.land hash (capacity_minus_1 data) in
  let orig_idx := idx in
  let valid_ptr := idx / META_ELEMENTS_PER_WORD in
  let valid_val := Z.shiftr (rd (valid data) valid_ptr) (elem_shift idx) in
  add_new_loop (Z.to_nat (capacity_minus_1 data + 1)) key value data
    orig_idx idx valid_val valid_ptr.

Definition add_new_to (key : K) (value : V) (data : data_t) (hash : Z)
    : option (data_t * Z) :=
  match add_new_pass key value data hash with
  | Some (Placed data' idx) => Some (data', idx)
  | _ => None
  end.

(** The [for (i = 0; i <= capacity_minus_1; i++)] loop of
    [increase_table_size]. *)
Fixpoint rehash_loop (remaining : nat) (i valid_val valid_ptr : Z)
    (data new_data : data_t) : option (data_t * data_t) :=
  match remaining with
  | O => Some (data, new_data)
  | S remaining =>
    match
      (if negb (Z.land valid_val elem_mask =? 0) then
         match key_table data !! i, value_table data !! i with
         | Some k, Some v =>
           let hash := hash_functor k in
           match add_new_to k v new_data hash with
           | None => None
           | Some (new_data, _) =>
             Some ({| key_table := delete i (key_table data);
                      value_table := delete i (value_table data);
                      valid := valid data;
                      size := size data;
                      capacity_minus_1 := capacity_minus_1 data |}, new_data)
           end
         | _, _ => None
         end
       else Some (data, new_data))
    with
    | None => None
    | Some (data, new_data) =>
      let valid_val := Z.shiftr valid_val META_BITS_PER_ELEMENT in
      if Z.land i (META_ELEMENTS_PER_WORD - 1) =? META_ELEMENTS_PER_WORD - 1 then
        let valid_ptr := valid_ptr + 1 in
        let valid_val := rd (valid data) valid_ptr in
        rehash_loop remaining (i + 1) valid_val valid_ptr data new_data
      else rehash_loop remaining (i + 1) valid_val valid_ptr data new_data
    end
  end.

Definition increase_table_size (data : data_t) (new_size : Z) : option data_t :=
  (* assert((new_size & (new_size - 1)) == 0); assert(new_size > 0); *)
  if negb (Z.land new_size (new_size - 1) =? 0) then None else
  if negb (0 <? new_size) then None else
  match new_data new_size with
  | None => None
  | Some nd =>
    match rehash_loop (Z.to_nat (capacity_minus_1 data + 1)) 0
            (rd (valid data) 0) 0 data nd with
    | None => None
    | Some (_, nd) => Some nd
    end
  end.

Fixpoint add_new_restart (fuel : nat) (key : K) (value : V) (data : data_t) (hash : Z)
    : option (data_t * Z) :=
  match fuel with
  | O => None
  | S fuel =>
    match add_new_pass key value data hash with
    | None => None
    | Some (Placed data' idx) => Some (data', idx)
    | Some NoSpot => None
    | Some NeedsGrowth =>
      match increase_table_size data ((capacity_minus_1 data + 1) * 2) with
      | None => None
      | Some data' => add_new_restart fuel key value data' hash
      end
    end
  end.

Definition add_new_hash (key : K) (value : V) (data : data_t) (hash : Z)
    : option (data_t * Z) :=
  add_new_restart 64 key value data hash.

(** The scan of [erase] from the label [next_entry] on; the entry is
    relocated with [memcpy], which leaves the bytes of the source slot
    in place. *)
Fixpoint erase_next_entry (fuel : nat) (idx idx2 : Z) (data : data_t) : option data_t :=
  match fuel with
  | O => None
  | S fuel =>
    let idx2 := Z.land (idx2 + 1) (capacity_minus_1 data) in
    let word2 := idx2 / META_ELEMENTS_PER_WORD in
    if Z.land (rd (valid data) word2) (shl32 elem_mask (elem_shift idx2)) =? 0 then
      Some data
    else
      match key_table data !! idx2 with
      | None => None
      | Some k2 =>
        let key2 := Z.land (hash_functor k2) (capacity_minus_1 data) in
        if keeps_place idx idx2 key2 then erase_next_entry fuel idx idx2 data
        else
          match value_table data !! idx2 with
          | None => None
          | Some v2 =>
            let word := idx / META_ELEMENTS_PER_WORD in
            let valid1 :=
              wr (valid data) word
                 (Z.lor (rd (valid data) word) (shl32 elem_mask (elem_shift idx))) in
            let idx' := idx2 in
            let word' := idx' / META_ELEMENTS_PER_WORD in
            let valid2 :=
              wr valid1 word'
                 (Z.land (rd valid1 word') (not32 (shl32 elem_mask (elem_shift idx')))) in
            erase_next_entry fuel idx' idx2
              {| key_table := <[idx := k2]> (key_table data);
                 value_table := <[idx := v2]> (value_table data);
                 valid := valid2;
                 size := size data;
                 capacity_minus_1 := capacity_minus_1 data |}
          end
      end
  end.

(** [void erase(const K &key)] *)
Definition erase (key : K) (data : data_t) : option data_t :=
  let hash := hash_functor key in
  match get_index_hash key data hash with
  | None => None
  | Some (false, _) => Some data
  | Some (true, orig_idx) =>
    (* assert(data.size); assert(data.key_table[orig_idx] == key); *)
    if size data =? 0 then None else
    match key_table data !! orig_idx with
    | None => None
    | Some k' =>
      if negb (bool_decide (k' = key)) then None else
      let idx := orig_idx in
      let idx2 := orig_idx in
      let word := idx / META_ELEMENTS_PER_WORD in
      let data :=
        {| key_table := delete orig_idx (key_table data);
           value_table := delete orig_idx (value_table data);
           valid := wr (valid data) word
                       (Z.land (rd (valid data) word)
                               (not32 (shl32 elem_mask (elem_shift idx))));
           size := size data;
           capacity_minus_1 := capacity_minus_1 data |} in
      match erase_next_entry (Rehash.do_erase_fuel (capacity_minus_1 data)) idx idx2 data with
      | None => None
      | Some data =>
        Some {| key_table := key_table data;
                value_table := value_table data;
                valid := valid data;
                size := size data - 1;
                capacity_minus_1 := capacity_minus_1 data |}
      end
    end
  end.

Fixpoint scan_words (remaining : nat) (word : Z) (valid : list Z) : Z :=
  match remaining with
  | O => NPOS
  | S remaining =>
    if rd valid word =? 0 then scan_words remaining (word + 1) valid
    else
      let bit := Internal.bsf32_nonzero (rd valid word) in
      word * META_ELEMENTS_PER_WORD + bit / META_BITS_PER_ELEMENT
  end.

Definition get_first (data : data_t) : Z :=
  let num_valid_words :=
    (capacity_minus_1 data + META_ELEMENTS_PER_WORD) / META_ELEMENTS_PER_WORD in
  scan_words (Z.to_nat num_valid_words) 0 (valid data).

Definition get_next (data : data_t) (old_pos : Z) : option Z :=
  (* assert(old_pos != ~size_t(0)); *)
  if old_pos =? NPOS then None else
  let num_valid_words :=
    (capacity_minus_1 data + META_ELEMENTS_PER_WORD) / META_ELEMENTS_PER_WORD in
  let valid_ptr := old_pos / META_ELEMENTS_PER_WORD in
  let next_mask :=
    Z.land (rd (valid data) valid_ptr)
      (shl32 (shl32 (not32 0)
                (Z.land old_pos (META_ELEMENTS_PER_WORD - 1) * META_BITS_PER_ELEMENT)) 1) in
  if negb (next_mask =? 0) then
    let bit := Internal.bsf32_nonzero next_mask in
    Some (Z.land old_pos (not32 (META_ELEMENTS_PER_WORD - 1)) + bit / META_BITS_PER_ELEMENT)
  else
    let word := old_pos / META_ELEMENTS_PER_WORD + 1 in
    Some (scan_words (Z.to_nat (num_valid_words - word)) word (valid data)).

Definition insert (key : K) (value : V) (data : data_t) : option (bool * data_t) :=
  let hash := hash_functor key in
  match get_index_hash key data hash with
  | None => None
  | Some (true, _) => Some (false, data)
  | Some (false, _) =>
    match add_new_hash key value data hash with
    | None => None
    | Some (data', _) => Some (true, data')
    end
  end.

Definition size_ (data : data_t) : Z := size data.

Definition capacity (data : data_t) : Z := capacity_minus_1 data + 1.

Definition iter_deref (data : data_t) (pos : Z) : option (K * V) :=
  match key_table data !! pos, value_table data !! pos with
  | Some k, Some v => Some (k, v)
  | _, _ => None
  end.

Definition index (key : K) (data : data_t) : option (Z * data_t) :=
  let hash := hash_functor key in
  match get_index_hash key data hash with
  | None => None
  | Some (true, idx) => Some (idx, data)
  | Some (false, _) =>
    match add_new_hash key V_default data hash with
    | None => None
    | Some (data', idx) =>
      (* assert(this->data.key_table[idx] == key); *)
      match key_table data' !! idx with
      | Some k' => if bool_decide (k' = key) then Some (idx, data') else None
      | None => None
      end
    end
  end.

Definition count (key : K) (data : data_t) : option Z :=
  match get_index key data with
  | None => None
  | Some (valid, _) => Some (if valid then 1 else 0)
  end.

Definition find (key : K) (data : data_t) : option Z :=
  match get_index key data with
  | None => None
  | Some (_, pos) => Some pos
  end.

Fixpoint clear_loop (remaining : nat) (i valid_val valid_ptr : Z) (data : data_t)
    : data_t :=
  match remaining with
  | O => data
  | S remaining =>
    let data :=
      if negb (Z.land valid_val elem_mask =? 0) then
        {| key_table := delete i (key_table data);
           value_table := delete i (value_table data);
           valid := valid data;
           size := size data;
           capacity_minus_1 := capacity_minus_1 data |}
      else data in
    let valid_val := Z.shiftr valid_val META_BITS_PER_ELEMENT in
    if Z.land i (META_ELEMENTS_PER_WORD - 1) =? META_ELEMENTS_PER_WORD - 1 then
      let valid_ptr := valid_ptr + 1 in
      let valid_val := rd (valid data) valid_ptr in
      clear_loop remaining (i + 1) valid_val valid_ptr data
    else clear_loop remaining (i + 1) valid_val valid_ptr data
  end.

Definition clear (data : data_t) : data_t :=
  let data := clear_loop (Z.to_nat (capacity_minus_1 data + 1)) 0
                (rd (valid data) 0) 0 data in
  let n := Z.to_nat ((capacity data + META_ELEMENTS_PER_WORD - 1)
                       / META_ELEMENTS_PER_WORD) in
  {| key_table := key_table data;
     value_table := value_table data;
     valid := replicate n 0 ++ drop n (valid data);
     size := 0;
     capacity_minus_1 := capacity_minus_1 data |}.

Fixpoint iterate_from (fuel : nat) (data : data_t) (pos : Z) : option (list Z) :=
  match fuel with
  | O => None
  | S fuel =>
    if pos =? NPOS then Some []
    else
      match get_next data pos with
      | None => None
      | Some pos' => cons pos <$> iterate_from fuel data pos'
      end
  end.

Definition iterate (data : data_t) : option (list Z) :=
  iterate_from (Z.to_nat (capacity_minus_1 data + 2)) data (get_first data).

End Table2.
End Table2.

(** ** Vocabulary of the rounding helper *)

(** After the steps [v |= v >> 1; ...; v |= v >> w/2] bit [i] of the word
    [y] is the disjunction of bits [i .. i + w - 1] of the input [x]. *)
Definition smeared (x : Z) (w : Z) (y : Z) : Prop :=
  ∀ i, 0 ≤ i → Z.testbit y i = true ↔ ∃ j, 0 ≤ j < w ∧ Z.testbit x (i + j) = true.

(** [r] is the smallest power of two that is at least [v]. *)
Definition next_power_of_2 (v r : Z) : Prop :=
  (∃ n, 0 ≤ n ∧ r = 2 ^ n) ∧ v ≤ r ∧ ∀ m, 0 ≤ m → v ≤ 2 ^ m → r ≤ 2 ^ m.

(** ** Vocabulary of the bitmap *)

(** The canonical update of the state of one slot: clear the field, then
    or the new state in. *)
Definition set_state (p : erase_policy) (valid : list Z) (idx : Z) (s : Z) : list Z :=
  let word := idx / META_ELEMENTS_PER_WORD p in
  wr valid word
     (Z.lor (Z.land (rd valid word) (not32 (field_mask p idx))) (shl32 s (elem_shift p idx))).

(** The cached meta-data word and word index of a probing loop agree with
    the slot the loop is at. *)
Definition cache_ok {hp : hash_params} (p : erase_policy) (d : data_t)
    (idx valid_val valid_ptr : Z) : Prop :=
  valid_ptr = idx / META_ELEMENTS_PER_WORD p ∧
  valid_val = Z.shiftr (rd (valid d) valid_ptr) (elem_shift p idx).

(** The storage after [add_new] has stored [(k, v)] in slot [i]. *)
Definition place {hp : hash_params} (p : erase_policy) (d : data_t) (i : Z) (k : K) (v : V)
    : data_t :=
  {| key_table := <[i := k]> (key_table d);
     value_table := <[i := v]> (value_table d);
     valid := set_state p (valid d) i VALID;
     size := size d + 1;
     capacity_minus_1 := capacity_minus_1 d |}.

(** Slot reached after [t] steps of the probe sequence that starts at
    [orig]. *)
Definition probe {hp : hash_params} (d : data_t) (orig t : Z) : Z :=
  (orig + t) mod (capacity_minus_1 d + 1).

(** The capacity is a power of two. *)
Definition pow2_capacity {hp : hash_params} (d : data_t) : Prop :=
  ∃ n, 0 ≤ n ∧ capacity_minus_1 d + 1 = 2 ^ n.

(** ** Vocabulary of the properties *)
Section Vocabulary.
Context {hp : hash_params}.
Variable p : erase_policy.

(** State of slot [i] of a storage. *)
Definition state_at (d : data_t) (i : Z) : Z := slot_state p (valid d) i.

(** Home slot of a key: [hash & capacity_minus_1]. *)
Definition home (d : data_t) (k : K) : Z := Z.land (hash_functor k) (capacity_minus_1 d).

(** The [VALID] slots in increasing order. *)
Definition occupied_slots (d : data_t) : list Z :=
  filter (λ i, state_at d i = VALID) (seqZ 0 (capacity_minus_1 d + 1)).

(** Slot [i] is [VALID] and holds the pair [(k, v)]. *)
Definition holds (d : data_t) (i : Z) (k : K) (v : V) : Prop :=
  0 ≤ i < capacity_minus_1 d + 1 ∧ state_at d i = VALID ∧
  key_table d !! i = Some k ∧ value_table d !! i = Some v.

(** The key-value mapping that a storage represents. *)
Definition maps_to (d : data_t) (k : K) (v : V) : Prop := ∃ i, holds d i k v.

(** Invariants of a storage at every boundary of the public interface. *)
Record wf (d : data_t) : Prop := {
  (** the capacity is a power of two *)
  wf_capacity : ∃ n, 0 ≤ n ∧ capacity_minus_1 d + 1 = 2 ^ n;
  (** the bitmap has one word per started group of slots, each of 32 bits *)
  wf_valid_length : Z.of_nat (length (valid d)) = num_valid_words p (capacity_minus_1 d);
  wf_valid_range : ∀ w, w ∈ valid d → 0 ≤ w < 2 ^ 32;
  (** the bit pattern 3 is never stored and the spare bits of the last
      word are zero *)
  wf_states : ∀ i, 0 ≤ i → state_at d i ≠ 3 ∧
                (capacity_minus_1 d + 1 ≤ i → state_at d i = INVALID);
  (** [size] counts the [VALID] slots *)
  wf_size : size d = Z.of_nat (length (occupied_slots d));
  (** a [VALID] slot holds a key and a value *)
  wf_live : ∀ i, 0 ≤ i → state_at d i = VALID →
              is_Some (key_table d !! i) ∧ is_Some (value_table d !! i);
  (** probe-chain integrity: no [INVALID] slot between the home slot of
      a stored key and the slot that stores it *)
  wf_chain : ∀ i k, 0 ≤ i → state_at d i = VALID → key_table d !! i = Some k →
               ∀ j, 0 ≤ j < (i - home d k) mod (capacity_minus_1 d + 1) →
                 state_at d ((home d k + j) mod (capacity_minus_1 d + 1)) ≠ INVALID;
  (** a key is stored once *)
  wf_unique : ∀ i j k, 0 ≤ i → 0 ≤ j →
                state_at d i = VALID → state_at d j = VALID →
                key_table d !! i = Some k → key_table d !! j = Some k → i = j
}.

(** No object is alive outside the [VALID] slots: everything built with
    [internal::construct] in a slot that left the [VALID] state has been
    handed to [internal::destroy]. *)
Definition no_stale (d : data_t) : Prop :=
  ∀ i, is_Some (key_table d !! i) ∨ is_Some (value_table d !! i) →
       0 ≤ i ∧ state_at d i = VALID.

(** [find(key)] followed by [operator*] unless the iterator is [end()]. *)
Definition lookup_ (key : K) (d : data_t) : option (K * V) :=
  match Table.find p key d with
  | Some pos => if pos =? NPOS then None else Table.iter_deref d pos
  | None => None
  end.

(** *** The lookup walk *)

(** How the walk of [get_index] ends when it is at offset [t1]. *)
Definition lookup_stop (d : data_t) (key : K) (orig t1 : Z) (r : bool * Z) : Prop :=
  (t1 = capacity_minus_1 d + 1 ∧ r = (false, NPOS)) ∨
  (t1 < capacity_minus_1 d + 1 ∧ state_at d (probe d orig t1) = INVALID ∧
     r = (false, NPOS)) ∨
  (t1 < capacity_minus_1 d + 1 ∧ state_at d (probe d orig t1) = VALID ∧
     key_table d !! probe d orig t1 = Some key ∧ r = (true, probe d orig t1)).

(** The slots that the walk passes over. *)
Definition lookup_skips (d : data_t) (key : K) (orig t t1 : Z) : Prop :=
  ∀ u, t ≤ u < t1 →
    state_at d (probe d orig u) ≠ INVALID ∧
    ¬ (state_at d (probe d orig u) = VALID ∧ key_table d !! probe d orig u = Some key).

End Vocabulary.


Section Vocabulary2.
Context {hp : hash_params}.
Variable p : erase_policy.

(** The bitmap part of [wf]. *)
Record wf_bitmap (d : data_t) : Prop := {
  wfb_capacity : pow2_capacity d;
  wfb_length : Z.of_nat (length (valid d)) = num_valid_words p (capacity_minus_1 d);
  wfb_range : ∀ w, w ∈ valid d → 0 ≤ w < 2 ^ 32;
  wfb_states : ∀ i, 0 ≤ i → state_at p d i ≠ 3 ∧
                 (capacity_minus_1 d + 1 ≤ i → state_at p d i = INVALID)
}.

(** No [VALID] slot holds [key]. *)
Definition absent (d : data_t) (key : K) : Prop :=
  ∀ i, 0 ≤ i → state_at p d i = VALID → key_table d !! i ≠ Some key.

(** Slot [i] is where the walk of [add_new] for [key] ends: the first
    slot of the probe sequence that is not [VALID]. *)
Definition placeable (d : data_t) (key : K) (i : Z) : Prop :=
  ∃ t1, 0 ≤ t1 < capacity_minus_1 d + 1 ∧ i = probe d (home d key) t1 ∧
        state_at p d i ≠ VALID ∧
        ∀ u, 0 ≤ u < t1 → state_at p d (probe d (home d key) u) = VALID.

(** Two storages represent the same mapping. *)
Definition same_mapping (d d' : data_t) : Prop :=
  ∀ k v, maps_to p d k v ↔ maps_to p d' k v.
End Vocabulary2.

(** ** Vocabulary of the iteration *)

(** The bits of a meta-data word that mark [VALID] slots: every bit for
    the rehash policy, the low bit of every pair for the marker policy. *)
Definition occupancy (p : erase_policy) (w : Z) : Z :=
  match p with
  | erase_policy_rehash => w
  | erase_policy_use_marker => Z.land w UseMarker.mask
  end.

(** The word loop of [get_first] and [get_next], for either policy. *)
Fixpoint scan_words (p : erase_policy) (remaining : nat) (word : Z) (valid : list Z) : Z :=
  match remaining with
  | O => NPOS
  | S remaining =>
    if occupancy p (rd valid word) =? 0 then scan_words p remaining (word + 1) valid
    else
      let bit := Internal.bsf32_nonzero (occupancy p (rd valid word)) in
      word * META_ELEMENTS_PER_WORD p + bit / META_BITS_PER_ELEMENT p
  end.

Section Vocabulary3.
Context {hp : hash_params}.
Variable p : erase_policy.

(** [r] is the first [VALID] slot at or after [i0], or the end sentinel
    when there is none. *)
Definition next_occupied (d : data_t) (i0 r : Z) : Prop :=
  (r = NPOS ∧ ∀ s, i0 ≤ s → state_at p d s ≠ VALID) ∨
  (i0 ≤ r ∧ state_at p d r = VALID ∧ ∀ s, i0 ≤ s < r → state_at p d s ≠ VALID).

(** The [VALID] slots from [i0] on, in increasing order. *)
Definition occupied_from (d : data_t) (i0 : Z) : list Z :=
  filter (λ i, state_at p d i = VALID) (seqZ i0 (capacity_minus_1 d + 1 - i0)).
End Vocabulary3.

(** ** Vocabulary of the growth *)

(** [internal::destroy] on the key and on the value of slot [i]. *)
Definition destroy_slot {hp : hash_params} (d : data_t) (i : Z) : data_t :=
  {| key_table := delete i (key_table d);
     value_table := delete i (value_table d);
     valid := valid d;
     size := size d;
     capacity_minus_1 := capacity_minus_1 d |}.

(** The body of the loop of [increase_table_size] run over a list of
    slots. *)
Fixpoint rehash_all {hp : hash_params} (p : erase_policy) (l : list Z) (d nd : data_t)
    : option (data_t * data_t) :=
  match l with
  | [] => Some (d, nd)
  | i :: l =>
    match key_table d !! i, value_table d !! i with
    | Some k, Some v =>
      match Table.add_new_to p k v nd (hash_functor k) with
      | None => None
      | Some (nd, _) => rehash_all p l (destroy_slot d i) nd
      end
    | _, _ => None
    end
  end.

Section Vocabulary4.
Context {hp : hash_params}.
Variable p : erase_policy.

(** The pass of [add_new] for [key] runs into a collision while the load
    is above the threshold. *)
Definition needs_growth (d : data_t) (key : K) : Prop :=
  state_at p d (home d key) = VALID ∧ capacity_minus_1 d < size d * 2.

(** [d'] represents the mapping of [d] extended with [(key, value)]. *)
Definition extends (d d' : data_t) (key : K) (value : V) : Prop :=
  ∀ k v, maps_to p d' k v ↔ maps_to p d k v ∨ (k = key ∧ v = value).
End Vocabulary4.

(** ** Vocabulary of the erasure *)

Definition with_tables {hp : hash_params} (d : data_t) (valid' : list Z)
    (key_table' : gmap Z K) (value_table' : gmap Z V) : data_t :=
  {| key_table := key_table';
     value_table := value_table';
     valid := valid';
     size := size d;
     capacity_minus_1 := capacity_minus_1 d |}.

Definition with_size {hp : hash_params} (d : data_t) (n : Z) : data_t :=
  {| key_table := key_table d;
     value_table := value_table d;
     valid := valid d;
     size := n;
     capacity_minus_1 := capacity_minus_1 d |}.

Definition sumZ (f : Z → Z) (l : list Z) : Z := foldr (λ x acc, f x + acc) 0 l.

Section Vocabulary5.
Context {hp : hash_params}.
Variable p : erase_policy.

(** [d'] represents the mapping of [d] without [key]. *)
Definition removes (d d' : data_t) (key : K) : Prop :=
  ∀ k v, maps_to p d' k v ↔ maps_to p d k v ∧ k ≠ key.

(** All of [wf] but the [size] field. *)
Definition wf_core (d : data_t) : Prop :=
  wf p (with_size d (Z.of_nat (length (occupied_slots p d)))).

(** Probe-chain integrity stated on slots: every slot [q] that precedes
    the slot [s] of a stored key on the probe sequence of the key is not
    [INVALID], unless it is the slot [hole]. *)
Definition chain_but (d : data_t) (hole : option Z) : Prop :=
  ∀ s k q, 0 ≤ s → state_at p d s = VALID → key_table d !! s = Some k →
    0 ≤ q < capacity_minus_1 d + 1 →
    (q - home d k) mod (capacity_minus_1 d + 1) < (s - home d k) mod (capacity_minus_1 d + 1) →
    hole ≠ Some q → state_at p d q ≠ INVALID.

(** The storage after [erase] has destroyed the objects of slot [idx]
    and [do_erase] has marked the slot invalid. *)
Definition punch (d : data_t) (idx : Z) : data_t :=
  {| key_table := delete idx (key_table d);
     value_table := delete idx (value_table d);
     valid := set_state p (valid d) idx INVALID;
     size := size d;
     capacity_minus_1 := capacity_minus_1 d |}.

(** The storage after [do_erase] has moved the entry of slot [j] into
    the hole [i] and marked [j] invalid. *)
Definition shift_back (d : data_t) (i j : Z) (k : K) (v : V) : data_t :=
  {| key_table := delete j (<[i := k]> (key_table d));
     value_table := delete j (<[i := v]> (value_table d));
     valid := set_state p (set_state p (valid d) i VALID) j INVALID;
     size := size d;
     capacity_minus_1 := capacity_minus_1 d |}.

(** Invariant of the scan of [do_erase] with the hole at [i] and the
    cursor at [j], started on the punched storage [h0]. *)
Record erase_inv (tidy : Prop) (h0 d : data_t) (i j : Z) : Prop := {
  ei_bitmap : wf_bitmap p d;
  ei_cap : capacity_minus_1 d = capacity_minus_1 h0;
  ei_i : 0 ≤ i < capacity_minus_1 d + 1;
  ei_j : 0 ≤ j < capacity_minus_1 d + 1;
  ei_hole : state_at p d i = INVALID;
  ei_scanned : ∀ s, 0 ≤ s < capacity_minus_1 d + 1 →
    0 < (s - i) mod (capacity_minus_1 d + 1) ≤ (j - i) mod (capacity_minus_1 d + 1) →
    state_at p d s = VALID ∧
    ∀ k, key_table d !! s = Some k →
      0 < (home d k - i) mod (capacity_minus_1 d + 1) ≤ (s - i) mod (capacity_minus_1 d + 1);
  ei_live : ∀ s, 0 ≤ s → state_at p d s = VALID →
    is_Some (key_table d !! s) ∧ is_Some (value_table d !! s);
  ei_chain : chain_but d (Some i);
  ei_unique : ∀ s s' k, 0 ≤ s → 0 ≤ s' →
    state_at p d s = VALID → state_at p d s' = VALID →
    key_table d !! s = Some k → key_table d !! s' = Some k → s = s';
  ei_map : same_mapping p h0 d;
  ei_count : length (occupied_slots p d) = length (occupied_slots p h0);
  ei_stale : tidy → no_stale p d
}.

(** Distance of the entry of slot [s] from its home slot. *)
Definition displacement (d : data_t) (s : Z) : Z :=
  if decide (state_at p d s = VALID) then
    match key_table d !! s with
    | Some k => (s - home d k) mod (capacity_minus_1 d + 1)
    | None => 0
    end
  else 0.

Definition total_displacement (d : data_t) : Z :=
  sumZ (displacement d) (seqZ 0 (capacity_minus_1 d + 1)).

(** Variant of the scan of [do_erase]. *)
Definition erase_measure (d : data_t) (i j : Z) : Z :=
  (capacity_minus_1 d + 1) * total_displacement d +
  (capacity_minus_1 d - (j - i) mod (capacity_minus_1 d + 1)).
End Vocabulary5.

#[global] Instance needs_growth_dec {hp : hash_params} (p : erase_policy) (d : data_t) (key : K) :
  Decision (needs_growth p d key).
Proof. unfold needs_growth. apply _. Defined.

(** [h] lies in the interval (i, j] of the ring of [c] slots. *)
Definition in_ring_interval (c i j h : Z) : Prop :=
  0 < (h - i) mod c ≤ (j - i) mod c.

#[global] Instance in_ring_interval_dec (c i j h : Z) : Decision (in_ring_interval c i j h).
Proof. unfold in_ring_interval. apply _. Defined.

(** ** Vocabulary of the comparison of the two tables *)

(** Two storages with the same bitmap hold the same objects in the
    [VALID] slots; [memcpy] leaves bytes behind in the slots that it
    vacates. *)
Record agree {hp : hash_params} (d1 d2 : data_t) : Prop := {
  agree_valid : valid d2 = valid d1;
  agree_size : size d2 = size d1;
  agree_capacity : capacity_minus_1 d2 = capacity_minus_1 d1;
  agree_keys : ∀ i, 0 ≤ i → state_at erase_policy_rehash d1 i = VALID →
                 key_table d2 !! i = key_table d1 !! i;
  agree_values : ∀ i, 0 ≤ i → state_at erase_policy_rehash d1 i = VALID →
                   value_table d2 !! i = value_table d1 !! i
}.

(** *** Client programs *)

(** One call of the public interface. [Index] reads through the
    reference that [operator[]] returns, [Assign] writes through it. *)
Inductive op {hp : hash_params} :=
  | Insert (k : K) (v : V)
  | Erase (k : K)
  | Index (k : K)
  | Assign (k : K) (v : V)
  | Find (k : K)
  | Count (k : K)
  | Size
  | Capacity
  | Clear
  | Iterate.

(** What the caller sees of a call: [find] through the pair that the
    iterator designates, the iteration through the pairs in the order of
    the visit. *)
Inductive obs {hp : hash_params} :=
  | OUnit
  | OBool (b : bool)
  | ONum (n : Z)
  | OValue (v : V)
  | OEntry (e : option (K * V))
  | OList (l : list (K * V)).

Definition table_step {hp : hash_params} (p : erase_policy) (o : op) (d : data_t)
    : option (obs * data_t) :=
  match o with
  | Insert k v => '(b, d') ← Table.insert p k v d; Some (OBool b, d')
  | Erase k => d' ← Table.erase p k d; Some (OUnit, d')
  | Index k => '(i, d') ← Table.index p k d; v ← value_table d' !! i; Some (OValue v, d')
  | Assign k v => '(i, d') ← Table.index p k d; Some (OUnit, Table.assign i v d')
  | Find k =>
      pos ← Table.find p k d;
      if pos =? Table.end_ then Some (OEntry None, d)
      else e ← Table.iter_deref d pos; Some (OEntry (Some e), d)
  | Count k => n ← Table.count p k d; Some (ONum n, d)
  | Size => Some (ONum (Table.size_ d), d)
  | Capacity => Some (ONum (Table.capacity d), d)
  | Clear => Some (OUnit, Table.clear p d)
  | Iterate => l ← Table.iterate p d; es ← mapM (Table.iter_deref d) l; Some (OList es, d)
  end.

Fixpoint table_run {hp : hash_params} (p : erase_policy) (ops : list op) (d : data_t)
    : option (list obs * data_t) :=
  match ops with
  | [] => Some ([], d)
  | o :: ops =>
    '(ob, d) ← table_step p o d;
    '(obs, d) ← table_run p ops d;
    Some (ob :: obs, d)
  end.

Definition table2_step {hp : hash_params} (o : op) (d : data_t) : option (obs * data_t) :=
  match o with
  | Insert k v => '(b, d') ← Table2.insert k v d; Some (OBool b, d')
  | Erase k => d' ← Table2.erase k d; Some (OUnit, d')
  | Index k => '(i, d') ← Table2.index k d; v ← value_table d' !! i; Some (OValue v, d')
  | Assign k v => '(i, d') ← Table2.index k d; Some (OUnit, Table.assign i v d')
  | Find k =>
      pos ← Table2.find k d;
      if pos =? NPOS then Some (OEntry None, d)
      else e ← Table2.iter_deref d pos; Some (OEntry (Some e), d)
  | Count k => n ← Table2.count k d; Some (ONum n, d)
  | Size => Some (ONum (Table2.size_ d), d)
  | Capacity => Some (ONum (Table2.capacity d), d)
  | Clear => Some (OUnit, Table2.clear d)
  | Iterate => l ← Table2.iterate d; es ← mapM (Table2.iter_deref d) l; Some (OList es, d)
  end.

Fixpoint table2_run {hp : hash_params} (ops : list op) (d : data_t)
    : option (list obs * data_t) :=
  match ops with
  | [] => Some ([], d)
  | o :: ops =>
    '(ob, d) ← table2_step o d;
    '(obs, d) ← table2_run ops d;
    Some (ob :: obs, d)
  end.

(** ** Scenarios *)

(** Integer keys and values under the identity hash. *)
Definition identity_params : hash_params :=
  {| K := Z; V := Z; hash_functor := λ k, k; V_default := 0 |}.

(** The storage that a run of calls leaves, or the storage it started
    from when the run fails. *)
Definition after {hp : hash_params} (p : erase_policy) (ops : list op) (d : data_t) : data_t :=
  match table_run p ops d with
  | Some (_, d') => d'
  | None => d
  end.

(** The storage of a table just built for the capacity [default_size]. *)
Definition fresh {hp : hash_params} (p : erase_policy) (default_size : Z) : data_t :=
  match Table.create p default_size with
  | Some d => d
  | None => {| key_table := ∅; value_table := ∅; valid := []; size := 0;
               capacity_minus_1 := 0 |}
  end.

(** Four entries in one cluster: the keys 0, 8 and 1 follow each other
    from slot 0 of a storage of eight slots, the key 4 is alone in its
    home slot. *)
Definition cluster_ops : list (@op identity_params) :=
  map (λ kv : Z * Z, @Insert identity_params kv.1 kv.2) [(0, 10); (4, 11); (8, 12); (1, 13)].

Definition cluster_table (p : erase_policy) : @data_t identity_params :=
  after p cluster_ops (fresh p 4).

(** Seventeen keys that meet no collision in a storage of 32 slots. *)
Definition seventeen_ops : list (@op identity_params) :=
  map (λ k : Z, @Insert identity_params k 0) (seqZ 0 17).

(** The storage of the standalone table after its [erase] has copied
    the entry of slot [j] into the hole [i] with [memcpy] and marked [j]
    invalid: the bytes of slot [j] stay where they are. *)
Definition copy_back {hp : hash_params} (d : data_t) (i j : Z) (k : K) (v : V) : data_t :=
  {| key_table := <[i := k]> (key_table d);
     value_table := <[i := v]> (value_table d);
     valid := set_state erase_policy_rehash (set_state erase_policy_rehash (valid d) i VALID)
                j INVALID;
     size := size d;
     capacity_minus_1 := capacity_minus_1 d |}.

(** The calls that store the keys [a], ..., [a + len - 1], each with the
    value 0. *)
Definition fill_ops (a len : Z) : list (@op identity_params) :=
  map (λ k : Z, @Insert identity_params k 0) (seqZ a len).

(** A storage of 2^33 slots in which the slots 2^32, ..., [a - 1], and no
    other, are [VALID], each with its own index as the key: what the
    insertion of the keys 2^32, ..., [a - 1] leaves in a table built for
    2^33 slots. *)
Definition filled_to (p : erase_policy) (d : @data_t identity_params) (a : Z) : Prop :=
  wf p d ∧ no_stale p d ∧ capacity_minus_1 d = 8589934591 ∧ size d = a - 4294967296 ∧
  ∀ s, 0 ≤ s →
    (state_at p d s = VALID ↔ 4294967296 ≤ s < a) ∧
    (state_at p d s = VALID → key_table d !! s = Some s ∧ value_table d !! s = Some 0).

(** ** The destructor *)

(** [~closed_linear_probing_hash_table()]: the loop over the slots hands
    the key and the value of every [VALID] slot to [internal::destroy],
    after which the memory is released. The result is the storage as the
    loop leaves it; its arrays hold the objects that are still alive when
    the memory goes away. *)
Definition destructor {hp : hash_params} (p : erase_policy) (data : data_t) : data_t :=
  Table.clear_loop p (Z.to_nat (capacity_minus_1 data + 1)) 0 (rd (valid data) 0) 0 data.

(** ** Lookup in the standalone table *)

(** [find(key)] followed by [operator*] unless the iterator is [end()],
    on the standalone table. *)
Definition lookup2_ {hp : hash_params} (key : K) (d : data_t) : option (K * V) :=
  match Table2.find key d with
  | Some pos => if pos =? NPOS then None else Table2.iter_deref d pos
  | None => None
  end.

(** * Properties of the embedding *)

(** * Properties *)

(** ** Bit-level facts *)

Lemma testbit_false_above (x n i : Z) : 0 ≤ x < 2 ^ n → 0 ≤ n → n ≤ i → Z.testbit x i = false.
Proof.
  intros Hx Hn Hi. rewrite <- (Z.mod_small x (2 ^ n)) by lia.
  apply Z.mod_pow2_bits_high. lia.
Qed.

Lemma range_of_bits (x n : Z) :
  0 ≤ n → 0 ≤ x → (∀ i, n ≤ i → Z.testbit x i = false) → 0 ≤ x < 2 ^ n.
Proof.
  intros Hn Hx Hbits. split; [done|].
  destruct (Z.eq_dec x 0) as [->|Hne]; [apply Z.pow_pos_nonneg; lia|].
  apply Z.log2_lt_pow2; [lia|].
  destruct (Z_lt_le_dec (Z.log2 x) n) as [|Hle]; [done|].
  specialize (Hbits _ Hle). rewrite Z.bit_log2 in Hbits by lia. done.
Qed.

(** [smear] keeps a word in range. *)
Lemma smear_range (s x n : Z) : 0 ≤ s → 0 ≤ n → 0 ≤ x < 2 ^ n → 0 ≤ smear s x < 2 ^ n.
Proof.
  intros Hs Hn Hx. unfold smear.
  assert (0 ≤ Z.lor x (Z.shiftr x s)).
  { apply Z.lor_nonneg. split; [lia|]. apply Z.shiftr_nonneg. lia. }
  apply range_of_bits; [lia..|].
  intros i Hi. rewrite Z.lor_spec, Z.shiftr_spec by lia.
  rewrite !(testbit_false_above x n) by lia. done.
Qed.

Lemma smeared_init (x : Z) : smeared x 1 x.
Proof.
  intros i Hi. split.
  - intros H. exists 0. split; [lia|]. by rewrite Z.add_0_r.
  - intros (j & Hj & H). by replace (i + j) with i in H by lia.
Qed.

Lemma smeared_step (x w y : Z) : 0 < w → smeared x w y → smeared x (2 * w) (smear w y).
Proof.
  intros Hw Hy i Hi. unfold smear.
  rewrite Z.lor_spec, Z.shiftr_spec, orb_true_iff by lia.
  rewrite (Hy i) by lia. rewrite (Hy (i + w)) by lia. split.
  - intros [(j & Hj & H)|(j & Hj & H)].
    + exists j. split; [lia|done].
    + exists (w + j). split; [lia|]. by rewrite <- H; f_equal; lia.
  - intros (j & Hj & H). destruct (Z_lt_le_dec j w).
    + left. exists j. split; [lia|done].
    + right. exists (j - w). split; [lia|]. by rewrite <- H; f_equal; lia.
Qed.

(** A word smeared over at least its own width is the block of ones up to
    its highest set bit. *)
Lemma smeared_ones (x w y : Z) :
  0 < x < 2 ^ w → 0 ≤ y → smeared x w y → y = 2 ^ (Z.log2 x + 1) - 1.
Proof.
  intros Hx Hy0 Hy.
  assert (0 ≤ w) as Hw0.
  { destruct (Z_lt_le_dec w 0); [|done]. rewrite Z.pow_neg_r in Hx; lia. }
  assert (Z.log2 x < w) as Hlog by (apply Z.log2_lt_pow2; lia).
  pose proof (Z.log2_nonneg x) as Hlog0.
  replace (2 ^ (Z.log2 x + 1) - 1) with (Z.ones (Z.log2 x + 1))
    by (rewrite Z.ones_equiv; lia).
  apply Z.bits_inj'. intros i Hi.
  destruct (Z_lt_le_dec i (Z.log2 x + 1)) as [Hlt|Hge].
  - rewrite Z.ones_spec_low by lia. apply Hy; [done|].
    exists (Z.log2 x - i). split; [lia|].
    replace (i + (Z.log2 x - i)) with (Z.log2 x) by lia. apply Z.bit_log2. lia.
  - rewrite Z.ones_spec_high by lia.
    destruct (Z.testbit y i) eqn:E; [|done].
    apply Hy in E as (j & Hj & E); [|done].
    rewrite Z.bits_above_log2 in E by lia. done.
Qed.

Lemma smeared_zero (w y : Z) : 0 ≤ y → smeared 0 w y → y = 0.
Proof.
  intros Hy0 Hy. apply Z.bits_inj'. intros i Hi. rewrite Z.bits_0.
  destruct (Z.testbit y i) eqn:E; [|done].
  apply Hy in E as (j & _ & E); [|done]. by rewrite Z.bits_0 in E.
Qed.

Lemma next_power_of_2_intro (x : Z) :
  0 < x → next_power_of_2 (x + 1) (2 ^ (Z.log2 x + 1)).
Proof.
  intros Hx. pose proof (Z.log2_nonneg x). pose proof (Z.log2_spec x Hx) as [Hlo Hhi].
  rewrite <- Z.add_1_r in Hhi.
  split; [exists (Z.log2 x + 1); split; [lia|done]|]. split; [lia|].
  intros m Hm Hle.
  apply Z.pow_le_mono_r; [lia|].
  destruct (Z_lt_le_dec m (Z.log2 x + 1)) as [Hlt|]; [|lia].
  assert (2 ^ m ≤ 2 ^ Z.log2 x) by (apply Z.pow_le_mono_r; lia). lia.
Qed.

Lemma next_power_of_2_one : next_power_of_2 1 1.
Proof.
  split; [exists 0; split; [lia|done]|]. split; [lia|].
  intros m Hm _. assert (0 < 2 ^ m) by (apply Z.pow_pos_nonneg; lia). lia.
Qed.

Lemma next_power_of_2_unique (v r r' : Z) :
  next_power_of_2 v r → next_power_of_2 v r' → r = r'.
Proof.
  intros ((n & Hn & ->) & Hle & Hmin) ((n' & Hn' & ->) & Hle' & Hmin').
  apply Z.le_antisymm; auto.
Qed.

(** The computation shared by the rounding helpers, for a word of
    [2^k] bits given by the list of its shift amounts. *)
Lemma smear_chain_32 (x : Z) :
  0 ≤ x < 2 ^ 32 →
  let y := smear 16 (smear 8 (smear 4 (smear 2 (smear 1 x)))) in
  0 ≤ y < 2 ^ 32 ∧ smeared x 32 y.
Proof.
  intros Hx y. split.
  - subst y. repeat (apply smear_range; [lia|lia|]). done.
  - subst y.
    apply (smeared_step x 16); [lia|]. apply (smeared_step x 8); [lia|].
    apply (smeared_step x 4); [lia|]. apply (smeared_step x 2); [lia|].
    apply (smeared_step x 1); [lia|]. apply smeared_init.
Qed.

Lemma smear_chain_64 (x : Z) :
  0 ≤ x < 2 ^ 64 →
  let y := smear 32 (smear 16 (smear 8 (smear 4 (smear 2 (smear 1 x))))) in
  0 ≤ y < 2 ^ 64 ∧ smeared x 64 y.
Proof.
  intros Hx y. split.
  - subst y. repeat (apply smear_range; [lia|lia|]). done.
  - subst y.
    apply (smeared_step x 32); [lia|].
    apply (smeared_step x 16); [lia|]. apply (smeared_step x 8); [lia|].
    apply (smeared_step x 4); [lia|]. apply (smeared_step x 2); [lia|].
    apply (smeared_step x 1); [lia|]. apply smeared_init.
Qed.

Lemma land_top_bit (v n : Z) : 0 ≤ n → 0 ≤ v < 2 ^ n → Z.land v (2 ^ n) = 0.
Proof.
  intros Hn Hv. apply Z.bits_inj'. intros i Hi.
  rewrite Z.land_spec, Z.bits_0.
  destruct (Z.eq_dec i n) as [->|Hne].
  - rewrite (testbit_false_above v n) by lia. done.
  - rewrite Z.pow2_bits_false by lia. apply andb_false_r.
Qed.

Lemma round_up_u32_spec (v : Z) :
  0 < v ≤ 2 ^ 31 →
  ∃ r, Internal.round_up_to_next_power_of_2_u32 v = Some r ∧ next_power_of_2 v r.
Proof.
  intros Hv. unfold Internal.round_up_to_next_power_of_2_u32.
  assert ((Z.land v 0x80000000 =? 0) || (v =? 0x80000000) = true) as ->.
  { destruct (Z.eq_dec v (2 ^ 31)) as [->|]; [done|].
    change 0x80000000 with (2 ^ 31).
    rewrite land_top_bit by lia. done. }
  cbn [negb]. unfold wrap32.
  rewrite (Z.mod_small (v - 1)) by lia.
  destruct (smear_chain_32 (v - 1)) as [Hr Hs]; [lia|]. cbv zeta in Hr, Hs.
  set (y := smear 16 _) in *.
  destruct (Z.eq_dec v 1) as [->|Hv1].
  - assert (y = 0) as -> by (apply (smeared_zero 32); [lia|done]).
    cbn. eexists. split; [done|]. apply next_power_of_2_one.
  - assert (y = 2 ^ (Z.log2 (v - 1) + 1) - 1) as ->.
    { apply (smeared_ones (v - 1) 32); [lia|lia|done]. }
    replace (2 ^ (Z.log2 (v - 1) + 1) - 1 + 1) with (2 ^ (Z.log2 (v - 1) + 1)) by lia.
    assert (Z.log2 (v - 1) < 31) by (apply Z.log2_lt_pow2; lia).
    pose proof (Z.log2_nonneg (v - 1)).
    assert (0 < 2 ^ (Z.log2 (v - 1) + 1) ≤ 2 ^ 31).
    { split; [apply Z.pow_pos_nonneg; lia|apply Z.pow_le_mono_r; lia]. }
    rewrite Z.mod_small by lia.
    destruct (v =? 0) eqn:E0; [lia|].
    destruct (2 ^ (Z.log2 (v - 1) + 1) =? 0) eqn:E1; [lia|]. cbn.
    eexists. split; [done|].
    replace v with (v - 1 + 1) at 1 by lia. apply next_power_of_2_intro. lia.
Qed.

Lemma round_up_u64_spec (v : Z) :
  0 < v ≤ 2 ^ 63 →
  ∃ r, Internal.round_up_to_next_power_of_2_u64 v = Some r ∧ next_power_of_2 v r.
Proof.
  intros Hv. unfold Internal.round_up_to_next_power_of_2_u64.
  assert ((Z.land v 0x8000000000000000 =? 0) || (v =? 0x8000000000000000) = true) as ->.
  { destruct (Z.eq_dec v (2 ^ 63)) as [->|]; [done|].
    change 0x8000000000000000 with (2 ^ 63).
    rewrite land_top_bit by lia. done. }
  cbn [negb]. unfold wrap64.
  rewrite (Z.mod_small (v - 1)) by lia.
  destruct (smear_chain_64 (v - 1)) as [Hr Hs]; [lia|]. cbv zeta in Hr, Hs.
  set (y := smear 32 _) in *.
  destruct (Z.eq_dec v 1) as [->|Hv1].
  - assert (y = 0) as -> by (apply (smeared_zero 64); [lia|done]).
    cbn. eexists. split; [done|]. apply next_power_of_2_one.
  - assert (y = 2 ^ (Z.log2 (v - 1) + 1) - 1) as ->.
    { apply (smeared_ones (v - 1) 64); [lia|lia|done]. }
    replace (2 ^ (Z.log2 (v - 1) + 1) - 1 + 1) with (2 ^ (Z.log2 (v - 1) + 1)) by lia.
    assert (Z.log2 (v - 1) < 63) by (apply Z.log2_lt_pow2; lia).
    pose proof (Z.log2_nonneg (v - 1)).
    assert (0 < 2 ^ (Z.log2 (v - 1) + 1) ≤ 2 ^ 63).
    { split; [apply Z.pow_pos_nonneg; lia|apply Z.pow_le_mono_r; lia]. }
    rewrite Z.mod_small by lia.
    destruct (v =? 0) eqn:E0; [lia|].
    destruct (2 ^ (Z.log2 (v - 1) + 1) =? 0) eqn:E1; [lia|]. cbn.
    eexists. split; [done|].
    replace v with (v - 1 + 1) at 1 by lia. apply next_power_of_2_intro. lia.
Qed.

(** ** The meta-data fields *)

Lemma testbit_shl32 (x s i : Z) :
  0 ≤ s → 0 ≤ i → Z.testbit (shl32 x s) i = (i <? 32) && Z.testbit x (i - s).
Proof.
  intros Hs Hi. unfold shl32, wrap32. destruct (i <? 32) eqn:E.
  - apply Z.ltb_lt in E. rewrite Z.mod_pow2_bits_low by lia.
    by rewrite Z.shiftl_spec by lia.
  - apply Z.ltb_ge in E. by rewrite Z.mod_pow2_bits_high by lia.
Qed.

Lemma testbit_not32 (x i : Z) :
  0 ≤ i → Z.testbit (not32 x) i = (i <? 32) && negb (Z.testbit x i).
Proof.
  intros Hi. unfold not32, wrap32. destruct (i <? 32) eqn:E.
  - apply Z.ltb_lt in E. rewrite Z.mod_pow2_bits_low by lia.
    by rewrite Z.lnot_spec by lia.
  - apply Z.ltb_ge in E. by rewrite Z.mod_pow2_bits_high by lia.
Qed.

Lemma shl32_range (x s : Z) : 0 ≤ shl32 x s < 2 ^ 32.
Proof. unfold shl32, wrap32. apply Z.mod_pos_bound. lia. Qed.

Lemma not32_range (x : Z) : 0 ≤ not32 x < 2 ^ 32.
Proof. unfold not32, wrap32. apply Z.mod_pos_bound. lia. Qed.

Lemma bits_per_element_cases (p : erase_policy) :
  (META_BITS_PER_ELEMENT p = 1 ∧ META_ELEMENTS_PER_WORD p = 32 ∧ elem_mask p = 1) ∨
  (META_BITS_PER_ELEMENT p = 2 ∧ META_ELEMENTS_PER_WORD p = 16 ∧ elem_mask p = 3).
Proof. destruct p; [left|right]; done. Qed.

Lemma elements_per_word_pos (p : erase_policy) : 0 < META_ELEMENTS_PER_WORD p.
Proof. by destruct p. Qed.

Lemma bits_per_element_pos (p : erase_policy) : 0 < META_BITS_PER_ELEMENT p.
Proof. by destruct p. Qed.

Lemma elem_mask_ones (p : erase_policy) : elem_mask p = Z.ones (META_BITS_PER_ELEMENT p).
Proof. by destruct p. Qed.

Lemma elements_per_word_pow2 (p : erase_policy) :
  META_ELEMENTS_PER_WORD p = 2 ^ (5 - (META_BITS_PER_ELEMENT p - 1)).
Proof. by destruct p. Qed.

Lemma land_elements_mask (p : erase_policy) (idx : Z) :
  Z.land idx (META_ELEMENTS_PER_WORD p - 1) = idx mod META_ELEMENTS_PER_WORD p.
Proof.
  destruct p.
  - change (META_ELEMENTS_PER_WORD _ - 1) with (Z.ones 5).
    by rewrite Z.land_ones by lia.
  - change (META_ELEMENTS_PER_WORD _ - 1) with (Z.ones 4).
    by rewrite Z.land_ones by lia.
Qed.

Lemma elem_shift_eq (p : erase_policy) (idx : Z) :
  elem_shift p idx = META_BITS_PER_ELEMENT p * (idx mod META_ELEMENTS_PER_WORD p).
Proof. unfold elem_shift. by rewrite land_elements_mask. Qed.

Lemma elem_shift_range (p : erase_policy) (idx : Z) :
  0 ≤ elem_shift p idx ∧ elem_shift p idx + META_BITS_PER_ELEMENT p ≤ 32.
Proof.
  rewrite elem_shift_eq.
  destruct (bits_per_element_cases p) as [(-> & -> & _)|(-> & -> & _)];
    pose proof (Z.mod_pos_bound idx 32); pose proof (Z.mod_pos_bound idx 16); lia.
Qed.

(** Reading the field at bit offset [sh'] of a word. *)
Lemma field_bits (w sh b i : Z) :
  0 ≤ sh → 0 ≤ b → 0 ≤ i →
  Z.testbit (Z.land (Z.shiftr w sh) (Z.ones b)) i = (i <? b) && Z.testbit w (i + sh).
Proof.
  intros Hsh Hb Hi. rewrite Z.land_spec, Z.shiftr_spec by lia.
  rewrite Z.testbit_ones_nonneg by lia. apply andb_comm.
Qed.

(** The word written by the canonical update. *)
Lemma set_word_bits (w b sh s i : Z) :
  0 ≤ sh → 0 ≤ b → 0 ≤ i → 0 ≤ w < 2 ^ 32 →
  Z.testbit (Z.lor (Z.land w (not32 (shl32 (Z.ones b) sh))) (shl32 s sh)) i =
  if (sh <=? i) && (i <? sh + b) then (i <? 32) && Z.testbit s (i - sh)
  else Z.testbit w i || ((i <? 32) && Z.testbit s (i - sh)).
Proof.
  intros Hsh Hb Hi Hw.
  rewrite Z.lor_spec, Z.land_spec, testbit_not32, !testbit_shl32 by lia.
  destruct (i <? 32) eqn:E32; cbn [andb].
  - destruct (Z.leb_spec sh i), (Z.ltb_spec i (sh + b)); cbn [andb negb].
    + rewrite Z.testbit_ones_nonneg by lia.
      replace (i - sh <? b) with true by (symmetry; apply Z.ltb_lt; lia).
      by rewrite andb_false_r.
    + rewrite Z.testbit_ones_nonneg by lia.
      replace (i - sh <? b) with false by (symmetry; apply Z.ltb_ge; lia).
      by rewrite andb_true_r.
    + rewrite (Z.testbit_neg_r _ (i - sh)) by lia. by rewrite andb_true_r.
    + rewrite (Z.testbit_neg_r _ (i - sh)) by lia. by rewrite andb_true_r.
  - apply Z.ltb_ge in E32. rewrite (testbit_false_above w 32) by lia.
    by destruct ((sh <=? i) && (i <? sh + b)).
Qed.

Lemma set_word_range (w m x : Z) :
  0 ≤ w < 2 ^ 32 → 0 ≤ x < 2 ^ 32 → 0 ≤ Z.lor (Z.land w m) x < 2 ^ 32.
Proof.
  intros Hw Hx.
  assert (0 ≤ Z.land w m) by (apply Z.land_nonneg; lia).
  assert (0 ≤ Z.lor (Z.land w m) x) by (apply Z.lor_nonneg; lia).
  apply range_of_bits; [lia..|]. intros i Hi.
  rewrite Z.lor_spec, Z.land_spec, (testbit_false_above w 32), (testbit_false_above x 32) by lia.
  done.
Qed.

Lemma set_word_same (w b sh s : Z) :
  0 ≤ sh → 0 ≤ b → sh + b ≤ 32 → 0 ≤ w < 2 ^ 32 → 0 ≤ s < 2 ^ b →
  Z.land (Z.shiftr (Z.lor (Z.land w (not32 (shl32 (Z.ones b) sh))) (shl32 s sh)) sh) (Z.ones b) = s.
Proof.
  intros Hsh Hb Hfit Hw Hs. apply Z.bits_inj'. intros i Hi.
  rewrite field_bits, set_word_bits by lia.
  destruct (Z.ltb_spec i b); cbn [andb].
  - replace ((sh <=? i + sh) && (i + sh <? sh + b)) with true
      by (symmetry; apply andb_true_iff; split; [apply Z.leb_le|apply Z.ltb_lt]; lia).
    replace (i + sh <? 32) with true by (symmetry; apply Z.ltb_lt; lia).
    cbn [andb]. f_equal. lia.
  - symmetry. apply (testbit_false_above s b); lia.
Qed.

Lemma set_word_other (w b sh s sh' : Z) :
  0 ≤ sh → 0 ≤ sh' → 0 ≤ b → 0 ≤ w < 2 ^ 32 → 0 ≤ s < 2 ^ b →
  sh' + b ≤ sh ∨ sh + b ≤ sh' →
  Z.land (Z.shiftr (Z.lor (Z.land w (not32 (shl32 (Z.ones b) sh))) (shl32 s sh)) sh') (Z.ones b) =
  Z.land (Z.shiftr w sh') (Z.ones b).
Proof.
  intros Hsh Hsh' Hb Hw Hs Hdisj. apply Z.bits_inj'. intros i Hi.
  rewrite !field_bits, set_word_bits by lia.
  destruct (Z.ltb_spec i b); cbn [andb]; [|done].
  replace ((sh <=? i + sh') && (i + sh' <? sh + b)) with false
    by (symmetry; apply andb_false_iff;
        destruct Hdisj; [left; apply Z.leb_gt|right; apply Z.ltb_ge]; lia).
  destruct (Z_lt_le_dec (i + sh') sh).
  - rewrite (Z.testbit_neg_r s) by lia. by rewrite andb_false_r, orb_false_r.
  - rewrite (testbit_false_above s b) by lia. by rewrite andb_false_r, orb_false_r.
Qed.

(** Reads and writes of the word array. *)
Lemma rd_wr_same (valid : list Z) (w x : Z) :
  0 ≤ w < Z.of_nat (length valid) → rd (wr valid w x) w = x.
Proof.
  intros Hw. unfold rd, wr. rewrite list_lookup_insert_eq by lia. done.
Qed.

Lemma rd_wr_other (valid : list Z) (w w' x : Z) :
  0 ≤ w → 0 ≤ w' → w ≠ w' → rd (wr valid w x) w' = rd valid w'.
Proof.
  intros Hw Hw' Hne. unfold rd, wr. rewrite list_lookup_insert_ne by lia. done.
Qed.

Lemma length_wr (valid : list Z) (w x : Z) : length (wr valid w x) = length valid.
Proof. apply length_insert. Qed.

Lemma rd_range (valid : list Z) (w : Z) :
  (∀ x, x ∈ valid → 0 ≤ x < 2 ^ 32) → 0 ≤ rd valid w < 2 ^ 32.
Proof.
  intros Hr. unfold rd. destruct (valid !! Z.to_nat w) as [x|] eqn:E; cbn; [|lia].
  apply Hr. by eapply list_elem_of_lookup_2.
Qed.

Lemma rd_beyond (valid : list Z) (w : Z) : Z.of_nat (length valid) ≤ w → rd valid w = 0.
Proof.
  intros Hw. unfold rd. rewrite lookup_ge_None_2 by lia. done.
Qed.

Lemma wr_range (valid : list Z) (w x : Z) :
  (∀ y, y ∈ valid → 0 ≤ y < 2 ^ 32) → 0 ≤ x < 2 ^ 32 →
  ∀ y, y ∈ wr valid w x → 0 ≤ y < 2 ^ 32.
Proof.
  intros Hr Hx y Hy. unfold wr in Hy.
  apply list_elem_of_lookup in Hy as [i Hi].
  destruct (decide (i = Z.to_nat w)) as [->|Hne].
  - destruct (decide (Z.to_nat w < length valid)%nat).
    + rewrite list_lookup_insert_eq in Hi by done. by simplify_eq.
    + rewrite list_insert_ge in Hi by lia. apply Hr. by eapply list_elem_of_lookup_2.
  - rewrite list_lookup_insert_ne in Hi by done. apply Hr. by eapply list_elem_of_lookup_2.
Qed.

(** The state of a slot is a field of [META_BITS_PER_ELEMENT] bits. *)
Lemma slot_state_range (p : erase_policy) (valid : list Z) (idx : Z) :
  0 ≤ slot_state p valid idx ≤ elem_mask p.
Proof.
  unfold slot_state. set (x := Z.shiftr _ _).
  destruct p.
  - change (elem_mask _) with (Z.ones 1). rewrite Z.land_ones by lia.
    pose proof (Z.mod_pos_bound x (2 ^ 1)). change (Z.ones 1) with 1. lia.
  - change (elem_mask _) with (Z.ones 2). rewrite Z.land_ones by lia.
    pose proof (Z.mod_pos_bound x (2 ^ 2)). change (Z.ones 2) with 3. lia.
Qed.

Lemma slot_state_beyond (p : erase_policy) (valid : list Z) (idx : Z) :
  Z.of_nat (length valid) * META_ELEMENTS_PER_WORD p ≤ idx → slot_state p valid idx = 0.
Proof.
  intros Hidx. unfold slot_state. rewrite rd_beyond.
  - by rewrite Z.shiftr_0_l.
  - pose proof (elements_per_word_pos p).
    apply Z.div_le_lower_bound; lia.
Qed.

Section SetState.
Variable p : erase_policy.
Variable valid : list Z.
Hypothesis valid_range : ∀ x, x ∈ valid → 0 ≤ x < 2 ^ 32.

Lemma slot_state_set_same (idx s : Z) :
  0 ≤ idx → idx / META_ELEMENTS_PER_WORD p < Z.of_nat (length valid) →
  0 ≤ s ≤ elem_mask p →
  slot_state p (set_state p valid idx s) idx = s.
Proof.
  intros Hidx Hlen Hs. unfold slot_state, set_state.
  pose proof (elements_per_word_pos p).
  assert (0 ≤ idx / META_ELEMENTS_PER_WORD p) by (apply Z.div_pos; lia).
  rewrite rd_wr_same by lia. unfold field_mask.
  pose proof (elem_shift_range p idx).
  rewrite !elem_mask_ones. apply set_word_same; try lia.
  - destruct p; done.
  - by apply rd_range.
  - rewrite elem_mask_ones, Z.ones_equiv in Hs. lia.
Qed.

Lemma slot_state_set_other (idx idx' s : Z) :
  0 ≤ idx → 0 ≤ idx' → idx ≠ idx' → 0 ≤ s ≤ elem_mask p →
  slot_state p (set_state p valid idx s) idx' = slot_state p valid idx'.
Proof.
  intros Hidx Hidx' Hne Hs. unfold slot_state, set_state.
  pose proof (elements_per_word_pos p) as Hepw.
  assert (0 ≤ idx / META_ELEMENTS_PER_WORD p) by (apply Z.div_pos; lia).
  assert (0 ≤ idx' / META_ELEMENTS_PER_WORD p) by (apply Z.div_pos; lia).
  destruct (Z.eq_dec (idx / META_ELEMENTS_PER_WORD p) (idx' / META_ELEMENTS_PER_WORD p))
    as [Heq|Hw]; [|by rewrite rd_wr_other by lia].
  rewrite <- Heq.
  destruct (Z_lt_le_dec (idx / META_ELEMENTS_PER_WORD p) (Z.of_nat (length valid)));
    [|by unfold wr; rewrite list_insert_ge by lia].
  rewrite rd_wr_same by lia. unfold field_mask.
  pose proof (elem_shift_range p idx). pose proof (elem_shift_range p idx').
  rewrite !elem_mask_ones. apply set_word_other; try lia.
  - destruct p; done.
  - by apply rd_range.
  - rewrite elem_mask_ones, Z.ones_equiv in Hs. lia.
  - rewrite !elem_shift_eq.
    assert (idx mod META_ELEMENTS_PER_WORD p ≠ idx' mod META_ELEMENTS_PER_WORD p).
    { intros Hm. apply Hne.
      rewrite (Z.div_mod idx (META_ELEMENTS_PER_WORD p)),
              (Z.div_mod idx' (META_ELEMENTS_PER_WORD p)) by lia.
      by rewrite Heq, Hm. }
    destruct (bits_per_element_cases p) as [(-> & _ & _)|(-> & _ & _)]; lia.
Qed.

Lemma length_set_state (idx s : Z) : length (set_state p valid idx s) = length valid.
Proof. apply length_wr. Qed.

Lemma set_state_range (idx s : Z) :
  ∀ x, x ∈ set_state p valid idx s → 0 ≤ x < 2 ^ 32.
Proof.
  apply wr_range; [done|]. apply set_word_range; [by apply rd_range|apply shl32_range].
Qed.

(** The three other ways in which the sources write a field. *)
Lemma clear_field_eq (idx : Z) (w : Z) :
  Z.land w (not32 (field_mask p idx)) =
  Z.lor (Z.land w (not32 (field_mask p idx))) (shl32 0 (elem_shift p idx)).
Proof.
  assert (shl32 0 (elem_shift p idx) = 0) as ->.
  { unfold shl32, wrap32. by rewrite Z.shiftl_0_l. }
  by rewrite Z.lor_0_r.
Qed.

Lemma fill_field_eq (idx : Z) (w : Z) :
  0 ≤ w < 2 ^ 32 →
  Z.lor w (field_mask p idx) =
  Z.lor (Z.land w (not32 (field_mask p idx))) (shl32 (elem_mask p) (elem_shift p idx)).
Proof.
  intros Hw. apply Z.bits_inj'. intros i Hi. unfold field_mask.
  rewrite !Z.lor_spec, Z.land_spec, testbit_not32 by done.
  destruct (Z.testbit (shl32 (elem_mask p) (elem_shift p idx)) i) eqn:E.
  - by rewrite !orb_true_r.
  - rewrite !orb_false_r. destruct (Z.ltb_spec i 32); cbn; [by rewrite andb_true_r|].
    by rewrite (testbit_false_above w 32) by lia.
Qed.

End SetState.

(** ** Arithmetic of the ring of slots *)

Lemma mod_eq_offset (a b c : Z) :
  0 < c → a mod c = b mod c → 0 ≤ a - b < c → a = b.
Proof.
  intros Hc Heq Hr.
  assert ((a - b) mod c = 0) as H0.
  { rewrite Zminus_mod, Heq, Z.sub_diag. by apply Z.mod_0_l; lia. }
  rewrite Z.mod_small in H0 by lia. lia.
Qed.

Lemma mod_add_cancel (o a b c : Z) :
  0 < c → (o + a) mod c = (o + b) mod c → 0 ≤ a < c → 0 ≤ b < c → a = b.
Proof.
  intros Hc Heq Ha Hb.
  assert (a mod c = b mod c) as Hab.
  { replace a with (o + a - o) by lia. replace b with (o + b - o) by lia.
    by rewrite (Zminus_mod (o + a)), (Zminus_mod (o + b)), Heq. }
  by rewrite !Z.mod_small in Hab by lia.
Qed.

Lemma mod_offset_back (o i c : Z) : 0 < c → 0 ≤ i < c → (o + (i - o) mod c) mod c = i.
Proof.
  intros Hc Hi. rewrite Zplus_mod_idemp_r.
  replace (o + (i - o)) with i by lia. by apply Z.mod_small.
Qed.

Lemma mod_succ (x c : Z) : 0 < c → (x mod c + 1) mod c = (x + 1) mod c.
Proof. intros Hc. by rewrite Zplus_mod_idemp_l. Qed.

Lemma mod_add_full (o c : Z) : 0 < c → 0 ≤ o < c → (o + c) mod c = o.
Proof.
  intros Hc Ho. rewrite <- (Z.mul_1_l c) at 1. rewrite Z.mod_add by lia.
  by apply Z.mod_small.
Qed.

Section Probing.
Context {hp : hash_params}.
Variable p : erase_policy.

Lemma state_at_range (d : data_t) (i : Z) : 0 ≤ state_at p d i ≤ elem_mask p.
Proof. apply slot_state_range. Qed.

Lemma capacity_pos (d : data_t) : pow2_capacity d → 0 < capacity_minus_1 d + 1.
Proof. intros (n & Hn & ->). apply Z.pow_pos_nonneg; lia. Qed.

Lemma land_capacity_mask (d : data_t) (x : Z) :
  pow2_capacity d → Z.land x (capacity_minus_1 d) = x mod (capacity_minus_1 d + 1).
Proof.
  intros (n & Hn & Hc).
  replace (capacity_minus_1 d) with (Z.ones n) by (rewrite Z.ones_equiv; lia).
  rewrite Z.land_ones by done. f_equal. rewrite Z.ones_equiv. lia.
Qed.

Lemma home_range (d : data_t) (k : K) :
  pow2_capacity d → 0 ≤ home d k < capacity_minus_1 d + 1.
Proof.
  intros Hc. unfold home. rewrite land_capacity_mask by done.
  apply Z.mod_pos_bound. by apply capacity_pos.
Qed.

Lemma probe_range (d : data_t) (orig t : Z) :
  pow2_capacity d → 0 ≤ probe d orig t < capacity_minus_1 d + 1.
Proof. intros Hc. apply Z.mod_pos_bound. by apply capacity_pos. Qed.

Lemma probe_0 (d : data_t) (orig : Z) :
  pow2_capacity d → 0 ≤ orig < capacity_minus_1 d + 1 → probe d orig 0 = orig.
Proof. intros Hc Ho. unfold probe. rewrite Z.add_0_r. by apply Z.mod_small. Qed.

Lemma probe_inj (d : data_t) (orig t t' : Z) :
  pow2_capacity d →
  0 ≤ t < capacity_minus_1 d + 1 → 0 ≤ t' < capacity_minus_1 d + 1 →
  probe d orig t = probe d orig t' → t = t'.
Proof.
  intros Hc Ht Ht' Heq. apply (mod_add_cancel orig t t' (capacity_minus_1 d + 1)); try done.
  by apply capacity_pos.
Qed.

Lemma probe_offset (d : data_t) (orig i : Z) :
  pow2_capacity d → 0 ≤ i < capacity_minus_1 d + 1 →
  probe d orig ((i - orig) mod (capacity_minus_1 d + 1)) = i.
Proof. intros Hc Hi. apply mod_offset_back; [by apply capacity_pos|done]. Qed.

Lemma word_index_in_range (d : data_t) (i : Z) :
  Z.of_nat (length (valid d)) = num_valid_words p (capacity_minus_1 d) →
  0 ≤ i < capacity_minus_1 d + 1 →
  0 ≤ i / META_ELEMENTS_PER_WORD p < Z.of_nat (length (valid d)).
Proof.
  intros Hlen Hi. rewrite Hlen. unfold num_valid_words.
  pose proof (elements_per_word_pos p) as Hepw.
  split; [apply Z.div_pos; lia|].
  apply Z.div_lt_upper_bound; [lia|].
  pose proof (Z.mul_div_le (capacity_minus_1 d + META_ELEMENTS_PER_WORD p)
                (META_ELEMENTS_PER_WORD p) Hepw).
  pose proof (Z.mod_pos_bound (capacity_minus_1 d + META_ELEMENTS_PER_WORD p)
                (META_ELEMENTS_PER_WORD p) Hepw).
  pose proof (Z.div_mod (capacity_minus_1 d + META_ELEMENTS_PER_WORD p)
                (META_ELEMENTS_PER_WORD p)).
  lia.
Qed.

(** The cached word gives the state of the slot the loop is at. *)
Lemma cache_ok_state (d : data_t) (idx vv vp : Z) :
  cache_ok p d idx vv vp → Z.land vv (elem_mask p) = state_at p d idx.
Proof. intros [-> ->]. done. Qed.

Lemma cache_ok_init (d : data_t) (idx : Z) :
  cache_ok p d idx
    (Z.shiftr (rd (valid d) (idx / META_ELEMENTS_PER_WORD p)) (elem_shift p idx))
    (idx / META_ELEMENTS_PER_WORD p).
Proof. done. Qed.

Lemma step_idx_spec (d : data_t) (idx vv vp : Z) :
  pow2_capacity d → 0 ≤ idx < capacity_minus_1 d + 1 →
  cache_ok p d idx vv vp →
  ∃ vv' vp',
    Table.step_idx p idx vv vp d = ((idx + 1) mod (capacity_minus_1 d + 1), vv', vp') ∧
    cache_ok p d ((idx + 1) mod (capacity_minus_1 d + 1)) vv' vp'.
Proof.
  intros Hc Hidx [Hvp Hvv]. unfold Table.step_idx.
  rewrite land_capacity_mask by done. rewrite land_elements_mask.
  set (idx' := (idx + 1) mod _).
  pose proof (elements_per_word_pos p) as Hepw.
  pose proof (bits_per_element_pos p) as Hbits.
  destruct (Z.eqb_spec (idx' mod META_ELEMENTS_PER_WORD p) 0) as [Hz|Hnz].
  - eexists _, _. split; [done|]. split; [done|].
    by rewrite elem_shift_eq, Hz, Z.mul_0_r, Z.shiftr_0_r.
  - eexists _, _. split; [done|].
    assert (idx' = idx + 1) as Hidx'.
    { destruct (Z.eq_dec (idx + 1) (capacity_minus_1 d + 1)) as [E|E].
      - exfalso. apply Hnz. subst idx'. rewrite E, Z.mod_same by lia. done.
      - subst idx'. apply Z.mod_small. lia. }
    rewrite Hidx' in *.
    assert ((idx + 1) / META_ELEMENTS_PER_WORD p = idx / META_ELEMENTS_PER_WORD p ∧
            (idx + 1) mod META_ELEMENTS_PER_WORD p = idx mod META_ELEMENTS_PER_WORD p + 1)
      as [Hdiv Hmod].
    { destruct (bits_per_element_cases p) as [(_ & E & _)|(_ & E & _)]; rewrite E in *;
        Z.div_mod_to_equations; lia. }
    split; [by rewrite Hdiv|].
    rewrite Hvv, Z.shiftr_shiftr by lia. rewrite !elem_shift_eq, Hmod. f_equal. lia.
Qed.

Lemma probe_step (d : data_t) (orig t : Z) :
  pow2_capacity d → (probe d orig t + 1) mod (capacity_minus_1 d + 1) = probe d orig (t + 1).
Proof.
  intros Hc. unfold probe. rewrite mod_succ by (by apply capacity_pos). f_equal. lia.
Qed.

Lemma probe_back_to_start (d : data_t) (orig t : Z) :
  pow2_capacity d → 0 ≤ orig < capacity_minus_1 d + 1 →
  0 < t ≤ capacity_minus_1 d + 1 →
  probe d orig t = orig ↔ t = capacity_minus_1 d + 1.
Proof.
  intros Hc Ho Ht. pose proof (capacity_pos d Hc). split.
  - intros Hp. destruct (Z.eq_dec t (capacity_minus_1 d + 1)); [done|].
    assert (t = 0); [|lia].
    apply (probe_inj d orig); [done|lia|lia|]. by rewrite probe_0.
  - intros ->. by apply mod_add_full.
Qed.

(** *** The lookup walk *)

Lemma get_index_loop_spec (d : data_t) (key : K) (orig : Z) :
  pow2_capacity d → 0 ≤ orig < capacity_minus_1 d + 1 →
  (∀ i, 0 ≤ i → state_at p d i = VALID → is_Some (key_table d !! i)) →
  ∀ (n : nat) (t vv vp : Z),
    Z.of_nat n = capacity_minus_1 d + 1 - t → 0 ≤ t < capacity_minus_1 d + 1 →
    cache_ok p d (probe d orig t) vv vp →
    ∃ t1 r, t ≤ t1 ≤ capacity_minus_1 d + 1 ∧
      lookup_skips p d key orig t t1 ∧ lookup_stop p d key orig t1 r ∧
      Table.get_index_loop p n key d orig (probe d orig t) vv vp = Some r.
Proof.
  intros Hc Ho Hlive n. induction n as [|n IH]; intros t vv vp Hn Ht Hcache; [lia|].
  cbn [Table.get_index_loop]. rewrite (cache_ok_state _ _ _ _ Hcache).
  pose proof (probe_range d orig t Hc) as Hpr.
  destruct (Z.eqb_spec (state_at p d (probe d orig t)) INVALID) as [Hinv|Hninv].
  { exists t, (false, NPOS). split; [lia|]. split; [intros u Hu; lia|].
    split; [|done]. right; left. split; [lia|done]. }
  destruct (Z.eqb_spec (state_at p d (probe d orig t)) VALID) as [Hval|Hnval].
  - destruct (Hlive _ (proj1 Hpr) Hval) as [k' Hk']. rewrite Hk'. cbn [fmap option_fmap option_map].
    case_bool_decide as Hkey.
    + subst k'. exists t, (true, probe d orig t). split; [lia|].
      split; [intros u Hu; lia|]. split; [|done]. right; right. split; [lia|done].
    + destruct (step_idx_spec d _ vv vp Hc Hpr Hcache) as (vv' & vp' & -> & Hcache').
      rewrite probe_step in * by done.
      destruct (Z.eqb_spec (probe d orig (t + 1)) orig) as [Hback|Hnback].
      * apply probe_back_to_start in Hback; [|done|done|lia].
        exists (capacity_minus_1 d + 1), (false, NPOS). split; [lia|].
        split; [|split; [by left|done]].
        intros u Hu. assert (u = t) as -> by lia. split; [done|].
        intros [_ Hm]. rewrite Hk' in Hm. by simplify_eq.
      * assert (t + 1 ≠ capacity_minus_1 d + 1) as Hne.
        { intros E. apply Hnback. apply probe_back_to_start; [done|done|lia|done]. }
        destruct (IH (t + 1) vv' vp') as (t1 & r & Ht1 & Hskip & Hstop & Hrun);
          [lia|lia|done|].
        exists t1, r. split; [lia|]. split; [|done].
        intros u Hu. destruct (Z.eq_dec u t) as [->|]; [|apply Hskip; lia].
        split; [done|]. intros [_ Hm]. rewrite Hk' in Hm. by simplify_eq.
  - destruct (step_idx_spec d _ vv vp Hc Hpr Hcache) as (vv' & vp' & -> & Hcache').
    rewrite probe_step in * by done.
    destruct (Z.eqb_spec (probe d orig (t + 1)) orig) as [Hback|Hnback].
    + apply probe_back_to_start in Hback; [|done|done|lia].
      exists (capacity_minus_1 d + 1), (false, NPOS). split; [lia|].
      split; [|split; [by left|done]].
      intros u Hu. assert (u = t) as -> by lia. split; [done|]. by intros [? _].
    + assert (t + 1 ≠ capacity_minus_1 d + 1) as Hne.
      { intros E. apply Hnback. apply probe_back_to_start; [done|done|lia|done]. }
      destruct (IH (t + 1) vv' vp') as (t1 & r & Ht1 & Hskip & Hstop & Hrun);
        [lia|lia|done|].
      exists t1, r. split; [lia|]. split; [|done].
      intros u Hu. destruct (Z.eq_dec u t) as [->|]; [|apply Hskip; lia].
      split; [done|]. by intros [? _].
Qed.

End Probing.

(** ** Lookup on a well-formed storage *)

Section Lookup.
Context {hp : hash_params}.
Variable p : erase_policy.

Lemma wf_pow2 (d : data_t) : wf p d → pow2_capacity d.
Proof. intros H. apply (wf_capacity p d H). Qed.

Lemma valid_slot_in_range (d : data_t) (i : Z) :
  wf p d → 0 ≤ i → state_at p d i = VALID → i < capacity_minus_1 d + 1.
Proof.
  intros Hwf Hi Hst. destruct (Z_lt_le_dec i (capacity_minus_1 d + 1)); [done|].
  destruct (wf_states p d Hwf i Hi) as [_ Hout]. rewrite Hout in Hst by lia. done.
Qed.

(** [get_index] either finds a [VALID] slot that holds the key, or
    reports that no [VALID] slot holds it. *)
Lemma get_index_cases (d : data_t) (key : K) :
  wf p d →
  (∃ i, Table.get_index p key d = Some (true, i) ∧
        0 ≤ i < capacity_minus_1 d + 1 ∧ state_at p d i = VALID ∧
        key_table d !! i = Some key) ∨
  (Table.get_index p key d = Some (false, NPOS) ∧
   ∀ i, 0 ≤ i → state_at p d i = VALID → key_table d !! i ≠ Some key).
Proof.
  intros Hwf. pose proof (wf_pow2 d Hwf) as Hc.
  pose proof (capacity_pos d Hc) as Hpos.
  pose proof (home_range d key Hc) as Hhome.
  unfold Table.get_index, Table.get_index_hash. fold (home d key).
  destruct (get_index_loop_spec p d key (home d key) Hc Hhome
              (λ i Hi Hv, proj1 (wf_live p d Hwf i Hi Hv))
              (Z.to_nat (capacity_minus_1 d + 1)) 0
              (Z.shiftr (rd (valid d) (home d key / META_ELEMENTS_PER_WORD p))
                        (elem_shift p (home d key)))
              (home d key / META_ELEMENTS_PER_WORD p))
    as (t1 & r & Ht1 & Hskip & Hstop & Hrun); [lia|lia| |].
  { rewrite probe_0 by done. apply cache_ok_init. }
  rewrite probe_0 in Hrun by done. rewrite Hrun.
  destruct Hstop as [[-> ->]|[(Hlt & Hst & ->)|(Hlt & Hst & Hk & ->)]].
  - right. split; [done|]. intros i Hi Hv Hkey.
    pose proof (valid_slot_in_range d i Hwf Hi Hv) as Hi'.
    destruct (Hskip ((i - home d key) mod (capacity_minus_1 d + 1))) as [_ Hno].
    { pose proof (Z.mod_pos_bound (i - home d key) (capacity_minus_1 d + 1)). lia. }
    apply Hno. rewrite probe_offset by (done || lia). done.
  - right. split; [done|]. intros i Hi Hv Hkey.
    pose proof (valid_slot_in_range d i Hwf Hi Hv) as Hi'.
    set (ti := (i - home d key) mod (capacity_minus_1 d + 1)).
    assert (0 ≤ ti < capacity_minus_1 d + 1) as Hti by (apply Z.mod_pos_bound; lia).
    assert (probe d (home d key) ti = i) as Hpi by (apply probe_offset; done || lia).
    destruct (Z_lt_le_dec ti t1) as [Hlo|Hhi].
    + destruct (Hskip ti) as [_ Hno]; [lia|]. apply Hno. by rewrite Hpi.
    + destruct (Z.eq_dec ti t1) as [E|E].
      * rewrite <- E, Hpi, Hv in Hst. done.
      * apply (wf_chain p d Hwf i key Hi Hv Hkey t1); [fold ti; lia|]. done.
  - left. eexists. split; [done|]. split; [by apply probe_range|done].
Qed.

Lemma get_index_present (d : data_t) (key : K) (i : Z) :
  wf p d → 0 ≤ i → state_at p d i = VALID → key_table d !! i = Some key →
  Table.get_index p key d = Some (true, i).
Proof.
  intros Hwf Hi Hv Hk.
  destruct (get_index_cases d key Hwf) as [(i' & -> & Hi' & Hv' & Hk')|[_ Habs]].
  - do 3 f_equal. eapply (wf_unique p d Hwf); eauto; lia.
  - by destruct (Habs i Hi Hv).
Qed.

End Lookup.

(** ** Counting the [VALID] slots *)

Lemma filter_ext_in (P Q : Z → Prop) `{∀ x, Decision (P x)} `{∀ x, Decision (Q x)}
    (l : list Z) :
  (∀ j, j ∈ l → P j ↔ Q j) → filter P l = filter Q l.
Proof.
  induction l as [|x l IH]; intros Hsame; [done|]. rewrite !filter_cons.
  assert (filter P l = filter Q l) as -> by (apply IH; intros j Hj; apply Hsame; by right).
  destruct (decide (P x)) as [HP|HP].
  - rewrite decide_True; [done|]. apply Hsame; [by left|done].
  - rewrite decide_False; [done|]. intros HQ. apply HP, Hsame; [by left|done].
Qed.

Lemma filter_length_flip_on (P Q : Z → Prop) `{∀ x, Decision (P x)} `{∀ x, Decision (Q x)}
    (l : list Z) (i : Z) :
  NoDup l → i ∈ l → ¬ P i → Q i → (∀ j, j ∈ l → j ≠ i → P j ↔ Q j) →
  length (filter Q l) = S (length (filter P l)).
Proof.
  intros Hnd Hin HP HQ Hsame. induction l as [|x l IH]; [by apply elem_of_nil in Hin|].
  apply NoDup_cons in Hnd as [Hx Hnd]. rewrite !filter_cons.
  destruct (decide (x = i)) as [->|Hne].
  - rewrite decide_True by done. rewrite (decide_False (P:=P i)) by done. cbn. f_equal.
    f_equal. apply filter_ext_in. intros j Hj. symmetry. apply Hsame; [by right|].
    by intros ->.
  - apply elem_of_cons in Hin as [?|Hin]; [done|].
    assert (P x ↔ Q x) as Hx' by (apply Hsame; [by left|done]).
    assert (length (filter Q l) = S (length (filter P l))) as IH'.
    { apply IH; [done..|]. intros j Hj. apply Hsame. by right. }
    destruct (decide (P x)) as [HPx|HPx].
    + rewrite decide_True by (by apply Hx'). cbn. by f_equal.
    + rewrite decide_False by (by rewrite <- Hx'). done.
Qed.

(** ** Storing an element *)

Section Place.
Context {hp : hash_params}.
Variable p : erase_policy.

Lemma wf_wf_bitmap (d : data_t) : wf p d → wf_bitmap p d.
Proof.
  intros H. split.
  - apply (wf_capacity p d H).
  - apply (wf_valid_length p d H).
  - apply (wf_valid_range p d H).
  - apply (wf_states p d H).
Qed.

Lemma VALID_le_mask : 0 ≤ VALID ≤ elem_mask p.
Proof. by destruct p. Qed.

Lemma INVALID_le_mask : 0 ≤ INVALID ≤ elem_mask p.
Proof. by destruct p. Qed.

(** The state of every slot after the update of one field. *)
Lemma slot_state_set (d : data_t) (i s j : Z) :
  wf_bitmap p d → 0 ≤ i < capacity_minus_1 d + 1 → 0 ≤ s ≤ elem_mask p → 0 ≤ j →
  slot_state p (set_state p (valid d) i s) j =
  if decide (j = i) then s else slot_state p (valid d) j.
Proof.
  intros Hb Hi Hs Hj. case_decide as E.
  - subst j. apply slot_state_set_same; [apply (wfb_range p d Hb)|lia| |done].
    apply word_index_in_range; [apply (wfb_length p d Hb)|done].
  - apply slot_state_set_other; [apply (wfb_range p d Hb)|lia|lia|done|done].
Qed.

(** A storage whose bitmap is the update of one field of a well-formed
    bitmap has a well-formed bitmap. *)
Lemma wf_bitmap_set (d d' : data_t) (i s : Z) :
  wf_bitmap p d → 0 ≤ i < capacity_minus_1 d + 1 → 0 ≤ s ≤ elem_mask p → s ≠ 3 →
  valid d' = set_state p (valid d) i s →
  capacity_minus_1 d' = capacity_minus_1 d →
  wf_bitmap p d' ∧
  ∀ j, 0 ≤ j → state_at p d' j = if decide (j = i) then s else state_at p d j.
Proof.
  intros Hb Hi Hs Hs3 Hv Hc.
  assert (∀ j, 0 ≤ j → state_at p d' j = if decide (j = i) then s else state_at p d j)
    as Hst.
  { intros j Hj. unfold state_at. rewrite Hv. by apply slot_state_set. }
  split; [|done]. split.
  - unfold pow2_capacity. rewrite Hc. apply (wfb_capacity p d Hb).
  - rewrite Hv, Hc, length_set_state. apply (wfb_length p d Hb).
  - rewrite Hv. apply set_state_range. apply (wfb_range p d Hb).
  - intros j Hj. rewrite Hst by done. rewrite Hc. case_decide as E.
    + subst j. split; [done|lia].
    + apply (wfb_states p d Hb j Hj).
Qed.

Lemma occupied_slots_flip_on (d d' : data_t) (i : Z) :
  capacity_minus_1 d' = capacity_minus_1 d → 0 ≤ i < capacity_minus_1 d + 1 →
  state_at p d i ≠ VALID → state_at p d' i = VALID →
  (∀ j, 0 ≤ j → j ≠ i → state_at p d' j = state_at p d j) →
  length (occupied_slots p d') = S (length (occupied_slots p d)).
Proof.
  intros Hc Hi Hoff Hon Hsame. unfold occupied_slots. rewrite Hc.
  apply (filter_length_flip_on _ _ _ i); [apply NoDup_seqZ|apply elem_of_seqZ; lia|done..|].
  intros j Hj Hne. apply elem_of_seqZ in Hj. rewrite Hsame by lia. done.
Qed.

Lemma probe_offset_inv (d : data_t) (orig t : Z) :
  pow2_capacity d → 0 ≤ t < capacity_minus_1 d + 1 →
  (probe d orig t - orig) mod (capacity_minus_1 d + 1) = t.
Proof.
  intros Hc Ht. unfold probe. rewrite Zminus_mod_idemp_l.
  replace (orig + t - orig) with t by lia. by apply Z.mod_small.
Qed.

Lemma place_state (d : data_t) (i : Z) (k : K) (v : V) (j : Z) :
  wf_bitmap p d → 0 ≤ i < capacity_minus_1 d + 1 → 0 ≤ j →
  state_at p (place p d i k v) j = if decide (j = i) then VALID else state_at p d j.
Proof.
  intros Hb Hi Hj.
  eapply (wf_bitmap_set d (place p d i k v) i VALID); eauto using VALID_le_mask.
Qed.

Lemma placeable_range (d : data_t) (key : K) (i : Z) :
  pow2_capacity d → placeable p d key i → 0 ≤ i < capacity_minus_1 d + 1.
Proof. intros Hc (t1 & _ & -> & _). by apply probe_range. Qed.

Lemma place_wf (d : data_t) (key : K) (value : V) (i : Z) :
  wf p d → absent p d key → placeable p d key i → wf p (place p d i key value).
Proof.
  intros Hwf Habs Hpl. pose proof (wf_wf_bitmap d Hwf) as Hb.
  pose proof (wf_pow2 p d Hwf) as Hc.
  pose proof (placeable_range d key i Hc Hpl) as Hi.
  destruct Hpl as (t1 & Ht1 & Hprobe & Hfree & Hpath).
  destruct (wf_bitmap_set d (place p d i key value) i VALID Hb Hi VALID_le_mask)
    as [Hb' Hst]; [done..|].
  split.
  - apply (wfb_capacity p _ Hb').
  - apply (wfb_length p _ Hb').
  - apply (wfb_range p _ Hb').
  - apply (wfb_states p _ Hb').
  - cbn [size place]. rewrite (wf_size p d Hwf).
    rewrite (occupied_slots_flip_on d (place p d i key value) i); [lia|done|done|done| |].
    + rewrite Hst by lia. by rewrite decide_True.
    + intros j Hj Hne. rewrite Hst by done. by rewrite decide_False.
  - intros j Hj. rewrite Hst by done. cbn [key_table value_table place].
    case_decide as E.
    + subst j. intros _. rewrite !lookup_insert_eq. by split.
    + rewrite !lookup_insert_ne by done. by apply (wf_live p d Hwf).
  - intros j k Hj. rewrite Hst by done. cbn [key_table place]. unfold home.
    cbn [capacity_minus_1 place]. fold (home d k).
    intros Hv Hk u Hu. rewrite Hst by (apply probe_range; done).
    destruct (decide ((home d k + u) mod (capacity_minus_1 d + 1) = i)) as [Ei|Ei];
      [by unfold VALID, INVALID|].
    destruct (decide (j = i)) as [E|E].
    + subst j. rewrite lookup_insert_eq in Hk. simplify_eq.
      rewrite probe_offset_inv in Hu by done.
      fold (probe d (home d k) u). rewrite Hpath by lia. done.
    + rewrite lookup_insert_ne in Hk by done. by apply (wf_chain p d Hwf j k).
  - intros j j' k Hj Hj'. rewrite !Hst by done. cbn [key_table place].
    intros Hv Hv' Hk Hk'.
    destruct (decide (j = i)) as [->|Ej], (decide (j' = i)) as [->|Ej']; [done| | |].
    + rewrite lookup_insert_eq in Hk. rewrite lookup_insert_ne in Hk' by done.
      simplify_eq. by destruct (Habs j' Hj' Hv').
    + rewrite lookup_insert_eq in Hk'. rewrite lookup_insert_ne in Hk by done.
      simplify_eq. by destruct (Habs j Hj Hv).
    + rewrite lookup_insert_ne in Hk, Hk' by done. by apply (wf_unique p d Hwf j j' k).
Qed.

Lemma place_no_stale (d : data_t) (key : K) (value : V) (i : Z) :
  wf_bitmap p d → 0 ≤ i < capacity_minus_1 d + 1 →
  no_stale p d → no_stale p (place p d i key value).
Proof.
  intros Hb Hi Hns j. cbn [key_table value_table place].
  destruct (decide (j = i)) as [->|E].
  - intros _. split; [lia|]. rewrite place_state by (done || lia). by rewrite decide_True.
  - rewrite !lookup_insert_ne by done. intros Hj. destruct (Hns j Hj) as [Hj0 Hv].
    split; [done|]. rewrite place_state by done. by rewrite decide_False.
Qed.

Lemma place_holds (d : data_t) (key : K) (value : V) (i j : Z) (k : K) (v : V) :
  wf_bitmap p d → 0 ≤ i < capacity_minus_1 d + 1 → state_at p d i ≠ VALID →
  holds p (place p d i key value) j k v ↔
  holds p d j k v ∨ (j = i ∧ k = key ∧ v = value).
Proof.
  intros Hb Hi Hfree. unfold holds. cbn [key_table value_table capacity_minus_1 place].
  split.
  - intros (Hj & Hv & Hk & Hw). rewrite place_state in Hv by (done || lia).
    destruct (decide (j = i)) as [->|E].
    + rewrite lookup_insert_eq in Hk. rewrite lookup_insert_eq in Hw.
      simplify_eq. by right.
    + rewrite lookup_insert_ne in Hk by done. rewrite lookup_insert_ne in Hw by done.
      by left.
  - intros [(Hj & Hv & Hk & Hw)|(-> & -> & ->)].
    + assert (j ≠ i) as E by (by intros ->).
      rewrite place_state by (done || lia). rewrite decide_False by done.
      by rewrite !lookup_insert_ne by done.
    + rewrite place_state by (done || lia). rewrite decide_True by done.
      by rewrite !lookup_insert_eq.
Qed.

Lemma place_maps_to (d : data_t) (key : K) (value : V) (i : Z) (k : K) (v : V) :
  wf_bitmap p d → 0 ≤ i < capacity_minus_1 d + 1 → state_at p d i ≠ VALID →
  maps_to p (place p d i key value) k v ↔ maps_to p d k v ∨ (k = key ∧ v = value).
Proof.
  intros Hb Hi Hfree. unfold maps_to. split.
  - intros [j Hj]. apply place_holds in Hj; [|done..].
    destruct Hj as [Hj|(_ & -> & ->)]; [left; by exists j|by right].
  - intros [[j Hj]|[-> ->]].
    + exists j. apply place_holds; [done..|]. by left.
    + exists i. apply place_holds; [done..|]. by right.
Qed.

End Place.

(** ** The insertion walk *)

Lemma exists_first (P : Z → Prop) `{∀ x, Decision (P x)} (n : Z) :
  (∃ u, 0 ≤ u < n ∧ P u) → ∃ t1, 0 ≤ t1 < n ∧ P t1 ∧ ∀ u, 0 ≤ u < t1 → ¬ P u.
Proof.
  intros (u & Hu & HPu).
  assert (∀ m : nat, (∀ u, 0 ≤ u < Z.of_nat m → ¬ P u) ∨
                     ∃ t1, 0 ≤ t1 < Z.of_nat m ∧ P t1 ∧ ∀ u, 0 ≤ u < t1 → ¬ P u) as Hsearch.
  { induction m as [|m [IH|IH]].
    - left. intros; lia.
    - destruct (decide (P (Z.of_nat m))) as [HP|HP].
      + right. exists (Z.of_nat m). split; [lia|]. split; [done|]. intros; apply IH; lia.
      + left. intros u' Hu'. destruct (Z.eq_dec u' (Z.of_nat m)) as [->|]; [done|].
        apply IH. lia.
    - right. destruct IH as (t1 & Ht1 & HP & Hmin). exists t1. split; [lia|done]. }
  destruct (Hsearch (Z.to_nat n)) as [Hnone|(t1 & Ht1 & HP & Hmin)].
  - destruct (Hnone u); [lia|done].
  - exists t1. split; [lia|done].
Qed.

Lemma filter_length_full (P : Z → Prop) `{∀ x, Decision (P x)} (l : list Z) :
  (∀ x, x ∈ l → P x) → length (filter P l) = length l.
Proof.
  induction l as [|x l IH]; intros Hall; [done|]. rewrite filter_cons.
  rewrite decide_True by (apply Hall; by left). cbn. f_equal. apply IH.
  intros y Hy. apply Hall. by right.
Qed.

Lemma filter_length_short (P : Z → Prop) `{∀ x, Decision (P x)} (l : list Z) :
  (length (filter P l) < length l)%nat → ∃ x, x ∈ l ∧ ¬ P x.
Proof.
  induction l as [|x l IH]; cbn [length]; [lia|]. rewrite filter_cons.
  destruct (decide (P x)) as [HP|HP].
  - cbn [length]. intros Hlt. destruct IH as (y & Hy & HPy); [lia|].
    exists y. split; [by right|done].
  - intros _. exists x. split; [by left|done].
Qed.

Section AddNew.
Context {hp : hash_params}.
Variable p : erase_policy.

Lemma VALID_ne_INVALID : VALID ≠ INVALID.
Proof. done. Qed.

Lemma add_new_loop_run (d : data_t) (key : K) (value : V) (orig : Z) :
  pow2_capacity d → 0 ≤ orig < capacity_minus_1 d + 1 →
  ∀ (n : nat) (t vv vp t1 : Z),
    Z.of_nat n = capacity_minus_1 d + 1 - t → 0 ≤ t ≤ t1 → t1 < capacity_minus_1 d + 1 →
    cache_ok p d (probe d orig t) vv vp →
    (∀ u, t ≤ u < t1 → state_at p d (probe d orig u) = VALID ∧
                        ∃ k', key_table d !! probe d orig u = Some k' ∧ k' ≠ key) →
    state_at p d (probe d orig t1) ≠ VALID →
    (t < t1 → size d * 2 ≤ capacity_minus_1 d) →
    Table.add_new_loop p n key value d orig (probe d orig t) vv vp =
    Some (Placed (place p d (probe d orig t1) key value) (probe d orig t1)).
Proof.
  intros Hc Ho n. induction n as [|n IH]; intros t vv vp t1 Hn Ht Ht1 Hcache Hpath Hfree Hload;
    [lia|].
  cbn [Table.add_new_loop]. rewrite (cache_ok_state _ _ _ _ _ Hcache).
  pose proof (probe_range d orig t Hc) as Hpr.
  destruct (Z.eq_dec t t1) as [->|Hne].
  - destruct (Z.eqb_spec (state_at p d (probe d orig t1)) VALID) as [E|_]; [done|].
    cbn [negb]. destruct Hcache as [-> _]. done.
  - destruct (Hpath t) as (Hv & k' & Hk' & Hkne); [lia|].
    rewrite Hv, Z.eqb_refl. cbn [negb]. rewrite Hk'.
    rewrite bool_decide_eq_false_2 by done.
    destruct (Z.ltb_spec (capacity_minus_1 d) (size d * 2)) as [Hgrow|_]; [lia|].
    destruct (step_idx_spec p d _ vv vp Hc Hpr Hcache) as (vv' & vp' & -> & Hcache').
    rewrite probe_step in * by done.
    destruct (Z.eqb_spec (probe d orig (t + 1)) orig) as [Hback|_].
    { apply probe_back_to_start in Hback; [lia|done|done|lia]. }
    apply IH; [lia|lia|lia|done| |done|lia].
    intros u Hu. apply Hpath. lia.
Qed.

Lemma exists_free_slot (d : data_t) :
  wf p d → size d < capacity_minus_1 d + 1 →
  ∃ i, 0 ≤ i < capacity_minus_1 d + 1 ∧ state_at p d i ≠ VALID.
Proof.
  intros Hwf Hsz. rewrite (wf_size p d Hwf) in Hsz. unfold occupied_slots in Hsz.
  pose proof (capacity_pos d (wf_pow2 p d Hwf)).
  destruct (filter_length_short (λ i, state_at p d i = VALID)
              (seqZ 0 (capacity_minus_1 d + 1))) as (x & Hx & Hfree).
  { rewrite length_seqZ. lia. }
  apply elem_of_seqZ in Hx. exists x. split; [lia|done].
Qed.

(** Without growth the pass stores the element in the first slot of
    the probe sequence that is not [VALID]. *)
Lemma add_new_pass_places (d : data_t) (key : K) (value : V) :
  wf p d → absent p d key →
  state_at p d (home d key) ≠ VALID ∨ size d * 2 ≤ capacity_minus_1 d →
  ∃ i, placeable p d key i ∧
       Table.add_new_pass p key value d (hash_functor key) =
       Some (Placed (place p d i key value) i).
Proof.
  intros Hwf Habs Hcase. pose proof (wf_pow2 p d Hwf) as Hc.
  pose proof (capacity_pos d Hc) as Hpos.
  pose proof (home_range d key Hc) as Hhome.
  assert (∃ u, 0 ≤ u < capacity_minus_1 d + 1 ∧
               state_at p d (probe d (home d key) u) ≠ VALID) as Hex.
  { destruct Hcase as [Hfree|Hload].
    - exists 0. split; [lia|]. by rewrite probe_0.
    - destruct (exists_free_slot d Hwf) as (i & Hi & Hfree); [lia|].
      exists ((i - home d key) mod (capacity_minus_1 d + 1)).
      split; [apply Z.mod_pos_bound; lia|]. by rewrite probe_offset. }
  apply exists_first in Hex as (t1 & Ht1 & Hfree & Hmin); [|apply _].
  assert (∀ u, 0 ≤ u < t1 → state_at p d (probe d (home d key) u) = VALID) as Hpath.
  { intros u Hu. destruct (decide (state_at p d (probe d (home d key) u) = VALID));
      [done|]. by destruct (Hmin u Hu). }
  exists (probe d (home d key) t1). split.
  { exists t1. done. }
  unfold Table.add_new_pass. fold (home d key).
  rewrite <- (probe_0 d (home d key)) at 2 3 4 by done.
  apply add_new_loop_run; [done|done|lia|lia|lia| | |done|].
  - rewrite probe_0 by done. apply cache_ok_init.
  - intros u Hu. split; [apply Hpath; lia|].
    pose proof (probe_range d (home d key) u Hc) as Hpr.
    destruct (wf_live p d Hwf _ (proj1 Hpr) (Hpath u ltac:(lia))) as [[k' Hk'] _].
    exists k'. split; [done|]. intros ->. by eapply Habs; [apply Hpr|apply Hpath; lia|].
  - intros Hlt. destruct Hcase as [Hfree0|]; [|done].
    destruct Hfree0. rewrite <- (probe_0 d (home d key)) by done. apply Hpath. lia.
Qed.

Lemma add_new_pass_grows (d : data_t) (key : K) (value : V) :
  wf p d → absent p d key →
  state_at p d (home d key) = VALID → capacity_minus_1 d < size d * 2 →
  Table.add_new_pass p key value d (hash_functor key) = Some NeedsGrowth.
Proof.
  intros Hwf Habs Hv Hload. pose proof (wf_pow2 p d Hwf) as Hc.
  pose proof (capacity_pos d Hc) as Hpos.
  pose proof (home_range d key Hc) as Hhome.
  unfold Table.add_new_pass. fold (home d key).
  destruct (Z.to_nat (capacity_minus_1 d + 1)) as [|n] eqn:En; [lia|].
  cbn [Table.add_new_loop].
  rewrite (cache_ok_state p d (home d key) _ _ (cache_ok_init p d (home d key))).
  rewrite Hv, Z.eqb_refl. cbn [negb].
  destruct (wf_live p d Hwf _ (proj1 Hhome) Hv) as [[k' Hk'] _]. rewrite Hk'.
  rewrite bool_decide_eq_false_2 by (intros ->; by eapply Habs; [apply Hhome|..]).
  destruct (Z.ltb_spec (capacity_minus_1 d) (size d * 2)); [done|lia].
Qed.

End AddNew.

(** ** Bit scan and iteration *)

Lemma ctz_from_spec (n : nat) (i x : Z) :
  (∃ j, i ≤ j < i + Z.of_nat n ∧ Z.testbit x j = true) →
  i ≤ Internal.ctz_from n i x < i + Z.of_nat n ∧
  Z.testbit x (Internal.ctz_from n i x) = true ∧
  ∀ j, i ≤ j < Internal.ctz_from n i x → Z.testbit x j = false.
Proof.
  revert i. induction n as [|n IH]; intros i (j & Hj & Hbit); [lia|].
  cbn [Internal.ctz_from]. destruct (Z.testbit x i) eqn:E.
  - split; [lia|]. split; [done|]. intros; lia.
  - destruct (IH (i + 1)) as (Hr & Hb & Hmin).
    { exists j. split; [|done]. destruct (Z.eq_dec j i) as [->|]; [congruence|lia]. }
    split; [lia|]. split; [done|]. intros j' Hj'.
    destruct (Z.eq_dec j' i) as [->|]; [done|]. apply Hmin. lia.
Qed.

Lemma bsf32_nonzero_spec (x : Z) :
  0 ≤ x < 2 ^ 32 → x ≠ 0 →
  0 ≤ Internal.bsf32_nonzero x < 32 ∧
  Z.testbit x (Internal.bsf32_nonzero x) = true ∧
  ∀ j, 0 ≤ j < Internal.bsf32_nonzero x → Z.testbit x j = false.
Proof.
  intros Hx Hnz. apply (ctz_from_spec 32 0 x).
  destruct (Z.eq_dec x 0) as [|_]; [done|].
  exists (Z.log2 x). split.
  - pose proof (Z.log2_nonneg x). assert (Z.log2 x < 32) by (apply Z.log2_lt_pow2; lia). lia.
  - apply Z.bit_log2. lia.
Qed.

Lemma Rehash_scan_words_eq `{hp : hash_params} (n : nat) (word : Z) (valid : list Z) :
  Rehash.scan_words n word valid = scan_words erase_policy_rehash n word valid.
Proof. revert word. induction n as [|n IH]; intros word; [done|]. cbn. by rewrite IH. Qed.

Lemma UseMarker_scan_words_eq `{hp : hash_params} (n : nat) (word : Z) (valid : list Z) :
  UseMarker.scan_words n word valid = scan_words erase_policy_use_marker n word valid.
Proof. revert word. induction n as [|n IH]; intros word; [done|]. cbn. by rewrite IH. Qed.

Section Occupancy.
Variable p : erase_policy.

Lemma occupancy_range (w : Z) : 0 ≤ w < 2 ^ 32 → 0 ≤ occupancy p w < 2 ^ 32.
Proof.
  intros Hw. destruct p; cbn [occupancy]; [done|].
  assert (0 ≤ Z.land w UseMarker.mask) by (apply Z.land_nonneg; lia).
  apply range_of_bits; [lia..|]. intros i Hi.
  by rewrite Z.land_spec, (testbit_false_above w 32) by lia.
Qed.

Lemma mask_bits (i : Z) :
  0 ≤ i < 32 → Z.testbit UseMarker.mask i = Z.even i.
Proof.
  intros Hi.
  assert (∀ n : nat, (n < 32)%nat →
            Z.testbit UseMarker.mask (Z.of_nat n) = Z.even (Z.of_nat n)) as Hall.
  { intros n Hn. do 32 (destruct n as [|n]; [done|]). lia. }
  rewrite <- (Z2Nat.id i) by lia. apply Hall. lia.
Qed.

(** A set bit of the occupancy word sits at the first bit of a field. *)
Lemma occupancy_bit_aligned (w i : Z) :
  0 ≤ w < 2 ^ 32 → 0 ≤ i → Z.testbit (occupancy p w) i = true →
  i < 32 ∧ i mod META_BITS_PER_ELEMENT p = 0.
Proof.
  intros Hw Hi Hbit.
  assert (i < 32) as Hlt.
  { destruct (Z_lt_le_dec i 32); [done|].
    rewrite (testbit_false_above (occupancy p w) 32) in Hbit; [done| |lia..].
    by apply occupancy_range. }
  split; [done|]. destruct p; cbn [occupancy META_BITS_PER_ELEMENT] in *.
  - apply Z.mod_1_r.
  - rewrite Z.land_spec, mask_bits in Hbit by lia.
    apply andb_true_iff in Hbit as [_ Hev]. rewrite Z.even_spec in Hev.
    destruct Hev as [k ->]. rewrite Z.mul_comm. apply Z.mod_mul. lia.
Qed.

(** The state of a field that is not the pattern 3 is [VALID] exactly
    when its occupancy bit is set. *)
Lemma occupancy_bit_state (w e : Z) :
  0 ≤ w < 2 ^ 32 → 0 ≤ e < META_ELEMENTS_PER_WORD p →
  let st := Z.land (Z.shiftr w (META_BITS_PER_ELEMENT p * e)) (elem_mask p) in
  st ≠ 3 →
  (st = VALID ↔ Z.testbit (occupancy p w) (META_BITS_PER_ELEMENT p * e) = true).
Proof.
  intros Hw He st Hst. subst st. destruct p;
    cbn [occupancy META_BITS_PER_ELEMENT META_ELEMENTS_PER_WORD] in *.
  - change (elem_mask erase_policy_rehash) with (Z.ones 1) in *.
    rewrite Z.land_ones in * by lia. rewrite Z.mul_1_l in *.
    rewrite Z.shiftr_div_pow2 by lia. change (2 ^ 1) with 2.
    rewrite <- (Z.testbit_spec' w e) by lia. unfold VALID.
    by destruct (Z.testbit w e).
  - change (elem_mask erase_policy_use_marker) with (Z.ones 2) in *.
    change (META_ELEMENTS_PER_WORD erase_policy_use_marker) with 16 in He.
    rewrite Z.land_spec, mask_bits by lia.
    replace (Z.even (2 * e)) with true by (symmetry; apply Z.even_spec; by exists e).
    rewrite andb_true_r.
    set (x := Z.land (Z.shiftr w (2 * e)) (Z.ones 2)) in *.
    assert (Z.testbit x 0 = Z.testbit w (2 * e)) as Hb0.
    { subst x. rewrite field_bits by lia. by rewrite Z.add_0_l. }
    assert (0 ≤ x < 4) as Hx.
    { subst x. rewrite Z.land_ones by lia. apply Z.mod_pos_bound. lia. }
    rewrite <- Hb0. unfold VALID. clearbody x.
    assert (x = 0 ∨ x = 1 ∨ x = 2 ∨ x = 3) as [-> | [-> | [-> | ->]]] by lia;
      cbn; done.
Qed.

End Occupancy.

Section Scan.
Context {hp : hash_params}.
Variable p : erase_policy.

Lemma slot_split (s : Z) :
  0 ≤ s →
  0 ≤ s / META_ELEMENTS_PER_WORD p ∧
  0 ≤ s mod META_ELEMENTS_PER_WORD p < META_ELEMENTS_PER_WORD p ∧
  s = s / META_ELEMENTS_PER_WORD p * META_ELEMENTS_PER_WORD p + s mod META_ELEMENTS_PER_WORD p.
Proof.
  intros Hs. pose proof (elements_per_word_pos p) as Hepw.
  split; [apply Z.div_pos; lia|]. split; [apply Z.mod_pos_bound; lia|].
  pose proof (Z.div_mod s (META_ELEMENTS_PER_WORD p)). lia.
Qed.

Lemma slot_join (word e : Z) :
  0 ≤ e < META_ELEMENTS_PER_WORD p →
  (word * META_ELEMENTS_PER_WORD p + e) / META_ELEMENTS_PER_WORD p = word ∧
  (word * META_ELEMENTS_PER_WORD p + e) mod META_ELEMENTS_PER_WORD p = e.
Proof.
  intros He. split.
  - rewrite Z.add_comm, Z.div_add by lia. rewrite Z.div_small by lia. lia.
  - rewrite Z.add_comm, Z.mod_add by lia. by apply Z.mod_small.
Qed.

(** A slot is [VALID] exactly when its occupancy bit is set. *)
Lemma state_valid_iff_bit (d : data_t) (s : Z) :
  wf_bitmap p d → 0 ≤ s →
  state_at p d s = VALID ↔
  Z.testbit (occupancy p (rd (valid d) (s / META_ELEMENTS_PER_WORD p)))
            (META_BITS_PER_ELEMENT p * (s mod META_ELEMENTS_PER_WORD p)) = true.
Proof.
  intros Hb Hs. destruct (slot_split s Hs) as (_ & He & _).
  pose proof (wfb_states p d Hb s Hs) as [Hne3 _].
  unfold state_at, slot_state in *. rewrite elem_shift_eq in *.
  apply occupancy_bit_state; [|done|done].
  apply rd_range, (wfb_range p d Hb).
Qed.

Lemma bits_times_elements : META_BITS_PER_ELEMENT p * META_ELEMENTS_PER_WORD p = 32.
Proof. by destruct p. Qed.

(** The slot of an aligned bit of a word. *)
Lemma aligned_bit_element (bit : Z) :
  0 ≤ bit < 32 → bit mod META_BITS_PER_ELEMENT p = 0 →
  0 ≤ bit / META_BITS_PER_ELEMENT p < META_ELEMENTS_PER_WORD p ∧
  META_BITS_PER_ELEMENT p * (bit / META_BITS_PER_ELEMENT p) = bit.
Proof.
  intros Hbit Hal. pose proof (bits_per_element_pos p) as HB.
  pose proof bits_times_elements as H32.
  pose proof (Z.div_mod bit (META_BITS_PER_ELEMENT p)) as Hdm.
  split; [|lia]. split; [apply Z.div_pos; lia|].
  apply Z.div_lt_upper_bound; lia.
Qed.

(** The word loop finds the first [VALID] slot at or after the first
    slot of the word it starts at. *)
Lemma scan_words_spec (d : data_t) :
  wf_bitmap p d →
  ∀ (n : nat) (word : Z),
    0 ≤ word → Z.of_nat n = Z.of_nat (length (valid d)) - word →
    next_occupied p d (word * META_ELEMENTS_PER_WORD p) (scan_words p n word (valid d)).
Proof.
  intros Hb n. pose proof (elements_per_word_pos p) as Hepw.
  pose proof (bits_per_element_pos p) as HB.
  induction n as [|n IH]; intros word Hword Hn; cbn [scan_words].
  - left. split; [done|]. intros s Hs. unfold state_at.
    rewrite slot_state_beyond; [done|]. nia.
  - pose proof (rd_range (valid d) word (wfb_range p d Hb)) as Hw.
    pose proof (occupancy_range p _ Hw) as Ho.
    destruct (Z.eqb_spec (occupancy p (rd (valid d) word)) 0) as [Hz|Hnz].
    + assert (∀ s, word * META_ELEMENTS_PER_WORD p ≤ s <
                     (word + 1) * META_ELEMENTS_PER_WORD p → state_at p d s ≠ VALID)
        as Hnone.
      { intros s Hs Hv. assert (0 ≤ s) as Hs0 by nia.
        apply state_valid_iff_bit in Hv; [|done..].
        assert (s / META_ELEMENTS_PER_WORD p = word) as Hsw.
        { symmetry. apply Z.div_unique with (r := s - word * META_ELEMENTS_PER_WORD p); lia. }
        rewrite Hsw, Hz, Z.bits_0 in Hv. done. }
      destruct (IH (word + 1)) as [[-> Hrest]|(Hr & Hv & Hrest)]; [lia|lia| |].
      * left. split; [done|]. intros s Hs.
        destruct (Z_lt_le_dec s ((word + 1) * META_ELEMENTS_PER_WORD p));
          [apply Hnone; lia|apply Hrest; lia].
      * right. split; [lia|]. split; [done|]. intros s Hs.
        destruct (Z_lt_le_dec s ((word + 1) * META_ELEMENTS_PER_WORD p));
          [apply Hnone; lia|apply Hrest; lia].
    + destruct (bsf32_nonzero_spec _ Ho Hnz) as (Hbit & Hset & Hmin).
      set (bit := Internal.bsf32_nonzero _) in *.
      destruct (occupancy_bit_aligned p _ bit Hw) as [_ Hal]; [lia|done|].
      destruct (aligned_bit_element bit Hbit Hal) as [He Hbe].
      destruct (slot_join word _ He) as [Hdiv Hmod].
      right. split; [lia|]. split.
      * apply state_valid_iff_bit; [done|nia|]. by rewrite Hdiv, Hmod, Hbe.
      * intros s Hs Hv. assert (0 ≤ s) as Hs0 by nia.
        apply state_valid_iff_bit in Hv; [|done..].
        assert (s / META_ELEMENTS_PER_WORD p = word) as Hsw.
        { symmetry. apply Z.div_unique with (r := s - word * META_ELEMENTS_PER_WORD p); lia. }
        assert (s mod META_ELEMENTS_PER_WORD p = s - word * META_ELEMENTS_PER_WORD p) as Hsm.
        { symmetry. apply Z.mod_unique with (q := word); lia. }
        rewrite Hsw, Hmin in Hv; [done|]. rewrite Hsm. nia.
Qed.

Lemma get_first_spec (d : data_t) :
  wf_bitmap p d → next_occupied p d 0 (Table.get_first p d).
Proof.
  intros Hb. unfold Table.get_first.
  assert (match p with
          | erase_policy_rehash => Rehash.get_first (capacity_minus_1 d) (valid d)
          | erase_policy_use_marker => UseMarker.get_first (capacity_minus_1 d) (valid d)
          end = scan_words p (length (valid d)) 0 (valid d)) as ->.
  { pose proof (wfb_length p d Hb) as Hlen. destruct p;
      unfold Rehash.get_first, UseMarker.get_first; rewrite <- Hlen, Nat2Z.id;
      [apply Rehash_scan_words_eq|apply UseMarker_scan_words_eq]. }
  replace 0 with (0 * META_ELEMENTS_PER_WORD p) at 1 by lia.
  apply scan_words_spec; [done|lia|lia].
Qed.

Lemma land_range (a b : Z) : 0 ≤ a < 2 ^ 32 → 0 ≤ Z.land a b < 2 ^ 32.
Proof.
  intros Ha. assert (0 ≤ Z.land a b) by (apply Z.land_nonneg; lia).
  apply range_of_bits; [lia..|]. intros i Hi.
  by rewrite Z.land_spec, (testbit_false_above a 32) by lia.
Qed.

(** [old_pos & ~(META_ELEMENTS_PER_WORD - 1)] is the first slot of the
    word of [old_pos] as long as [old_pos] fits in 32 bits. *)
Lemma round_down_word (old_pos : Z) :
  0 ≤ old_pos < 2 ^ 32 →
  Z.land old_pos (not32 (META_ELEMENTS_PER_WORD p - 1)) =
  old_pos / META_ELEMENTS_PER_WORD p * META_ELEMENTS_PER_WORD p.
Proof.
  intros Hpos.
  assert (∃ k, 0 ≤ k < 32 ∧ META_ELEMENTS_PER_WORD p = 2 ^ k) as (k & Hk & Hepw).
  { destruct p; [by exists 5|by exists 4]. }
  rewrite Hepw. replace (2 ^ k - 1) with (Z.ones k) by (rewrite Z.ones_equiv; lia).
  rewrite <- Z.shiftr_div_pow2, <- Z.shiftl_mul_pow2 by lia.
  apply Z.bits_inj'. intros n Hn.
  rewrite Z.land_spec, testbit_not32, Z.shiftl_spec by lia.
  destruct (Z_lt_le_dec n k) as [Hlt|Hge].
  - rewrite Z.ones_spec_low by lia. rewrite (Z.testbit_neg_r _ (n - k)) by lia.
    by rewrite andb_false_r, andb_false_r.
  - rewrite Z.ones_spec_high by lia. rewrite Z.shiftr_spec by lia.
    replace (n - k + k) with n by lia. cbn [negb]. rewrite andb_true_r.
    destruct (Z.ltb_spec n 32); [by rewrite andb_true_r|].
    by rewrite (testbit_false_above old_pos 32) by lia.
Qed.

(** Beyond 32 bits the conjunction drops the high part of the
    position: the mask is a 32-bit word. *)
Lemma round_down_word_wide (old_pos : Z) :
  0 ≤ old_pos →
  Z.land old_pos (not32 (META_ELEMENTS_PER_WORD p - 1)) =
  old_pos / META_ELEMENTS_PER_WORD p * META_ELEMENTS_PER_WORD p - 2 ^ 32 * (old_pos / 2 ^ 32).
Proof.
  intros Hpos.
  assert (Z.land old_pos (not32 (META_ELEMENTS_PER_WORD p - 1)) =
          Z.land (old_pos mod 2 ^ 32) (not32 (META_ELEMENTS_PER_WORD p - 1))) as ->.
  { apply Z.bits_inj'. intros n Hn. rewrite !Z.land_spec, testbit_not32 by lia.
    destruct (Z.ltb_spec n 32); [|by rewrite !andb_false_r].
    by rewrite Z.mod_pow2_bits_low by lia. }
  rewrite round_down_word by (apply Z.mod_pos_bound; lia).
  change (2 ^ 32) with 4294967296.
  destruct (bits_per_element_cases p) as [(_ & E & _)|(_ & E & _)]; rewrite E;
    Z.div_mod_to_equations; lia.
Qed.

Lemma next_in_word (d : data_t) (old_pos X : Z) :
  wf_bitmap p d → 0 ≤ old_pos < capacity_minus_1 d + 1 →
  0 ≤ X < 2 ^ 32 →
  (∀ n, 0 ≤ n →
     Z.testbit X n =
     Z.testbit (occupancy p (rd (valid d) (old_pos / META_ELEMENTS_PER_WORD p))) n &&
     (META_BITS_PER_ELEMENT p * (old_pos mod META_ELEMENTS_PER_WORD p) <? n)) →
  ∃ r, next_occupied p d (old_pos + 1) r ∧
    (if negb (X =? 0) then
       Z.land old_pos (not32 (META_ELEMENTS_PER_WORD p - 1)) +
       Internal.bsf32_nonzero X / META_BITS_PER_ELEMENT p
     else
       scan_words p
         (Z.to_nat (num_valid_words p (capacity_minus_1 d)
                    - (old_pos / META_ELEMENTS_PER_WORD p + 1)))
         (old_pos / META_ELEMENTS_PER_WORD p + 1) (valid d)) =
    if decide (r ≠ NPOS ∧ r / META_ELEMENTS_PER_WORD p = old_pos / META_ELEMENTS_PER_WORD p)
    then r - 2 ^ 32 * (old_pos / 2 ^ 32) else r.
Proof.
  intros Hb Hpos HX Hbits.
  pose proof (elements_per_word_pos p) as Hepw.
  pose proof (bits_per_element_pos p) as HB.
  destruct (slot_split old_pos (proj1 Hpos)) as (Hword & He0 & Hsplit).
  set (word := old_pos / META_ELEMENTS_PER_WORD p) in *.
  set (e0 := old_pos mod META_ELEMENTS_PER_WORD p) in *.
  pose proof (rd_range (valid d) word (wfb_range p d Hb)) as Hw.
  (* a VALID slot of the word after [old_pos] shows in [X] *)
  assert (∀ s, old_pos < s < (word + 1) * META_ELEMENTS_PER_WORD p →
               state_at p d s = VALID →
               Z.testbit X (META_BITS_PER_ELEMENT p * (s - word * META_ELEMENTS_PER_WORD p))
               = true) as Hshow.
  { intros s Hs Hv. apply state_valid_iff_bit in Hv; [|done|lia].
    assert (s / META_ELEMENTS_PER_WORD p = word) as Hsw.
    { symmetry. apply Z.div_unique with (r := s - word * META_ELEMENTS_PER_WORD p); lia. }
    assert (s mod META_ELEMENTS_PER_WORD p = s - word * META_ELEMENTS_PER_WORD p) as Hsm.
    { symmetry. apply Z.mod_unique with (q := word); lia. }
    rewrite Hsw, Hsm in Hv. rewrite Hbits by nia. rewrite Hv. cbn [andb].
    apply Z.ltb_lt. nia. }
  destruct (Z.eqb_spec X 0) as [Hz|Hnz]; cbn [negb].
  - assert (∀ s, old_pos < s < (word + 1) * META_ELEMENTS_PER_WORD p →
                 state_at p d s ≠ VALID) as Hnone.
    { intros s Hs Hv. specialize (Hshow s Hs Hv). by rewrite Hz, Z.bits_0 in Hshow. }
    pose proof (word_index_in_range p d old_pos (wfb_length p d Hb) Hpos) as Hwi.
    fold word in Hwi. rewrite <- (wfb_length p d Hb).
    pose proof (scan_words_spec d Hb
                  (Z.to_nat (Z.of_nat (length (valid d)) - (word + 1))) (word + 1)
                  ltac:(lia) ltac:(lia)) as Hscan.
    set (res := scan_words p _ _ _) in *. exists res.
    destruct Hscan as [[Hend Hrest]|(Hr & Hv & Hrest)].
    + split; [|rewrite decide_False; [done|by intros [? _]]].
      left. split; [done|]. intros s Hs.
      destruct (Z_lt_le_dec s ((word + 1) * META_ELEMENTS_PER_WORD p));
        [apply Hnone; lia|apply Hrest; lia].
    + split.
      * right. split; [lia|]. split; [done|]. intros s Hs.
        destruct (Z_lt_le_dec s ((word + 1) * META_ELEMENTS_PER_WORD p));
          [apply Hnone; lia|apply Hrest; lia].
      * rewrite decide_False; [done|]. intros [_ Hsame].
        assert (word + 1 ≤ res / META_ELEMENTS_PER_WORD p)
          by (apply Z.div_le_lower_bound; lia).
        lia.
  - destruct (bsf32_nonzero_spec _ HX Hnz) as (Hbit & Hset & Hmin).
    set (bit := Internal.bsf32_nonzero X) in *.
    rewrite Hbits in Hset by lia. apply andb_true_iff in Hset as [Hocc Habove].
    apply Z.ltb_lt in Habove.
    destruct (occupancy_bit_aligned p _ bit Hw) as [_ Hal]; [lia|done|].
    destruct (aligned_bit_element bit Hbit Hal) as [He Hbe].
    destruct (slot_join word _ He) as [Hdiv Hmod].
    rewrite round_down_word_wide by lia. fold word.
    exists (word * META_ELEMENTS_PER_WORD p + bit / META_BITS_PER_ELEMENT p). split.
    + right. split; [nia|]. split.
      * apply state_valid_iff_bit; [done|nia|]. by rewrite Hdiv, Hmod, Hbe.
      * intros s Hs Hv. specialize (Hshow s ltac:(nia) Hv).
        rewrite Hmin in Hshow; [done|]. nia.
    + rewrite decide_True; [lia|]. split; [change NPOS with (-1); nia|done].
Qed.

End Scan.

(** [get_next] on any storage: the next [VALID] slot, less the high
    part of the position when the slot is in the word of the position. *)
Lemma get_next_wide `{hp : hash_params} (p : erase_policy) (d : data_t) (old_pos : Z) :
  wf_bitmap p d → 0 ≤ old_pos < capacity_minus_1 d + 1 →
  ∃ r, next_occupied p d (old_pos + 1) r ∧
       Table.get_next p d old_pos =
       Some (if decide (r ≠ NPOS ∧
                        r / META_ELEMENTS_PER_WORD p = old_pos / META_ELEMENTS_PER_WORD p)
             then r - 2 ^ 32 * (old_pos / 2 ^ 32) else r).
Proof.
  intros Hb Hpos. unfold Table.get_next.
  destruct (Z.eqb_spec old_pos NPOS) as [E|_]; [change NPOS with (-1) in E; lia|].
  enough (∃ r, next_occupied p d (old_pos + 1) r ∧
            match p with
            | erase_policy_rehash =>
                Rehash.get_next old_pos (valid d) (old_pos / META_ELEMENTS_PER_WORD p)
                  (num_valid_words p (capacity_minus_1 d))
            | erase_policy_use_marker =>
                UseMarker.get_next old_pos (valid d) (old_pos / META_ELEMENTS_PER_WORD p)
                  (num_valid_words p (capacity_minus_1 d))
            end =
            if decide (r ≠ NPOS ∧
                       r / META_ELEMENTS_PER_WORD p = old_pos / META_ELEMENTS_PER_WORD p)
            then r - 2 ^ 32 * (old_pos / 2 ^ 32) else r) as (r & Hr & ->) by (by exists r).
  pose proof (elements_per_word_pos p) as Hepw.
  destruct (slot_split p old_pos (proj1 Hpos)) as (Hword & He0 & _).
  pose proof (rd_range (valid d) (old_pos / META_ELEMENTS_PER_WORD p) (wfb_range p d Hb))
    as Hw.
  destruct p.
  - unfold Rehash.get_next. rewrite !Rehash_scan_words_eq.
    apply (next_in_word _ d old_pos); [done..|by apply land_range|].
    intros n Hn. rewrite Z.land_spec. cbn [occupancy].
    destruct (Z_lt_le_dec n 32) as [Hn32|Hn32];
      [|by rewrite (testbit_false_above _ 32 n Hw) by lia].
    f_equal. rewrite land_elements_mask.
    set (e0 := old_pos mod META_ELEMENTS_PER_WORD erase_policy_rehash) in *.
    change (META_BITS_PER_ELEMENT erase_policy_rehash) with 1. rewrite Z.mul_1_r, Z.mul_1_l.
    rewrite testbit_shl32 by lia.
    replace (n <? 32) with true by (symmetry; apply Z.ltb_lt; lia). cbn [andb].
    destruct (Z.ltb_spec e0 n) as [Hlt|Hge].
    + rewrite testbit_shl32, testbit_not32 by lia. rewrite Z.bits_0. cbn [negb].
      replace (n - 1 <? 32) with true by (symmetry; apply Z.ltb_lt; lia).
      replace (n - 1 - e0 <? 32) with true by (symmetry; apply Z.ltb_lt; lia). done.
    + destruct (Z.eq_dec n 0) as [->|Hn0].
      * by rewrite (Z.testbit_neg_r _ (0 - 1)) by lia.
      * rewrite testbit_shl32 by lia. rewrite (Z.testbit_neg_r _ (n - 1 - e0)) by lia.
        by rewrite !andb_false_r.
  - unfold UseMarker.get_next. rewrite !UseMarker_scan_words_eq.
    apply (next_in_word _ d old_pos); [done..|by apply land_range, land_range|].
    intros n Hn. rewrite !Z.land_spec. cbn [occupancy]. rewrite Z.land_spec.
    rewrite land_elements_mask.
    set (e0 := old_pos mod META_ELEMENTS_PER_WORD erase_policy_use_marker) in *.
    change (META_BITS_PER_ELEMENT erase_policy_use_marker) with 2.
    rewrite testbit_shl32 by lia.
    destruct (Z.ltb_spec (2 * e0) n) as [Hlt|Hge].
    + rewrite testbit_not32 by lia. rewrite Z.bits_0. cbn [negb].
      destruct (Z.ltb_spec n 32) as [Hn32|Hn32]; cbn [andb].
      * replace (n - (e0 * 2 + 1) <? 32) with true by (symmetry; apply Z.ltb_lt; lia).
        by rewrite !andb_true_r.
      * rewrite (testbit_false_above _ 32 n Hw) by lia. done.
    + destruct (Z.eq_dec n (e0 * 2 + 1)) as [->|Hne1]; [lia|].
      destruct (Z.eq_dec n (2 * e0)) as [->|Hne2].
      * rewrite (Z.testbit_neg_r _ (2 * e0 - (e0 * 2 + 1))) by lia.
        by rewrite !andb_false_r.
      * rewrite (Z.testbit_neg_r _ (n - (e0 * 2 + 1))) by lia. by rewrite !andb_false_r.
Qed.

Lemma get_next_spec `{hp : hash_params} (p : erase_policy) (d : data_t) (old_pos : Z) :
  wf_bitmap p d → 0 ≤ old_pos < capacity_minus_1 d + 1 → capacity_minus_1 d < 2 ^ 32 →
  ∃ r, Table.get_next p d old_pos = Some r ∧ next_occupied p d (old_pos + 1) r.
Proof.
  intros Hb Hpos Hsmall. destruct (get_next_wide p d old_pos Hb Hpos) as (r & Hr & ->).
  exists r. split; [|done]. change (2 ^ 32) with 4294967296 in *.
  rewrite (Z.div_small old_pos 4294967296) by lia. rewrite Z.mul_0_r, Z.sub_0_r.
  by destruct (decide _).
Qed.


Lemma filter_none (P : Z → Prop) `{∀ x, Decision (P x)} (l : list Z) :
  (∀ x, x ∈ l → ¬ P x) → filter P l = [].
Proof.
  induction l as [|x l IH]; intros Hnone; [done|]. rewrite filter_cons.
  rewrite decide_False by (apply Hnone; by left). apply IH.
  intros y Hy. apply Hnone. by right.
Qed.

Section Iterate.
Context {hp : hash_params}.
Variable p : erase_policy.

Lemma occupied_from_nil (d : data_t) (i0 : Z) :
  (∀ s, i0 ≤ s → state_at p d s ≠ VALID) → occupied_from p d i0 = [].
Proof.
  intros Hnone. apply filter_none. intros x Hx. apply elem_of_seqZ in Hx.
  apply Hnone. lia.
Qed.

Lemma occupied_from_cons (d : data_t) (i0 r : Z) :
  i0 ≤ r < capacity_minus_1 d + 1 → state_at p d r = VALID →
  (∀ s, i0 ≤ s < r → state_at p d s ≠ VALID) →
  occupied_from p d i0 = r :: occupied_from p d (r + 1).
Proof.
  intros Hr Hv Hnone. unfold occupied_from.
  replace (capacity_minus_1 d + 1 - i0) with ((r - i0) + (capacity_minus_1 d + 1 - r)) by lia.
  rewrite seqZ_app, filter_app by lia.
  rewrite (filter_none _ (seqZ i0 (r - i0))).
  2:{ intros x Hx. apply elem_of_seqZ in Hx. apply Hnone. lia. }
  replace (i0 + (r - i0)) with r by lia.
  rewrite seqZ_cons by lia. rewrite filter_cons, decide_True by done.
  replace (Z.succ r) with (r + 1) by lia.
  replace (Z.pred (capacity_minus_1 d + 1 - r)) with (capacity_minus_1 d + 1 - (r + 1))
    by lia.
  done.
Qed.

Lemma occupied_from_0 (d : data_t) : occupied_from p d 0 = occupied_slots p d.
Proof. unfold occupied_from, occupied_slots. by rewrite Z.sub_0_r. Qed.

Lemma next_occupied_range (d : data_t) (i0 r : Z) :
  wf_bitmap p d → 0 ≤ i0 → next_occupied p d i0 r → r ≠ NPOS →
  i0 ≤ r < capacity_minus_1 d + 1 ∧ state_at p d r = VALID ∧
  ∀ s, i0 ≤ s < r → state_at p d s ≠ VALID.
Proof.
  intros Hb Hi0 [[-> _]|(Hr & Hv & Hnone)] Hne; [done|].
  split; [|done]. split; [done|].
  destruct (Z_lt_le_dec r (capacity_minus_1 d + 1)); [done|].
  destruct (wfb_states p d Hb r) as [_ Hout]; [lia|]. rewrite Hout in Hv by lia. done.
Qed.

Lemma iterate_from_spec (d : data_t) :
  wf_bitmap p d → capacity_minus_1 d < 2 ^ 32 →
  ∀ (fuel : nat) (i0 r : Z),
    0 ≤ i0 ≤ capacity_minus_1 d + 1 → capacity_minus_1 d + 1 - i0 < Z.of_nat fuel →
    next_occupied p d i0 r →
    Table.iterate_from p fuel d r = Some (occupied_from p d i0).
Proof.
  intros Hb Hsmall fuel. induction fuel as [|fuel IH]; intros i0 r [Hi0 Hi0'] Hfuel Hnext;
    [lia|].
  cbn [Table.iterate_from].
  destruct (Z.eqb_spec r NPOS) as [->|Hne].
  - destruct Hnext as [[_ Hnone]|(Hr & _)]; [|change NPOS with (-1) in Hr; lia].
    by rewrite occupied_from_nil.
  - destruct (next_occupied_range d i0 r Hb Hi0 Hnext Hne) as (Hr & Hv & Hnone).
    destruct (get_next_spec p d r Hb) as (r' & -> & Hnext'); [lia|done|].
    rewrite (IH (r + 1) r'); [|lia|lia|done].
    cbn. by rewrite (occupied_from_cons d i0 r).
Qed.

(** Within the first [2^32] slots the iteration visits the [VALID]
    slots, each once, in increasing order. *)
Lemma iterate_spec (d : data_t) :
  wf_bitmap p d → capacity_minus_1 d < 2 ^ 32 →
  Table.iterate p d = Some (occupied_slots p d).
Proof.
  intros Hb Hsmall. unfold Table.iterate. rewrite <- occupied_from_0.
  pose proof (capacity_pos d (wfb_capacity p d Hb)).
  apply iterate_from_spec; [done|done|lia|lia|]. by apply get_first_spec.
Qed.

End Iterate.

(** ** Growth *)

Lemma land_pow2_pred (n : Z) : 0 ≤ n → Z.land (2 ^ n) (2 ^ n - 1) = 0.
Proof.
  intros Hn. replace (2 ^ n - 1) with (Z.ones n) by (rewrite Z.ones_equiv; lia).
  rewrite Z.land_ones by done. apply Z.mod_same. apply Z.pow_nonzero; lia.
Qed.

Lemma pow2_lt_double (n m : Z) : 0 ≤ n → 0 ≤ m → 2 ^ n < 2 ^ m → 2 * 2 ^ n ≤ 2 ^ m.
Proof.
  intros Hn Hm Hlt. apply Z.pow_lt_mono_r_iff in Hlt; [|lia..].
  replace (2 * 2 ^ n) with (2 ^ (n + 1)) by (rewrite Z.pow_add_r; lia).
  apply Z.pow_le_mono_r; lia.
Qed.

Lemma rd_replicate (n : nat) (w : Z) : rd (replicate n 0) w = 0.
Proof.
  unfold rd. destruct (replicate n 0 !! Z.to_nat w) as [x|] eqn:E; [|done].
  apply lookup_replicate in E as [-> _]. done.
Qed.

Section Growth.
Context {hp : hash_params}.
Variable p : erase_policy.

Lemma state_at_fresh (d : data_t) (n : nat) (i : Z) :
  valid d = replicate n 0 → state_at p d i = INVALID.
Proof.
  intros Hv. unfold state_at, slot_state. rewrite Hv, rd_replicate.
  by rewrite Z.shiftr_0_l.
Qed.

Lemma occupied_slots_fresh (d : data_t) (n : nat) :
  valid d = replicate n 0 → occupied_slots p d = [].
Proof.
  intros Hv. apply filter_none. intros x _. by rewrite (state_at_fresh d n).
Qed.

(** A zeroed storage of capacity [2^m] without objects. *)
Lemma fresh_wf (d : data_t) (m : Z) :
  0 ≤ m → capacity_minus_1 d = 2 ^ m - 1 →
  valid d = replicate (Z.to_nat ((2 ^ m + META_ELEMENTS_PER_WORD p - 1)
                                   / META_ELEMENTS_PER_WORD p)) 0 →
  size d = 0 → key_table d = ∅ → value_table d = ∅ →
  wf p d ∧ no_stale p d ∧ (∀ i, state_at p d i = INVALID) ∧ ∀ k v, ¬ maps_to p d k v.
Proof.
  intros Hm Hc Hv Hs Hk Hw.
  pose proof (elements_per_word_pos p) as Hepw.
  assert (0 < 2 ^ m) by (apply Z.pow_pos_nonneg; lia).
  split; [split|split; [|split]].
  - exists m. split; [done|lia].
  - rewrite Hv, length_replicate, Hc. unfold num_valid_words.
    replace (2 ^ m - 1 + META_ELEMENTS_PER_WORD p) with
      (2 ^ m + META_ELEMENTS_PER_WORD p - 1) by lia.
    rewrite Z2Nat.id; [done|]. apply Z.div_pos; lia.
  - rewrite Hv. intros w Hw'. apply elem_of_replicate in Hw' as [-> _]. lia.
  - intros i _. rewrite (state_at_fresh d _ i Hv). by unfold INVALID.
  - by rewrite (occupied_slots_fresh d _ Hv).
  - intros i _. by rewrite (state_at_fresh d _ i Hv).
  - intros i k _. by rewrite (state_at_fresh d _ i Hv).
  - intros i j k _ _. by rewrite (state_at_fresh d _ i Hv).
  - intros i. rewrite Hk, Hw, !lookup_empty. intros [[? ?]|[? ?]]; done.
  - intros i. by apply (state_at_fresh d _ i Hv).
  - intros k v (i & _ & Hst & _). by rewrite (state_at_fresh d _ i Hv) in Hst.
Qed.

Lemma new_data_spec (m : Z) :
  0 ≤ m →
  ∃ nd, Table.new_data p (2 ^ m) = Some nd ∧
        wf p nd ∧ no_stale p nd ∧ (∀ i, state_at p nd i = INVALID) ∧
        (∀ k v, ¬ maps_to p nd k v) ∧
        size nd = 0 ∧ capacity_minus_1 nd = 2 ^ m - 1.
Proof.
  intros Hm. unfold Table.new_data.
  assert (0 < 2 ^ m) by (apply Z.pow_pos_nonneg; lia).
  destruct (Z.ltb_spec 0 (2 ^ m)) as [_|]; [|lia]. cbn [negb].
  rewrite land_pow2_pred, Z.eqb_refl by done. cbn [negb].
  eexists. split; [done|].
  destruct (fresh_wf
    {| key_table := ∅; value_table := ∅;
       valid := replicate (Z.to_nat ((2 ^ m + META_ELEMENTS_PER_WORD p - 1)
                                       / META_ELEMENTS_PER_WORD p)) 0;
       size := 0; capacity_minus_1 := 2 ^ m - 1 |} m) as (Hwf & Hns & Hinv & Hempty);
    try done.
Qed.

Lemma create_spec (m : Z) :
  0 ≤ m →
  ∃ d, Table.create p (2 ^ m) = Some d ∧
       wf p d ∧ no_stale p d ∧ (∀ i, state_at p d i = INVALID) ∧
       (∀ k v, ¬ maps_to p d k v) ∧
       size d = 0 ∧ capacity_minus_1 d = 2 ^ m - 1.
Proof.
  intros Hm. unfold Table.create.
  assert (0 < 2 ^ m) by (apply Z.pow_pos_nonneg; lia).
  destruct (Z.ltb_spec 0 (2 ^ m)) as [_|]; [|lia].
  rewrite land_pow2_pred, Z.eqb_refl by done. cbn [negb andb].
  eexists. split; [done|].
  destruct (fresh_wf
    {| key_table := ∅; value_table := ∅;
       valid := replicate (Z.to_nat ((2 ^ m + META_ELEMENTS_PER_WORD p - 1)
                                       / META_ELEMENTS_PER_WORD p)) 0;
       size := 0; capacity_minus_1 := 2 ^ m - 1 |} m) as (Hwf & Hns & Hinv & Hempty);
    try done.
Qed.

(** The loop of [increase_table_size] is the run of its body over the
    [VALID] slots. *)
Lemma rehash_loop_eq (d0 : data_t) :
  wf_bitmap p d0 → capacity_minus_1 d0 < 2 ^ 32 →
  ∀ (fuel : nat) (d nd : data_t) (i0 r : Z),
    valid d = valid d0 → capacity_minus_1 d = capacity_minus_1 d0 →
    0 ≤ i0 ≤ capacity_minus_1 d0 + 1 → capacity_minus_1 d0 + 1 - i0 < Z.of_nat fuel →
    next_occupied p d0 i0 r →
    Table.rehash_loop p fuel d nd r = rehash_all p (occupied_from p d0 i0) d nd.
Proof.
  intros Hb Hsmall fuel.
  induction fuel as [|fuel IH]; intros d nd i0 r Hv Hc [Hi0 Hi0'] Hfuel Hnext; [lia|].
  cbn [Table.rehash_loop].
  destruct (Z.eqb_spec r NPOS) as [->|Hne].
  - destruct Hnext as [[_ Hnone]|(Hr & _)]; [|change NPOS with (-1) in Hr; lia].
    by rewrite occupied_from_nil.
  - destruct (next_occupied_range p d0 i0 r Hb Hi0 Hnext Hne) as (Hr & Hst & Hnone).
    rewrite (occupied_from_cons p d0 i0 r) by done. cbn [rehash_all].
    destruct (key_table d !! r) as [k|]; [|done].
    destruct (value_table d !! r) as [v|]; [|done].
    destruct (Table.add_new_to p k v nd (hash_functor k)) as [[nd' ?]|]; [|done].
    destruct (get_next_spec p d0 r Hb) as (r' & Hr' & Hnext'); [lia|done|].
    assert (Table.get_next p
              {| key_table := delete r (key_table d);
                 value_table := delete r (value_table d);
                 valid := valid d; size := size d;
                 capacity_minus_1 := capacity_minus_1 d |} r = Some r') as ->.
    { rewrite <- Hr'. unfold Table.get_next. cbn [valid capacity_minus_1].
      by rewrite Hv, Hc. }
    apply (IH _ _ (r + 1)); [done|done|lia|lia|done].
Qed.

Lemma place_absent (d : data_t) (key : K) (value : V) (j : Z) (k' : K) :
  wf_bitmap p d → 0 ≤ j < capacity_minus_1 d + 1 →
  absent p d k' → k' ≠ key → absent p (place p d j key value) k'.
Proof.
  intros Hb Hj Habs Hne i Hi. rewrite place_state by done. cbn [key_table place].
  destruct (decide (i = j)) as [->|E].
  - intros _. rewrite lookup_insert_eq. by intros [= ->].
  - rewrite lookup_insert_ne by done. by apply Habs.
Qed.

Lemma add_new_to_places (d : data_t) (key : K) (value : V) :
  wf p d → absent p d key → size d * 2 ≤ capacity_minus_1 d →
  ∃ j, placeable p d key j ∧
       Table.add_new_to p key value d (hash_functor key) = Some (place p d j key value, j).
Proof.
  intros Hwf Habs Hload.
  destruct (add_new_pass_places p d key value Hwf Habs) as (j & Hpl & Hpass); [by right|].
  exists j. split; [done|]. unfold Table.add_new_to. by rewrite Hpass.
Qed.

Lemma rehash_all_spec (l : list Z) :
  ∀ d nd,
    wf p nd → no_stale p nd → NoDup l →
    (∀ i, i ∈ l → is_Some (key_table d !! i) ∧ is_Some (value_table d !! i)) →
    (∀ i j k, i ∈ l → j ∈ l →
              key_table d !! i = Some k → key_table d !! j = Some k → i = j) →
    (∀ i k, i ∈ l → key_table d !! i = Some k → absent p nd k) →
    (size nd + Z.of_nat (length l)) * 2 ≤ capacity_minus_1 nd + 2 →
    ∃ d' nd', rehash_all p l d nd = Some (d', nd') ∧ wf p nd' ∧ no_stale p nd' ∧
      capacity_minus_1 nd' = capacity_minus_1 nd ∧
      size nd' = size nd + Z.of_nat (length l) ∧
      ∀ k v, maps_to p nd' k v ↔
             maps_to p nd k v ∨
             ∃ i, i ∈ l ∧ key_table d !! i = Some k ∧ value_table d !! i = Some v.
Proof.
  induction l as [|i l IH]; intros d nd Hwf Hns Hnd Hlive Hdist Habs Hload.
  - exists d, nd. cbn [rehash_all length]. split; [done|]. split; [done|].
    split; [done|]. split; [done|]. split; [lia|].
    intros k v. split; [by left|]. intros [?|(i & Hi & _)]; [done|].
    by apply elem_of_nil in Hi.
  - apply NoDup_cons in Hnd as [Hi Hnd]. cbn [rehash_all].
    destruct (Hlive i) as [[k Hk] [v Hv]]; [by left|]. rewrite Hk, Hv.
    pose proof (wf_wf_bitmap p nd Hwf) as Hb.
    assert (0 ≤ size nd) as Hsz by (rewrite (wf_size p nd Hwf); lia).
    destruct (add_new_to_places nd k v Hwf) as (j & Hpl & ->).
    { by apply (Habs i); [left|]. }
    { cbn [length] in Hload. lia. }
    pose proof (placeable_range p nd k j (wf_pow2 p nd Hwf) Hpl) as Hj.
    assert (state_at p nd j ≠ VALID) as Hfree by (by destruct Hpl as (? & _ & _ & ? & _)).
    destruct (IH (destroy_slot d i) (place p nd j k v)) as
      (d' & nd' & Hrun & Hwf' & Hns' & Hc' & Hs' & Hmap').
    + apply place_wf; [done| |done]. by apply (Habs i); [left|].
    + by apply place_no_stale.
    + done.
    + intros i' Hi'. cbn [key_table value_table destroy_slot].
      rewrite !lookup_delete_ne by (by intros ->). apply Hlive. by right.
    + intros i1 i2 k' Hi1 Hi2. cbn [key_table destroy_slot].
      rewrite !lookup_delete_ne by (by intros ->). apply Hdist; by right.
    + intros i' k' Hi'. cbn [key_table destroy_slot].
      rewrite lookup_delete_ne by (by intros ->). intros Hk'.
      apply place_absent; [done|done| |].
      * by apply (Habs i'); [right|].
      * intros ->. destruct Hi. rewrite (Hdist i i' k); [done|by left|by right|done..].
    + cbn [size capacity_minus_1 place]. cbn [length] in Hload. lia.
    + exists d', nd'. split; [done|]. split; [done|]. split; [done|].
      split; [done|]. split; [cbn [size place length] in *; lia|].
      intros k' v'. rewrite Hmap'. rewrite place_maps_to by done.
      cbn [key_table value_table destroy_slot]. split.
      * intros [[Hm|[-> ->]]|(i' & Hi' & Hk' & Hv')].
        -- by left.
        -- right. exists i. split; [by left|done].
        -- right. exists i'. rewrite lookup_delete_ne in Hk' by (by intros ->).
           rewrite lookup_delete_ne in Hv' by (by intros ->).
           split; [by right|done].
      * intros [Hm|(i' & Hi' & Hk' & Hv')]; [by left; left|].
        apply elem_of_cons in Hi' as [->|Hi'].
        -- left; right. by simplify_eq.
        -- right. exists i'. rewrite !lookup_delete_ne by (by intros ->). done.
Qed.

Lemma size_le_capacity (d : data_t) : wf p d → 0 ≤ size d ≤ capacity_minus_1 d + 1.
Proof.
  intros Hwf. rewrite (wf_size p d Hwf). unfold occupied_slots.
  pose proof (length_filter (λ i, state_at p d i = VALID) (seqZ 0 (capacity_minus_1 d + 1))) as Hle.
  rewrite length_seqZ in Hle. pose proof (capacity_pos d (wf_pow2 p d Hwf)). lia.
Qed.

Lemma maps_to_occupied (d : data_t) (k : K) (v : V) :
  maps_to p d k v ↔
  ∃ i, i ∈ occupied_slots p d ∧ key_table d !! i = Some k ∧ value_table d !! i = Some v.
Proof.
  unfold maps_to, holds, occupied_slots. split.
  - intros (i & Hi & Hst & Hk & Hv). exists i. split; [|done].
    apply list_elem_of_filter. split; [done|]. apply elem_of_seqZ. lia.
  - intros (i & Hi & Hk & Hv). apply list_elem_of_filter in Hi as [Hst Hi].
    apply elem_of_seqZ in Hi. exists i. split; [lia|done].
Qed.

(** The migration of the [VALID] slots into a fresh storage of a
    larger capacity keeps the mapping and the size. *)
Lemma migrate_spec (d : data_t) (m : Z) :
  wf p d → 0 ≤ m → capacity_minus_1 d + 1 < 2 ^ m →
  ∃ nd0 d' nd,
    Table.new_data p (2 ^ m) = Some nd0 ∧
    rehash_all p (occupied_slots p d) d nd0 = Some (d', nd) ∧
    wf p nd ∧ no_stale p nd ∧ capacity_minus_1 nd = 2 ^ m - 1 ∧
    size nd = size d ∧ same_mapping p d nd.
Proof.
  intros Hwf Hm Hgrow.
  destruct (new_data_spec m Hm) as (nd0 & Hnd0 & Hwf0 & Hns0 & Hinv0 & Hempty & Hs0 & Hc0).
  pose proof (capacity_pos d (wf_pow2 p d Hwf)) as Hpos.
  destruct (wf_capacity p d Hwf) as (n & Hn & Hcap).
  assert (2 * (capacity_minus_1 d + 1) ≤ 2 ^ m) as Hdouble.
  { rewrite Hcap in *. by apply pow2_lt_double. }
  pose proof (size_le_capacity d Hwf) as Hsz.
  destruct (rehash_all_spec (occupied_slots p d) d nd0) as
    (d' & nd & Hrun & Hwf' & Hns' & Hc' & Hs' & Hmap); try done.
  - apply NoDup_filter, NoDup_seqZ.
  - intros i Hi. apply list_elem_of_filter in Hi as [Hst Hi]. apply elem_of_seqZ in Hi.
    apply (wf_live p d Hwf); [lia|done].
  - intros i j k Hi Hj. apply list_elem_of_filter in Hi as [Hsti Hi].
    apply list_elem_of_filter in Hj as [Hstj Hj].
    apply elem_of_seqZ in Hi. apply elem_of_seqZ in Hj.
    apply (wf_unique p d Hwf); (lia || done).
  - intros i k _ _ j _ Hst. by rewrite Hinv0 in Hst.
  - rewrite <- (wf_size p d Hwf). lia.
  - exists nd0, d', nd. split; [done|]. split; [done|]. split; [done|]. split; [done|].
    split; [lia|]. split; [rewrite Hs', Hs0, <- (wf_size p d Hwf); lia|].
    intros k v. rewrite Hmap, maps_to_occupied. split; [by right|].
    intros [Hm0|?]; [by destruct (Hempty k v)|done].
Qed.

(** Growth to a larger power of two keeps the mapping and the size. *)
Lemma increase_table_size_spec (d : data_t) (m : Z) :
  wf p d → capacity_minus_1 d < 2 ^ 32 → 0 ≤ m → capacity_minus_1 d + 1 < 2 ^ m →
  ∃ nd, Table.increase_table_size p d (2 ^ m) = Some nd ∧
        wf p nd ∧ no_stale p nd ∧ capacity_minus_1 nd = 2 ^ m - 1 ∧
        size nd = size d ∧ same_mapping p d nd.
Proof.
  intros Hwf Hsmall Hm Hgrow. unfold Table.increase_table_size.
  assert (0 < 2 ^ m) by (apply Z.pow_pos_nonneg; lia).
  rewrite land_pow2_pred, Z.eqb_refl by done. cbn [negb].
  destruct (Z.ltb_spec 0 (2 ^ m)) as [_|]; [|lia]. cbn [negb].
  destruct (migrate_spec d m Hwf Hm Hgrow) as (nd0 & d' & nd & -> & Hrun & Hrest).
  pose proof (wf_wf_bitmap p d Hwf) as Hb.
  pose proof (capacity_pos d (wf_pow2 p d Hwf)) as Hpos.
  rewrite (rehash_loop_eq d Hb Hsmall _ d nd0 0 (Table.get_first p d));
    [|done|done|lia|lia|by apply get_first_spec].
  rewrite occupied_from_0, Hrun. by exists nd.
Qed.

End Growth.

(** ** [add_new] with its restarts *)

Section AddNewRestart.
Context {hp : hash_params}.
Variable p : erase_policy.

Lemma occupied_size_pos (d : data_t) (i : Z) :
  wf p d → 0 ≤ i → state_at p d i = VALID → 1 ≤ size d.
Proof.
  intros Hwf Hi Hst. rewrite (wf_size p d Hwf).
  pose proof (valid_slot_in_range p d i Hwf Hi Hst) as Hlt.
  assert (i ∈ occupied_slots p d) as Hin.
  { apply list_elem_of_filter. split; [done|]. apply elem_of_seqZ. lia. }
  destruct (occupied_slots p d); [by apply elem_of_nil in Hin|]. cbn [length]. lia.
Qed.

(** Load after a store that followed a collision. *)
Lemma load_after_collision (d : data_t) :
  wf p d → 1 ≤ size d → size d * 2 ≤ capacity_minus_1 d →
  (size d + 1) * 2 ≤ capacity_minus_1 d + 1.
Proof.
  intros Hwf Hsz Hload. destruct (wf_capacity p d Hwf) as (n & Hn & Hcap).
  destruct (Z.eq_dec n 0) as [->|Hn0]; [change (2 ^ 0) with 1 in Hcap; lia|].
  replace n with (Z.succ (n - 1)) in Hcap by lia.
  rewrite Z.pow_succ_r in Hcap by lia. lia.
Qed.

Lemma add_new_restart_places (fuel : nat) (d : data_t) (key : K) (value : V) :
  wf p d → absent p d key → ¬ needs_growth p d key →
  ∃ i, placeable p d key i ∧
       Table.add_new_restart p (S fuel) key value d (hash_functor key) =
       Some (place p d i key value, i) ∧
       (i ≠ home d key → (size d + 1) * 2 ≤ capacity_minus_1 d + 1).
Proof.
  intros Hwf Habs Hng.
  assert (state_at p d (home d key) ≠ VALID ∨ size d * 2 ≤ capacity_minus_1 d) as Hcase.
  { unfold needs_growth in Hng.
    destruct (decide (state_at p d (home d key) = VALID)); [right; lia|by left]. }
  destruct (add_new_pass_places p d key value Hwf Habs Hcase) as (i & Hpl & Hpass).
  exists i. split; [done|]. cbn [Table.add_new_restart]. rewrite Hpass. split; [done|].
  intros Hne. destruct Hpl as (t1 & Ht1 & -> & Hfree & Hpath).
  pose proof (wf_pow2 p d Hwf) as Hc. pose proof (home_range d key Hc) as Hhome.
  assert (state_at p d (home d key) = VALID) as Hv.
  { rewrite <- (probe_0 d (home d key)) by done. apply Hpath.
    destruct (Z.eq_dec t1 0) as [->|]; [|lia]. by rewrite probe_0 in Hne. }
  destruct Hcase as [?|Hload]; [done|].
  apply load_after_collision; [done| |done].
  by apply (occupied_size_pos d (home d key)); [|lia|].
Qed.

Lemma add_new_restart_grows (fuel : nat) (d : data_t) (key : K) (value : V) :
  wf p d → absent p d key → needs_growth p d key → capacity_minus_1 d < 2 ^ 32 →
  ∃ d1, Table.increase_table_size p d ((capacity_minus_1 d + 1) * 2) = Some d1 ∧
        wf p d1 ∧ no_stale p d1 ∧
        capacity_minus_1 d1 + 1 = (capacity_minus_1 d + 1) * 2 ∧
        size d1 = size d ∧ same_mapping p d d1 ∧
        Table.add_new_restart p (S fuel) key value d (hash_functor key) =
        Table.add_new_restart p fuel key value d1 (hash_functor key).
Proof.
  intros Hwf Habs [Hv Hload] Hsmall.
  destruct (wf_capacity p d Hwf) as (n & Hn & Hcap).
  assert ((capacity_minus_1 d + 1) * 2 = 2 ^ (n + 1)) as Hdouble.
  { rewrite Hcap, Z.pow_add_r by lia. lia. }
  destruct (increase_table_size_spec p d (n + 1) Hwf Hsmall) as
    (d1 & Hgrow & Hwf1 & Hns1 & Hc1 & Hs1 & Hmap); [lia| |].
  { rewrite <- Hdouble. pose proof (capacity_pos d (wf_pow2 p d Hwf)). lia. }
  rewrite <- Hdouble in Hgrow. exists d1. split; [done|]. split; [done|].
  split; [done|]. split; [lia|]. split; [done|]. split; [done|].
  cbn [Table.add_new_restart].
  rewrite (add_new_pass_grows p d key value Hwf Habs Hv Hload). by rewrite Hgrow.
Qed.

Lemma absent_same_mapping (d d' : data_t) (key : K) :
  wf p d → wf p d' → same_mapping p d d' → absent p d key → absent p d' key.
Proof.
  intros Hwf Hwf' Hmap Habs i Hi Hst Hk.
  destruct (wf_live p d' Hwf' i Hi Hst) as [_ [v Hv]].
  assert (maps_to p d' key v) as Hm.
  { exists i. split; [|done]. split; [done|]. by apply (valid_slot_in_range p). }
  apply Hmap in Hm as (j & Hj & Hstj & Hkj & _). by apply (Habs j); [lia|..].
Qed.

Lemma extends_same_mapping (d d1 d' : data_t) (key : K) (value : V) :
  same_mapping p d d1 → extends p d1 d' key value → extends p d d' key value.
Proof. intros Hmap Hext k v. rewrite (Hext k v), (Hmap k v). done. Qed.

Lemma place_spec (d : data_t) (key : K) (value : V) (i : Z) :
  wf p d → absent p d key → placeable p d key i →
  wf p (place p d i key value) ∧ holds p (place p d i key value) i key value ∧
  extends p d (place p d i key value) key value ∧
  (no_stale p d → no_stale p (place p d i key value)).
Proof.
  intros Hwf Habs Hpl. pose proof (wf_wf_bitmap p d Hwf) as Hb.
  pose proof (placeable_range p d key i (wf_pow2 p d Hwf) Hpl) as Hi.
  assert (state_at p d i ≠ VALID) as Hfree by (by destruct Hpl as (? & _ & _ & ? & _)).
  split; [by apply place_wf|]. split; [apply place_holds; [done..|by right]|].
  split; [intros k v; by apply place_maps_to|]. by apply place_no_stale.
Qed.

(** [add_new] on a storage that does not hold the key: the element is
    stored after at most two doublings of the capacity. *)
Lemma add_new_restart_spec (fuel : nat) (d : data_t) (key : K) (value : V) :
  wf p d → absent p d key → capacity_minus_1 d < 2 ^ 31 →
  ∃ d' i g,
    Table.add_new_restart p (S (S (S fuel))) key value d (hash_functor key) = Some (d', i) ∧
    wf p d' ∧ (no_stale p d → no_stale p d') ∧ size d' = size d + 1 ∧
    holds p d' i key value ∧ extends p d d' key value ∧
    0 ≤ g ≤ 2 ∧ capacity_minus_1 d' + 1 = 2 ^ g * (capacity_minus_1 d + 1) ∧
    (g = 0 ↔ ¬ needs_growth p d key) ∧
    (0 < g → capacity_minus_1 d' + 1 ≤ 4 * size d) ∧
    (i ≠ home d' key → size d' * 2 ≤ capacity_minus_1 d' + 1).
Proof.
  intros Hwf Habs Hsmall.
  destruct (decide (needs_growth p d key)) as [Hg|Hg].
  2:{ destruct (add_new_restart_places (S (S fuel)) d key value Hwf Habs Hg)
        as (i & Hpl & Hrun & Hload).
      destruct (place_spec d key value i Hwf Habs Hpl) as (Hwf' & Hh & Hext & Hns').
      exists (place p d i key value), i, 0. split; [done|]. split; [done|].
      split; [done|]. split; [done|]. split; [done|]. split; [done|].
      split; [lia|]. split; [cbn [capacity_minus_1 place];
        change (2 ^ 0) with 1; change (2 ^ 1) with 2; change (2 ^ 2) with 4; lia|]. split; [done|].
      split; [lia|]. done. }
  destruct (add_new_restart_grows (S (S fuel)) d key value Hwf Habs Hg)
    as (d1 & _ & Hwf1 & Hns1 & Hc1 & Hs1 & Hmap1 & ->); [lia|].
  pose proof (absent_same_mapping d d1 key Hwf Hwf1 Hmap1 Habs) as Habs1.
  destruct (decide (needs_growth p d1 key)) as [Hg1|Hg1].
  2:{ destruct (add_new_restart_places (S fuel) d1 key value Hwf1 Habs1 Hg1)
        as (i & Hpl & Hrun & Hload).
      destruct (place_spec d1 key value i Hwf1 Habs1 Hpl) as (Hwf' & Hh & Hext & Hns').
      exists (place p d1 i key value), i, 1. split; [done|]. split; [done|].
      split; [intros _; by apply Hns'|]. split; [cbn [size place]; lia|]. split; [done|].
      split; [by apply (extends_same_mapping d d1)|].
      split; [lia|]. split; [cbn [capacity_minus_1 place];
        change (2 ^ 0) with 1; change (2 ^ 1) with 2; change (2 ^ 2) with 4; lia|].
      split; [split; [lia|done]|].
      split; [intros _; cbn [capacity_minus_1 place]; destruct Hg as [_ Hg]; lia|]. done. }
  destruct (add_new_restart_grows (S fuel) d1 key value Hwf1 Habs1 Hg1)
    as (d2 & _ & Hwf2 & Hns2 & Hc2 & Hs2 & Hmap2 & ->); [lia|].
  pose proof (absent_same_mapping d1 d2 key Hwf1 Hwf2 Hmap2 Habs1) as Habs2.
  assert (¬ needs_growth p d2 key) as Hg2.
  { intros [_ Hload]. pose proof (size_le_capacity p d Hwf).
    pose proof (capacity_pos d (wf_pow2 p d Hwf)). lia. }
  destruct (add_new_restart_places fuel d2 key value Hwf2 Habs2 Hg2)
    as (i & Hpl & Hrun & Hload).
  destruct (place_spec d2 key value i Hwf2 Habs2 Hpl) as (Hwf' & Hh & Hext & Hns').
  exists (place p d2 i key value), i, 2. split; [done|]. split; [done|].
  split; [intros _; by apply Hns'|]. split; [cbn [size place]; lia|]. split; [done|].
  split; [apply (extends_same_mapping d d1); [done|];
          by apply (extends_same_mapping d1 d2)|].
  split; [lia|]. split; [cbn [capacity_minus_1 place];
        change (2 ^ 0) with 1; change (2 ^ 1) with 2; change (2 ^ 2) with 4; lia|].
  split; [split; [lia|done]|].
  split; [intros _; cbn [capacity_minus_1 place]; destruct Hg1 as [_ Hg1]; lia|]. done.
Qed.

End AddNewRestart.

(** ** Arithmetic of circular distances *)

Lemma mod_cases (e c : Z) :
  0 < c → - c ≤ e < 2 * c →
  (e < 0 ∧ e mod c = e + c) ∨ (0 ≤ e < c ∧ e mod c = e) ∨ (c ≤ e ∧ e mod c = e - c).
Proof.
  intros Hc He.
  destruct (Z_lt_le_dec e 0); [left|destruct (Z_lt_le_dec e c); [right; left|right; right]].
  - split; [done|]. symmetry. apply Z.mod_unique with (q := -1); lia.
  - split; [done|]. by apply Z.mod_small.
  - split; [done|]. symmetry. apply Z.mod_unique with (q := 1); lia.
Qed.

(** Replaces every [e mod c] whose argument lies in [-c, 2c) by its value,
    splitting on the three cases. *)
Ltac mod_split c :=
  repeat match goal with
  | |- context [?e mod c] =>
      lazymatch e with
      | context [_ mod c] => fail
      | _ => idtac
      end;
      let H := fresh "Hmod" in
      destruct (mod_cases e c) as [[? H]|[[? H]|[? H]]]; [lia|lia|..];
      rewrite ?H in *; clear H
  | Hyp : context [?e mod c] |- _ =>
      lazymatch e with
      | context [_ mod c] => fail
      | _ => idtac
      end;
      let H := fresh "Hmod" in
      destruct (mod_cases e c) as [[? H]|[[? H]|[? H]]]; [lia|lia|..];
      rewrite ?H in *; clear H
  end.

Lemma keeps_place_spec (c i j h : Z) :
  0 < c → 0 ≤ i < c → 0 ≤ j < c → 0 ≤ h < c →
  keeps_place i j h = true ↔ 0 < (h - i) mod c ≤ (j - i) mod c.
Proof.
  intros Hc Hi Hj Hh. unfold keeps_place.
  destruct (Z.leb_spec i j); rewrite ?andb_true_iff, ?orb_true_iff, ?Z.ltb_lt, ?Z.leb_le;
    mod_split c; lia.
Qed.

Lemma succ_offset (c i j : Z) :
  0 < c → 0 ≤ i < c → 0 ≤ j < c → (j + 1) mod c ≠ i →
  ((j + 1) mod c - i) mod c = (j - i) mod c + 1.
Proof. intros Hc Hi Hj Hne. mod_split c; lia. Qed.

Lemma succ_offset_full (c i j : Z) :
  0 < c → 0 ≤ i < c → 0 ≤ j < c → (j + 1) mod c = i → (j - i) mod c = c - 1.
Proof. intros Hc Hi Hj He. mod_split c; lia. Qed.

(** An entry that keeps its place is closer to its home than to the
    hole; an entry that moves gets closer to its home by its distance
    from the hole. *)
Lemma kept_displacement (c i s h : Z) :
  0 < c → 0 ≤ i < c → 0 ≤ s < c → 0 ≤ h < c →
  0 < (h - i) mod c ≤ (s - i) mod c →
  (s - h) mod c < (s - i) mod c ∧ ¬ (i - h) mod c < (s - h) mod c.
Proof. intros Hc Hi Hs Hh Hk. mod_split c; lia. Qed.

Lemma moved_displacement (c i s h : Z) :
  0 < c → 0 ≤ i < c → 0 ≤ s < c → 0 ≤ h < c → s ≠ i →
  ¬ 0 < (h - i) mod c ≤ (s - i) mod c →
  (i - h) mod c + (s - i) mod c = (s - h) mod c.
Proof. intros Hc Hi Hs Hh Hne Hk. mod_split c; lia. Qed.

(** Slots beyond the hole on the probe sequence of an entry whose
    sequence passes the hole. *)
Lemma beyond_hole (c i s h q : Z) :
  0 < c → 0 ≤ i < c → 0 ≤ s < c → 0 ≤ h < c → 0 ≤ q < c →
  (i - h) mod c < (s - h) mod c → (q - i) mod c < (s - i) mod c →
  (q - h) mod c < (s - h) mod c.
Proof. intros Hc Hi Hs Hh Hq H1 H2. mod_split c; lia. Qed.

Lemma offset_zero (c a b : Z) : 0 < c → 0 ≤ a < c → 0 ≤ b < c → (a - b) mod c = 0 ↔ a = b.
Proof. intros Hc Ha Hb. split; [|intros ->; by rewrite Z.sub_diag]. mod_split c; lia. Qed.

Lemma offset_inj (c h a b : Z) :
  0 < c → 0 ≤ h < c → 0 ≤ a < c → 0 ≤ b < c → (a - h) mod c = (b - h) mod c → a = b.
Proof. intros Hc Hh Ha Hb. mod_split c; lia. Qed.

(** ** The hole left by an erasure *)

Section Hole.
Context {hp : hash_params}.
Variable p : erase_policy.

Lemma wf_chain_slots (d : data_t) : wf p d → chain_but p d None.
Proof.
  intros Hwf s k q Hs Hst Hk Hq Hlt _.
  pose proof (wf_pow2 p d Hwf) as Hc.
  rewrite <- (probe_offset d (home d k) q Hc Hq).
  apply (wf_chain p d Hwf s k Hs Hst Hk).
  pose proof (Z.mod_pos_bound (q - home d k) (capacity_minus_1 d + 1) (capacity_pos d Hc)).
  lia.
Qed.

Lemma chain_slots_wf (d : data_t) (i k : Z) (key : K) :
  pow2_capacity d → chain_but p d None →
  0 ≤ i → state_at p d i = VALID → key_table d !! i = Some key →
  ∀ j, 0 ≤ j < (i - home d key) mod (capacity_minus_1 d + 1) →
       state_at p d ((home d key + j) mod (capacity_minus_1 d + 1)) ≠ INVALID.
Proof.
  intros Hc Hch Hi Hst Hk j Hj. fold (probe d (home d key) j).
  pose proof (Z.mod_pos_bound (i - home d key) (capacity_minus_1 d + 1) (capacity_pos d Hc)).
  apply (Hch i key); [done..|by apply probe_range| |done].
  rewrite probe_offset_inv by (done || lia). lia.
Qed.

Lemma wf_core_wf (d : data_t) :
  wf_core p d → size d = Z.of_nat (length (occupied_slots p d)) → wf p d.
Proof.
  unfold wf_core. intros Hwf Hs. rewrite <- Hs in Hwf. by destruct d.
Qed.

Lemma punch_state (d : data_t) (idx q : Z) :
  wf_bitmap p d → 0 ≤ idx < capacity_minus_1 d + 1 → 0 ≤ q →
  state_at p (punch p d idx) q = if decide (q = idx) then INVALID else state_at p d q.
Proof.
  intros Hb Hi Hq.
  destruct (wf_bitmap_set p d (punch p d idx) idx INVALID Hb Hi (INVALID_le_mask p))
    as [_ Hst]; [by unfold INVALID|done..|]. by apply Hst.
Qed.

Lemma punch_bitmap (d : data_t) (idx : Z) :
  wf_bitmap p d → 0 ≤ idx < capacity_minus_1 d + 1 → wf_bitmap p (punch p d idx).
Proof.
  intros Hb Hi.
  by destruct (wf_bitmap_set p d (punch p d idx) idx INVALID Hb Hi (INVALID_le_mask p))
    as [? _]; [by unfold INVALID|done..|].
Qed.

Lemma shift_back_state (d : data_t) (i j : Z) (k : K) (v : V) (q : Z) :
  wf_bitmap p d → 0 ≤ i < capacity_minus_1 d + 1 → 0 ≤ j < capacity_minus_1 d + 1 → 0 ≤ q →
  state_at p (shift_back p d i j k v) q =
  if decide (q = j) then INVALID else if decide (q = i) then VALID else state_at p d q.
Proof.
  intros Hb Hi Hj Hq.
  destruct (wf_bitmap_set p d (place p d i k v) i VALID Hb Hi (VALID_le_mask p))
    as [Hb1 Hst1]; [done..|].
  destruct (wf_bitmap_set p (place p d i k v) (shift_back p d i j k v) j INVALID Hb1)
    as [Hb2 Hst2]; [done|apply INVALID_le_mask|by unfold INVALID|done..|].
  rewrite Hst2 by done. case_decide; [done|]. by rewrite Hst1.
Qed.

Lemma shift_back_bitmap (d : data_t) (i j : Z) (k : K) (v : V) :
  wf_bitmap p d → 0 ≤ i < capacity_minus_1 d + 1 → 0 ≤ j < capacity_minus_1 d + 1 →
  wf_bitmap p (shift_back p d i j k v).
Proof.
  intros Hb Hi Hj.
  destruct (wf_bitmap_set p d (place p d i k v) i VALID Hb Hi (VALID_le_mask p))
    as [Hb1 Hst1]; [done..|].
  by destruct (wf_bitmap_set p (place p d i k v) (shift_back p d i j k v) j INVALID Hb1)
    as [Hb2 Hst2]; [done|apply INVALID_le_mask|by unfold INVALID|done..|].
Qed.

Lemma occupied_slots_flip_off (d d' : data_t) (i : Z) :
  capacity_minus_1 d' = capacity_minus_1 d → 0 ≤ i < capacity_minus_1 d + 1 →
  state_at p d i = VALID → state_at p d' i ≠ VALID →
  (∀ j, 0 ≤ j → j ≠ i → state_at p d' j = state_at p d j) →
  length (occupied_slots p d) = S (length (occupied_slots p d')).
Proof.
  intros Hc Hi Hon Hoff Hsame.
  apply (occupied_slots_flip_on p d' d i); [done|lia|done|done|].
  intros j Hj Hne. symmetry. by apply Hsame.
Qed.

(** The storage right after the erased entry has been destroyed. *)
Lemma punch_inv (d : data_t) (idx : Z) (key : K) (v : V) :
  wf p d → holds p d idx key v →
  erase_inv p (no_stale p d) (punch p d idx) (punch p d idx) idx idx ∧
  removes p d (punch p d idx) key ∧
  length (occupied_slots p d) = S (length (occupied_slots p (punch p d idx))).
Proof.
  intros Hwf (Hidx & Hst & Hk & Hv).
  pose proof (wf_wf_bitmap p d Hwf) as Hb. pose proof (wf_pow2 p d Hwf) as Hc.
  assert (∀ q, 0 ≤ q → state_at p (punch p d idx) q =
               if decide (q = idx) then INVALID else state_at p d q) as Hps
    by (intros; by apply punch_state).
  split; [split|split].
  - by apply punch_bitmap.
  - done.
  - done.
  - done.
  - rewrite Hps by lia. by rewrite decide_True.
  - intros s Hs. rewrite Z.sub_diag, Z.mod_0_l by (cbn; lia). lia.
  - intros s Hs. rewrite Hps by done. case_decide as E; [done|].
    cbn [key_table value_table punch]. rewrite !lookup_delete_ne by done.
    by apply (wf_live p d Hwf).
  - intros s k q Hs Hsv Hsk Hq Hlt Hhole. rewrite Hps in Hsv by lia.
    rewrite Hps by lia. cbn [key_table capacity_minus_1 punch] in *.
    unfold home in Hlt. cbn [capacity_minus_1 punch] in Hlt. fold (home d k) in Hlt.
    destruct (decide (s = idx)) as [->|Es]; [done|].
    rewrite lookup_delete_ne in Hsk by done.
    rewrite decide_False by (by intros ->).
    by apply (wf_chain_slots d Hwf s k q).
  - intros s s' k Hs Hs'. rewrite !Hps by done. cbn [key_table punch].
    destruct (decide (s = idx)) as [->|Es]; [done|].
    destruct (decide (s' = idx)) as [->|Es']; [done|].
    rewrite !lookup_delete_ne by done. by apply (wf_unique p d Hwf).
  - done.
  - done.
  - intros Hns s. cbn [key_table value_table punch].
    destruct (decide (s = idx)) as [->|Es].
    + rewrite !lookup_delete_eq. by intros [[? ?]|[? ?]].
    + rewrite !lookup_delete_ne by done. intros Hobj. destruct (Hns s Hobj) as [Hs0 Hsv].
      split; [done|]. rewrite Hps by done. by rewrite decide_False.
  - intros k w. unfold maps_to, holds. cbn [key_table value_table capacity_minus_1 punch].
    split.
    + intros (s & Hs & Hsv & Hsk & Hsw). rewrite Hps in Hsv by lia.
      destruct (decide (s = idx)) as [->|Es]; [done|].
      rewrite lookup_delete_ne in Hsk by done. rewrite lookup_delete_ne in Hsw by done.
      split; [by exists s|]. intros ->. apply Es.
      apply (wf_unique p d Hwf s idx key); (lia || done).
    + intros [(s & Hs & Hsv & Hsk & Hsw) Hne]. exists s.
      assert (s ≠ idx) as Es by (intros ->; by simplify_eq).
      rewrite Hps by lia. rewrite decide_False by done.
      by rewrite !lookup_delete_ne by done.
  - apply (occupied_slots_flip_off d (punch p d idx) idx); [done|done|done| |].
    + rewrite Hps by lia. by rewrite decide_True.
    + intros j Hj Hne. rewrite Hps by done. by rewrite decide_False.
Qed.

End Hole.

(** ** Sums over the slots *)

Lemma sumZ_bounds (f : Z → Z) (l : list Z) (b : Z) :
  (∀ x, x ∈ l → 0 ≤ f x ≤ b) → 0 ≤ sumZ f l ≤ b * Z.of_nat (length l).
Proof.
  induction l as [|x l IH]; intros Hb; cbn [sumZ foldr length]; [lia|].
  fold (sumZ f l). specialize (Hb x (list_elem_of_here _ _)) as Hx.
  destruct IH as [IH1 IH2]; [intros y Hy; apply Hb; by right|]. lia.
Qed.

Lemma sumZ_ext_in (f g : Z → Z) (l : list Z) :
  (∀ x, x ∈ l → f x = g x) → sumZ f l = sumZ g l.
Proof.
  induction l as [|x l IH]; intros Heq; [done|]. cbn [sumZ foldr]. fold (sumZ f l) (sumZ g l).
  rewrite (Heq x) by (by left). rewrite IH; [done|]. intros y Hy. apply Heq. by right.
Qed.

Lemma sumZ_change (f g : Z → Z) (l : list Z) (a : Z) :
  NoDup l → a ∈ l → (∀ x, x ∈ l → x ≠ a → f x = g x) →
  sumZ g l = sumZ f l + (g a - f a).
Proof.
  induction l as [|x l IH]; intros Hnd Ha Heq; [by apply elem_of_nil in Ha|].
  apply NoDup_cons in Hnd as [Hx Hnd]. cbn [sumZ foldr]. fold (sumZ f l) (sumZ g l).
  destruct (decide (x = a)) as [->|Hne].
  - rewrite (sumZ_ext_in g f l); [lia|]. intros y Hy. symmetry. apply Heq; [by right|].
    by intros ->.
  - apply elem_of_cons in Ha as [?|Ha]; [done|].
    rewrite (Heq x) by (by left || done). rewrite IH; [lia|done..|].
    intros y Hy. apply Heq. by right.
Qed.

Lemma sumZ_change2 (f g : Z → Z) (l : list Z) (a b : Z) :
  NoDup l → a ∈ l → b ∈ l → a ≠ b → (∀ x, x ∈ l → x ≠ a → x ≠ b → f x = g x) →
  sumZ g l = sumZ f l + (g a - f a) + (g b - f b).
Proof.
  intros Hnd Ha Hb Hab Heq.
  set (h := λ x, if decide (x = a) then g x else f x).
  rewrite (sumZ_change h g l b); [|done..|].
  - rewrite (sumZ_change f h l a); [|done..|].
    + subst h. cbn. rewrite decide_True by done. rewrite decide_False by done. lia.
    + intros x Hx Hne. subst h. cbn. by rewrite decide_False.
  - intros x Hx Hne. subst h. cbn. case_decide; [done|]. by apply Heq.
Qed.

(** ** The scan of [do_erase] *)

Section EraseScan.
Context {hp : hash_params}.
Variable p : erase_policy.

Lemma displacement_range (d : data_t) (s : Z) :
  pow2_capacity d → 0 ≤ displacement p d s ≤ capacity_minus_1 d.
Proof.
  intros Hc. pose proof (capacity_pos d Hc). unfold displacement.
  case_decide; [|lia]. destruct (key_table d !! s) as [k|]; [|lia].
  pose proof (Z.mod_pos_bound (s - home d k) (capacity_minus_1 d + 1)). lia.
Qed.

Lemma total_displacement_range (d : data_t) :
  pow2_capacity d →
  0 ≤ total_displacement p d ≤ capacity_minus_1 d * (capacity_minus_1 d + 1).
Proof.
  intros Hc. pose proof (capacity_pos d Hc). unfold total_displacement.
  pose proof (sumZ_bounds (displacement p d) (seqZ 0 (capacity_minus_1 d + 1))
                (capacity_minus_1 d)) as Hb.
  rewrite length_seqZ, Z2Nat.id in Hb by lia. apply Hb.
  intros x _. by apply displacement_range.
Qed.

Lemma erase_measure_nonneg (tidy : Prop) (h0 d : data_t) (i j : Z) :
  erase_inv p tidy h0 d i j → 0 ≤ erase_measure p d i j.
Proof.
  intros Hinv. pose proof (wfb_capacity p d (ei_bitmap p _ _ _ _ _ Hinv)) as Hc.
  pose proof (capacity_pos d Hc). pose proof (total_displacement_range d Hc).
  pose proof (Z.mod_pos_bound (j - i) (capacity_minus_1 d + 1)).
  unfold erase_measure. nia.
Qed.

Lemma erase_measure_start (d : data_t) (idx : Z) :
  pow2_capacity d →
  erase_measure p d idx idx <
  (capacity_minus_1 d + 1) * (capacity_minus_1 d + 1) * (capacity_minus_1 d + 1).
Proof.
  intros Hc. pose proof (capacity_pos d Hc). pose proof (total_displacement_range d Hc).
  unfold erase_measure. rewrite Z.sub_diag, Z.mod_0_l by lia. nia.
Qed.

Lemma erase_skip (tidy : Prop) (h0 d : data_t) (i j : Z) (k2 : K) :
  erase_inv p tidy h0 d i j →
  state_at p d ((j + 1) mod (capacity_minus_1 d + 1)) = VALID →
  key_table d !! ((j + 1) mod (capacity_minus_1 d + 1)) = Some k2 →
  keeps_place i ((j + 1) mod (capacity_minus_1 d + 1)) (home d k2) = true →
  erase_inv p tidy h0 d i ((j + 1) mod (capacity_minus_1 d + 1)) ∧
  erase_measure p d i ((j + 1) mod (capacity_minus_1 d + 1)) = erase_measure p d i j - 1.
Proof.
  intros Hinv Hst Hk Hkeep. destruct Hinv as [Hb Hcap Hi Hj Hhole Hsc Hlive Hch Hun Hmap Hcnt Hns].
  pose proof (wfb_capacity p d Hb) as Hc. pose proof (capacity_pos d Hc) as Hpos.
  set (c := capacity_minus_1 d + 1) in *. set (j' := (j + 1) mod c) in *.
  assert (0 ≤ j' < c) as Hj' by (apply Z.mod_pos_bound; lia).
  assert (j' ≠ i) as Hne by (intros E; rewrite E, Hhole in Hst; done).
  pose proof (succ_offset c i j Hpos Hi Hj Hne) as Hoff. fold j' in Hoff.
  pose proof (home_range d k2 Hc) as Hh2. fold c in Hh2.
  split; [split; try done|].
  - intros s Hs Ho. fold c in Hs, Ho |- *. fold j' in Ho. rewrite Hoff in Ho.
    destruct (Z_le_gt_dec ((s - i) mod c) ((j - i) mod c)) as [Hle|Hgt];
      [apply Hsc; [done|lia]|].
    assert (s = j') as ->.
    { apply (offset_inj c i); [done..|]. lia. }
    split; [done|]. intros k Hk'. rewrite Hk in Hk'. injection Hk' as <-.
    apply (keeps_place_spec c i j' (home d k2) Hpos Hi Hj' Hh2). done.
  - unfold erase_measure. fold c j'. rewrite Hoff. lia.
Qed.

Lemma home_same_capacity (d d' : data_t) (k : K) :
  capacity_minus_1 d' = capacity_minus_1 d → home d' k = home d k.
Proof. intros Hc. unfold home. by rewrite Hc. Qed.

Lemma shift_back_key (d : data_t) (i j : Z) (k : K) (v : V) (q : Z) :
  i ≠ j →
  key_table (shift_back p d i j k v) !! q =
  if decide (q = j) then None else if decide (q = i) then Some k else key_table d !! q.
Proof.
  intros Hne. cbn [key_table shift_back]. case_decide as Ej.
  - subst q. apply lookup_delete_eq.
  - rewrite lookup_delete_ne by done. case_decide as Ei.
    + subst q. apply lookup_insert_eq.
    + by rewrite lookup_insert_ne.
Qed.

Lemma shift_back_value (d : data_t) (i j : Z) (k : K) (v : V) (q : Z) :
  i ≠ j →
  value_table (shift_back p d i j k v) !! q =
  if decide (q = j) then None else if decide (q = i) then Some v else value_table d !! q.
Proof.
  intros Hne. cbn [value_table shift_back]. case_decide as Ej.
  - subst q. apply lookup_delete_eq.
  - rewrite lookup_delete_ne by done. case_decide as Ei.
    + subst q. apply lookup_insert_eq.
    + by rewrite lookup_insert_ne.
Qed.

Lemma shift_back_displacement (d : data_t) (i j : Z) (k2 : K) (v2 : V) :
  wf_bitmap p d → 0 ≤ i < capacity_minus_1 d + 1 → 0 ≤ j < capacity_minus_1 d + 1 →
  i ≠ j → state_at p d i = INVALID → state_at p d j = VALID →
  key_table d !! j = Some k2 →
  total_displacement p (shift_back p d i j k2 v2) =
  total_displacement p d
  + (i - home d k2) mod (capacity_minus_1 d + 1)
  - (j - home d k2) mod (capacity_minus_1 d + 1).
Proof.
  intros Hb Hi Hj Hne Hsti Hstj Hk. unfold total_displacement.
  cbn [capacity_minus_1 shift_back].
  rewrite (sumZ_change2 (displacement p d) (displacement p (shift_back p d i j k2 v2))
             (seqZ 0 (capacity_minus_1 d + 1)) i j);
    [|apply NoDup_seqZ|apply elem_of_seqZ; lia|apply elem_of_seqZ; lia|done|].
  - unfold displacement. rewrite !shift_back_state by (done || lia).
    rewrite !shift_back_key by done. rewrite Hsti, Hstj, Hk.
    rewrite !(decide_False (P := i = j)) by done.
    rewrite !(decide_True (P := i = i)) by done.
    rewrite !(decide_True (P := j = j)) by done.
    rewrite !(decide_True (P := VALID = VALID)) by done.
    rewrite !(decide_False (P := INVALID = VALID)) by (unfold INVALID, VALID; lia).
    cbn [capacity_minus_1 shift_back].
    rewrite (home_same_capacity d (shift_back p d i j k2 v2)) by done. lia.
  - intros x Hx Hxi Hxj. apply elem_of_seqZ in Hx. unfold displacement.
    rewrite shift_back_state by (done || lia). rewrite shift_back_key by done.
    rewrite !(decide_False (P := x = j)) by done.
    rewrite !(decide_False (P := x = i)) by done. cbn [capacity_minus_1 shift_back].
    destruct (decide (state_at p d x = VALID)); [|done].
    destruct (key_table d !! x) as [k|]; [|done].
    by rewrite (home_same_capacity d (shift_back p d i j k2 v2)).
Qed.

Lemma erase_move (tidy : Prop) (h0 d : data_t) (i j : Z) (k2 : K) (v2 : V) :
  erase_inv p tidy h0 d i j →
  state_at p d ((j + 1) mod (capacity_minus_1 d + 1)) = VALID →
  key_table d !! ((j + 1) mod (capacity_minus_1 d + 1)) = Some k2 →
  value_table d !! ((j + 1) mod (capacity_minus_1 d + 1)) = Some v2 →
  keeps_place i ((j + 1) mod (capacity_minus_1 d + 1)) (home d k2) = false →
  let j' := (j + 1) mod (capacity_minus_1 d + 1) in
  erase_inv p tidy h0 (shift_back p d i j' k2 v2) j' j' ∧
  erase_measure p (shift_back p d i j' k2 v2) j' j' < erase_measure p d i j.
Proof.
  intros Hinv Hst Hk Hv Hkeep j'.
  destruct Hinv as [Hb Hcap Hi Hj Hhole Hsc Hlive Hch Hun Hmap Hcnt Hns].
  pose proof (wfb_capacity p d Hb) as Hc. pose proof (capacity_pos d Hc) as Hpos.
  set (c := capacity_minus_1 d + 1) in *. fold j' in Hst, Hk, Hv, Hkeep.
  assert (0 ≤ j' < c) as Hj' by (apply Z.mod_pos_bound; lia).
  assert (j' ≠ i) as Hne by (intros E; rewrite E, Hhole in Hst; done).
  assert (i ≠ j') as Hne' by (by intros ->).
  pose proof (home_range d k2 Hc) as Hh2. fold c in Hh2.
  assert (¬ 0 < (home d k2 - i) mod c ≤ (j' - i) mod c) as Hnk.
  { intros Hk'. apply (keeps_place_spec c i j' (home d k2) Hpos Hi Hj' Hh2) in Hk'.
    congruence. }
  pose proof (moved_displacement c i j' (home d k2) Hpos Hi Hj' Hh2 Hne Hnk) as Hmoved.
  assert (0 < (j' - i) mod c) as Hdist.
  { pose proof (Z.mod_pos_bound (j' - i) c Hpos).
    destruct (Z.eq_dec ((j' - i) mod c) 0) as [E|]; [|lia].
    apply offset_zero in E; [done|done..]. }
  set (d' := shift_back p d i j' k2 v2).
  assert (∀ q, 0 ≤ q → state_at p d' q =
            if decide (q = j') then INVALID
            else if decide (q = i) then VALID else state_at p d q) as Hss
    by (intros; by apply shift_back_state).
  assert (∀ q, key_table d' !! q =
            if decide (q = j') then None
            else if decide (q = i) then Some k2 else key_table d !! q) as Hsk
    by (intros; by apply shift_back_key).
  assert (∀ q, value_table d' !! q =
            if decide (q = j') then None
            else if decide (q = i) then Some v2 else value_table d !! q) as Hsv
    by (intros; by apply shift_back_value).
  assert (∀ k, home d' k = home d k) as Hhome by (intros; by apply home_same_capacity).
  split; [split|].
  - by apply shift_back_bitmap.
  - done.
  - done.
  - done.
  - rewrite Hss by lia. by rewrite decide_True.
  - intros s Hs Ho. change (capacity_minus_1 d' + 1) with c in Ho.
    rewrite Z.sub_diag, Z.mod_0_l in Ho by lia. lia.
  - intros s Hs. rewrite Hss, Hsk, Hsv by done.
    destruct (decide (s = j')); [done|]. destruct (decide (s = i)); [by split|].
    by apply Hlive.
  - intros s k q Hs Hsst Hskey Hq Hlt Hhole'.
    change (capacity_minus_1 d' + 1) with c in *. rewrite Hhome in Hlt.
    rewrite Hss in Hsst by done. rewrite Hsk in Hskey. rewrite Hss by lia.
    assert (q ≠ j') as Hqj by (by intros ->). rewrite decide_False by done.
    destruct (decide (q = i)) as [->|Hqi]; [done|].
    destruct (decide (s = j')) as [->|Hsj]; [done|].
    destruct (decide (s = i)) as [->|Hsi].
    + simplify_eq. apply (Hch j' k q); [lia|done|done|done| |by intros [= ->]].
      fold c. lia.
    + apply (Hch s k q); [done..|by intros [= ->]].
  - intros s s' k Hs Hs'. rewrite !Hss, !Hsk by done.
    destruct (decide (s = j')) as [->|Hsj]; [done|].
    destruct (decide (s' = j')) as [->|Hsj']; [done|].
    destruct (decide (s = i)) as [->|Hsi], (decide (s' = i)) as [->|Hsi']; [done| | |].
    + intros _ Hv' [= <-] Hk'. destruct Hsj'. by apply (Hun s' j' k2); [|lia|..].
    + intros Hv' _ Hk' [= <-]. destruct Hsj. by apply (Hun s j' k2); [|lia|..].
    + by apply Hun.
  - intros k v. rewrite (Hmap k v). unfold maps_to, holds.
    change (capacity_minus_1 d' + 1) with c. split.
    + intros (s & Hs & Hsst & Hskey & Hsval).
      destruct (decide (s = j')) as [->|Hsj].
      * exists i. rewrite Hss, Hsk, Hsv by lia.
        rewrite !(decide_False (P := i = j')) by done.
        rewrite !(decide_True (P := i = i)) by done.
        simplify_eq. split_and!; (done || lia).
      * assert (s ≠ i) as Hsi by (intros ->; rewrite Hhole in Hsst; done).
        exists s. rewrite Hss, Hsk, Hsv by lia.
        rewrite !(decide_False (P := s = j')) by done.
        rewrite !(decide_False (P := s = i)) by done.
        split_and!; (done || lia).
    + intros (s & Hs & Hsst & Hskey & Hsval). rewrite Hss in Hsst by lia.
      rewrite Hsk in Hskey. rewrite Hsv in Hsval.
      destruct (decide (s = j')) as [->|Hsj]; [done|].
      destruct (decide (s = i)) as [->|Hsi].
      * exists j'. simplify_eq. split_and!; (done || lia).
      * exists s. split_and!; (done || lia).
  - rewrite <- Hcnt.
    pose proof (occupied_slots_flip_on p d (place p d i k2 v2) i) as Hon.
    pose proof (occupied_slots_flip_off p (place p d i k2 v2) d' j') as Hoff.
    assert (∀ q, 0 ≤ q → state_at p (place p d i k2 v2) q =
              if decide (q = i) then VALID else state_at p d q) as Hps
      by (intros; by apply place_state).
    rewrite Hon in Hoff.
    + apply Nat.succ_inj. symmetry. apply Hoff; [done|done| | |].
      * rewrite Hps by lia. by rewrite decide_False.
      * rewrite Hss by lia. by rewrite decide_True.
      * intros q Hq Hqj. rewrite Hss, Hps by done. by rewrite decide_False.
    + done.
    + done.
    + by rewrite Hhole.
    + rewrite Hps by lia. by rewrite decide_True.
    + intros q Hq Hqi. rewrite Hps by done. by rewrite decide_False.
  - intros Htidy s. rewrite Hsk, Hsv.
    destruct (decide (s = j')) as [->|Hsj]; [by intros [[? ?]|[? ?]]|].
    destruct (decide (s = i)) as [->|Hsi].
    + intros _. split; [lia|]. rewrite Hss by lia. rewrite decide_False by done.
      by rewrite decide_True.
    + intros Hobj. destruct (Hns Htidy s Hobj) as [Hs0 Hsst]. split; [done|].
      rewrite Hss by done. by rewrite !decide_False.
  - unfold erase_measure. change (capacity_minus_1 d' + 1) with c.
    change (capacity_minus_1 d') with (capacity_minus_1 d). fold c.
    unfold d'. rewrite shift_back_displacement by done. fold c.
    rewrite Z.sub_diag, Z.mod_0_l by lia.
    pose proof (Z.mod_pos_bound (j - i) c Hpos). nia.
Qed.

End EraseScan.

Lemma field_test_word (w b sh : Z) :
  0 ≤ sh → 0 ≤ b → sh + b ≤ 32 →
  Z.land w (shl32 (Z.ones b) sh) = 0 ↔ Z.land (Z.shiftr w sh) (Z.ones b) = 0.
Proof.
  intros Hsh Hb Hfit. split; intros Hz; apply Z.bits_inj'; intros n Hn; rewrite Z.bits_0.
  - rewrite field_bits by lia. destruct (Z.ltb_spec n b); [|done]. cbn [andb].
    pose proof (f_equal (λ x, Z.testbit x (n + sh)) Hz) as Hbit. cbn in Hbit.
    rewrite Z.land_spec, testbit_shl32, Z.bits_0 in Hbit by lia.
    replace (n + sh - sh) with n in Hbit by lia.
    rewrite Z.testbit_ones_nonneg in Hbit by lia.
    replace (n + sh <? 32) with true in Hbit by (symmetry; apply Z.ltb_lt; lia).
    replace (n <? b) with true in Hbit by (symmetry; apply Z.ltb_lt; lia).
    by rewrite !andb_true_r in Hbit.
  - rewrite Z.land_spec, testbit_shl32 by lia.
    destruct (Z_lt_le_dec n sh) as [Hlo|Hhi].
    { rewrite (Z.testbit_neg_r _ (n - sh)) by lia. by rewrite !andb_false_r. }
    rewrite Z.testbit_ones_nonneg by lia.
    destruct (Z.ltb_spec (n - sh) b); [|by rewrite !andb_false_r].
    pose proof (f_equal (λ x, Z.testbit x (n - sh)) Hz) as Hbit. cbn in Hbit.
    rewrite field_bits, Z.bits_0 in Hbit by lia.
    replace (n - sh + sh) with n in Hbit by lia.
    replace (n - sh <? b) with true in Hbit by (symmetry; apply Z.ltb_lt; lia).
    cbn [andb] in Hbit. rewrite Hbit. done.
Qed.

Section EraseExit.
Context {hp : hash_params}.
Variable p : erase_policy.

(** The test [valid[word] & field_mask] of [do_erase]. *)
Lemma field_test (d : data_t) (idx : Z) :
  Z.land (rd (valid d) (idx / META_ELEMENTS_PER_WORD p)) (field_mask p idx) = 0 ↔
  state_at p d idx = INVALID.
Proof.
  unfold state_at, slot_state, field_mask, INVALID. rewrite !elem_mask_ones.
  pose proof (elem_shift_range p idx). pose proof (bits_per_element_pos p).
  apply field_test_word; lia.
Qed.

Lemma occupied_slots_with_size (d : data_t) (n : Z) :
  occupied_slots p (with_size d n) = occupied_slots p d.
Proof. done. Qed.

(** When the scan reaches an [INVALID] slot the storage is well formed
    again. *)
Lemma erase_exit (tidy : Prop) (h0 d : data_t) (i j : Z) :
  erase_inv p tidy h0 d i j →
  state_at p d ((j + 1) mod (capacity_minus_1 d + 1)) = INVALID →
  wf_core p d.
Proof.
  intros Hinv Hst. destruct Hinv as [Hb Hcap Hi Hj Hhole Hsc Hlive Hch Hun Hmap Hcnt Hns].
  pose proof (wfb_capacity p d Hb) as Hc. pose proof (capacity_pos d Hc) as Hpos.
  set (c := capacity_minus_1 d + 1) in *. set (j' := (j + 1) mod c) in *.
  assert (0 ≤ j' < c) as Hj' by (apply Z.mod_pos_bound; lia).
  assert (chain_but p d None) as Hfull.
  { intros s k q Hs Hsst Hskey Hq Hlt _. fold c in Hq, Hlt.
    destruct (decide (q = i)) as [->|Hqi]; [|by apply (Hch s k q); [..|intros [= ->]]].
    exfalso.
    assert (s < c) as Hsc'.
    { destruct (Z_lt_le_dec s c); [done|]. destruct (wfb_states p d Hb s Hs) as [_ Hout].
      rewrite Hout in Hsst by (fold c; lia). done. }
    assert (s ≠ i) as Hsi by (intros ->; rewrite Hhole in Hsst; done).
    pose proof (home_range d k Hc) as Hh. fold c in Hh.
    destruct (Z_le_gt_dec ((s - i) mod c) ((j - i) mod c)) as [Hin|Hout].
    - assert (0 < (s - i) mod c) as Hso.
      { pose proof (Z.mod_pos_bound (s - i) c Hpos).
        destruct (Z.eq_dec ((s - i) mod c) 0) as [E|]; [|lia].
        apply offset_zero in E; [done|done|lia|done]. }
      destruct (Hsc s) as [_ Hkept]; [lia|lia|].
      specialize (Hkept k Hskey).
      destruct (kept_displacement c i s (home d k)) as [_ Hno]; [done|done|lia|done|done|].
      done.
    - destruct (Z.eq_dec j' i) as [Eji|Eji].
      + pose proof (succ_offset_full c i j Hpos Hi Hj Eji).
        pose proof (Z.mod_pos_bound (s - i) c Hpos). lia.
      + pose proof (succ_offset c i j Hpos Hi Hj Eji) as Hoff. fold j' in Hoff.
        assert (s ≠ j') as Hsj by (intros ->; rewrite Hst in Hsst; done).
        assert ((j' - i) mod c < (s - i) mod c) as Hlt'.
        { destruct (Z.eq_dec ((j' - i) mod c) ((s - i) mod c)) as [E|]; [|lia].
          apply offset_inj in E; [done|done|done|done|lia]. }
        apply (Hch s k j'); [done|done|done|done| |by intros [= ->]|done].
        fold c. apply (beyond_hole c i s (home d k) j'); (done || lia). }
  split.
  - apply Hc.
  - apply (wfb_length p d Hb).
  - apply (wfb_range p d Hb).
  - apply (wfb_states p d Hb).
  - done.
  - apply Hlive.
  - intros s k Hs Hsst Hskey. by apply (chain_slots_wf p d s s k).
  - apply Hun.
Qed.

End EraseExit.

(** ** [erase] under the rehash policy *)

Section EraseRehash.
Context {hp : hash_params}.
Local Abbreviation p := erase_policy_rehash.

Lemma fill_is_set_valid (d : data_t) (i : Z) :
  wf_bitmap p d →
  wr (valid d) (i / META_ELEMENTS_PER_WORD p)
     (Z.lor (rd (valid d) (i / META_ELEMENTS_PER_WORD p)) (field_mask p i)) =
  set_state p (valid d) i VALID.
Proof.
  intros Hb. unfold set_state. f_equal.
  rewrite (fill_field_eq p i); [done|]. apply rd_range, (wfb_range p d Hb).
Qed.

Lemma clear_is_set_invalid (vs : list Z) (i : Z) :
  wr vs (i / META_ELEMENTS_PER_WORD p)
     (Z.land (rd vs (i / META_ELEMENTS_PER_WORD p)) (not32 (field_mask p i))) =
  set_state p vs i INVALID.
Proof. unfold set_state. f_equal. apply (clear_field_eq p). Qed.

Lemma do_erase_next_entry_spec (tidy : Prop) (h0 : data_t) :
  ∀ (fuel : nat) (d : data_t) (i j : Z),
    erase_inv p tidy h0 d i j → erase_measure p d i j < Z.of_nat fuel →
    ∃ valid' key_table' value_table',
      Rehash.do_erase_next_entry fuel i j (valid d) (capacity_minus_1 d)
        (key_table d) (value_table d) = Some (valid', key_table', value_table') ∧
      wf_core p (with_tables d valid' key_table' value_table') ∧
      same_mapping p h0 (with_tables d valid' key_table' value_table') ∧
      length (occupied_slots p (with_tables d valid' key_table' value_table')) =
        length (occupied_slots p h0) ∧
      (tidy → no_stale p (with_tables d valid' key_table' value_table')).
Proof.
  induction fuel as [|fuel IH]; intros d i j Hinv Hfuel.
  { pose proof (erase_measure_nonneg p tidy h0 d i j Hinv). lia. }
  pose proof (ei_bitmap p _ _ _ _ _ Hinv) as Hb.
  pose proof (wfb_capacity p d Hb) as Hc. pose proof (capacity_pos d Hc) as Hpos.
  cbn [Rehash.do_erase_next_entry]. rewrite land_capacity_mask by done.
  set (j' := (j + 1) mod (capacity_minus_1 d + 1)).
  assert (0 ≤ j' < capacity_minus_1 d + 1) as Hj' by (apply Z.mod_pos_bound; lia).
  destruct (Z.eqb_spec (Z.land (rd (valid d) (j' / META_ELEMENTS_PER_WORD p))
                          (field_mask p j')) 0) as [Hz|Hnz].
  { apply (field_test p d j') in Hz.
    exists (valid d), (key_table d), (value_table d). split; [done|].
    assert (with_tables d (valid d) (key_table d) (value_table d) = d) as ->
      by (by destruct d).
    split; [by apply (erase_exit p tidy h0 d i j)|].
    split; [apply (ei_map p _ _ _ _ _ Hinv)|].
    split; [apply (ei_count p _ _ _ _ _ Hinv)|apply (ei_stale p _ _ _ _ _ Hinv)]. }
  assert (state_at p d j' = VALID) as Hst.
  { pose proof (state_at_range p d j') as Hr. change (elem_mask p) with 1 in Hr.
    destruct (Z.eq_dec (state_at p d j') 0) as [E|]; [|unfold VALID; lia].
    by apply (field_test p d j') in E. }
  destruct (ei_live p _ _ _ _ _ Hinv j') as [[k2 Hk2] [v2 Hv2]]; [lia|done|].
  rewrite Hk2. fold (home d k2).
  destruct (keeps_place i j' (home d k2)) eqn:Hkeep.
  - destruct (erase_skip p tidy h0 d i j k2 Hinv Hst Hk2 Hkeep) as [Hinv' Hm'].
    fold j' in Hinv', Hm'. apply IH; [done|lia].
  - rewrite Hv2.
    destruct (erase_move p tidy h0 d i j k2 v2 Hinv Hst Hk2 Hv2 Hkeep) as [Hinv' Hm'].
    fold j' in Hinv', Hm'.
    destruct (IH (shift_back p d i j' k2 v2) j' j' Hinv') as
      (valid' & kt' & vt' & Hrun & Hres); [lia|].
    exists valid', kt', vt'. split; [|done].
    rewrite <- Hrun. cbn [valid key_table value_table capacity_minus_1 shift_back].
    rewrite fill_is_set_valid by done.
    by rewrite clear_is_set_invalid.
Qed.

Lemma do_erase_spec (d : data_t) (idx : Z) (key : K) (v : V) :
  wf p d → holds p d idx key v →
  ∃ valid' key_table' value_table',
    Table.do_erase p idx (destroy_slot d idx) = Some (valid', key_table', value_table') ∧
    let d' := with_size (with_tables d valid' key_table' value_table') (size d - 1) in
    wf p d' ∧ removes p d d' key ∧ (no_stale p d → no_stale p d').
Proof.
  intros Hwf Hh. destruct (punch_inv p d idx key v Hwf Hh) as (Hinv & Hrem & Hcnt).
  pose proof (wf_pow2 p d Hwf) as Hc.
  destruct (do_erase_next_entry_spec (no_stale p d) (punch p d idx)
              (Rehash.do_erase_fuel (capacity_minus_1 d)) (punch p d idx) idx idx Hinv)
    as (valid' & kt' & vt' & Hrun & Hcore & Hmap & Hlen & Hns).
  { unfold Rehash.do_erase_fuel. pose proof (capacity_pos d Hc).
    rewrite Z2Nat.id by nia.
    apply (erase_measure_start p (punch p d idx) idx Hc). }
  exists valid', kt', vt'. split.
  { unfold Table.do_erase, Rehash.do_erase.
    cbn [valid key_table value_table capacity_minus_1 destroy_slot].
    rewrite clear_is_set_invalid. apply Hrun. }
  cbn zeta. split; [|split].
  - apply (wf_core_wf p); [apply Hcore|].
    cbn [size with_size]. change (occupied_slots p (with_size ?x _)) with (occupied_slots p x).
    change (with_tables d valid' kt' vt') with (with_tables (punch p d idx) valid' kt' vt').
    rewrite Hlen. rewrite (wf_size p d Hwf), Hcnt. lia.
  - intros k w. rewrite <- (Hrem k w). symmetry. apply (Hmap k w).
  - apply Hns.
Qed.

End EraseRehash.

(** ** [erase] under the marker policy *)

Section EraseMarker.
Context {hp : hash_params}.
Local Abbreviation p := erase_policy_use_marker.

(** The storage after [erase] has destroyed the objects of slot [idx]
    and [do_erase] has left the marker. *)
Lemma do_erase_marker_eq (d : data_t) (idx : Z) :
  Table.do_erase p idx (destroy_slot d idx) =
  Some (set_state p (valid d) idx DELETED,
        delete idx (key_table d), delete idx (value_table d)).
Proof. done. Qed.

Lemma do_erase_marker_spec (d : data_t) (idx : Z) (key : K) (v : V) :
  wf p d → holds p d idx key v →
  let d' := with_size (with_tables d (set_state p (valid d) idx DELETED)
                         (delete idx (key_table d)) (delete idx (value_table d)))
                      (size d - 1) in
  wf p d' ∧ removes p d d' key ∧ (no_stale p d → no_stale p d') ∧
  ∀ q, 0 ≤ q → state_at p d' q = if decide (q = idx) then DELETED else state_at p d q.
Proof.
  intros Hwf (Hidx & Hst & Hk & Hv) d'.
  pose proof (wf_wf_bitmap p d Hwf) as Hb. pose proof (wf_pow2 p d Hwf) as Hc.
  destruct (wf_bitmap_set p d d' idx DELETED Hb Hidx) as [Hb' Hss]; [done..|].
  assert (length (occupied_slots p d) = S (length (occupied_slots p d'))) as Hcnt.
  { apply (occupied_slots_flip_off p d d' idx); [done|done|done| |].
    - rewrite Hss by lia. by rewrite decide_True.
    - intros j Hj Hne. rewrite Hss by done. by rewrite decide_False. }
  split; [split|split; [|split]].
  - apply (wfb_capacity p d' Hb').
  - apply (wfb_length p d' Hb').
  - apply (wfb_range p d' Hb').
  - apply (wfb_states p d' Hb').
  - cbn [size with_size d']. rewrite (wf_size p d Hwf), Hcnt. lia.
  - intros s Hs. rewrite Hss by done. case_decide as E; [done|].
    cbn [key_table value_table with_size with_tables d'].
    rewrite !lookup_delete_ne by done. by apply (wf_live p d Hwf).
  - intros s k Hs. rewrite Hss by done. destruct (decide (s = idx)) as [->|Es]; [done|].
    cbn [key_table value_table with_size with_tables d'].
    rewrite lookup_delete_ne by done. intros Hsv Hsk j Hj.
    change (home d' k) with (home d k).
    change (capacity_minus_1 d') with (capacity_minus_1 d) in *.
    rewrite Hss by (apply Z.mod_pos_bound, (capacity_pos d Hc)).
    case_decide; [done|]. by apply (wf_chain p d Hwf s k).
  - intros s s' k Hs Hs'. rewrite !Hss by done.
    cbn [key_table with_size with_tables d'].
    destruct (decide (s = idx)) as [->|Es]; [done|].
    destruct (decide (s' = idx)) as [->|Es']; [done|].
    rewrite !lookup_delete_ne by done. by apply (wf_unique p d Hwf).
  - intros k w. unfold maps_to, holds.
    cbn [key_table value_table capacity_minus_1 with_size with_tables d']. split.
    + intros (s & Hs & Hsv & Hsk & Hsw). rewrite Hss in Hsv by lia.
      destruct (decide (s = idx)) as [->|Es]; [done|].
      rewrite lookup_delete_ne in Hsk by done. rewrite lookup_delete_ne in Hsw by done.
      split; [by exists s|]. intros ->. apply Es.
      apply (wf_unique p d Hwf s idx key); (lia || done).
    + intros [(s & Hs & Hsv & Hsk & Hsw) Hne]. exists s.
      assert (s ≠ idx) as Es by (intros ->; by simplify_eq).
      rewrite Hss by lia. rewrite decide_False by done.
      by rewrite !lookup_delete_ne by done.
  - intros Hns s. cbn [key_table value_table with_size with_tables d'].
    destruct (decide (s = idx)) as [->|Es].
    + rewrite !lookup_delete_eq. by intros [[? ?]|[? ?]].
    + rewrite !lookup_delete_ne by done. intros Hobj. destruct (Hns s Hobj) as [Hs0 Hsv].
      split; [done|]. rewrite Hss by done. by rewrite decide_False.
  - done.
Qed.

End EraseMarker.

(** ** The public operations on a well-formed storage *)

Section Public.
Context {hp : hash_params}.
Variable p : erase_policy.

Lemma do_erase_any (d : data_t) (idx : Z) (key : K) (v : V) :
  wf p d → holds p d idx key v →
  ∃ valid' key_table' value_table',
    Table.do_erase p idx (destroy_slot d idx) = Some (valid', key_table', value_table') ∧
    let d' := with_size (with_tables d valid' key_table' value_table') (size d - 1) in
    wf p d' ∧ removes p d d' key ∧ (no_stale p d → no_stale p d').
Proof.
  destruct p; intros Hwf Hh.
  - by apply (do_erase_spec d idx key v).
  - rewrite do_erase_marker_eq. eexists _, _, _. split; [done|].
    destruct (do_erase_marker_spec d idx key v Hwf Hh) as (? & ? & ? & _). done.
Qed.

Lemma maps_to_functional (d : data_t) (k : K) (v v' : V) :
  wf p d → maps_to p d k v → maps_to p d k v' → v = v'.
Proof.
  intros Hwf (i & Hi & Hst & Hk & Hv) (i' & Hi' & Hst' & Hk' & Hv').
  assert (i = i') as -> by (apply (wf_unique p d Hwf i i' k); (lia || done)).
  congruence.
Qed.

Lemma absent_iff (d : data_t) (key : K) :
  wf p d → absent p d key ↔ ∀ v, ¬ maps_to p d key v.
Proof.
  intros Hwf. split.
  - intros Habs v (i & Hi & Hst & Hk & _). by apply (Habs i); [lia|..].
  - intros Hno i Hi Hst Hk. destruct (wf_live p d Hwf i Hi Hst) as [_ [v Hv]].
    apply (Hno v). exists i. split; [|done]. split; [done|].
    by apply (valid_slot_in_range p).
Qed.

(** [get_index], [count], [find] and the dereference of the iterator,
    in terms of the mapping. *)
Lemma lookup_cases (d : data_t) (key : K) :
  wf p d →
  (∃ i v, holds p d i key v ∧
          Table.get_index p key d = Some (true, i) ∧
          Table.count p key d = Some 1 ∧
          Table.find p key d = Some i ∧ i ≠ NPOS ∧
          Table.iter_deref d i = Some (key, v) ∧
          lookup_ p key d = Some (key, v)) ∨
  (absent p d key ∧
   Table.get_index p key d = Some (false, NPOS) ∧
   Table.count p key d = Some 0 ∧
   Table.find p key d = Some NPOS ∧
   lookup_ p key d = None).
Proof.
  intros Hwf. unfold lookup_, Table.count, Table.find.
  destruct (get_index_cases p d key Hwf) as [(i & -> & Hi & Hst & Hk)|[-> Habs]].
  - left. destruct (wf_live p d Hwf i (proj1 Hi) Hst) as [_ [v Hv]].
    exists i, v. split; [done|].
    assert (i ≠ NPOS) as Hne by (change NPOS with (-1); lia).
    assert (Table.iter_deref d i = Some (key, v)) as Hd
      by (unfold Table.iter_deref; by rewrite Hk, Hv).
    destruct (Z.eqb_spec i NPOS); [done|]. done.
  - right. done.
Qed.

Lemma maps_to_lookup (d : data_t) (key : K) (v : V) :
  wf p d → maps_to p d key v ↔ lookup_ p key d = Some (key, v).
Proof.
  intros Hwf. destruct (lookup_cases d key Hwf) as
    [(i & v' & Hh & _ & _ & _ & _ & _ & Hl)|(Habs & _ & _ & _ & Hl)]; rewrite Hl.
  - split.
    + intros Hm. f_equal. f_equal. apply (maps_to_functional d key); [done| |done].
      by exists i.
    + intros [= <-]. by exists i.
  - split; [|done]. intros Hm. by apply (absent_iff d key Hwf) in Hm.
Qed.

(** [erase] *)
Lemma erase_absent (d : data_t) (key : K) :
  wf p d → absent p d key → Table.erase p key d = Some d.
Proof.
  intros Hwf Habs. unfold Table.erase. fold (Table.get_index p key d).
  destruct (lookup_cases d key Hwf) as
    [(i & v & Hh & _)|(_ & -> & _)]; [|done].
  destruct Hh as (Hi & Hst & Hk & _). by destruct (Habs i (proj1 Hi) Hst).
Qed.

Lemma erase_present (d : data_t) (key : K) (i : Z) (v : V) :
  wf p d → holds p d i key v →
  ∃ d', Table.erase p key d = Some d' ∧ wf p d' ∧ removes p d d' key ∧
        size d' = size d - 1 ∧ capacity_minus_1 d' = capacity_minus_1 d ∧
        (no_stale p d → no_stale p d').
Proof.
  intros Hwf Hh. unfold Table.erase. fold (Table.get_index p key d).
  destruct Hh as (Hi & Hst & Hk & Hv).
  rewrite (get_index_present p d key i Hwf (proj1 Hi) Hst Hk).
  pose proof (occupied_size_pos p d i Hwf (proj1 Hi) Hst) as Hsz.
  destruct (Z.eqb_spec (size d) 0); [lia|]. rewrite Hk.
  rewrite bool_decide_eq_true_2 by done. cbn [negb].
  destruct (do_erase_any d i key v Hwf) as (valid' & kt' & vt' & Hrun & Hwf' & Hrem & Hns);
    [done|].
  fold (destroy_slot d i). rewrite Hrun. eexists. split; [done|].
  split; [apply Hwf'|]. split; [apply Hrem|]. split; [done|]. split; [done|]. apply Hns.
Qed.

(** [insert] *)
Lemma insert_present (d : data_t) (key : K) (value : V) (i : Z) (v : V) :
  wf p d → holds p d i key v → Table.insert p key value d = Some (false, d).
Proof.
  intros Hwf (Hi & Hst & Hk & Hv). unfold Table.insert. fold (Table.get_index p key d).
  by rewrite (get_index_present p d key i Hwf (proj1 Hi) Hst Hk).
Qed.

Lemma insert_absent (d : data_t) (key : K) (value : V) :
  wf p d → absent p d key → capacity_minus_1 d < 2 ^ 31 →
  ∃ d' i g,
    Table.insert p key value d = Some (true, d') ∧
    wf p d' ∧ (no_stale p d → no_stale p d') ∧ size d' = size d + 1 ∧
    holds p d' i key value ∧ extends p d d' key value ∧
    0 ≤ g ≤ 2 ∧ capacity_minus_1 d' + 1 = 2 ^ g * (capacity_minus_1 d + 1) ∧
    (g = 0 ↔ ¬ needs_growth p d key) ∧
    (0 < g → capacity_minus_1 d' + 1 ≤ 4 * size d) ∧
    (i ≠ home d' key → size d' * 2 ≤ capacity_minus_1 d' + 1).
Proof.
  intros Hwf Habs Hsmall. unfold Table.insert. fold (Table.get_index p key d).
  destruct (lookup_cases d key Hwf) as
    [(i & v & Hh & _)|(_ & -> & _)].
  { destruct Hh as (Hi & Hst & Hk & _). by destruct (Habs i (proj1 Hi) Hst). }
  unfold Table.add_new_hash.
  destruct (add_new_restart_spec p 61 d key value Hwf Habs Hsmall)
    as (d' & i & g & -> & Hrest).
  exists d', i, g. split; [done|]. apply Hrest.
Qed.

(** [operator[]] *)
Lemma index_present (d : data_t) (key : K) (i : Z) (v : V) :
  wf p d → holds p d i key v → Table.index p key d = Some (i, d).
Proof.
  intros Hwf (Hi & Hst & Hk & Hv). unfold Table.index. fold (Table.get_index p key d).
  by rewrite (get_index_present p d key i Hwf (proj1 Hi) Hst Hk).
Qed.

Lemma index_absent (d : data_t) (key : K) :
  wf p d → absent p d key → capacity_minus_1 d < 2 ^ 31 →
  ∃ d' i,
    Table.index p key d = Some (i, d') ∧
    wf p d' ∧ (no_stale p d → no_stale p d') ∧ size d' = size d + 1 ∧
    holds p d' i key V_default ∧ extends p d d' key V_default ∧
    capacity_minus_1 d ≤ capacity_minus_1 d' ∧
    capacity_minus_1 d' + 1 ≤ Z.max (capacity_minus_1 d + 1) (4 * size d).
Proof.
  intros Hwf Habs Hsmall. unfold Table.index. fold (Table.get_index p key d).
  destruct (lookup_cases d key Hwf) as
    [(i & v & Hh & _)|(_ & -> & _)].
  { destruct Hh as (Hi & Hst & Hk & _). by destruct (Habs i (proj1 Hi) Hst). }
  unfold Table.add_new_hash.
  destruct (add_new_restart_spec p 61 d key V_default Hwf Habs Hsmall)
    as (d' & i & g & -> & Hwf' & Hns' & Hs' & Hh' & Hext & Hg & Hcap & Hg0 & Hg4 & _).
  exists d', i. destruct Hh' as (Hi' & Hst' & Hk' & Hv'). rewrite Hk'.
  rewrite bool_decide_eq_true_2 by done.
  pose proof (capacity_pos d (wf_pow2 p d Hwf)) as Hpos.
  assert (g = 0 ∨ g = 1 ∨ g = 2) as [-> | [-> | ->]] by lia;
    [change (2 ^ 0) with 1 in Hcap|change (2 ^ 1) with 2 in Hcap|change (2 ^ 2) with 4 in Hcap];
    (split_and!; [done..|lia|lia]).
Qed.

End Public.

(** ** Preservation of the invariants by the public operations *)

Section Preservation.
Context {hp : hash_params}.
Variable p : erase_policy.

Lemma placeable_unique (d : data_t) (key : K) (i j : Z) :
  placeable p d key i → placeable p d key j → i = j.
Proof.
  intros (t & Ht & -> & Hfree & Hpath) (u & Hu & -> & Hfree' & Hpath').
  destruct (Z.lt_trichotomy t u) as [Hlt|[->|Hlt]]; [|done|].
  - destruct Hfree. apply Hpath'. lia.
  - destruct Hfree'. apply Hpath. lia.
Qed.

(** An insertion that meets no collision above the threshold stores
    the element where the walk ends, whatever the capacity. *)
Lemma insert_in_place (d : data_t) (key : K) (value : V) :
  wf p d → absent p d key → ¬ needs_growth p d key →
  ∃ i, placeable p d key i ∧
       Table.insert p key value d = Some (true, place p d i key value) ∧
       (i ≠ home d key → (size d + 1) * 2 ≤ capacity_minus_1 d + 1).
Proof.
  intros Hwf Habs Hng. unfold Table.insert. fold (Table.get_index p key d).
  destruct (lookup_cases p d key Hwf) as [(i & v & Hh & _)|(_ & -> & _)].
  { destruct Hh as (Hi & Hst & Hk & _). by destruct (Habs i (proj1 Hi) Hst). }
  unfold Table.add_new_hash.
  destruct (add_new_restart_places p 63 d key value Hwf Habs Hng) as (i & Hpl & -> & Hload).
  by exists i.
Qed.

Lemma create_wf (default_size : Z) (d : data_t) :
  Table.create p default_size = Some d →
  wf p d ∧ no_stale p d ∧ (∀ i, state_at p d i = INVALID) ∧
  size d = 0 ∧ capacity_minus_1 d = default_size - 1.
Proof.
  unfold Table.create. intros Hc.
  destruct (0 <? default_size) eqn:Hpos; [|done].
  destruct (Z.land default_size (default_size - 1) =? 0) eqn:Hpow; [|done].
  cbn [andb negb] in Hc. injection Hc as <-.
  apply Z.ltb_lt in Hpos. apply Z.eqb_eq in Hpow.
  assert (∃ m, 0 ≤ m ∧ default_size = 2 ^ m) as (m & Hm & ->).
  { exists (Z.log2 default_size). split; [apply Z.log2_nonneg|].
    destruct (Z.log2_spec default_size Hpos) as [Hlo Hhi].
    destruct (Z.eq_dec default_size (2 ^ Z.log2 default_size)) as [|Hne]; [done|].
    exfalso.
    assert (Z.testbit (Z.land default_size (default_size - 1)) (Z.log2 default_size) = true)
      as Hbit.
    { rewrite Z.land_spec, (Z.bit_log2 default_size Hpos). cbn [andb].
      pose proof (Z.log2_nonneg default_size) as Hl.
      assert (Z.log2 (default_size - 1) = Z.log2 default_size) as Hl2.
      { apply Z.log2_unique; [done|]. lia. }
      rewrite <- Hl2. apply Z.bit_log2. lia. }
    rewrite Hpow, Z.bits_0 in Hbit. done. }
  destruct (create_spec p m Hm) as (d & Hd & Hwf & Hns & Hst & _ & Hsz & Hcap).
  unfold Table.create in Hd. rewrite (proj2 (Z.ltb_lt _ _) Hpos) in Hd.
  rewrite (proj2 (Z.eqb_eq _ _) Hpow) in Hd. cbn [andb negb] in Hd. injection Hd as <-.
  split; [done|]. split; [done|]. split; [done|]. split; [done|]. cbn [capacity_minus_1]. done.
Qed.

Lemma insert_wf (d d' : data_t) (key : K) (value : V) (b : bool) :
  wf p d → capacity_minus_1 d < 2 ^ 31 →
  Table.insert p key value d = Some (b, d') →
  wf p d' ∧ (no_stale p d → no_stale p d').
Proof.
  intros Hwf Hsmall Hrun.
  destruct (lookup_cases p d key Hwf) as [(i & v & Hh & _)|(Habs & _)].
  - rewrite (insert_present p d key value i v Hwf Hh) in Hrun. by simplify_eq.
  - destruct (insert_absent p d key value Hwf Habs Hsmall)
      as (d1 & i & g & Hrun1 & Hwf1 & Hns1 & _).
    rewrite Hrun1 in Hrun. by simplify_eq.
Qed.

Lemma erase_wf (d d' : data_t) (key : K) :
  wf p d → Table.erase p key d = Some d' → wf p d' ∧ (no_stale p d → no_stale p d').
Proof.
  intros Hwf Hrun.
  destruct (lookup_cases p d key Hwf) as [(i & v & Hh & _)|(Habs & _)].
  - destruct (erase_present p d key i v Hwf Hh) as (d1 & Hrun1 & Hwf1 & _ & _ & _ & Hns1).
    rewrite Hrun1 in Hrun. by simplify_eq.
  - rewrite (erase_absent p d key Hwf Habs) in Hrun. by simplify_eq.
Qed.

Lemma removed_absent (d d' : data_t) (key : K) :
  wf p d' → removes p d d' key → absent p d' key.
Proof.
  intros Hwf' Hrem. apply absent_iff; [done|]. intros v Hm.
  apply Hrem in Hm as [_ Hne]. done.
Qed.

(** In a storage without element every walk ends at once. *)
Lemma empty_absent (d : data_t) (key : K) : wf p d → size d = 0 → absent p d key.
Proof.
  intros Hwf Hsz i Hi Hst _. pose proof (occupied_size_pos p d i Hwf Hi Hst). lia.
Qed.

Lemma empty_no_growth (d : data_t) (key : K) :
  wf p d → size d = 0 → ¬ needs_growth p d key.
Proof.
  intros Hwf Hsz [_ Hload]. pose proof (capacity_pos d (wf_pow2 p d Hwf)). lia.
Qed.

Lemma empty_placeable (d : data_t) (key : K) (i : Z) :
  wf p d → size d = 0 → placeable p d key i → i = home d key.
Proof.
  intros Hwf Hsz (t & Ht & -> & Hfree & Hpath).
  pose proof (wf_pow2 p d Hwf) as Hc. pose proof (home_range d key Hc) as Hh.
  destruct (Z.eq_dec t 0) as [->|Hne]; [by rewrite probe_0|].
  assert (state_at p d (probe d (home d key) 0) = VALID) as Hv by (apply Hpath; lia).
  pose proof (probe_range d (home d key) 0 Hc) as Hr.
  pose proof (occupied_size_pos p d _ Hwf (proj1 Hr) Hv). lia.
Qed.

End Preservation.

(** ** [clear], the write through [operator[]] and runs of calls *)

Section Runs.
Context {hp : hash_params}.
Variable p : erase_policy.

Lemma clear_loop_fields (n : nat) :
  ∀ i vv vp d,
    valid (Table.clear_loop p n i vv vp d) = valid d ∧
    size (Table.clear_loop p n i vv vp d) = size d ∧
    capacity_minus_1 (Table.clear_loop p n i vv vp d) = capacity_minus_1 d.
Proof.
  induction n as [|n IH]; intros i vv vp d; [done|]. cbn [Table.clear_loop].
  set (d1 := if Z.land vv (elem_mask p) =? VALID then _ else d).
  assert (valid d1 = valid d ∧ size d1 = size d ∧ capacity_minus_1 d1 = capacity_minus_1 d)
    as (Hv & Hs & Hc) by (subst d1; by destruct (_ =? VALID)).
  destruct (_ =? META_ELEMENTS_PER_WORD p - 1);
    match goal with |- context [Table.clear_loop p n ?a ?b ?c ?e] =>
      destruct (IH a b c e) as (-> & -> & ->) end; done.
Qed.

(** A storage whose bitmap is zero is well formed whatever its arrays
    hold. *)
Lemma zero_bitmap_wf (d : data_t) :
  pow2_capacity d →
  valid d = replicate (Z.to_nat (num_valid_words p (capacity_minus_1 d))) 0 →
  size d = 0 →
  wf p d ∧ ∀ i, state_at p d i = INVALID.
Proof.
  intros Hc Hv Hs.
  assert (∀ i, state_at p d i = INVALID) as Hst by (intros i; by apply (state_at_fresh p d _ i Hv)).
  split; [|done]. split.
  - done.
  - rewrite Hv, length_replicate, Z2Nat.id; [done|].
    pose proof (elements_per_word_pos p). pose proof (capacity_pos d Hc).
    apply Z.div_pos; lia.
  - intros w Hw. rewrite Hv in Hw. apply elem_of_replicate in Hw as [-> _]. lia.
  - intros i Hi. rewrite Hst. split; [by unfold INVALID|done].
  - rewrite (occupied_slots_fresh p d _ Hv). done.
  - intros i _ Hi. rewrite Hst in Hi. by unfold INVALID, VALID in Hi.
  - intros i k _ Hi. rewrite Hst in Hi. by unfold INVALID, VALID in Hi.
  - intros i j k _ _ Hi. rewrite Hst in Hi. by unfold INVALID, VALID in Hi.
Qed.

Lemma clear_spec (d : data_t) :
  wf p d →
  wf p (Table.clear p d) ∧ (∀ i, state_at p (Table.clear p d) i = INVALID) ∧
  size (Table.clear p d) = 0 ∧ capacity_minus_1 (Table.clear p d) = capacity_minus_1 d ∧
  valid (Table.clear p d) = replicate (Z.to_nat (num_valid_words p (capacity_minus_1 d))) 0.
Proof.
  intros Hwf. unfold Table.clear.
  destruct (clear_loop_fields (Z.to_nat (capacity_minus_1 d + 1)) 0 (rd (valid d) 0) 0 d)
    as (Hv & Hs & Hc).
  set (d1 := Table.clear_loop p _ _ _ _ _) in *.
  set (d2 := Build_data_t _ _ _ _ _ _).
  assert (Table.capacity d1 + META_ELEMENTS_PER_WORD p - 1 =
          capacity_minus_1 d + META_ELEMENTS_PER_WORD p) as Hn
    by (unfold Table.capacity; rewrite Hc; lia).
  assert (valid d2 = replicate (Z.to_nat (num_valid_words p (capacity_minus_1 d))) 0) as Hv2.
  { subst d2. cbn [valid]. rewrite Hn. fold (num_valid_words p (capacity_minus_1 d)).
    rewrite Hv, drop_ge, app_nil_r; [done|].
    pose proof (wf_valid_length p d Hwf). lia. }
  assert (capacity_minus_1 d2 = capacity_minus_1 d) as Hc2 by done.
  destruct (zero_bitmap_wf d2) as [Hwf2 Hst2].
  { destruct (wf_capacity p d Hwf) as (n & Hn0 & Hcap). exists n. by rewrite Hc2. }
  { by rewrite Hc2. }
  { done. }
  done.
Qed.

(** Writing through the reference that [operator[]] returned. *)
Lemma assign_spec (d : data_t) (i : Z) (key : K) (v0 v : V) :
  wf p d → holds p d i key v0 →
  wf p (Table.assign i v d) ∧ holds p (Table.assign i v d) i key v ∧
  (∀ k w, maps_to p (Table.assign i v d) k w ↔
          (k = key ∧ w = v) ∨ (k ≠ key ∧ maps_to p d k w)) ∧
  (no_stale p d → no_stale p (Table.assign i v d)).
Proof.
  intros Hwf (Hi & Hst & Hk & Hv). split; [|split; [|split]].
  - split; try apply Hwf.
    intros s Hs Hsv. destruct (wf_live p d Hwf s Hs Hsv) as [Hkk Hvv]. split; [done|].
    cbn [value_table Table.assign].
    destruct (decide (s = i)) as [->|Hne];
      [by rewrite lookup_insert_eq|by rewrite lookup_insert_ne].
  - split; [done|]. split; [done|]. split; [done|]. cbn [value_table Table.assign].
    by rewrite lookup_insert_eq.
  - intros k w. unfold maps_to, holds. cbn [key_table value_table capacity_minus_1 Table.assign].
    change (state_at p (Table.assign i v d)) with (state_at p d). split.
    + intros (s & Hs & Hsv & Hsk & Hsw). destruct (decide (s = i)) as [->|Hne].
      * rewrite lookup_insert_eq in Hsw. left. by simplify_eq.
      * rewrite lookup_insert_ne in Hsw by done. right. split; [|by exists s].
        intros ->. apply Hne. apply (wf_unique p d Hwf s i key); (lia || done).
    + intros [[-> ->]|[Hne (s & Hs & Hsv & Hsk & Hsw)]].
      * exists i. by rewrite lookup_insert_eq.
      * exists s. assert (s ≠ i) by (intros ->; by simplify_eq).
        by rewrite lookup_insert_ne.
  - intros Hns s. cbn [key_table value_table Table.assign].
    change (state_at p (Table.assign i v d)) with (state_at p d).
    destruct (decide (s = i)) as [->|Hne].
    + intros _. split; [lia|done].
    + rewrite lookup_insert_ne by done. apply Hns.
Qed.

Lemma index_cases (d : data_t) (key : K) :
  wf p d → capacity_minus_1 d < 2 ^ 31 →
  ∃ d' i v,
    Table.index p key d = Some (i, d') ∧ wf p d' ∧ holds p d' i key v ∧
    (no_stale p d → no_stale p d') ∧
    size d ≤ size d' ≤ size d + 1 ∧
    capacity_minus_1 d ≤ capacity_minus_1 d' ∧
    capacity_minus_1 d' + 1 ≤ Z.max (capacity_minus_1 d + 1) (4 * size d) ∧
    ((maps_to p d key v ∧ d' = d) ∨
     (absent p d key ∧ v = V_default ∧ extends p d d' key V_default)).
Proof.
  intros Hwf Hsmall.
  destruct (lookup_cases p d key Hwf) as [(i & v & Hh & _)|(Habs & _)].
  - exists d, i, v. rewrite (index_present p d key i v Hwf Hh).
    split_and!; [done..|lia|lia|lia|lia|]. left. split; [by exists i|done].
  - destruct (index_absent p d key Hwf Habs Hsmall)
      as (d' & i & -> & Hwf' & Hns' & Hs' & Hh' & Hext & Hc1 & Hc2).
    exists d', i, V_default. split_and!; [done..|lia|lia|lia|lia|]. by right.
Qed.

Lemma iterate_deref (d : data_t) :
  wf p d → capacity_minus_1 d < 2 ^ 32 →
  ∃ es, Table.iterate p d = Some (occupied_slots p d) ∧
        mapM (Table.iter_deref d) (occupied_slots p d) = Some es.
Proof.
  intros Hwf Hsmall.
  assert (is_Some (mapM (Table.iter_deref d) (occupied_slots p d))) as [es Hes].
  { apply mapM_is_Some, Forall_forall. intros i Hi.
    apply list_elem_of_filter in Hi as [Hst Hi]. apply elem_of_seqZ in Hi.
    destruct (wf_live p d Hwf i (proj1 Hi) Hst) as [[k Hk] [v Hv]].
    unfold compose, Table.iter_deref. by rewrite Hk, Hv. }
  exists es. split; [|done]. apply iterate_spec; [by apply wf_wf_bitmap|done].
Qed.

Lemma table_step_spec (o : op) (d : data_t) :
  wf p d → capacity_minus_1 d < 2 ^ 31 →
  ∃ ob d', table_step p o d = Some (ob, d') ∧ wf p d' ∧
    size d' ≤ size d + 1 ∧ capacity_minus_1 d ≤ capacity_minus_1 d' ∧
    capacity_minus_1 d' + 1 ≤ Z.max (capacity_minus_1 d + 1) (4 * size d).
Proof.
  intros Hwf Hsmall. pose proof (size_le_capacity p d Hwf) as Hsz.
  destruct o as [k v|k|k|k v|k|k| | | | ]; cbn [table_step].
  - destruct (lookup_cases p d k Hwf) as [(i & w & Hh & _)|(Habs & _)].
    + rewrite (insert_present p d k v i w Hwf Hh). eexists _, _. split; [done|].
      split_and!; (done || lia).
    + destruct (insert_absent p d k v Hwf Habs Hsmall)
        as (d' & i & g & -> & Hwf' & _ & Hs' & _ & _ & Hg & Hcap & _ & Hg4 & _).
      eexists _, _. split; [done|]. split; [done|].
      pose proof (capacity_pos d (wf_pow2 p d Hwf)) as Hpos.
      assert (g = 0 ∨ g = 1 ∨ g = 2) as [-> | [-> | ->]] by lia;
        [change (2 ^ 0) with 1 in Hcap|change (2 ^ 1) with 2 in Hcap
        |change (2 ^ 2) with 4 in Hcap]; lia.
  - destruct (lookup_cases p d k Hwf) as [(i & w & Hh & _)|(Habs & _)].
    + destruct (erase_present p d k i w Hwf Hh) as (d' & -> & Hwf' & _ & Hs' & Hc' & _).
      eexists _, _. split; [done|]. split; [done|]. lia.
    + rewrite (erase_absent p d k Hwf Habs). eexists _, _. split; [done|].
      split; [done|]. lia.
  - destruct (index_cases d k Hwf Hsmall)
      as (d' & i & v & -> & Hwf' & Hh & _ & Hs' & Hc1 & Hc2 & _).
    destruct Hh as (_ & _ & _ & Hv). cbn. rewrite Hv. cbn.
    eexists _, _. split; [done|]. split; [done|]. lia.
  - destruct (index_cases d k Hwf Hsmall)
      as (d' & i & v0 & -> & Hwf' & Hh & _ & Hs' & Hc1 & Hc2 & _).
    cbn. destruct (assign_spec d' i k v0 v Hwf' Hh) as (Hwf2 & _).
    eexists _, _. split; [done|]. split; [done|]. cbn [size capacity_minus_1 Table.assign]. lia.
  - destruct (lookup_cases p d k Hwf)
      as [(i & w & Hh & _ & _ & -> & Hne & Hd & _)|(Habs & _ & _ & -> & _)]; cbn.
    + destruct (Z.eqb_spec i Table.end_) as [E|_]; [done|]. rewrite Hd. cbn.
      eexists _, _. split; [done|]. split; [done|]. lia.
    + eexists _, _. split; [done|]. split; [done|]. lia.
  - destruct (lookup_cases p d k Hwf)
      as [(i & w & Hh & _ & -> & _)|(Habs & _ & -> & _)]; cbn;
      (eexists _, _; split; [done|]; split; [done|]; lia).
  - eexists _, _. split; [done|]. split; [done|]. lia.
  - eexists _, _. split; [done|]. split; [done|]. lia.
  - destruct (clear_spec d Hwf) as (Hwf' & _ & Hs' & Hc' & _).
    eexists _, _. split; [done|]. split; [done|]. lia.
  - destruct (iterate_deref d Hwf) as (es & -> & Hes); [lia|]. cbn. rewrite Hes. cbn.
    eexists _, _. split; [done|]. split; [done|]. lia.
Qed.

(** Runs of calls that start on a well-formed storage: the capacity
    stays below four times the number of elements once it has grown. *)
Lemma table_run_spec (ops : list op) :
  ∀ (d : data_t) (n : Z),
    wf p d → size d ≤ n → capacity_minus_1 d < 2 ^ 31 →
    4 * (n + Z.of_nat (length ops)) ≤ 2 ^ 31 →
    ∃ obs d', table_run p ops d = Some (obs, d') ∧ wf p d' ∧
      size d' ≤ n + Z.of_nat (length ops) ∧
      capacity_minus_1 d ≤ capacity_minus_1 d' ∧
      capacity_minus_1 d' + 1 ≤
        Z.max (capacity_minus_1 d + 1) (4 * (n + Z.of_nat (length ops))).
Proof.
  induction ops as [|o ops IH]; intros d n Hwf Hn Hsmall Hlen.
  - eexists _, _. split; [done|]. split; [done|]. cbn [length]. lia.
  - cbn [table_run length] in *.
    destruct (table_step_spec o d Hwf Hsmall) as (ob & d1 & -> & Hwf1 & Hs1 & Hc1 & Hc2).
    cbn. pose proof (size_le_capacity p d Hwf) as Hsz.
    destruct (IH d1 (n + 1) Hwf1) as (obs & d' & -> & Hwf' & Hs' & Hc1' & Hc2'); [lia|lia|lia|].
    cbn. eexists _, _. split; [done|]. split; [done|]. lia.
Qed.

Lemma reachable_wf (default_size : Z) (ops : list op) :
  is_Some (Table.create p default_size) → default_size ≤ 2 ^ 31 →
  4 * Z.of_nat (length ops) ≤ 2 ^ 31 →
  wf p (after p ops (fresh p default_size)).
Proof.
  intros [d0 Hd0] Hds Hlen. unfold after, fresh. rewrite Hd0.
  destruct (create_wf p default_size d0 Hd0) as (Hwf & _ & _ & Hsz & Hcap).
  destruct (table_run_spec ops d0 0 Hwf) as (obs & d' & -> & Hwf' & _); [lia|lia|lia|done].
Qed.

End Runs.

(** * The rehashing erase *)

Lemma land_le_r (a b : Z) : 0 ≤ b → 0 ≤ Z.land a b ≤ b.
Proof.
  intros Hb. split; [apply Z.land_nonneg; by right|].
  assert (Z.ldiff (Z.land a b) b = 0) as Hd.
  { apply Z.bits_inj'. intros n Hn.
    rewrite Z.ldiff_spec, Z.land_spec, Z.bits_0. by destruct (Z.testbit a n), (Z.testbit b n). }
  pose proof (Z.sub_nocarry_ldiff b (Z.land a b) Hd) as Hs.
  assert (0 ≤ Z.ldiff b (Z.land a b)) by (apply Z.ldiff_nonneg; by left). lia.
Qed.

Section RehashErase.
Context {hp : hash_params}.
Local Abbreviation p := erase_policy_rehash.

Lemma rehash_no_deleted (d : data_t) (q : Z) : state_at p d q ≠ DELETED.
Proof.
  pose proof (state_at_range p d q) as Hr. change (elem_mask p) with 1 in Hr.
  unfold DELETED. lia.
Qed.

(** One turn of the scan that meets an entry. *)
Lemma do_erase_next_entry_turn (fuel : nat) (i j : Z) (valid : list Z) (cmo : Z)
    (kt : gmap Z K) (vt : gmap Z V) (k2 : K) (v2 : V) :
  let j' := Z.land (j + 1) cmo in
  0 ≤ cmo → 0 ≤ i ≤ cmo →
  Z.land (rd valid (j' / META_ELEMENTS_PER_WORD p)) (field_mask p j') ≠ 0 →
  kt !! j' = Some k2 → vt !! j' = Some v2 →
  Rehash.do_erase_next_entry (S fuel) i j valid cmo kt vt =
  if decide (in_ring_interval (cmo + 1) i j' (Z.land (hash_functor k2) cmo)) then
    Rehash.do_erase_next_entry fuel i j' valid cmo kt vt
  else
    let valid1 :=
      wr valid (i / META_ELEMENTS_PER_WORD p)
         (Z.lor (rd valid (i / META_ELEMENTS_PER_WORD p)) (field_mask p i)) in
    let valid2 :=
      wr valid1 (j' / META_ELEMENTS_PER_WORD p)
         (Z.land (rd valid1 (j' / META_ELEMENTS_PER_WORD p)) (not32 (field_mask p j'))) in
    Rehash.do_erase_next_entry fuel j' j' valid2 cmo
      (delete j' (<[i := k2]> kt)) (delete j' (<[i := v2]> vt)).
Proof.
  intros j' Hcmo Hi Hocc Hk Hv. cbn [Rehash.do_erase_next_entry]. fold j'.
  destruct (Z.eqb_spec (Z.land (rd valid (j' / META_ELEMENTS_PER_WORD p)) (field_mask p j')) 0)
    as [E|_]; [done|].
  rewrite Hk, Hv.
  assert (0 ≤ j' ≤ cmo) as Hj'.
  { subst j'. by apply land_le_r. }
  assert (0 ≤ Z.land (hash_functor k2) cmo ≤ cmo) as Hh.
  { by apply land_le_r. }
  pose proof (keeps_place_spec (cmo + 1) i j' (Z.land (hash_functor k2) cmo)) as Hkp.
  destruct (keeps_place i j' (Z.land (hash_functor k2) cmo)) eqn:E.
  - rewrite decide_True; [done|]. apply Hkp; (lia || done).
  - rewrite decide_False; [done|]. intros Hin. apply Hkp in Hin; (lia || done).
Qed.

End RehashErase.

(** * The marker erase at the level of [erase] *)

Section MarkerErase.
Context {hp : hash_params}.
Local Abbreviation m := erase_policy_use_marker.

Lemma erase_marker_eq (d : data_t) (i : Z) (key : K) (v : V) :
  wf m d → holds m d i key v →
  Table.erase m key d =
  Some (with_size (with_tables d (set_state m (valid d) i DELETED)
                     (delete i (key_table d)) (delete i (value_table d)))
                  (size d - 1)).
Proof.
  intros Hwf (Hi & Hst & Hk & Hv). unfold Table.erase. fold (Table.get_index m key d).
  rewrite (get_index_present m d key i Hwf (proj1 Hi) Hst Hk).
  pose proof (occupied_size_pos m d i Hwf (proj1 Hi) Hst) as Hsz.
  destruct (Z.eqb_spec (size d) 0); [lia|]. rewrite Hk.
  rewrite bool_decide_eq_true_2 by done. cbn [negb]. done.
Qed.

End MarkerErase.

(** * Growth out of a storage of one slot *)

Section CapacityOne.
Context {hp : hash_params}.
Variable p : erase_policy.

Lemma insert_grows (d : data_t) (key : K) (value : V) :
  wf p d → absent p d key →
  Table.insert p key value d =
  match Table.add_new_restart p 64 key value d (hash_functor key) with
  | Some (d', _) => Some (true, d')
  | None => None
  end.
Proof.
  intros Hwf Habs. unfold Table.insert. fold (Table.get_index p key d).
  destruct (lookup_cases p d key Hwf) as [(i & v & Hh & _)|(_ & -> & _)]; [|done].
  destruct Hh as (Hi & Hst & Hk & _). by destruct (Habs i (proj1 Hi) Hst).
Qed.

Lemma absent_extends (d d' : data_t) (key k : K) (value : V) :
  wf p d → wf p d' → extends p d d' key value → absent p d k → k ≠ key → absent p d' k.
Proof.
  intros Hwf Hwf' Hext Habs Hne. apply absent_iff; [done|]. intros v Hm.
  apply Hext in Hm as [Hm|[-> _]]; [|done].
  by apply (absent_iff p d k Hwf) in Hm.
Qed.

End CapacityOne.

(** * The standalone table against the policy-based one *)

Lemma land_1_cases (x : Z) : Z.land x 1 = 0 ∨ Z.land x 1 = 1.
Proof. pose proof (land_le_r x 1). lia. Qed.

Section Table2Functions.
Context {hp : hash_params}.
Local Abbreviation r := erase_policy_rehash.

(** ** The lookup walk *)

Lemma get_index_loop2_eq (fuel : nat) (key : K) (d : data_t) (orig : Z) :
  ∀ idx vv vp,
    Table2.get_index_loop fuel key d orig idx vv vp =
    Table.get_index_loop r fuel key d orig idx vv vp.
Proof.
  induction fuel as [|fuel IH]; intros idx vv vp; [done|].
  cbn [Table2.get_index_loop Table.get_index_loop].
  change Table2.elem_mask with 1. change (elem_mask r) with 1.
  change INVALID with 0. change VALID with 1.
  destruct (land_1_cases vv) as [-> | ->]; [done|]. cbn [Z.eqb].
  change (Table2.step_idx idx vv vp d) with (Table.step_idx r idx vv vp d).
  destruct (key_table d !! idx) as [k'|]; [|done]. cbn [fmap option_fmap option_map].
  destruct (bool_decide (k' = key)); [done|].
  destruct (Table.step_idx r idx vv vp d) as [[idx' vv'] vp'].
  destruct (idx' =? orig); [done|]. apply IH.
Qed.

Lemma get_index2_eq (key : K) (d : data_t) :
  Table2.get_index key d = Table.get_index r key d.
Proof. apply get_index_loop2_eq. Qed.

Lemma get_index_hash2_eq (key : K) (d : data_t) (hash : Z) :
  Table2.get_index_hash key d hash = Table.get_index_hash r key d hash.
Proof. apply get_index_loop2_eq. Qed.

Lemma count2_eq (key : K) (d : data_t) : Table2.count key d = Table.count r key d.
Proof. unfold Table2.count, Table.count. by rewrite get_index2_eq. Qed.

Lemma find2_eq (key : K) (d : data_t) : Table2.find key d = Table.find r key d.
Proof. unfold Table2.find, Table.find. by rewrite get_index2_eq. Qed.

(** ** The walk of [add_new] *)

Lemma add_new_loop2_eq (key : K) (value : V) (d : data_t) (orig : Z) :
  wf_bitmap r d →
  ∀ (fuel : nat) (idx vv vp : Z),
    0 ≤ idx < capacity_minus_1 d + 1 → cache_ok r d idx vv vp →
    Table2.add_new_loop fuel key value d orig idx vv vp =
    Table.add_new_loop r fuel key value d orig idx vv vp.
Proof.
  intros Hb. pose proof (wfb_capacity r d Hb) as Hc.
  induction fuel as [|fuel IH]; intros idx vv vp Hidx Hcache; [done|].
  cbn [Table2.add_new_loop Table.add_new_loop].
  change Table2.elem_mask with 1. change (elem_mask r) with 1. change VALID with 1.
  destruct (land_1_cases vv) as [E|E]; rewrite E; cbn [Z.eqb negb].
  - do 3 f_equal. destruct Hcache as [-> _].
    change (shl32 1 (Table2.elem_shift idx)) with (field_mask r idx).
    rewrite (fill_field_eq r idx); [done|].
    unfold rd. destruct (valid d !! _) as [w|] eqn:Hw; [|cbn; lia].
    apply (wfb_range r d Hb). by apply list_elem_of_lookup_2 in Hw.
  - destruct (key_table d !! idx) as [k'|]; [|done].
    destruct (bool_decide (k' = key)); [done|].
    destruct (capacity_minus_1 d <? size d * 2); [done|].
    change (Table2.step_idx idx vv vp d) with (Table.step_idx r idx vv vp d).
    destruct (step_idx_spec r d idx vv vp Hc Hidx Hcache) as (vv' & vp' & -> & Hcache').
    destruct (_ =? orig); [done|]. apply IH; [|done].
    apply Z.mod_pos_bound. by apply capacity_pos.
Qed.

Lemma add_new_pass2_eq (key : K) (value : V) (d : data_t) (hash : Z) :
  wf_bitmap r d →
  Table2.add_new_pass key value d hash = Table.add_new_pass r key value d hash.
Proof.
  intros Hb. unfold Table2.add_new_pass, Table.add_new_pass.
  apply add_new_loop2_eq; [done| |apply cache_ok_init].
  rewrite land_capacity_mask by apply (wfb_capacity r d Hb).
  apply Z.mod_pos_bound. apply capacity_pos, (wfb_capacity r d Hb).
Qed.

Lemma add_new_to2_eq (key : K) (value : V) (d : data_t) (hash : Z) :
  wf_bitmap r d →
  Table2.add_new_to key value d hash = Table.add_new_to r key value d hash.
Proof.
  intros Hb. unfold Table2.add_new_to, Table.add_new_to. by rewrite add_new_pass2_eq.
Qed.

End Table2Functions.

Section Walks.
Context {hp : hash_params}.
Variable p : erase_policy.

(** The storage that a pass of [add_new] returns is the one it was
    given with one more slot filled. *)
Lemma add_new_loop_placed (key : K) (value : V) (d : data_t) (orig : Z) :
  pow2_capacity d →
  ∀ (fuel : nat) (idx vv vp : Z) (d' : data_t) (j : Z),
    0 ≤ idx < capacity_minus_1 d + 1 → cache_ok p d idx vv vp →
    Table.add_new_loop p fuel key value d orig idx vv vp = Some (Placed d' j) →
    d' = place p d j key value ∧ 0 ≤ j < capacity_minus_1 d + 1.
Proof.
  intros Hc. induction fuel as [|fuel IH]; intros idx vv vp d' j Hidx Hcache Hrun; [done|].
  cbn [Table.add_new_loop] in Hrun.
  destruct (negb (Z.land vv (elem_mask p) =? VALID)).
  - injection Hrun as <- <-. split; [|done]. destruct Hcache as [-> _]. done.
  - destruct (key_table d !! idx) as [k'|]; [|done].
    destruct (bool_decide (k' = key)); [done|].
    destruct (capacity_minus_1 d <? size d * 2); [done|].
    destruct (step_idx_spec p d idx vv vp Hc Hidx Hcache) as (vv' & vp' & E & Hcache').
    rewrite E in Hrun. destruct (_ =? orig); [done|].
    apply (IH _ _ _ _ _ (Z.mod_pos_bound _ _ (capacity_pos d Hc)) Hcache' Hrun).
Qed.

Lemma add_new_to_placed (key : K) (value : V) (d d' : data_t) (hash j : Z) :
  wf_bitmap p d → Table.add_new_to p key value d hash = Some (d', j) →
  d' = place p d j key value ∧ 0 ≤ j < capacity_minus_1 d + 1 ∧ wf_bitmap p d'.
Proof.
  intros Hb. unfold Table.add_new_to, Table.add_new_pass.
  destruct (Table.add_new_loop _ _ _ _ _ _ _ _ _) as [[d1 j1| |]|] eqn:Hrun; try done.
  intros [= <- <-].
  pose proof (wfb_capacity p d Hb) as Hc.
  destruct (add_new_loop_placed key value d _ Hc _ _ _ _ _ _
              (conj (proj1 (Z.mod_pos_bound _ _ (capacity_pos d Hc)))
                    (proj2 (Z.mod_pos_bound _ _ (capacity_pos d Hc))))
              (cache_ok_init p d _) ltac:(rewrite <- land_capacity_mask by done; exact Hrun))
    as [-> Hj].
  split; [done|]. split; [done|].
  apply (wf_bitmap_set p d (place p d j1 key value) j1 VALID Hb Hj);
    [apply VALID_le_mask|by unfold VALID|done|done].
Qed.

(** The cached word of the loops that visit the slots in increasing
    order ([increase_table_size] of the standalone table, [clear]). *)
Lemma cache_ok_succ (d : data_t) (i vv vp : Z) :
  0 ≤ i → cache_ok p d i vv vp →
  if Z.land i (META_ELEMENTS_PER_WORD p - 1) =? META_ELEMENTS_PER_WORD p - 1
  then cache_ok p d (i + 1) (rd (valid d) (vp + 1)) (vp + 1)
  else cache_ok p d (i + 1) (Z.shiftr vv (META_BITS_PER_ELEMENT p)) vp.
Proof.
  intros Hi [-> ->]. rewrite land_elements_mask.
  pose proof (elements_per_word_pos p) as Hepw.
  pose proof (bits_per_element_pos p) as Hbits.
  assert (0 ≤ elem_shift p i) as Hsh.
  { rewrite elem_shift_eq. pose proof (Z.mod_pos_bound i _ Hepw). lia. }
  destruct (Z.eqb_spec (i mod META_ELEMENTS_PER_WORD p) (META_ELEMENTS_PER_WORD p - 1))
    as [Hlast|Hmid].
  - assert ((i + 1) / META_ELEMENTS_PER_WORD p = i / META_ELEMENTS_PER_WORD p + 1 ∧
            (i + 1) mod META_ELEMENTS_PER_WORD p = 0) as [Hdiv Hmod].
    { destruct (bits_per_element_cases p) as [(_ & E & _)|(_ & E & _)]; rewrite E in *;
        Z.div_mod_to_equations; lia. }
    split; [done|]. by rewrite elem_shift_eq, Hmod, Z.mul_0_r, Z.shiftr_0_r.
  - assert ((i + 1) / META_ELEMENTS_PER_WORD p = i / META_ELEMENTS_PER_WORD p ∧
            (i + 1) mod META_ELEMENTS_PER_WORD p = i mod META_ELEMENTS_PER_WORD p + 1)
      as [Hdiv Hmod].
    { pose proof (Z.mod_pos_bound i _ Hepw).
      destruct (bits_per_element_cases p) as [(_ & E & _)|(_ & E & _)]; rewrite E in *;
        Z.div_mod_to_equations; lia. }
    split; [done|].
    rewrite Z.shiftr_shiftr by lia. rewrite !elem_shift_eq, Hmod. f_equal. lia.
Qed.

End Walks.

(** ** Growth of the standalone table *)

(** The test [(c & (c - 1)) == 0] of the assertions. *)
Lemma pow2_test (c : Z) : 0 < c → Z.land c (c - 1) = 0 → ∃ m, 0 ≤ m ∧ c = 2 ^ m.
Proof.
  intros Hpos Hpow. exists (Z.log2 c). split; [apply Z.log2_nonneg|].
  destruct (Z.log2_spec c Hpos) as [Hlo Hhi].
  destruct (Z.eq_dec c (2 ^ Z.log2 c)) as [|Hne]; [done|]. exfalso.
  assert (Z.testbit (Z.land c (c - 1)) (Z.log2 c) = true) as Hbit.
  { rewrite Z.land_spec, (Z.bit_log2 c Hpos). cbn [andb].
    pose proof (Z.log2_nonneg c) as Hl.
    assert (Z.log2 (c - 1) = Z.log2 c) as Hl2 by (apply Z.log2_unique; [done|lia]).
    rewrite <- Hl2. apply Z.bit_log2. lia. }
  rewrite Hpow, Z.bits_0 in Hbit. done.
Qed.

Section Growth2.
Context {hp : hash_params}.
Local Abbreviation r := erase_policy_rehash.

Lemma new_data_wf (c : Z) (nd : data_t) :
  Table.new_data r c = Some nd →
  wf r nd ∧ no_stale r nd ∧ (∀ k v, ¬ maps_to r nd k v) ∧
  size nd = 0 ∧ capacity_minus_1 nd = c - 1.
Proof.
  intros Hnd. pose proof Hnd as Hnd'. unfold Table.new_data in Hnd'.
  destruct (Z.ltb_spec 0 c) as [Hpos|]; [|done]. cbn [negb] in Hnd'.
  destruct (Z.eqb_spec (Z.land c (c - 1)) 0) as [Hpow|]; [|done]. clear Hnd'.
  destruct (pow2_test c Hpos Hpow) as (m & Hm & ->).
  destruct (new_data_spec r m Hm) as (nd' & Hnd' & Hwf & Hns & _ & Hnone & Hs & Hc).
  rewrite Hnd in Hnd'. by simplify_eq.
Qed.

Lemma occupied_from_skip (d : data_t) (i : Z) :
  i < capacity_minus_1 d + 1 → state_at r d i ≠ VALID →
  occupied_from r d i = occupied_from r d (i + 1).
Proof.
  intros Hi Hst. unfold occupied_from. rewrite seqZ_cons by lia.
  rewrite filter_cons_False by done. f_equal. f_equal; lia.
Qed.

Lemma occupied_from_take (d : data_t) (i : Z) :
  i < capacity_minus_1 d + 1 → state_at r d i = VALID →
  occupied_from r d i = i :: occupied_from r d (i + 1).
Proof.
  intros Hi Hst. unfold occupied_from. rewrite seqZ_cons by lia.
  rewrite filter_cons_True by done. f_equal. f_equal. f_equal; lia.
Qed.

Lemma occupied_from_end (d : data_t) (i : Z) :
  capacity_minus_1 d + 1 ≤ i → occupied_from r d i = [].
Proof. intros Hi. unfold occupied_from. by rewrite seqZ_nil by lia. Qed.

(** The linear scan of [increase_table_size] runs the body of the loop
    over the [VALID] slots in increasing order. *)
Lemma rehash_loop2_eq (d0 : data_t) :
  wf_bitmap r d0 →
  ∀ (n : nat) (i vv vp : Z) (d nd : data_t),
    valid d = valid d0 → capacity_minus_1 d = capacity_minus_1 d0 →
    0 ≤ i → Z.of_nat n = capacity_minus_1 d0 + 1 - i →
    cache_ok r d0 i vv vp → wf_bitmap r nd →
    Table2.rehash_loop n i vv vp d nd = rehash_all r (occupied_from r d0 i) d nd.
Proof.
  intros Hb. induction n as [|n IH]; intros i vv vp d nd Hv Hc Hi Hn Hcache Hnd.
  { cbn [Table2.rehash_loop]. by rewrite occupied_from_end by lia. }
  cbn [Table2.rehash_loop].
  change Table2.elem_mask with (elem_mask r).
  rewrite (cache_ok_state r d0 i vv vp Hcache).
  pose proof (cache_ok_succ r d0 i vv vp Hi Hcache) as Hnext.
  change Table2.META_ELEMENTS_PER_WORD with (META_ELEMENTS_PER_WORD r).
  change Table2.META_BITS_PER_ELEMENT with (META_BITS_PER_ELEMENT r).
  pose proof (state_at_range r d0 i) as Hr. change (elem_mask r) with 1 in Hr.
  destruct (Z.eqb_spec (state_at r d0 i) 0) as [Hz|Hnz]; cbn [negb].
  - rewrite occupied_from_skip by (unfold VALID; lia).
    destruct (Z.land i (META_ELEMENTS_PER_WORD r - 1) =? META_ELEMENTS_PER_WORD r - 1).
    + rewrite Hv. apply IH; (done || lia).
    + apply IH; (done || lia).
  - rewrite occupied_from_take by (unfold VALID; lia). cbn [rehash_all].
    destruct (key_table d !! i) as [k|]; [|done].
    destruct (value_table d !! i) as [v|]; [|done].
    rewrite (add_new_to2_eq k v nd _ Hnd).
    destruct (Table.add_new_to r k v nd (hash_functor k)) as [[nd' j]|] eqn:Hadd; [|done].
    destruct (add_new_to_placed r k v nd nd' _ j Hnd Hadd) as (_ & _ & Hnd').
    cbn [valid].
    destruct (Z.land i (META_ELEMENTS_PER_WORD r - 1) =? META_ELEMENTS_PER_WORD r - 1).
    + replace (rd (valid d) (vp + 1)) with (rd (valid d0) (vp + 1)) by (by rewrite Hv).
      apply IH; (done || lia).
    + apply IH; (done || lia).
Qed.

Lemma increase_table_size2_eq (d : data_t) (new_size : Z) :
  wf_bitmap r d → capacity_minus_1 d < 2 ^ 32 →
  Table2.increase_table_size d new_size = Table.increase_table_size r d new_size.
Proof.
  intros Hb Hsmall. unfold Table2.increase_table_size, Table.increase_table_size.
  destruct (negb (Z.land new_size (new_size - 1) =? 0)); [done|].
  destruct (negb (0 <? new_size)); [done|].
  change (Table2.new_data new_size) with (Table.new_data r new_size).
  destruct (Table.new_data r new_size) as [nd|] eqn:Hnd; [|done].
  destruct (new_data_wf new_size nd Hnd) as (Hwfnd & _).
  pose proof (capacity_pos d (wfb_capacity r d Hb)) as Hpos.
  rewrite (rehash_loop2_eq d Hb _ 0 _ 0 d nd); [|done|done|lia|lia| |by apply wf_wf_bitmap].
  2:{ split; [done|]. by rewrite Z.shiftr_0_r. }
  rewrite (rehash_loop_eq r d Hb Hsmall _ d nd 0 (Table.get_first r d));
    [done|done|done|lia|lia|by apply get_first_spec].
Qed.

End Growth2.

(** ** Storages that agree on their [VALID] slots *)

Section Agree.
Context {hp : hash_params}.
Local Abbreviation r := erase_policy_rehash.

Lemma agree_refl (d : data_t) : agree d d.
Proof. by split. Qed.

Lemma agree_state (d1 d2 : data_t) (i : Z) :
  agree d1 d2 → state_at r d2 i = state_at r d1 i.
Proof. intros Ha. unfold state_at. by rewrite (agree_valid _ _ Ha). Qed.

Lemma agree_home (d1 d2 : data_t) (k : K) : agree d1 d2 → home d2 k = home d1 k.
Proof. intros Ha. unfold home. by rewrite (agree_capacity _ _ Ha). Qed.

Lemma agree_occupied (d1 d2 : data_t) :
  agree d1 d2 → occupied_slots r d2 = occupied_slots r d1.
Proof.
  intros Ha. unfold occupied_slots. rewrite (agree_capacity _ _ Ha).
  apply filter_ext_in. intros j _. by rewrite (agree_state d1 d2 j Ha).
Qed.

Lemma agree_bitmap (d1 d2 : data_t) : agree d1 d2 → wf_bitmap r d1 → wf_bitmap r d2.
Proof.
  intros Ha Hb. split.
  - destruct (wfb_capacity r d1 Hb) as (n & Hn & Hc). exists n.
    by rewrite (agree_capacity _ _ Ha).
  - rewrite (agree_valid _ _ Ha), (agree_capacity _ _ Ha). apply (wfb_length r d1 Hb).
  - rewrite (agree_valid _ _ Ha). apply (wfb_range r d1 Hb).
  - intros i Hi. rewrite (agree_state d1 d2 i Ha), (agree_capacity _ _ Ha).
    by apply (wfb_states r d1 Hb).
Qed.

Lemma agree_holds (d1 d2 : data_t) (i : Z) (k : K) (v : V) :
  agree d1 d2 → holds r d2 i k v ↔ holds r d1 i k v.
Proof.
  intros Ha. unfold holds. rewrite (agree_capacity _ _ Ha), (agree_state d1 d2 i Ha).
  split; intros (Hi & Hst & Hk & Hv).
  - rewrite (agree_keys _ _ Ha i) in Hk by (lia || done).
    rewrite (agree_values _ _ Ha i) in Hv by (lia || done). done.
  - rewrite <- (agree_keys _ _ Ha i) in Hk by (lia || done).
    rewrite <- (agree_values _ _ Ha i) in Hv by (lia || done). done.
Qed.

Lemma agree_maps_to (d1 d2 : data_t) (k : K) (v : V) :
  agree d1 d2 → maps_to r d2 k v ↔ maps_to r d1 k v.
Proof.
  intros Ha. unfold maps_to. split; intros [i Hi]; exists i; by apply (agree_holds d1 d2).
Qed.

Lemma agree_wf (d1 d2 : data_t) : agree d1 d2 → wf r d1 → wf r d2.
Proof.
  intros Ha Hwf. pose proof (agree_bitmap d1 d2 Ha (wf_wf_bitmap r d1 Hwf)) as Hb.
  split; try apply Hb.
  - rewrite (agree_size _ _ Ha), (agree_occupied d1 d2 Ha). apply (wf_size r d1 Hwf).
  - intros i Hi. rewrite (agree_state d1 d2 i Ha). intros Hst.
    rewrite (agree_keys _ _ Ha i), (agree_values _ _ Ha i) by done.
    by apply (wf_live r d1 Hwf).
  - intros i k Hi. rewrite (agree_state d1 d2 i Ha). intros Hst.
    rewrite (agree_keys _ _ Ha i) by done. intros Hk j.
    rewrite (agree_home d1 d2 k Ha), (agree_capacity _ _ Ha), (agree_state d1 d2 _ Ha).
    by apply (wf_chain r d1 Hwf).
  - intros i j k Hi Hj. rewrite (agree_state d1 d2 i Ha), (agree_state d1 d2 j Ha).
    intros Hsi Hsj. rewrite (agree_keys _ _ Ha i), (agree_keys _ _ Ha j) by done.
    by apply (wf_unique r d1 Hwf).
Qed.

Lemma agree_absent (d1 d2 : data_t) (k : K) : agree d1 d2 → absent r d1 k → absent r d2 k.
Proof.
  intros Ha Habs i Hi. rewrite (agree_state d1 d2 i Ha). intros Hst.
  rewrite (agree_keys _ _ Ha i) by done. by apply Habs.
Qed.

Lemma agree_placeable (d1 d2 : data_t) (k : K) (i : Z) :
  agree d1 d2 → placeable r d2 k i → placeable r d1 k i.
Proof.
  intros Ha (t & Ht & -> & Hfree & Hpath). exists t.
  unfold probe in *. rewrite (agree_capacity _ _ Ha), (agree_home d1 d2 k Ha) in *.
  rewrite (agree_state d1 d2 _ Ha) in Hfree.
  split; [done|]. split; [done|]. split; [done|].
  intros u Hu. rewrite <- (agree_state d1 d2 _ Ha). by apply Hpath.
Qed.

Lemma agree_place (d1 d2 : data_t) (i : Z) (k : K) (v : V) :
  agree d1 d2 → wf_bitmap r d1 → 0 ≤ i < capacity_minus_1 d1 + 1 →
  agree (place r d1 i k v) (place r d2 i k v).
Proof.
  intros Ha Hb Hi. split; cbn [valid size capacity_minus_1 key_table value_table place].
  - by rewrite (agree_valid _ _ Ha).
  - by rewrite (agree_size _ _ Ha).
  - apply (agree_capacity _ _ Ha).
  - intros s Hs. rewrite (place_state r d1 i k v s Hb Hi Hs).
    destruct (decide (s = i)) as [->|Hne]; [by rewrite !lookup_insert_eq|].
    rewrite !lookup_insert_ne by done. by apply (agree_keys _ _ Ha).
  - intros s Hs. rewrite (place_state r d1 i k v s Hb Hi Hs).
    destruct (decide (s = i)) as [->|Hne]; [by rewrite !lookup_insert_eq|].
    rewrite !lookup_insert_ne by done. by apply (agree_values _ _ Ha).
Qed.

(** The migration reads the [VALID] slots only. *)
Lemma rehash_all_agree (l : list Z) :
  ∀ d1 d2 nd,
    (∀ i, i ∈ l → key_table d2 !! i = key_table d1 !! i ∧
                  value_table d2 !! i = value_table d1 !! i) →
    snd <$> rehash_all r l d2 nd = snd <$> rehash_all r l d1 nd.
Proof.
  induction l as [|i l IH]; intros d1 d2 nd Hag; [done|]. cbn [rehash_all].
  destruct (Hag i) as [-> ->]; [left|].
  destruct (key_table d1 !! i) as [k|]; [|done].
  destruct (value_table d1 !! i) as [v|]; [|done].
  destruct (Table.add_new_to r k v nd (hash_functor k)) as [[nd' ?]|]; [|done].
  apply IH. intros j Hj. cbn [key_table value_table destroy_slot].
  destruct (decide (j = i)) as [->|Hne]; [by rewrite !lookup_delete_eq|].
  rewrite !lookup_delete_ne by done. apply Hag. by right.
Qed.

Lemma increase_table_size_agree (d1 d2 : data_t) (new_size : Z) :
  agree d1 d2 → wf_bitmap r d1 → capacity_minus_1 d1 < 2 ^ 32 →
  Table.increase_table_size r d2 new_size = Table.increase_table_size r d1 new_size.
Proof.
  intros Ha Hb Hsmall. pose proof (agree_bitmap d1 d2 Ha Hb) as Hb2.
  unfold Table.increase_table_size.
  destruct (negb (Z.land new_size (new_size - 1) =? 0)); [done|].
  destruct (negb (0 <? new_size)); [done|].
  destruct (Table.new_data r new_size) as [nd|]; [|done].
  pose proof (capacity_pos d1 (wfb_capacity r d1 Hb)) as Hpos.
  rewrite (rehash_loop_eq r d1 Hb Hsmall _ d1 nd 0 (Table.get_first r d1));
    [|done|done|lia|lia|by apply get_first_spec].
  rewrite (rehash_loop_eq r d2 Hb2 ltac:(by rewrite (agree_capacity _ _ Ha)) _ d2 nd 0
             (Table.get_first r d2));
    [|done|done|rewrite (agree_capacity _ _ Ha); lia
     |rewrite (agree_capacity _ _ Ha); lia|by apply get_first_spec].
  rewrite !occupied_from_0, (agree_occupied d1 d2 Ha).
  assert (snd <$> rehash_all r (occupied_slots r d1) d2 nd =
          snd <$> rehash_all r (occupied_slots r d1) d1 nd) as Heq.
  { apply rehash_all_agree. intros i Hi.
    apply list_elem_of_filter in Hi as [Hst Hi]. apply elem_of_seqZ in Hi.
    split; [apply (agree_keys _ _ Ha)|apply (agree_values _ _ Ha)]; (lia || done). }
  destruct (rehash_all r (occupied_slots r d1) d2 nd) as [[? nd2]|],
           (rehash_all r (occupied_slots r d1) d1 nd) as [[? nd1]|];
    cbn in Heq; by simplify_eq.
Qed.

End Agree.

(** ** The calls of the two tables on storages that agree *)

Section Simulation.
Context {hp : hash_params}.
Local Abbreviation r := erase_policy_rehash.

Lemma get_index_agree (d1 d2 : data_t) (key : K) :
  agree d1 d2 → wf r d1 → Table.get_index r key d2 = Table.get_index r key d1.
Proof.
  intros Ha Hwf. pose proof (agree_wf d1 d2 Ha Hwf) as Hwf2.
  destruct (lookup_cases r d1 key Hwf) as [(i & v & Hh & -> & _)|(Habs & -> & _)].
  - apply (agree_holds d1 d2 i key v Ha) in Hh. destruct Hh as (Hi & Hst & Hk & _).
    apply get_index_present; (done || lia).
  - destruct (lookup_cases r d2 key Hwf2) as [(i & v & Hh & _)|(_ & -> & _)]; [|done].
    destruct Hh as (Hi & Hst & Hk & _).
    by destruct (agree_absent d1 d2 key Ha Habs i (proj1 Hi) Hst).
Qed.

Lemma get_index2_agree (d1 d2 : data_t) (key : K) :
  agree d1 d2 → wf r d1 → Table2.get_index key d2 = Table.get_index r key d1.
Proof. intros Ha Hwf. rewrite get_index2_eq. by apply get_index_agree. Qed.

(** *** [add_new] *)

Lemma restart_sim_places (fuel : nat) (d1 d2 : data_t) (key : K) (value : V) :
  agree d1 d2 → wf r d1 → absent r d1 key → ¬ needs_growth r d1 key →
  ∃ i, placeable r d1 key i ∧
       Table.add_new_restart r (S fuel) key value d1 (hash_functor key) =
         Some (place r d1 i key value, i) ∧
       Table2.add_new_restart (S fuel) key value d2 (hash_functor key) =
         Some (place r d2 i key value, i).
Proof.
  intros Ha Hwf Habs Hng. pose proof (agree_wf d1 d2 Ha Hwf) as Hwf2.
  destruct (add_new_restart_places r fuel d1 key value Hwf Habs Hng) as (i & Hpl & Hrun & _).
  exists i. split; [done|]. split; [done|].
  cbn [Table2.add_new_restart].
  rewrite add_new_pass2_eq by (by apply wf_wf_bitmap).
  destruct (add_new_pass_places r d2 key value Hwf2 (agree_absent d1 d2 key Ha Habs))
    as (i2 & Hpl2 & ->).
  { rewrite (agree_state d1 d2 _ Ha), (agree_home d1 d2 key Ha), (agree_size _ _ Ha),
      (agree_capacity _ _ Ha).
    unfold needs_growth in Hng.
    destruct (decide (state_at r d1 (home d1 key) = VALID)); [right; lia|by left]. }
  apply (agree_placeable d1 d2 key i2 Ha) in Hpl2.
  by rewrite (placeable_unique r d1 key i2 i Hpl2 Hpl).
Qed.

Lemma restart_sim_grows (fuel : nat) (d1 d2 : data_t) (key : K) (value : V) :
  agree d1 d2 → wf r d1 → absent r d1 key → needs_growth r d1 key →
  capacity_minus_1 d1 < 2 ^ 32 →
  ∃ nd, wf r nd ∧ absent r nd key ∧
        capacity_minus_1 nd + 1 = (capacity_minus_1 d1 + 1) * 2 ∧ size nd = size d1 ∧
        Table.add_new_restart r (S fuel) key value d1 (hash_functor key) =
          Table.add_new_restart r fuel key value nd (hash_functor key) ∧
        Table2.add_new_restart (S fuel) key value d2 (hash_functor key) =
          Table2.add_new_restart fuel key value nd (hash_functor key).
Proof.
  intros Ha Hwf Habs Hg Hsmall. pose proof (agree_wf d1 d2 Ha Hwf) as Hwf2.
  destruct (add_new_restart_grows r fuel d1 key value Hwf Habs Hg Hsmall)
    as (nd & Hgrow & Hwfnd & _ & Hc & Hs & Hmap & Hrun).
  exists nd. split; [done|].
  split; [by apply (absent_same_mapping r d1 nd key)|]. split; [done|]. split; [done|].
  split; [done|]. cbn [Table2.add_new_restart].
  rewrite add_new_pass2_eq by (by apply wf_wf_bitmap).
  destruct Hg as [Hv Hload].
  rewrite (add_new_pass_grows r d2 key value Hwf2 (agree_absent d1 d2 key Ha Habs)).
  2:{ by rewrite (agree_state d1 d2 _ Ha), (agree_home d1 d2 key Ha). }
  2:{ by rewrite (agree_size _ _ Ha), (agree_capacity _ _ Ha). }
  rewrite increase_table_size2_eq;
    [|by apply wf_wf_bitmap|by rewrite (agree_capacity _ _ Ha)].
  rewrite (increase_table_size_agree d1 d2 _ Ha (wf_wf_bitmap r d1 Hwf) Hsmall).
  by rewrite (agree_capacity _ _ Ha), Hgrow.
Qed.

Lemma restart_sim (fuel : nat) (d1 d2 : data_t) (key : K) (value : V) :
  agree d1 d2 → wf r d1 → absent r d1 key → capacity_minus_1 d1 < 2 ^ 31 →
  ∃ d1' d2' i,
    Table.add_new_restart r (S (S (S fuel))) key value d1 (hash_functor key) = Some (d1', i) ∧
    Table2.add_new_restart (S (S (S fuel))) key value d2 (hash_functor key) = Some (d2', i) ∧
    agree d1' d2'.
Proof.
  intros Ha Hwf Habs Hsmall.
  assert (∀ fuel' e1 e2, agree e1 e2 → wf r e1 → absent r e1 key → ¬ needs_growth r e1 key →
            ∃ e1' e2' i,
              Table.add_new_restart r (S fuel') key value e1 (hash_functor key) = Some (e1', i) ∧
              Table2.add_new_restart (S fuel') key value e2 (hash_functor key) = Some (e2', i) ∧
              agree e1' e2') as Hplace.
  { intros fuel' e1 e2 Hae Hwfe Habse Hnge.
    destruct (restart_sim_places fuel' e1 e2 key value Hae Hwfe Habse Hnge)
      as (i & Hpl & H1 & H2).
    exists (place r e1 i key value), (place r e2 i key value), i.
    split; [done|]. split; [done|].
    apply agree_place; [done|by apply wf_wf_bitmap|].
    apply (placeable_range r e1 key i (wf_pow2 r e1 Hwfe) Hpl). }
  destruct (decide (needs_growth r d1 key)) as [Hg|Hg]; [|by apply Hplace].
  destruct (restart_sim_grows (S (S fuel)) d1 d2 key value Ha Hwf Habs Hg)
    as (n1 & Hwf1 & Habs1 & Hc1 & Hs1 & -> & ->); [lia|].
  destruct (decide (needs_growth r n1 key)) as [Hg1|Hg1];
    [|by apply Hplace; [apply agree_refl|..]].
  destruct (restart_sim_grows (S fuel) n1 n1 key value (agree_refl n1) Hwf1 Habs1 Hg1)
    as (n2 & Hwf2 & Habs2 & Hc2 & Hs2 & -> & ->); [lia|].
  apply Hplace; [apply agree_refl|done|done|].
  intros [_ Hload]. pose proof (size_le_capacity r d1 Hwf).
  pose proof (capacity_pos d1 (wf_pow2 r d1 Hwf)). lia.
Qed.

Lemma insert_sim (d1 d2 : data_t) (key : K) (value : V) :
  agree d1 d2 → wf r d1 → capacity_minus_1 d1 < 2 ^ 31 →
  ∃ b d1' d2',
    Table.insert r key value d1 = Some (b, d1') ∧
    Table2.insert key value d2 = Some (b, d2') ∧ agree d1' d2'.
Proof.
  intros Ha Hwf Hsmall. unfold Table.insert, Table2.insert.
  rewrite get_index_hash2_eq.
  fold (Table.get_index r key d2). fold (Table.get_index r key d1).
  rewrite (get_index_agree d1 d2 key Ha Hwf).
  destruct (lookup_cases r d1 key Hwf) as [(i & v & _ & -> & _)|(Habs & -> & _)].
  - by exists false, d1, d2.
  - destruct (restart_sim 61 d1 d2 key value Ha Hwf Habs Hsmall)
      as (d1' & d2' & i & H1 & H2 & Ha').
    unfold Table.add_new_hash, Table2.add_new_hash. rewrite H1, H2.
    by exists true, d1', d2'.
Qed.

Lemma index_sim (d1 d2 : data_t) (key : K) :
  agree d1 d2 → wf r d1 → capacity_minus_1 d1 < 2 ^ 31 →
  ∃ i d1' d2' v,
    Table.index r key d1 = Some (i, d1') ∧
    Table2.index key d2 = Some (i, d2') ∧ agree d1' d2' ∧
    wf r d1' ∧ holds r d1' i key v.
Proof.
  intros Ha Hwf Hsmall.
  destruct (index_cases r d1 key Hwf Hsmall)
    as (d1' & i & v & Hrun & Hwf' & Hh & _ & _ & _ & _ & Hcase).
  unfold Table2.index. unfold Table.index in Hrun.
  rewrite get_index_hash2_eq.
  fold (Table.get_index r key d2). fold (Table.get_index r key d1) in Hrun.
  rewrite (get_index_agree d1 d2 key Ha Hwf).
  destruct (lookup_cases r d1 key Hwf) as [(j & w & _ & Hg & _)|(Habs & Hg & _)];
    rewrite Hg in *.
  - injection Hrun as -> ->. exists i, d1', d2, v. unfold Table.index.
    fold (Table.get_index r key d1'). rewrite Hg. done.
  - destruct (restart_sim 61 d1 d2 key V_default Ha Hwf Habs Hsmall)
      as (e1 & e2 & i' & H1 & H2 & Ha').
    unfold Table.add_new_hash, Table2.add_new_hash in *. rewrite H1 in Hrun. rewrite H2.
    destruct (key_table e1 !! i') as [k'|] eqn:Hk'; [|done].
    destruct (bool_decide (k' = key)) eqn:Hbd; [|done].
    injection Hrun as -> ->. destruct Hh as (Hi & Hst & Hk & Hv).
    rewrite (agree_keys _ _ Ha' i) by (lia || done). rewrite Hk'.
    rewrite Hbd. exists i, d1', e2, v. unfold Table.index.
    fold (Table.get_index r key d1). rewrite Hg. unfold Table.add_new_hash.
    rewrite H1, Hk', Hbd. done.
Qed.

(** *** [erase] *)

Lemma copy_back_agree (d1 d2 : data_t) (i j : Z) (k : K) (v : V) :
  agree d1 d2 → wf_bitmap r d1 →
  0 ≤ i < capacity_minus_1 d1 + 1 → 0 ≤ j < capacity_minus_1 d1 + 1 →
  agree (shift_back r d1 i j k v) (copy_back d2 i j k v).
Proof.
  intros Ha Hb Hi Hj.
  split; cbn [valid size capacity_minus_1 key_table value_table shift_back copy_back].
  - by rewrite (agree_valid _ _ Ha).
  - apply (agree_size _ _ Ha).
  - apply (agree_capacity _ _ Ha).
  - intros s Hs. rewrite (shift_back_state r d1 i j k v s Hb Hi Hj Hs).
    destruct (decide (s = j)) as [->|Hnj]; [done|]. rewrite lookup_delete_ne by done.
    destruct (decide (s = i)) as [->|Hni]; [by rewrite !lookup_insert_eq|].
    rewrite !lookup_insert_ne by done. by apply (agree_keys _ _ Ha).
  - intros s Hs. rewrite (shift_back_state r d1 i j k v s Hb Hi Hj Hs).
    destruct (decide (s = j)) as [->|Hnj]; [done|]. rewrite lookup_delete_ne by done.
    destruct (decide (s = i)) as [->|Hni]; [by rewrite !lookup_insert_eq|].
    rewrite !lookup_insert_ne by done. by apply (agree_values _ _ Ha).
Qed.

Lemma erase_loop_sim (fuel : nat) :
  ∀ (i j : Z) (d1 d2 : data_t) valid' kt' vt',
    agree d1 d2 → wf_bitmap r d1 → 0 ≤ i < capacity_minus_1 d1 + 1 →
    Rehash.do_erase_next_entry fuel i j (valid d1) (capacity_minus_1 d1)
      (key_table d1) (value_table d1) = Some (valid', kt', vt') →
    ∃ d2', Table2.erase_next_entry fuel i j d2 = Some d2' ∧
           agree (with_tables d1 valid' kt' vt') d2'.
Proof.
  induction fuel as [|fuel IH]; intros i j d1 d2 valid' kt' vt' Ha Hb Hi Hrun; [done|].
  pose proof (wfb_capacity r d1 Hb) as Hc. pose proof (capacity_pos d1 Hc) as Hpos.
  cbn [Rehash.do_erase_next_entry] in Hrun. cbn [Table2.erase_next_entry].
  rewrite (agree_capacity _ _ Ha), (agree_valid _ _ Ha).
  rewrite land_capacity_mask in * by done.
  set (j' := (j + 1) mod (capacity_minus_1 d1 + 1)) in *.
  assert (0 ≤ j' < capacity_minus_1 d1 + 1) as Hj' by (apply Z.mod_pos_bound; lia).
  change Table2.META_ELEMENTS_PER_WORD with (META_ELEMENTS_PER_WORD r).
  change (shl32 Table2.elem_mask (Table2.elem_shift ?x)) with (field_mask r x).
  destruct (Z.eqb_spec (Z.land (rd (valid d1) (j' / META_ELEMENTS_PER_WORD r))
                          (field_mask r j')) 0) as [Hz|Hnz].
  { injection Hrun as <- <- <-. exists d2. split; [done|].
    destruct Ha. by split. }
  assert (state_at r d1 j' = VALID) as Hst.
  { pose proof (state_at_range r d1 j') as Hr. change (elem_mask r) with 1 in Hr.
    destruct (Z.eq_dec (state_at r d1 j') 0) as [E|]; [|unfold VALID; lia].
    by apply (field_test r d1 j') in E. }
  rewrite (agree_keys _ _ Ha j') by (lia || done).
  destruct (key_table d1 !! j') as [k2|] eqn:Hk2; [|done].
  destruct (keeps_place i j' (Z.land (hash_functor k2) (capacity_minus_1 d1))).
  { by apply (IH i j' d1 d2). }
  rewrite (agree_values _ _ Ha j') by (lia || done).
  destruct (value_table d1 !! j') as [v2|] eqn:Hv2; [|done].
  rewrite (fill_is_set_valid d1 i Hb), clear_is_set_invalid in *.
  destruct (IH j' j' (shift_back r d1 i j' k2 v2) (copy_back d2 i j' k2 v2) valid' kt' vt')
    as (d2' & Hrun2 & Ha2); [by apply copy_back_agree|by apply shift_back_bitmap|done|done|].
  exists d2'. split; [|exact Ha2]. rewrite <- Hrun2. f_equal.
  unfold copy_back. by rewrite (agree_valid _ _ Ha), (agree_capacity _ _ Ha).
Qed.

Lemma punch_agree (d1 d2 : data_t) (idx : Z) :
  agree d1 d2 → wf_bitmap r d1 → 0 ≤ idx < capacity_minus_1 d1 + 1 →
  agree (punch r d1 idx) (punch r d2 idx).
Proof.
  intros Ha Hb Hidx.
  split; cbn [valid size capacity_minus_1 key_table value_table punch].
  - by rewrite (agree_valid _ _ Ha).
  - apply (agree_size _ _ Ha).
  - apply (agree_capacity _ _ Ha).
  - intros s Hs. rewrite (punch_state r d1 idx s Hb Hidx Hs).
    destruct (decide (s = idx)) as [->|Hne]; [done|].
    rewrite !lookup_delete_ne by done. by apply (agree_keys _ _ Ha).
  - intros s Hs. rewrite (punch_state r d1 idx s Hb Hidx Hs).
    destruct (decide (s = idx)) as [->|Hne]; [done|].
    rewrite !lookup_delete_ne by done. by apply (agree_values _ _ Ha).
Qed.

Lemma erase_sim (d1 d2 : data_t) (key : K) :
  agree d1 d2 → wf r d1 →
  ∃ d1' d2',
    Table.erase r key d1 = Some d1' ∧ Table2.erase key d2 = Some d2' ∧ agree d1' d2'.
Proof.
  intros Ha Hwf. pose proof (wf_wf_bitmap r d1 Hwf) as Hb.
  unfold Table2.erase. rewrite get_index_hash2_eq. fold (Table.get_index r key d2).
  rewrite (get_index_agree d1 d2 key Ha Hwf).
  destruct (lookup_cases r d1 key Hwf) as [(i & v & Hh & Hg & _)|(Habs & Hg & _)]; rewrite Hg.
  2:{ exists d1, d2. split; [by apply erase_absent|done]. }
  destruct Hh as (Hi & Hst & Hk & Hv).
  pose proof (occupied_size_pos r d1 i Hwf (proj1 Hi) Hst) as Hsz.
  rewrite (agree_size _ _ Ha).
  destruct (Z.eqb_spec (size d1) 0); [lia|].
  rewrite (agree_keys _ _ Ha i) by (lia || done). rewrite Hk.
  rewrite bool_decide_eq_true_2 by done. cbn [negb].
  cbn [capacity_minus_1 size key_table value_table valid].
  destruct (do_erase_spec d1 i key v Hwf) as (valid' & kt' & vt' & Hrun & _); [done|].
  assert (Table.erase r key d1 =
          Some (with_size (with_tables d1 valid' kt' vt') (size d1 - 1))) as Herase.
  { unfold Table.erase. fold (Table.get_index r key d1). rewrite Hg.
    destruct (Z.eqb_spec (size d1) 0); [lia|]. rewrite Hk.
    rewrite bool_decide_eq_true_2 by done. cbn [negb].
    fold (destroy_slot d1 i). by rewrite Hrun. }
  unfold Table.do_erase, Rehash.do_erase in Hrun.
  cbn [valid key_table value_table capacity_minus_1 destroy_slot] in Hrun.
  rewrite clear_is_set_invalid in Hrun.
  change Table2.META_ELEMENTS_PER_WORD with (META_ELEMENTS_PER_WORD r).
  change (shl32 Table2.elem_mask (Table2.elem_shift ?x)) with (field_mask r x).
  rewrite clear_is_set_invalid.
  destruct (erase_loop_sim (Rehash.do_erase_fuel (capacity_minus_1 d1)) i i
              (punch r d1 i) (punch r d2 i) valid' kt' vt')
    as (d2' & Hrun2 & Ha2); [by apply punch_agree|by apply punch_bitmap|done|done|].
  rewrite ?(agree_capacity _ _ Ha).
  match goal with |- context [Table2.erase_next_entry _ _ _ ?x] =>
    replace x with (punch r d2 i)
      by (unfold punch; by rewrite ?(agree_size _ _ Ha), ?(agree_capacity _ _ Ha)) end.
  rewrite Hrun2.
  eexists _, _. split; [done|]. split; [done|].
  split; cbn [valid size capacity_minus_1 key_table value_table with_size with_tables];
    try apply Ha2.
  rewrite (agree_size _ _ Ha2). done.
Qed.

End Simulation.

Lemma mapM_ext_in {A B : Type} (f g : A → option B) (l : list A) :
  (∀ x, x ∈ l → f x = g x) → mapM f l = mapM g l.
Proof.
  induction l as [|x l IH]; intros Hfg; [done|]. cbn.
  rewrite (Hfg x) by left. rewrite IH; [done|]. intros y Hy. apply Hfg. by right.
Qed.

Section Simulation2.
Context {hp : hash_params}.
Local Abbreviation r := erase_policy_rehash.

(** *** [clear] *)

Lemma clear_loop2_eq (n : nat) :
  ∀ i vv vp d, Table2.clear_loop n i vv vp d = Table.clear_loop r n i vv vp d.
Proof.
  induction n as [|n IH]; intros i vv vp d; [done|].
  cbn [Table2.clear_loop Table.clear_loop].
  change Table2.elem_mask with 1. change (elem_mask r) with 1. change VALID with 1.
  change Table2.META_ELEMENTS_PER_WORD with (META_ELEMENTS_PER_WORD r).
  change Table2.META_BITS_PER_ELEMENT with (META_BITS_PER_ELEMENT r).
  destruct (land_1_cases vv) as [-> | ->]; cbn [Z.eqb negb];
    (destruct (_ =? META_ELEMENTS_PER_WORD r - 1); apply IH).
Qed.

Lemma clear2_eq (d : data_t) : Table2.clear d = Table.clear r d.
Proof. unfold Table2.clear, Table.clear. by rewrite clear_loop2_eq. Qed.

Lemma clear_valid (d : data_t) :
  valid (Table.clear r d) =
  replicate (Z.to_nat ((Table.capacity d + META_ELEMENTS_PER_WORD r - 1)
                         / META_ELEMENTS_PER_WORD r)) 0 ++
  drop (Z.to_nat ((Table.capacity d + META_ELEMENTS_PER_WORD r - 1)
                    / META_ELEMENTS_PER_WORD r)) (valid d).
Proof.
  unfold Table.clear. cbn [valid].
  destruct (clear_loop_fields r (Z.to_nat (capacity_minus_1 d + 1)) 0 (rd (valid d) 0) 0 d)
    as (-> & _ & Hc).
  unfold Table.capacity. by rewrite Hc.
Qed.

Lemma clear_sim (d1 d2 : data_t) :
  agree d1 d2 → wf r d1 → agree (Table.clear r d1) (Table2.clear d2).
Proof.
  intros Ha Hwf. rewrite clear2_eq.
  destruct (clear_spec r d1 Hwf) as (_ & Hst & Hs & Hc & _).
  split.
  - rewrite !clear_valid. unfold Table.capacity.
    by rewrite (agree_valid _ _ Ha), (agree_capacity _ _ Ha).
  - done.
  - rewrite Hc. unfold Table.clear. cbn [capacity_minus_1].
    destruct (clear_loop_fields r (Z.to_nat (capacity_minus_1 d2 + 1)) 0 (rd (valid d2) 0) 0 d2)
      as (_ & _ & ->).
    apply (agree_capacity _ _ Ha).
  - intros i _ Hi. rewrite Hst in Hi. by unfold INVALID, VALID in Hi.
  - intros i _ Hi. rewrite Hst in Hi. by unfold INVALID, VALID in Hi.
Qed.

(** *** Iteration *)

Lemma scan_words2_eq (n : nat) :
  ∀ word valid, Table2.scan_words n word valid = Rehash.scan_words n word valid.
Proof. induction n as [|n IH]; intros word valid; [done|]. cbn. by rewrite IH. Qed.

Lemma get_first2_eq (d : data_t) : Table2.get_first d = Table.get_first r d.
Proof. apply scan_words2_eq. Qed.

Lemma get_next2_eq (d : data_t) (pos : Z) : Table2.get_next d pos = Table.get_next r d pos.
Proof.
  unfold Table2.get_next, Table.get_next, Rehash.get_next.
  destruct (pos =? NPOS); [done|].
  change Table2.META_ELEMENTS_PER_WORD with (META_ELEMENTS_PER_WORD r).
  change Table2.META_BITS_PER_ELEMENT with (META_BITS_PER_ELEMENT r).
  destruct (negb _); [done|]. by rewrite scan_words2_eq.
Qed.

Lemma iterate2_eq (d : data_t) : Table2.iterate d = Table.iterate r d.
Proof.
  unfold Table2.iterate, Table.iterate. rewrite get_first2_eq.
  generalize (Table.get_first r d). generalize (Z.to_nat (capacity_minus_1 d + 2)).
  induction n as [|n IH]; intros pos; [done|].
  cbn [Table2.iterate_from Table.iterate_from]. destruct (pos =? NPOS); [done|].
  rewrite get_next2_eq. destruct (Table.get_next r d pos); [|done]. by rewrite IH.
Qed.

Lemma iter_deref_agree (d1 d2 : data_t) (pos : Z) :
  agree d1 d2 → 0 ≤ pos → state_at r d1 pos = VALID →
  Table2.iter_deref d2 pos = Table.iter_deref d1 pos.
Proof.
  intros Ha Hpos Hst. unfold Table2.iter_deref, Table.iter_deref.
  by rewrite (agree_keys _ _ Ha pos), (agree_values _ _ Ha pos).
Qed.

Lemma iterate_sim (d1 d2 : data_t) :
  agree d1 d2 → wf r d1 → capacity_minus_1 d1 < 2 ^ 32 →
  ∃ es, Table.iterate r d1 = Some (occupied_slots r d1) ∧
        mapM (Table.iter_deref d1) (occupied_slots r d1) = Some es ∧
        Table2.iterate d2 = Some (occupied_slots r d1) ∧
        mapM (Table2.iter_deref d2) (occupied_slots r d1) = Some es.
Proof.
  intros Ha Hwf Hsmall.
  destruct (iterate_deref r d1 Hwf Hsmall) as (es & Hit & Hes).
  exists es. split; [done|]. split; [done|]. split.
  - rewrite iterate2_eq, <- (agree_occupied d1 d2 Ha).
    apply iterate_spec; [apply (agree_bitmap d1 d2 Ha), wf_wf_bitmap, Hwf|].
    by rewrite (agree_capacity _ _ Ha).
  - rewrite <- Hes. apply mapM_ext_in. intros i Hi.
    apply list_elem_of_filter in Hi as [Hst Hi]. apply elem_of_seqZ in Hi.
    apply iter_deref_agree; (done || lia).
Qed.

(** *** Writing through [operator[]] *)

Lemma assign_agree (d1 d2 : data_t) (i : Z) (v : V) :
  agree d1 d2 → agree (Table.assign i v d1) (Table.assign i v d2).
Proof.
  intros Ha. split; cbn [valid size capacity_minus_1 key_table value_table Table.assign];
    try apply Ha.
  intros s Hs Hst. change (state_at r (Table.assign i v d1) s) with (state_at r d1 s) in Hst.
  destruct (decide (s = i)) as [->|Hne]; [by rewrite !lookup_insert_eq|].
  rewrite !lookup_insert_ne by done. by apply (agree_values _ _ Ha).
Qed.

(** *** One call *)

Lemma step_sim (o : op) (d1 d2 : data_t) :
  agree d1 d2 → wf r d1 → capacity_minus_1 d1 < 2 ^ 31 →
  ∃ ob d1' d2',
    table_step r o d1 = Some (ob, d1') ∧ table2_step o d2 = Some (ob, d2') ∧
    agree d1' d2'.
Proof.
  intros Ha Hwf Hsmall.
  destruct o as [k v|k|k|k v|k|k| | | | ]; cbn [table_step table2_step].
  - destruct (insert_sim d1 d2 k v Ha Hwf Hsmall) as (b & d1' & d2' & -> & -> & Ha').
    cbn. by eexists _, _, _.
  - destruct (erase_sim d1 d2 k Ha Hwf) as (d1' & d2' & -> & -> & Ha').
    cbn. by eexists _, _, _.
  - destruct (index_sim d1 d2 k Ha Hwf Hsmall)
      as (i & d1' & d2' & v & -> & -> & Ha' & Hwf' & Hh).
    destruct Hh as (Hi & Hst & _ & Hv). cbn.
    rewrite (agree_values _ _ Ha' i) by (lia || done). rewrite Hv. cbn.
    by eexists _, _, _.
  - destruct (index_sim d1 d2 k Ha Hwf Hsmall)
      as (i & d1' & d2' & v0 & -> & -> & Ha' & _). cbn.
    eexists _, _, _. split; [done|]. split; [done|]. by apply assign_agree.
  - rewrite find2_eq. unfold Table.find. rewrite (get_index_agree d1 d2 k Ha Hwf).
    destruct (lookup_cases r d1 k Hwf)
      as [(i & w & Hh & -> & _ & _ & Hne & Hd & _)|(Habs & -> & _)]; cbn.
    + change Table.end_ with NPOS. destruct (Z.eqb_spec i NPOS) as [E|_]; [done|].
      destruct Hh as (Hi & Hst & _).
      rewrite (iter_deref_agree d1 d2 i Ha) by (lia || done). rewrite Hd. cbn.
      by eexists _, _, _.
    + by eexists _, _, _.
  - rewrite count2_eq. unfold Table.count. rewrite (get_index_agree d1 d2 k Ha Hwf).
    destruct (lookup_cases r d1 k Hwf) as [(i & w & _ & -> & _)|(_ & -> & _)]; cbn;
      by eexists _, _, _.
  - unfold Table2.size_, Table.size_. rewrite (agree_size _ _ Ha). by eexists _, _, _.
  - unfold Table2.capacity, Table.capacity. rewrite (agree_capacity _ _ Ha).
    by eexists _, _, _.
  - eexists _, _, _. split; [done|]. split; [done|]. by apply clear_sim.
  - destruct (iterate_sim d1 d2 Ha Hwf) as (es & H1 & H2 & H3 & H4); [lia|].
    rewrite H1, H3. cbn. rewrite H2, H4. cbn. by eexists _, _, _.
Qed.

Lemma run_sim (ops : list op) :
  ∀ (d1 d2 : data_t) (n : Z),
    agree d1 d2 → wf r d1 → size d1 ≤ n → capacity_minus_1 d1 < 2 ^ 31 →
    4 * (n + Z.of_nat (length ops)) ≤ 2 ^ 31 →
    ∃ obs d1' d2',
      table_run r ops d1 = Some (obs, d1') ∧ table2_run ops d2 = Some (obs, d2') ∧
      agree d1' d2' ∧ wf r d1'.
Proof.
  induction ops as [|o ops IH]; intros d1 d2 n Ha Hwf Hn Hsmall Hlen.
  - by exists [], d1, d2.
  - cbn [table_run table2_run length] in *.
    destruct (step_sim o d1 d2 Ha Hwf Hsmall) as (ob & e1 & e2 & H1 & -> & Ha').
    destruct (table_step_spec r o d1 Hwf Hsmall) as (ob' & e1' & H1' & Hwf' & Hs' & Hc1 & Hc2).
    rewrite H1 in H1'. injection H1' as <- <-. rewrite H1. cbn.
    pose proof (size_le_capacity r d1 Hwf) as Hsz.
    destruct (IH e1 e2 (n + 1) Ha' Hwf') as (obs & d1' & d2' & -> & -> & Ha'' & Hwf'');
      [lia|lia|lia|].
    cbn. by eexists _, _, _.
Qed.

Lemma erase2_absent (d : data_t) (key : K) :
  wf r d → absent r d key → Table2.erase key d = Some d.
Proof.
  intros Hwf Habs. unfold Table2.erase. rewrite get_index_hash2_eq.
  fold (Table.get_index r key d).
  destruct (lookup_cases r d key Hwf) as [(i & v & Hh & _)|(_ & -> & _)]; [|done].
  destruct Hh as (Hi & Hst & Hk & _). by destruct (Habs i (proj1 Hi) Hst).
Qed.

Lemma erase2_present (d : data_t) (key : K) (i : Z) (v : V) :
  wf r d → holds r d i key v →
  ∃ d', Table2.erase key d = Some d' ∧ wf r d' ∧ removes r d d' key ∧
        size d' = size d - 1 ∧ capacity_minus_1 d' = capacity_minus_1 d.
Proof.
  intros Hwf Hh.
  destruct (erase_sim d d key (agree_refl d) Hwf) as (d1 & d2 & H1 & H2 & Ha).
  destruct (erase_present r d key i v Hwf Hh) as (d1' & H1' & Hwf1 & Hrem & Hs & Hc & _).
  rewrite H1 in H1'. injection H1' as <-.
  exists d2. split; [done|]. split; [by apply (agree_wf d1 d2)|].
  split; [|split].
  - intros k w. rewrite (agree_maps_to d1 d2 k w Ha). apply Hrem.
  - by rewrite (agree_size _ _ Ha).
  - by rewrite (agree_capacity _ _ Ha).
Qed.

End Simulation2.

(** * [reserve] *)

Lemma next_power_of_2_self (m : Z) : 0 ≤ m → next_power_of_2 (2 ^ m) (2 ^ m).
Proof. intros Hm. split; [by exists m|]. split; [lia|]. by intros m' _ ?. Qed.

Section Reserve.
Context {hp : hash_params}.
Variable p : erase_policy.

Lemma reserve_noop (d : data_t) (n : Z) :
  n ≤ Table.capacity d → Table.reserve p n d = Some d.
Proof.
  unfold Table.capacity, Table.reserve. intros Hn.
  by destruct (Z.ltb_spec (capacity_minus_1 d + 1) n); [lia|].
Qed.

Lemma reserve_grows (d : data_t) (n : Z) :
  wf p d → capacity_minus_1 d < 2 ^ 32 → Table.capacity d < n ≤ 2 ^ 63 →
  ∃ r d', next_power_of_2 n r ∧
          Table.increase_table_size p d r = Some d' ∧
          Table.reserve p n d = Some d' ∧
          wf p d' ∧ no_stale p d' ∧ capacity_minus_1 d' = r - 1 ∧
          size d' = size d ∧ same_mapping p d d'.
Proof.
  unfold Table.capacity. intros Hwf Hsmall Hn.
  pose proof (capacity_pos d (wf_pow2 p d Hwf)) as Hpos.
  destruct (round_up_u64_spec n) as (r & Hround & Hnext); [lia|].
  destruct Hnext as ((m & Hm & ->) & Hle & Hmin).
  destruct (increase_table_size_spec p d m Hwf Hsmall Hm) as (d' & Hgrow & Hrest); [lia|].
  exists (2 ^ m), d'. split; [split; [by exists m|done]|]. split; [done|].
  split; [|done]. unfold Table.reserve.
  destruct (Z.ltb_spec (capacity_minus_1 d + 1) n); [|lia]. by rewrite Hround.
Qed.

End Reserve.

(** * Iteration over a storage of more than 2^32 slots *)

Section WideIteration.
Context {hp : hash_params}.
Variable p : erase_policy.

Lemma same_word_wide :
  (4294967296 + 1) / META_ELEMENTS_PER_WORD p = 4294967296 / META_ELEMENTS_PER_WORD p ∧
  4294967296 / META_ELEMENTS_PER_WORD p ≠ 1 / META_ELEMENTS_PER_WORD p.
Proof. by destruct p. Qed.

(** In a storage whose slots 2^32 and 2^32 + 1 are [VALID], the slot
    that follows, for [get_next], the slot 2^32 is the slot 1. *)
Lemma get_next_truncated (d : data_t) :
  wf_bitmap p d → 4294967296 + 1 < capacity_minus_1 d + 1 →
  state_at p d (4294967296 + 1) = VALID →
  Table.get_next p d 4294967296 = Some 1.
Proof.
  intros Hb Hcap Hv.
  destruct (get_next_wide p d 4294967296 Hb) as (r & Hr & ->); [lia|].
  assert (r = 4294967296 + 1) as ->.
  { destruct Hr as [[_ Hnone]|(Hr1 & Hr2 & Hr3)].
    - by destruct (Hnone (4294967296 + 1)); [lia|].
    - destruct (Z.eq_dec r (4294967296 + 1)) as [|Hne]; [done|].
      by destruct (Hr3 (4294967296 + 1)); [lia|]. }
  rewrite decide_True; [done|]. split; [by unfold NPOS|]. apply same_word_wide.
Qed.

(** From a position in the first word, [get_next] reaches the slot
    2^32 when no slot in between is [VALID]. *)
Lemma get_next_reaches_wide (d : data_t) (pos : Z) :
  wf_bitmap p d → 4294967296 < capacity_minus_1 d + 1 →
  0 ≤ pos < META_ELEMENTS_PER_WORD p →
  (∀ s, pos < s < 4294967296 → state_at p d s ≠ VALID) →
  state_at p d 4294967296 = VALID →
  Table.get_next p d pos = Some 4294967296.
Proof.
  intros Hb Hcap Hpos Hnone Hv.
  pose proof (elements_per_word_pos p) as Hepw.
  assert (META_ELEMENTS_PER_WORD p ≤ 32) as Hle by (by destruct p).
  destruct (get_next_wide p d pos Hb) as (r & Hr & ->); [lia|].
  assert (r = 4294967296) as ->.
  { destruct Hr as [[_ Hno]|(Hr1 & Hr2 & Hr3)].
    - by destruct (Hno 4294967296); [lia|].
    - destruct (Z_lt_le_dec r 4294967296) as [Hlt|Hge].
      + by destruct (Hnone r); [lia|].
      + destruct (Z.eq_dec r 4294967296) as [|Hne]; [done|].
        by destruct (Hr3 4294967296); [lia|]. }
  rewrite decide_False; [done|]. intros [_ Hsame].
  rewrite (Z.div_small pos) in Hsame by lia.
  destruct p; by vm_compute in Hsame.
Qed.

Lemma get_first_at (d : data_t) (r : Z) :
  wf_bitmap p d → 0 ≤ r → state_at p d r = VALID →
  (∀ s, 0 ≤ s < r → state_at p d s ≠ VALID) →
  Table.get_first p d = r.
Proof.
  intros Hb Hr Hv Hnone.
  destruct (get_first_spec p d Hb) as [[_ Hno]|(Hr1 & Hr2 & Hr3)].
  - by destruct (Hno r).
  - destruct (Z.lt_trichotomy (Table.get_first p d) r) as [Hlt|[->|Hgt]]; [|done|].
    + by destruct (Hnone (Table.get_first p d)).
    + by destruct (Hr3 r).
Qed.

End WideIteration.

Section Placeable.
Context {hp : hash_params}.
Variable p : erase_policy.

Lemma placeable_home (d : data_t) (key : K) :
  pow2_capacity d → state_at p d (home d key) ≠ VALID → placeable p d key (home d key).
Proof.
  intros Hc Hfree. pose proof (capacity_pos d Hc). pose proof (home_range d key Hc).
  exists 0. split; [lia|]. split; [by rewrite probe_0|]. split; [done|]. intros u Hu. lia.
Qed.

(** An [insert] whose home slot is free stores the element there. *)
Lemma insert_at_home (d : data_t) (key : K) (value : V) :
  wf p d → absent p d key → state_at p d (home d key) ≠ VALID →
  Table.insert p key value d = Some (true, place p d (home d key) key value) ∧
  wf p (place p d (home d key) key value) ∧
  extends p d (place p d (home d key) key value) key value ∧
  (no_stale p d → no_stale p (place p d (home d key) key value)).
Proof.
  intros Hwf Habs Hfree.
  assert (¬ needs_growth p d key) as Hng by (by intros [? _]).
  destruct (insert_in_place p d key value Hwf Habs Hng) as (i & Hpl & Hins & _).
  assert (i = home d key) as ->
    by apply (placeable_unique p d key _ _ Hpl (placeable_home d key (wf_pow2 p d Hwf) Hfree)).
  split; [done|].
  destruct (place_spec p d key value _ Hwf Habs Hpl) as (H1 & _ & H2 & H3).
  split; [exact H1|]. split; [exact H2|exact H3].
Qed.

Lemma empty_not_valid (d : data_t) (i : Z) :
  wf p d → size d = 0 → 0 ≤ i → state_at p d i ≠ VALID.
Proof. intros Hwf Hs Hi Hv. pose proof (occupied_size_pos p d i Hwf Hi Hv). lia. Qed.

Lemma not_alive (d : data_t) (i : Z) :
  no_stale p d → state_at p d i ≠ VALID → Table.iter_deref d i = None.
Proof.
  intros Hns Hst. unfold Table.iter_deref.
  destruct (key_table d !! i) as [k|] eqn:Hk; [|done].
  destruct (Hns i) as [_ Hv]; [left; by rewrite Hk|done].
Qed.

End Placeable.

(** * Growth of a storage of more than 2^32 slots *)

Section WideGrowth.
Context {hp : hash_params}.
Variable p : erase_policy.

(** The loop of [increase_table_size] on a storage whose first [VALID]
    slot is 2^32, followed by a [VALID] slot in the same word: the
    second position that [get_next] delivers is the slot 1, where no
    object is alive. *)
Lemma rehash_loop_wide (d nd : data_t) (fuel : nat) :
  wf_bitmap p d → 4294967296 + 1 < capacity_minus_1 d + 1 →
  (∀ s, 0 ≤ s < 4294967296 → state_at p d s ≠ VALID) →
  state_at p d 4294967296 = VALID → state_at p d (4294967296 + 1) = VALID →
  key_table d !! 1 = None →
  Table.rehash_loop p (S (S fuel)) d nd (Table.get_first p d) = None.
Proof.
  intros Hb Hcap Hnone Hv1 Hv2 Hk1.
  rewrite (get_first_at p d 4294967296 Hb); [|lia|done|done].
  cbn [Table.rehash_loop].
  destruct (4294967296 =? NPOS) eqn:E; [by vm_compute in E|].
  destruct (key_table d !! 4294967296) as [k|]; [|done].
  destruct (value_table d !! 4294967296) as [v|]; [|done].
  destruct (Table.add_new_to p k v nd (hash_functor k)) as [[nd' ?]|]; [|done].
  set (d' := Build_data_t _ _ _ _ _ _).
  assert (Table.get_next p d' 4294967296 = Some 1) as ->.
  { change (Table.get_next p d' 4294967296) with (Table.get_next p d 4294967296).
    by apply get_next_truncated. }
  destruct (1 =? NPOS) eqn:E1; [by vm_compute in E1|].
  cbn [key_table d']. rewrite lookup_delete_ne by done. by rewrite Hk1.
Qed.

Lemma insert_wide_fails (d : data_t) (key : K) (value : V) :
  wf p d → absent p d key → needs_growth p d key →
  4294967296 + 1 < capacity_minus_1 d + 1 →
  (∀ s, 0 ≤ s < 4294967296 → state_at p d s ≠ VALID) →
  state_at p d 4294967296 = VALID → state_at p d (4294967296 + 1) = VALID →
  key_table d !! 1 = None →
  Table.insert p key value d = None.
Proof.
  intros Hwf Habs [Hv Hload] Hcap Hnone Hv1 Hv2 Hk1.
  rewrite (insert_grows p d key value Hwf Habs).
  cbn [Table.add_new_restart].
  rewrite (add_new_pass_grows p d key value Hwf Habs Hv Hload).
  unfold Table.increase_table_size.
  destruct (negb (Z.land _ _ =? 0)); [done|]. destruct (negb (0 <? _)); [done|].
  destruct (Table.new_data p _) as [nd|]; [|done].
  replace (Z.to_nat (capacity_minus_1 d + 2))
    with (S (S (Z.to_nat (capacity_minus_1 d)))) by lia.
  by rewrite (rehash_loop_wide d nd _ (wf_wf_bitmap p d Hwf) Hcap Hnone Hv1 Hv2 Hk1).
Qed.

End WideGrowth.

(** * A table of 2^33 slots filled from the slot 2^32 on *)

Section Fill.
Variable p : erase_policy.

Lemma fill_home (d : @data_t identity_params) (k : Z) :
  capacity_minus_1 d = 8589934591 → 0 ≤ k < 8589934592 →
  home (hp := identity_params) d k = k.
Proof.
  intros Hc Hk. unfold home. rewrite Hc. change (@hash_functor identity_params k) with k.
  change 8589934591 with (Z.ones 33). rewrite Z.land_ones by lia.
  apply Z.mod_small. change (2 ^ 33) with 8589934592. lia.
Qed.

Lemma fill_step (d : @data_t identity_params) (a : Z) :
  filled_to p d a → 4294967296 ≤ a < 8589934592 →
  Table.insert (hp := identity_params) p a 0 d =
    Some (true, place (hp := identity_params) p d a a 0) ∧
  filled_to p (place (hp := identity_params) p d a a 0) (a + 1).
Proof.
  intros (Hwf & Hns & Hc & Hs & Hst) Ha.
  pose proof (fill_home d a Hc ltac:(lia)) as Hh.
  assert (absent (hp := identity_params) p d a) as Habs.
  { intros i Hi Hv Hki. destruct (Hst i Hi) as [Hr Hk].
    destruct (Hk Hv) as [Hki' _]. apply Hr in Hv.
    pose proof (eq_trans (eq_sym Hki') Hki) as [= ->]. lia. }
  assert (state_at (hp := identity_params) p d (home d a) ≠ VALID) as Hfree.
  { rewrite Hh. intros Hv. destruct (Hst a ltac:(lia)) as [Hr _]. apply Hr in Hv. lia. }
  destruct (insert_at_home (hp := identity_params) p d a 0 Hwf Habs Hfree)
    as (Hins & Hwf' & _ & Hns').
  rewrite Hh in Hins, Hwf', Hns'. split; [exact Hins|].
  split; [exact Hwf'|]. split; [by apply Hns'|]. split; [exact Hc|].
  split; [cbn [size place]; lia|].
  intros s Hs0.
  rewrite (place_state (hp := identity_params) p d a a 0 s (wf_wf_bitmap p d Hwf)) by lia.
  destruct (Hst s Hs0) as [Hr Hk]. cbn [key_table value_table place].
  destruct (decide (s = a)) as [->|Hne].
  - split; [split; [lia|done]|]. intros _. by rewrite !lookup_insert_eq.
  - rewrite !lookup_insert_ne by done. split; [rewrite Hr; lia|exact Hk].
Qed.

(** The insertions of [fill_ops] all store their key, without growth. *)
Lemma fill_run (n : nat) :
  ∀ (a : Z) (d : @data_t identity_params),
    filled_to p d a → 4294967296 ≤ a → a + Z.of_nat n ≤ 8589934592 →
    ∃ d', table_run (hp := identity_params) p (fill_ops a (Z.of_nat n)) d =
            Some (replicate n (@OBool identity_params true), d') ∧
          filled_to p d' (a + Z.of_nat n).
Proof.
  unfold fill_ops. induction n as [|n IH]; intros a d Hf Ha Hn.
  - exists d. split; [done|]. by rewrite Z.add_0_r.
  - rewrite seqZ_cons by lia. cbn [map table_run table_step].
    destruct (fill_step d a Hf ltac:(lia)) as [-> Hf']. cbn [mbind option_bind].
    destruct (IH (a + 1) _ Hf' ltac:(lia) ltac:(lia)) as (d' & Hrun & Hf'').
    replace (Z.pred (Z.of_nat (S n))) with (Z.of_nat n) by lia.
    replace (Z.succ a) with (a + 1) by lia. rewrite Hrun. cbn [mbind option_bind].
    exists d'. split; [done|].
    by replace (a + Z.of_nat (S n)) with (a + 1 + Z.of_nat n) by lia.
Qed.

Lemma create_wide :
  ∃ d0 : @data_t identity_params,
    Table.create (hp := identity_params) p 8589934592 = Some d0 ∧
    filled_to p d0 4294967296.
Proof.
  destruct (create_spec (hp := identity_params) p 33 ltac:(lia))
    as (d0 & Hd0 & Hwf & Hns & Hst & _ & Hsz & Hcap).
  exists d0. split; [exact Hd0|]. split; [exact Hwf|]. split; [exact Hns|].
  split; [exact Hcap|]. split; [by rewrite Hsz|].
  intros s Hs. rewrite (Hst s). unfold INVALID, VALID. split; [|done]. split; [done|lia].
Qed.

(** The same storage out of [reserve] on a table of the default
    capacity. *)
Lemma reserve_wide :
  ∃ d0 d1 : @data_t identity_params,
    Table.create (hp := identity_params) p 32 = Some d0 ∧
    Table.reserve (hp := identity_params) p 8589934592 d0 = Some d1 ∧
    filled_to p d1 4294967296.
Proof.
  destruct (create_spec (hp := identity_params) p 5 ltac:(lia))
    as (d0 & Hd0 & Hwf0 & _ & _ & _ & Hs0 & Hc0).
  change (2 ^ 5) with 32 in Hd0, Hc0. change (32 - 1) with 31 in Hc0.
  destruct (reserve_grows (hp := identity_params) p d0 8589934592 Hwf0)
    as (c & d1 & Hr & _ & Hres & Hwf1 & Hns1 & Hc1 & Hs1 & _).
  { by rewrite Hc0. }
  { unfold Table.capacity. rewrite Hc0. by vm_compute. }
  rewrite (next_power_of_2_unique _ _ _ Hr (next_power_of_2_self 33 ltac:(lia))) in Hc1.
  change (2 ^ 33 - 1) with 8589934591 in Hc1. rewrite Hs0 in Hs1.
  exists d0, d1. split; [exact Hd0|]. split; [exact Hres|].
  split; [exact Hwf1|]. split; [exact Hns1|]. split; [exact Hc1|]. split; [by rewrite Hs1|].
  intros s Hs.
  pose proof (empty_not_valid (hp := identity_params) p d1 s Hwf1 Hs1 Hs) as Hfree.
  split; [|done]. split; [done|lia].
Qed.

(** All the keys 2^32, ..., 2^33 - 1 are in their home slots: the
    storage is half full, and a key whose home is the slot 2^32 meets
    a collision there. *)
Lemma filled_insert_fails (d : @data_t identity_params) :
  filled_to p d 8589934592 →
  Table.count (hp := identity_params) p 12884901888 d = Some 0 ∧
  Table.insert (hp := identity_params) p 12884901888 0 d = None.
Proof.
  intros (Hwf & Hns & Hc & Hs & Hst).
  assert (absent (hp := identity_params) p d 12884901888) as Habs.
  { intros i Hi Hv Hki. destruct (Hst i Hi) as [Hr Hk].
    destruct (Hk Hv) as [Hki' _]. apply Hr in Hv.
    pose proof (eq_trans (eq_sym Hki') Hki) as [= ->]. lia. }
  assert (home (hp := identity_params) d 12884901888 = 4294967296) as Hh.
  { unfold home. rewrite Hc. by vm_compute. }
  assert (∀ s, 4294967296 ≤ s < 8589934592 → state_at (hp := identity_params) p d s = VALID)
    as Hfull by (intros s ?; destruct (Hst s ltac:(lia)) as [Hr _]; apply Hr; lia).
  split.
  - destruct (lookup_cases (hp := identity_params) p d 12884901888 Hwf)
      as [(i & v & Hh' & _)|(_ & _ & Hcount & _)]; [|exact Hcount].
    destruct Hh' as (Hi & Hv & Hk & _). by destruct (Habs i (proj1 Hi) Hv).
  - apply (insert_wide_fails (hp := identity_params) p d 12884901888 0 Hwf Habs).
    + split; [rewrite Hh; apply Hfull; lia|lia].
    + lia.
    + intros s Hs0 Hv. destruct (Hst s ltac:(lia)) as [Hr _]. apply Hr in Hv. lia.
    + apply Hfull; lia.
    + apply Hfull; lia.
    + destruct (key_table d !! 1) as [k|] eqn:Hk; [|done].
      destruct (Hns 1) as [_ Hv]; [left; by rewrite Hk|].
      destruct (Hst 1 ltac:(lia)) as [Hr _]. apply Hr in Hv. lia.
Qed.

End Fill.

(** * The standalone table at any capacity *)

Section Insert2.
Context {hp : hash_params}.
Local Abbreviation r := erase_policy_rehash.

(** The growth of the standalone table visits the slots by their
    index, at any capacity. *)
Lemma increase_table_size2_spec (d : data_t) (m : Z) :
  wf r d → 0 ≤ m → capacity_minus_1 d + 1 < 2 ^ m →
  ∃ nd, Table2.increase_table_size d (2 ^ m) = Some nd ∧ wf r nd ∧ no_stale r nd ∧
        capacity_minus_1 nd = 2 ^ m - 1 ∧ size nd = size d ∧ same_mapping r d nd.
Proof.
  intros Hwf Hm Hgrow.
  destruct (migrate_spec r d m Hwf Hm Hgrow)
    as (nd0 & d' & nd & Hnd0 & Hrun & Hwfn & Hns & Hc & Hs & Hmap).
  exists nd. split; [|done].
  destruct (new_data_wf _ _ Hnd0) as (Hwf0 & _).
  pose proof (wf_wf_bitmap r d Hwf) as Hb.
  pose proof (capacity_pos d (wfb_capacity r d Hb)) as Hpos.
  unfold Table2.increase_table_size.
  assert (0 < 2 ^ m) as Hp by (apply Z.pow_pos_nonneg; lia).
  rewrite land_pow2_pred, Z.eqb_refl by done. cbn [negb].
  destruct (Z.ltb_spec 0 (2 ^ m)) as [_|]; [|lia]. cbn [negb].
  change (Table2.new_data (2 ^ m)) with (Table.new_data r (2 ^ m)). rewrite Hnd0.
  rewrite (rehash_loop2_eq d Hb _ 0 _ 0 d nd0); [|done|done|lia|lia| |by apply wf_wf_bitmap].
  2:{ split; [done|]. by rewrite Z.shiftr_0_r. }
  by rewrite occupied_from_0, Hrun.
Qed.

Lemma add_new_restart2_places (fuel : nat) (d : data_t) (key : K) (value : V) :
  wf r d → absent r d key → ¬ needs_growth r d key →
  ∃ i, placeable r d key i ∧
       Table2.add_new_restart (S fuel) key value d (hash_functor key) =
         Some (place r d i key value, i).
Proof.
  intros Hwf Habs Hng.
  destruct (restart_sim_places fuel d d key value (agree_refl d) Hwf Habs Hng)
    as (i & Hpl & _ & Hrun).
  by exists i.
Qed.

Lemma add_new_restart2_grows (fuel : nat) (d : data_t) (key : K) (value : V) :
  wf r d → absent r d key → needs_growth r d key →
  ∃ nd, wf r nd ∧ absent r nd key ∧
        capacity_minus_1 nd + 1 = (capacity_minus_1 d + 1) * 2 ∧ size nd = size d ∧
        same_mapping r d nd ∧
        Table2.add_new_restart (S fuel) key value d (hash_functor key) =
          Table2.add_new_restart fuel key value nd (hash_functor key).
Proof.
  intros Hwf Habs [Hv Hload].
  destruct (wf_capacity r d Hwf) as (n & Hn & Hcap).
  pose proof (capacity_pos d (wf_pow2 r d Hwf)) as Hpos.
  assert ((capacity_minus_1 d + 1) * 2 = 2 ^ (n + 1)) as Hdouble.
  { rewrite Hcap, Z.pow_add_r by lia. lia. }
  destruct (increase_table_size2_spec d (n + 1) Hwf) as
    (nd & Hgrow & Hwfn & _ & Hc & Hs & Hmap); [lia|lia|].
  rewrite <- Hdouble in Hgrow, Hc. exists nd. split; [done|].
  split; [by apply (absent_same_mapping r d nd key)|]. split; [lia|]. split; [done|].
  split; [done|]. cbn [Table2.add_new_restart].
  rewrite add_new_pass2_eq by (by apply wf_wf_bitmap).
  rewrite (add_new_pass_grows r d key value Hwf Habs Hv Hload). by rewrite Hgrow.
Qed.

(** [insert] of the standalone table for a key that the storage does
    not hold. *)
Lemma insert2_absent (d : data_t) (key : K) (value : V) :
  wf r d → absent r d key →
  ∃ d' i, Table2.insert key value d = Some (true, d') ∧ wf r d' ∧
          size d' = size d + 1 ∧ holds r d' i key value ∧ extends r d d' key value.
Proof.
  intros Hwf Habs. unfold Table2.insert. rewrite get_index_hash2_eq.
  fold (Table.get_index r key d).
  destruct (lookup_cases r d key Hwf) as [(i & v & Hh & _)|(_ & -> & _)].
  { destruct Hh as (Hi & Hst & Hk & _). by destruct (Habs i (proj1 Hi) Hst). }
  unfold Table2.add_new_hash.
  assert (∀ fuel e, wf r e → absent r e key → ¬ needs_growth r e key → size e = size d →
            same_mapping r d e →
            ∃ d' i, Table2.add_new_restart (S fuel) key value e (hash_functor key) =
                      Some (d', i) ∧ wf r d' ∧ size d' = size d + 1 ∧
                    holds r d' i key value ∧ extends r d d' key value) as Hplace.
  { intros fuel e Hwfe Habse Hnge Hse Hmape.
    destruct (add_new_restart2_places fuel e key value Hwfe Habse Hnge) as (i & Hpl & Hrun).
    destruct (place_spec r e key value i Hwfe Habse Hpl) as (Hwf' & Hh & Hext & _).
    exists (place r e i key value), i. split; [done|]. split; [done|].
    split; [cbn [size place]; lia|]. split; [done|].
    by apply (extends_same_mapping r d e). }
  assert (∃ d' i, Table2.add_new_restart 64 key value d (hash_functor key) = Some (d', i) ∧
                  wf r d' ∧ size d' = size d + 1 ∧ holds r d' i key value ∧
                  extends r d d' key value) as (d' & i & -> & Hrest).
  { destruct (decide (needs_growth r d key)) as [Hg|Hg];
      [|by apply Hplace; [..|intros k v]].
    destruct (add_new_restart2_grows 63 d key value Hwf Habs Hg)
      as (n1 & Hwf1 & Habs1 & Hc1 & Hs1 & Hmap1 & ->).
    destruct (decide (needs_growth r n1 key)) as [Hg1|Hg1]; [|by apply Hplace].
    destruct (add_new_restart2_grows 62 n1 key value Hwf1 Habs1 Hg1)
      as (n2 & Hwf2 & Habs2 & Hc2 & Hs2 & Hmap2 & ->).
    apply Hplace; [done|done| |lia|].
    - intros [_ Hload]. pose proof (size_le_capacity r d Hwf).
      pose proof (capacity_pos d (wf_pow2 r d Hwf)). lia.
    - intros k v. by rewrite (Hmap1 k v), (Hmap2 k v). }
  by exists d', i.
Qed.

(** While no growth is needed, the two tables store a new key at the
    same place. *)
Lemma insert2_in_place (d : data_t) (key : K) (value : V) :
  wf r d → absent r d key → ¬ needs_growth r d key →
  Table2.insert key value d = Table.insert r key value d.
Proof.
  intros Hwf Habs Hng.
  destruct (insert_in_place r d key value Hwf Habs Hng) as (i & Hpl & -> & _).
  unfold Table2.insert. rewrite get_index_hash2_eq. fold (Table.get_index r key d).
  destruct (lookup_cases r d key Hwf) as [(j & v & Hh & _)|(_ & -> & _)].
  { destruct Hh as (Hi & Hst & Hk & _). by destruct (Habs j (proj1 Hi) Hst). }
  unfold Table2.add_new_hash.
  destruct (add_new_restart2_places 63 d key value Hwf Habs Hng) as (i' & Hpl' & ->).
  by rewrite (placeable_unique r d key i' i Hpl' Hpl).
Qed.

(** What the standalone table finds of a pair that the storage holds. *)
Lemma find2_holds (d : data_t) (i : Z) (key : K) (value : V) :
  wf r d → holds r d i key value →
  Table2.find key d = Some i ∧ i ≠ NPOS ∧ Table2.iter_deref d i = Some (key, value) ∧
  Table2.count key d = Some 1.
Proof.
  intros Hwf Hh. rewrite find2_eq, count2_eq.
  destruct (lookup_cases r d key Hwf)
    as [(j & v & Hh' & _ & Hcount & Hfind & Hne & _)|(Habs & _)].
  - assert (j = i) as ->.
    { destruct Hh as (Hi & Hst & Hk & _), Hh' as (Hj & Hstj & Hkj & _).
      apply (wf_unique r d Hwf j i key); (lia || done). }
    split; [done|]. split; [done|]. split; [|done].
    destruct Hh as (_ & _ & Hk & Hv). unfold Table2.iter_deref. by rewrite Hk, Hv.
  - destruct Hh as (Hi & Hst & Hk & _). by destruct (Habs i (proj1 Hi) Hst).
Qed.

End Insert2.

(** * The two tables filled from the slot 2^32 on *)

Section Fill2.
Local Abbreviation r := erase_policy_rehash.

Lemma create2_eq (c : Z) :
  Table2.create (hp := identity_params) c = Table.create (hp := identity_params) r c.
Proof. reflexivity. Qed.

Lemma fill_run2 (n : nat) :
  ∀ (a : Z) (d : @data_t identity_params),
    filled_to r d a → 4294967296 ≤ a → a + Z.of_nat n ≤ 8589934592 →
    table2_run (hp := identity_params) (fill_ops a (Z.of_nat n)) d =
    table_run (hp := identity_params) r (fill_ops a (Z.of_nat n)) d.
Proof.
  unfold fill_ops. induction n as [|n IH]; intros a d Hf Ha Hn; [done|].
  rewrite seqZ_cons by lia. cbn [map table_run table_step table2_run table2_step].
  destruct (fill_step r d a Hf ltac:(lia)) as [Hins Hf'].
  assert (Table2.insert (hp := identity_params) a 0 d =
          Table.insert (hp := identity_params) r a 0 d) as ->.
  { destruct Hf as (Hwf & _ & Hc & _ & Hst).
    assert (state_at (hp := identity_params) r d a ≠ VALID) as Hfree.
    { intros Hv. destruct (Hst a ltac:(lia)) as [Hr _]. apply Hr in Hv. lia. }
    apply insert2_in_place; [done| |].
    - intros i Hi Hv Hki. destruct (Hst i Hi) as [Hr Hk].
      destruct (Hk Hv) as [Hki' _]. apply Hr in Hv.
      pose proof (eq_trans (eq_sym Hki') Hki) as [= ->]. lia.
    - intros [Hv _]. by rewrite (fill_home d a Hc) in Hv by lia. }
  rewrite Hins. cbn [mbind option_bind].
  replace (Z.pred (Z.of_nat (S n))) with (Z.of_nat n) by lia.
  replace (Z.succ a) with (a + 1) by lia.
  by rewrite (IH (a + 1) _ Hf') by lia.
Qed.

End Fill2.

(** * What a caller observes *)

Section Observations.
Context {hp : hash_params}.
Variable p : erase_policy.

(** [find] followed by the dereference depends on the mapping only. *)
Lemma lookup_ext (d d' : data_t) (k : K) :
  wf p d → wf p d' → (∀ v, maps_to p d' k v ↔ maps_to p d k v) →
  lookup_ p k d' = lookup_ p k d.
Proof.
  intros Hwf Hwf' Hmap.
  destruct (lookup_cases p d' k Hwf') as [(i & v & Hh & _ & _ & _ & _ & _ & ->)|(Habs & _ & _ & _ & ->)].
  - symmetry. apply (maps_to_lookup p d k v Hwf), Hmap. by exists i.
  - destruct (lookup_cases p d k Hwf) as [(i & v & Hh & _)|(_ & _ & _ & _ & ->)]; [|done].
    assert (maps_to p d' k v) as Hm by (apply Hmap; by exists i).
    by apply (absent_iff p d' k Hwf') in Hm.
Qed.

Lemma lookup_extends (d d' : data_t) (key k : K) (value : V) :
  wf p d → wf p d' → extends p d d' key value → k ≠ key →
  lookup_ p k d' = lookup_ p k d.
Proof.
  intros Hwf Hwf' Hext Hne. apply lookup_ext; [done..|]. intros v. rewrite (Hext k v).
  split; [intros [?|[? _]]; done|by left].
Qed.

Lemma lookup_removes (d d' : data_t) (key k : K) :
  wf p d → wf p d' → removes p d d' key → k ≠ key →
  lookup_ p k d' = lookup_ p k d.
Proof.
  intros Hwf Hwf' Hrem Hne. apply lookup_ext; [done..|]. intros v. rewrite (Hrem k v).
  split; [by intros [? _]|done].
Qed.

Lemma lookup_same_mapping (d d' : data_t) (k : K) :
  wf p d → wf p d' → same_mapping p d d' → lookup_ p k d' = lookup_ p k d.
Proof. intros Hwf Hwf' Hmap. apply lookup_ext; [done..|]. intros v. by rewrite (Hmap k v). Qed.

Lemma count_absent (d : data_t) (key : K) :
  wf p d → Table.count p key d = Some 0 ↔ absent p d key.
Proof.
  intros Hwf.
  destruct (lookup_cases p d key Hwf) as [(i & v & Hh & _ & -> & _)|(Habs & _ & -> & _)].
  - split; [done|]. intros Habs. destruct Hh as (Hi & Hst & Hk & _).
    by destruct (Habs i (proj1 Hi) Hst).
  - done.
Qed.

Lemma count_present (d : data_t) (key : K) :
  wf p d → Table.count p key d = Some 1 ↔ ∃ i v, holds p d i key v.
Proof.
  intros Hwf.
  destruct (lookup_cases p d key Hwf) as [(i & v & Hh & _ & -> & _)|(Habs & _ & -> & _)].
  - split; [by exists i, v|done].
  - split; [done|]. intros (i & v & Hi & Hst & Hk & _). by destruct (Habs i (proj1 Hi) Hst).
Qed.

(** ** The loop of [clear] and of the destructor *)

Lemma clear_loop_tables (d0 : data_t) :
  wf_bitmap p d0 →
  ∀ (n : nat) (i vv vp : Z) (d : data_t),
    valid d = valid d0 → 0 ≤ i → cache_ok p d0 i vv vp →
    ∀ q, key_table (Table.clear_loop p n i vv vp d) !! q =
           (if decide (i ≤ q < i + Z.of_nat n ∧ state_at p d0 q = VALID)
            then None else key_table d !! q) ∧
         value_table (Table.clear_loop p n i vv vp d) !! q =
           (if decide (i ≤ q < i + Z.of_nat n ∧ state_at p d0 q = VALID)
            then None else value_table d !! q).
Proof.
  intros Hb. induction n as [|n IH]; intros i vv vp d Hv Hi Hcache q.
  { cbn [Table.clear_loop]. rewrite !decide_False by lia. done. }
  cbn [Table.clear_loop].
  rewrite (cache_ok_state p d0 i vv vp Hcache).
  pose proof (cache_ok_succ p d0 i vv vp Hi Hcache) as Hnext.
  set (d1 := if state_at p d0 i =? VALID then _ else d).
  assert (valid d1 = valid d0) as Hv1 by (subst d1; by destruct (_ =? VALID)).
  assert (key_table d1 !! q =
            (if decide (q = i ∧ state_at p d0 q = VALID) then None else key_table d !! q) ∧
          value_table d1 !! q =
            (if decide (q = i ∧ state_at p d0 q = VALID) then None else value_table d !! q))
    as [Hk1 Hw1].
  { subst d1. destruct (Z.eqb_spec (state_at p d0 i) VALID) as [E|E].
    - cbn [key_table value_table]. destruct (decide (q = i)) as [->|Hne].
      + rewrite !decide_True by done. by rewrite !lookup_delete_eq.
      + rewrite !decide_False by (intros [? _]; done). by rewrite !lookup_delete_ne.
    - rewrite !decide_False by (intros [-> ?]; done). done. }
  assert (∀ vv' vp', cache_ok p d0 (i + 1) vv' vp' →
            key_table (Table.clear_loop p n (i + 1) vv' vp' d1) !! q =
              (if decide (i ≤ q < i + Z.of_nat (S n) ∧ state_at p d0 q = VALID)
               then None else key_table d !! q) ∧
            value_table (Table.clear_loop p n (i + 1) vv' vp' d1) !! q =
              (if decide (i ≤ q < i + Z.of_nat (S n) ∧ state_at p d0 q = VALID)
               then None else value_table d !! q)) as Hstep.
  { intros vv' vp' Hc'. destruct (IH (i + 1) vv' vp' d1 Hv1 ltac:(lia) Hc' q) as [-> ->].
    rewrite Hk1, Hw1.
    destruct (decide (i + 1 ≤ q < i + 1 + Z.of_nat n ∧ state_at p d0 q = VALID)) as [[Hr Hs]|Hn1].
    - rewrite !decide_True by (split; [lia|done]). done.
    - destruct (decide (q = i ∧ state_at p d0 q = VALID)) as [[-> Hs]|Hn2].
      + rewrite !decide_True by (split; [lia|done]). done.
      + rewrite !decide_False; [done| |]; intros [Hr Hs]; (apply Hn1 || apply Hn2);
          (split; [lia|done]) || idtac;
          destruct (decide (q = i)) as [->|]; try (by destruct Hn2); destruct Hn1; split; (lia || done). }
  destruct (Z.land i (META_ELEMENTS_PER_WORD p - 1) =? META_ELEMENTS_PER_WORD p - 1).
  - rewrite Hv1. by apply Hstep.
  - by apply Hstep.
Qed.

(** The loop destroys the objects of the [VALID] slots and no other. *)
Lemma clear_loop_all (d : data_t) (q : Z) :
  wf_bitmap p d →
  key_table (destructor p d) !! q =
    (if decide (0 ≤ q < capacity_minus_1 d + 1 ∧ state_at p d q = VALID)
     then None else key_table d !! q) ∧
  value_table (destructor p d) !! q =
    (if decide (0 ≤ q < capacity_minus_1 d + 1 ∧ state_at p d q = VALID)
     then None else value_table d !! q).
Proof.
  intros Hb. unfold destructor.
  pose proof (capacity_pos d (wfb_capacity p d Hb)) as Hpos.
  destruct (clear_loop_tables d Hb (Z.to_nat (capacity_minus_1 d + 1)) 0 (rd (valid d) 0) 0 d
              eq_refl ltac:(lia)) with (q := q) as [-> ->].
  { destruct p; (split; [done|]); symmetry; apply Z.shiftr_0_r. }
  rewrite Z2Nat.id by lia. done.
Qed.

Lemma destructor_tidy (d : data_t) :
  wf p d → no_stale p d → key_table (destructor p d) = ∅ ∧ value_table (destructor p d) = ∅.
Proof.
  intros Hwf Hns. pose proof (wf_wf_bitmap p d Hwf) as Hb.
  split; apply map_eq; intros q; rewrite lookup_empty;
    destruct (clear_loop_all d q Hb) as [Hk Hv]; [rewrite Hk|rewrite Hv];
    (destruct (decide _) as [|Hn]; [done|]).
  - destruct (key_table d !! q) eqn:E; [|done].
    destruct (Hns q) as [Hq Hst]; [left; by rewrite E|].
    destruct Hn. split; [|done]. split; [done|]. by apply (valid_slot_in_range p).
  - destruct (value_table d !! q) eqn:E; [|done].
    destruct (Hns q) as [Hq Hst]; [right; by rewrite E|].
    destruct Hn. split; [|done]. split; [done|]. by apply (valid_slot_in_range p).
Qed.

Lemma clear_tables (d : data_t) :
  key_table (Table.clear p d) = key_table (destructor p d) ∧
  value_table (Table.clear p d) = value_table (destructor p d).
Proof. done. Qed.

Lemma clear_no_stale (d : data_t) : wf p d → no_stale p d → no_stale p (Table.clear p d).
Proof.
  intros Hwf Hns i. destruct (clear_tables d) as [-> ->].
  destruct (destructor_tidy d Hwf Hns) as [-> ->]. rewrite !lookup_empty.
  by intros [[? ?]|[? ?]].
Qed.

End Observations.

(** * The rounding helper outside its precondition *)

Lemma top_bit_set (v n : Z) : 0 ≤ n → 2 ^ n ≤ v < 2 ^ (n + 1) → Z.land v (2 ^ n) = 2 ^ n.
Proof.
  intros Hn Hv. apply Z.bits_inj'. intros i Hi. rewrite Z.land_spec.
  destruct (Z.eq_dec i n) as [->|Hne].
  - rewrite Z.pow2_bits_true by done. rewrite andb_true_r.
    apply Z.testbit_true; [done|].
    assert (v / 2 ^ n = 1) as ->; [|done].
    rewrite Z.pow_add_r in Hv by lia. change (2 ^ 1) with 2 in Hv.
    symmetry. apply Z.div_unique with (r := v - 2 ^ n); lia.
  - rewrite Z.pow2_bits_false by lia. apply andb_false_r.
Qed.

Lemma next_power_of_2_range (v r n : Z) :
  0 ≤ n → 0 < v ≤ 2 ^ n → next_power_of_2 v r → 0 < r ≤ 2 ^ n.
Proof. intros Hn Hv (_ & Hle & Hmin). split; [lia|]. apply Hmin; lia. Qed.

(** * Growth and the tombstones *)

Section GrowthStates.
Context {hp : hash_params}.
Variable p : erase_policy.

Lemma rehash_all_no_deleted (l : list Z) :
  ∀ d nd d' nd',
    wf_bitmap p nd → (∀ i, 0 ≤ i → state_at p nd i ≠ DELETED) →
    rehash_all p l d nd = Some (d', nd') →
    ∀ i, 0 ≤ i → state_at p nd' i ≠ DELETED.
Proof.
  induction l as [|s l IH]; intros d nd d' nd' Hb Hno Hrun; cbn [rehash_all] in Hrun.
  { by injection Hrun as <- <-. }
  destruct (key_table d !! s) as [k|]; [|done].
  destruct (value_table d !! s) as [v|]; [|done].
  destruct (Table.add_new_to p k v nd (hash_functor k)) as [[nd1 j]|] eqn:Hadd; [|done].
  destruct (add_new_to_placed p k v nd nd1 _ j Hb Hadd) as (-> & Hj & Hb1).
  apply (IH (destroy_slot d s) (place p nd j k v) d' nd' Hb1); [|exact Hrun].
  intros i Hi. rewrite (place_state p nd j k v i Hb Hj Hi).
  destruct (decide (i = j)); [by unfold VALID, DELETED|by apply Hno].
Qed.

Lemma increase_table_size_no_deleted (d nd : data_t) (new_size : Z) :
  wf_bitmap p d → capacity_minus_1 d < 2 ^ 32 →
  Table.increase_table_size p d new_size = Some nd →
  ∀ i, 0 ≤ i → state_at p nd i ≠ DELETED.
Proof.
  intros Hb Hsmall. unfold Table.increase_table_size.
  destruct (negb (Z.land new_size (new_size - 1) =? 0)); [done|].
  destruct (negb (0 <? new_size)); [done|].
  destruct (Table.new_data p new_size) as [nd0|] eqn:Hnd0; [|done].
  pose proof (capacity_pos d (wfb_capacity p d Hb)) as Hpos.
  rewrite (rehash_loop_eq p d Hb Hsmall _ d nd0 0 (Table.get_first p d));
    [|done|done|lia|lia|by apply get_first_spec].
  destruct (rehash_all p (occupied_from p d 0) d nd0) as [[d' nd']|] eqn:Hrun; [|done].
  intros [= <-].
  assert (wf p nd0 ∧ ∀ i, state_at p nd0 i = INVALID) as [Hwf0 Hst0].
  { pose proof Hnd0 as Hnd0'. unfold Table.new_data in Hnd0'.
    destruct (Z.ltb_spec 0 new_size) as [Hp|]; [|done]. cbn [negb] in Hnd0'.
    destruct (Z.eqb_spec (Z.land new_size (new_size - 1)) 0) as [Hpow|]; [|done].
    destruct (pow2_test new_size Hp Hpow) as (m & Hm & ->).
    destruct (new_data_spec p m Hm) as (nd1 & Hnd1 & Hwf1 & _ & Hst1 & _).
    rewrite Hnd0 in Hnd1. by injection Hnd1 as <-. }
  apply (rehash_all_no_deleted (occupied_from p d 0) d nd0 d' nd' (wf_wf_bitmap p nd0 Hwf0));
    [|exact Hrun].
  intros i _. rewrite Hst0. by unfold INVALID, DELETED.
Qed.

(** The assertions of [increase_table_size]. *)
Lemma increase_table_size_asserts (d : data_t) (new_size : Z) :
  new_size ≤ 0 ∨ Z.land new_size (new_size - 1) ≠ 0 →
  Table.increase_table_size p d new_size = None.
Proof.
  intros Hbad. unfold Table.increase_table_size.
  destruct (Z.eqb_spec (Z.land new_size (new_size - 1)) 0) as [E|E]; [|done]. cbn [negb].
  destruct (Z.ltb_spec 0 new_size) as [Hp|]; [|done]. destruct Hbad; [lia|done].
Qed.

(** ** The first position *)

Lemma begin_end_iff (d : data_t) : wf p d → Table.begin_ p d = Table.end_ ↔ size d = 0.
Proof.
  intros Hwf. unfold Table.begin_, Table.end_.
  destruct (get_first_spec p d (wf_wf_bitmap p d Hwf)) as [[Hr Hnone]|(Hr & Hv & _)].
  - split; [|done]. intros _. rewrite (wf_size p d Hwf).
    unfold occupied_slots. rewrite filter_none; [done|].
    intros s Hs%elem_of_seqZ. apply Hnone. lia.
  - split.
    + intros E. rewrite E in Hr. unfold NPOS in Hr. by cbn in Hr.
    + intros Hs. by destruct (empty_not_valid p d (Table.get_first p d) Hwf Hs Hr).
Qed.

Lemma begin_first (d : data_t) :
  wf p d → Table.begin_ p d ≠ Table.end_ →
  0 ≤ Table.begin_ p d < capacity_minus_1 d + 1 ∧
  state_at p d (Table.begin_ p d) = VALID ∧
  is_Some (Table.iter_deref d (Table.begin_ p d)) ∧
  ∀ s, 0 ≤ s < Table.begin_ p d → state_at p d s ≠ VALID.
Proof.
  intros Hwf Hne. unfold Table.begin_, Table.end_ in *.
  destruct (get_first_spec p d (wf_wf_bitmap p d Hwf)) as [[Hr Hnone]|(Hr & Hv & Hfirst)];
    [done|].
  split; [split; [done|by apply (valid_slot_in_range p)]|]. split; [done|]. split; [|done].
  destruct (wf_live p d Hwf _ Hr Hv) as [[k Hk] [v Hw]].
  unfold Table.iter_deref. by rewrite Hk, Hw.
Qed.

(** ** The elements that an iteration delivers *)

Lemma iterate_entries (d : data_t) (es : list (K * V)) :
  wf p d → mapM (Table.iter_deref d) (occupied_slots p d) = Some es →
  length es = length (occupied_slots p d) ∧
  ∀ k v, (k, v) ∈ es ↔ maps_to p d k v.
Proof.
  intros Hwf Hes. apply mapM_Some in Hes. split; [symmetry; by eapply Forall2_length|].
  intros k v. rewrite (maps_to_occupied p d k v). split.
  - intros Hin. apply list_elem_of_lookup in Hin as [n Hn].
    destruct (Forall2_lookup_r _ _ _ _ _ Hes Hn) as (i & Hi & Hd).
    exists i. split; [by eapply list_elem_of_lookup_2|].
    unfold Table.iter_deref in Hd.
    destruct (key_table d !! i) as [k'|]; [|done].
    destruct (value_table d !! i) as [v'|]; [|done]. by simplify_eq.
  - intros (i & Hi & Hk & Hv). apply list_elem_of_lookup in Hi as [n Hn].
    destruct (Forall2_lookup_l _ _ _ _ _ Hes Hn) as (e & He & Hd).
    unfold Table.iter_deref in Hd. rewrite Hk, Hv in Hd. injection Hd as <-.
    by eapply list_elem_of_lookup_2.
Qed.

End GrowthStates.

(** * The marker erase and the positions of the other elements *)

Section MarkerPositions.
Context {hp : hash_params}.
Local Abbreviation m := erase_policy_use_marker.

Lemma marker_erase_positions (d d' : data_t) (key : K) :
  wf m d → Table.erase m key d = Some d' →
  wf m d' ∧
  (∀ k, k ≠ key → Table.find m k d' = Table.find m k d) ∧
  (∀ pos k v, k ≠ key → Table.iter_deref d pos = Some (k, v) →
              Table.iter_deref d' pos = Some (k, v)).
Proof.
  intros Hwf Hrun.
  destruct (lookup_cases m d key Hwf) as [(i & v & Hh & _)|(Habs & _)].
  2:{ rewrite (erase_absent m d key Hwf Habs) in Hrun. by injection Hrun as <-. }
  rewrite (erase_marker_eq d i key v Hwf Hh) in Hrun. injection Hrun as <-.
  destruct (do_erase_marker_spec d i key v Hwf Hh) as (Hwf' & Hrem & _ & Hst).
  set (d' := with_size _ _) in *.
  split; [done|]. split.
  - intros k Hne.
    destruct (lookup_cases m d k Hwf) as [(j & w & Hhj & _ & _ & -> & _)|(Habsk & _ & _ & -> & _)].
    + destruct Hhj as (Hj & Hstj & Hkj & Hvj), Hh as (Hi & Hsti & Hki & _).
      assert (j ≠ i) as Hji by (intros ->; by simplify_eq).
      unfold Table.find. rewrite (get_index_present m d' k j Hwf'); [done|lia| |].
      * rewrite (Hst j) by lia. by rewrite decide_False.
      * subst d'. cbn [key_table with_size with_tables]. by rewrite lookup_delete_ne.
    + destruct (lookup_cases m d' k Hwf') as [(j & w & Hhj & _)|(_ & _ & _ & -> & _)]; [|done].
      assert (maps_to m d' k w) as Hm by (by exists j).
      apply Hrem in Hm as [Hm _]. by apply (absent_iff m d k Hwf) in Hm.
  - intros pos k w Hne Hd. unfold Table.iter_deref in *.
    destruct (key_table d !! pos) as [k'|] eqn:Hk; [|done].
    destruct (value_table d !! pos) as [w'|] eqn:Hw; [|done]. injection Hd as -> ->.
    destruct Hh as (_ & _ & Hki & _).
    assert (pos ≠ i) as Hpi by (intros ->; by simplify_eq).
    subst d'. cbn [key_table value_table with_size with_tables].
    by rewrite !lookup_delete_ne, Hk, Hw.
Qed.

End MarkerPositions.

(** * Runs of calls and the objects that are alive *)

Section RunsTidy.
Context {hp : hash_params}.
Variable p : erase_policy.

Lemma table_step_no_stale (o : op) (d d' : data_t) (ob : obs) :
  wf p d → capacity_minus_1 d < 2 ^ 31 → no_stale p d →
  table_step p o d = Some (ob, d') → no_stale p d'.
Proof.
  intros Hwf Hsmall Hns.
  destruct o as [k v|k|k|k v|k|k| | | | ]; cbn [table_step]; intros Hrun.
  - destruct (Table.insert p k v d) as [[b e]|] eqn:Hins; [|done]. cbn in Hrun.
    injection Hrun as _ <-. by apply (insert_wf p d e k v b Hwf Hsmall Hins).
  - destruct (Table.erase p k d) as [e|] eqn:Her; [|done]. cbn in Hrun.
    injection Hrun as _ <-. by apply (erase_wf p d e k Hwf Her).
  - destruct (index_cases p d k Hwf Hsmall) as (e & i & v & Hi & _ & Hh & Hns' & _).
    rewrite Hi in Hrun. cbn in Hrun. destruct Hh as (_ & _ & _ & Hv). rewrite Hv in Hrun.
    cbn in Hrun. injection Hrun as _ <-. by apply Hns'.
  - destruct (index_cases p d k Hwf Hsmall) as (e & i & v0 & Hi & Hwf' & Hh & Hns' & _).
    rewrite Hi in Hrun. cbn in Hrun. injection Hrun as _ <-.
    by apply (assign_spec p e i k v0 v Hwf' Hh), Hns'.
  - destruct (Table.find p k d) as [pos|]; [|done]. cbn in Hrun.
    destruct (pos =? Table.end_); [by injection Hrun as _ <-|].
    destruct (Table.iter_deref d pos); [|done]. cbn in Hrun. by injection Hrun as _ <-.
  - destruct (Table.count p k d); [|done]. cbn in Hrun. by injection Hrun as _ <-.
  - by injection Hrun as _ <-.
  - by injection Hrun as _ <-.
  - injection Hrun as _ <-. by apply clear_no_stale.
  - destruct (Table.iterate p d) as [l|]; [|done]. cbn in Hrun.
    destruct (mapM (Table.iter_deref d) l); [|done]. cbn in Hrun. by injection Hrun as _ <-.
Qed.

Lemma table_run_tidy (ops : list op) :
  ∀ (d : data_t) (n : Z),
    wf p d → no_stale p d → size d ≤ n → capacity_minus_1 d < 2 ^ 31 →
    4 * (n + Z.of_nat (length ops)) ≤ 2 ^ 31 →
    ∃ obs d', table_run p ops d = Some (obs, d') ∧ wf p d' ∧ no_stale p d' ∧
      length obs = length ops ∧
      size d' ≤ n + Z.of_nat (length ops) ∧
      capacity_minus_1 d ≤ capacity_minus_1 d' ∧
      capacity_minus_1 d' + 1 ≤
        Z.max (capacity_minus_1 d + 1) (4 * (n + Z.of_nat (length ops))).
Proof.
  induction ops as [|o ops IH]; intros d n Hwf Hns Hn Hsmall Hlen.
  - eexists _, _. split; [done|]. split; [done|]. split; [done|]. split; [done|].
    cbn [length]. lia.
  - cbn [table_run length] in *.
    destruct (table_step_spec p o d Hwf Hsmall) as (ob & d1 & Hstep & Hwf1 & Hs1 & Hc1 & Hc2).
    pose proof (table_step_no_stale o d d1 ob Hwf Hsmall Hns Hstep) as Hns1.
    rewrite Hstep. cbn. pose proof (size_le_capacity p d Hwf) as Hsz.
    destruct (IH d1 (n + 1) Hwf1 Hns1)
      as (obs & d' & -> & Hwf' & Hns' & Hl & Hs' & Hc1' & Hc2'); [lia|lia|lia|].
    cbn. eexists _, _. split; [done|]. split; [done|]. split; [done|].
    split; [cbn [length]; by rewrite Hl|]. lia.
Qed.

End RunsTidy.

(** * The documented behaviour of the library *)

(** C1: under the rehash policy a key that the table holds and that is
    not the erased one is still located by [get_index] and by [find]
    after the erase, in a slot that holds its value; no slot is in the
    state [DELETED] afterwards and the storage keeps its invariants,
    probe-chain integrity among them. A turn of the scan of [do_erase]
    that meets an entry at the cursor moves it into the hole exactly when
    the home slot of the entry is outside the interval (hole, cursor] of
    the ring. *)
Theorem rehash_erase_keeps_keys_findable {hp : hash_params} (d : data_t) (key k : K) (w : V) :
  wf erase_policy_rehash d → k ≠ key → maps_to erase_policy_rehash d k w →
  ∃ d' pos,
    Table.erase erase_policy_rehash key d = Some d' ∧
    wf erase_policy_rehash d' ∧
    Table.get_index erase_policy_rehash k d' = Some (true, pos) ∧
    Table.find erase_policy_rehash k d' = Some pos ∧ pos ≠ Table.end_ ∧
    Table.iter_deref d' pos = Some (k, w) ∧
    (∀ q, state_at erase_policy_rehash d' q ≠ DELETED) ∧
    ∀ (fuel : nat) (i j : Z) (valid : list Z) (kt : gmap Z K) (vt : gmap Z V) (k2 : K) (v2 : V),
      let cmo := capacity_minus_1 d in
      let j' := Z.land (j + 1) cmo in
      0 ≤ i ≤ cmo →
      Z.land (rd valid (j' / META_ELEMENTS_PER_WORD erase_policy_rehash))
             (field_mask erase_policy_rehash j') ≠ 0 →
      kt !! j' = Some k2 → vt !! j' = Some v2 →
      Rehash.do_erase_next_entry (S fuel) i j valid cmo kt vt =
      if decide (in_ring_interval (cmo + 1) i j' (Z.land (hash_functor k2) cmo)) then
        Rehash.do_erase_next_entry fuel i j' valid cmo kt vt
      else
        let valid1 :=
          wr valid (i / META_ELEMENTS_PER_WORD erase_policy_rehash)
             (Z.lor (rd valid (i / META_ELEMENTS_PER_WORD erase_policy_rehash))
                    (field_mask erase_policy_rehash i)) in
        let valid2 :=
          wr valid1 (j' / META_ELEMENTS_PER_WORD erase_policy_rehash)
             (Z.land (rd valid1 (j' / META_ELEMENTS_PER_WORD erase_policy_rehash))
                     (not32 (field_mask erase_policy_rehash j'))) in
        Rehash.do_erase_next_entry fuel j' j' valid2 cmo
          (delete j' (<[i := k2]> kt)) (delete j' (<[i := v2]> vt)).
Proof.
  intros Hwf Hne Hm.
  assert (∃ d', Table.erase erase_policy_rehash key d = Some d' ∧
                wf erase_policy_rehash d' ∧ maps_to erase_policy_rehash d' k w)
    as (d' & Hrun & Hwf' & Hm').
  { destruct (lookup_cases erase_policy_rehash d key Hwf) as [(i & v & Hh & _)|(Habs & _)].
    - destruct (erase_present erase_policy_rehash d key i v Hwf Hh)
        as (d' & Hrun & Hwf' & Hrem & _).
      exists d'. split; [done|]. split; [done|]. by apply Hrem.
    - exists d. split; [by apply erase_absent|done]. }
  destruct (lookup_cases erase_policy_rehash d' k Hwf')
    as [(pos & w' & Hh & Hget & _ & Hfind & Hpos & Hderef & _)|(Habs & _)].
  2:{ apply (absent_iff erase_policy_rehash d' k Hwf') in Hm'; [done|done]. }
  assert (w' = w) as ->.
  { apply (maps_to_functional erase_policy_rehash d' k); [done|by exists pos|done]. }
  exists d', pos. split_and!; [done..|apply rehash_no_deleted|].
  intros fuel i j valid kt vt k2 v2 cmo j' Hi Hocc Hk Hv.
  apply do_erase_next_entry_turn; [|done..].
  pose proof (capacity_pos d (wf_pow2 erase_policy_rehash d Hwf)). subst cmo. lia.
Qed.

Lemma rehash_erase_keeps_keys_findable_witness :
  wf erase_policy_rehash (cluster_table erase_policy_rehash) ∧
  maps_to erase_policy_rehash (cluster_table erase_policy_rehash) 8 12 ∧
  ∃ d' pos,
    Table.erase erase_policy_rehash (0 : @K identity_params)
      (cluster_table erase_policy_rehash) = Some d' ∧
    Table.find erase_policy_rehash (8 : @K identity_params) d' = Some pos ∧
    Table.iter_deref d' pos = Some (8, 12).
Proof.
  assert (wf erase_policy_rehash (cluster_table erase_policy_rehash)) as Hwf.
  { apply reachable_wf; [by eexists|by vm_compute|by vm_compute]. }
  assert (maps_to erase_policy_rehash (cluster_table erase_policy_rehash) 8 12) as Hm.
  { exists 1. by vm_compute. }
  assert ((8 : @K identity_params) ≠ 0) as Hne by (intros [=]).
  split; [exact Hwf|]. split; [exact Hm|].
  destruct (rehash_erase_keeps_keys_findable (hp := identity_params)
              (cluster_table erase_policy_rehash) 0 8 12 Hwf Hne Hm)
    as (d' & pos & H1 & _ & _ & H2 & _ & H3 & _).
  exists d', pos. exact (conj H1 (conj H2 H3)).
Defined.

(** C3, as the code has it: an [insert] of an absent key into a storage
    of at most 2^31 slots stores the element and leaves
    [size() <= capacity()]; [2 * size() <= capacity()] holds when the
    element was stored after a collision, that is, away from its home
    slot. The same holds for the insertion that [operator[]] performs
    for an absent key. *)
Theorem load_factor_after_collision {hp : hash_params} (p : erase_policy) (d : data_t)
    (key : K) (value : V) :
  wf p d → capacity_minus_1 d < 2 ^ 31 → Table.count p key d = Some 0 →
  ∃ d' pos,
    Table.insert p key value d = Some (true, d') ∧
    (value = V_default → Table.index p key d = Some (pos, d')) ∧
    holds p d' pos key value ∧
    Table.size_ d' = Table.size_ d + 1 ∧
    Table.size_ d' ≤ Table.capacity d' ∧
    (pos ≠ home d' key → 2 * Table.size_ d' ≤ Table.capacity d').
Proof.
  intros Hwf Hsmall Hcount.
  assert (absent p d key) as Habs.
  { destruct (lookup_cases p d key Hwf) as [(i & v & _ & _ & Hc & _)|(Habs & _)]; [|done].
    rewrite Hc in Hcount. by simplify_eq. }
  assert (Table.get_index_hash p key d (hash_functor key) = Some (false, NPOS)) as Hget.
  { destruct (lookup_cases p d key Hwf) as [(i & v & Hh & _)|(_ & Hg & _)]; [|done].
    destruct Hh as (Hi & Hst & Hk & _). by destruct (Habs i (proj1 Hi) Hst). }
  destruct (add_new_restart_spec p 61 d key value Hwf Habs Hsmall)
    as (d' & pos & g & Hrun & Hwf' & _ & Hs' & Hh' & _ & _ & _ & _ & _ & Hload).
  exists d', pos. unfold Table.insert, Table.index, Table.add_new_hash. rewrite Hget.
  split; [by rewrite Hrun|]. split.
  { intros ->. rewrite Hrun. destruct Hh' as (_ & _ & -> & _).
    by rewrite bool_decide_eq_true_2. }
  split; [done|]. split; [done|]. unfold Table.size_, Table.capacity.
  pose proof (size_le_capacity p d' Hwf'). split; [lia|]. intros Hne. specialize (Hload Hne). lia.
Qed.

Lemma load_factor_after_collision_witness :
  wf erase_policy_rehash (cluster_table erase_policy_rehash) ∧
  Table.count erase_policy_rehash (16 : @K identity_params)
    (cluster_table erase_policy_rehash) = Some 0 ∧
  ∃ d' pos,
    Table.insert erase_policy_rehash (16 : @K identity_params) (14 : @V identity_params)
      (cluster_table erase_policy_rehash) = Some (true, d') ∧
    holds erase_policy_rehash d' pos 16 14 ∧
    Table.size_ d' ≤ Table.capacity d'.
Proof.
  assert (wf erase_policy_rehash (cluster_table erase_policy_rehash)) as Hwf.
  { apply reachable_wf; [by eexists|by vm_compute|by vm_compute]. }
  assert (capacity_minus_1 (cluster_table erase_policy_rehash) < 2 ^ 31) as Hsmall
    by (by vm_compute).
  assert (Table.count erase_policy_rehash (16 : @K identity_params)
            (cluster_table erase_policy_rehash) = Some 0) as Hcount by (by vm_compute).
  split; [exact Hwf|]. split; [exact Hcount|].
  destruct (load_factor_after_collision (hp := identity_params) erase_policy_rehash
              (cluster_table erase_policy_rehash) 16 14 Hwf Hsmall Hcount)
    as (d' & pos & H1 & _ & H2 & _ & H3 & _).
  exists d', pos. exact (conj H1 (conj H2 H3)).
Defined.

(** Seventeen keys with seventeen home slots in a storage of 32 slots:
    every [insert] returns [true], none meets a collision, and the load
    ends above one half. *)
Lemma load_factor_counterexample :
  ∃ d : @data_t identity_params,
    table_run erase_policy_rehash seventeen_ops (fresh erase_policy_rehash 32) =
      Some (replicate 17 (OBool true), d) ∧
    Table.size_ d = 17 ∧ Table.capacity d = 32 ∧
    ¬ (2 * Table.size_ d ≤ Table.capacity d).
Proof.
  eexists. split; [vm_compute; reflexivity|].
  split; [reflexivity|]. split; [reflexivity|]. vm_compute. intros H. by apply H.
Qed.

(** C4: in a table built for the capacity 1 the first [insert] stores
    its element without growth; the [insert] of a second, different key
    meets a collision with [2 * size > capacity - 1] and grows the
    storage to twice its capacity, 2, and once more to 4 when the second
    key collides again in the storage of two slots; afterwards both keys
    are found with their values. *)
Theorem growth_from_capacity_one {hp : hash_params} (p : erase_policy)
    (k1 k2 : K) (v1 v2 : V) :
  k1 ≠ k2 →
  ∃ d0 d1 dg d2,
    Table.create p 1 = Some d0 ∧
    Table.insert p k1 v1 d0 = Some (true, d1) ∧ Table.capacity d1 = 1 ∧
    state_at p d1 (home d1 k2) = VALID ∧ capacity_minus_1 d1 < Table.size_ d1 * 2 ∧
    Table.increase_table_size p d1 (Table.capacity d1 * 2) = Some dg ∧
    Table.capacity dg = 2 ∧
    Table.insert p k2 v2 d1 = Some (true, d2) ∧
    (if decide (state_at p dg (home dg k2) = VALID)
     then ∃ dg', Table.increase_table_size p dg (Table.capacity dg * 2) = Some dg' ∧
                 Table.capacity dg' = 4 ∧ Table.capacity d2 = 4
     else Table.capacity d2 = 2) ∧
    Table.size_ d2 = 2 ∧
    lookup_ p k1 d2 = Some (k1, v1) ∧ lookup_ p k2 d2 = Some (k2, v2).
Proof.
  intros Hne. unfold Table.capacity, Table.size_.
  destruct (create_spec p 0) as (d0 & Hd0 & Hwf0 & _ & _ & Hnone & Hs0 & Hc0); [done|].
  change (2 ^ 0) with 1 in *. change (1 - 1) with 0 in Hc0.
  destruct (insert_in_place p d0 k1 v1 Hwf0 (empty_absent p d0 k1 Hwf0 Hs0)
              (empty_no_growth p d0 k1 Hwf0 Hs0)) as (i0 & Hpl0 & Hins1 & _).
  destruct (place_spec p d0 k1 v1 i0 Hwf0 (empty_absent p d0 k1 Hwf0 Hs0) Hpl0)
    as (Hwf1 & Hh1 & Hext1 & _).
  set (d1 := place p d0 i0 k1 v1) in *.
  assert (capacity_minus_1 d1 = 0) as Hc1 by done.
  assert (size d1 = 1) as Hs1 by (cbn [size d1 place]; lia).
  assert (i0 = 0) as -> by (destruct Hh1 as (Hr & _); lia).
  assert (home d1 k2 = 0) as Hhome by (unfold home; rewrite Hc1; apply Z.land_0_r).
  assert (state_at p d1 (home d1 k2) = VALID) as Hv1 by (rewrite Hhome; by destruct Hh1 as (_ & ? & _)).
  assert (absent p d1 k2) as Habs1.
  { apply (absent_extends p d0 d1 k1 k2 v1); [done..| |done].
    by apply empty_absent. }
  assert (needs_growth p d1 k2) as Hg1 by (split; [done|lia]).
  destruct (add_new_restart_grows p 63 d1 k2 v2 Hwf1 Habs1 Hg1)
    as (dg & Hgrow & Hwfg & _ & Hcg & Hsg & Hmapg & Hrun1); [lia|].
  pose proof (absent_same_mapping p d1 dg k2 Hwf1 Hwfg Hmapg Habs1) as Habsg.
  assert (maps_to p dg k1 v1) as Hm1g by (apply Hmapg; by exists 0).
  assert (∃ d2, Table.add_new_restart p 63 k2 v2 dg (hash_functor k2) = Some d2 ∧
            wf p d2.1 ∧ size d2.1 = 2 ∧ extends p dg d2.1 k2 v2 ∧
            if decide (state_at p dg (home dg k2) = VALID)
            then ∃ dg', Table.increase_table_size p dg ((capacity_minus_1 dg + 1) * 2) = Some dg' ∧
                        capacity_minus_1 dg' + 1 = 4 ∧ capacity_minus_1 d2.1 + 1 = 4
            else capacity_minus_1 d2.1 + 1 = 2) as (d2 & Hrun2 & Hwf2 & Hs2 & Hext2 & Hcap2).
  { destruct (decide (state_at p dg (home dg k2) = VALID)) as [Hvg|Hvg].
    - assert (needs_growth p dg k2) as Hgg by (split; [done|lia]).
      destruct (add_new_restart_grows p 62 dg k2 v2 Hwfg Habsg Hgg)
        as (dg' & Hgrow' & Hwfg' & _ & Hcg' & Hsg' & Hmapg' & ->); [lia|].
      pose proof (absent_same_mapping p dg dg' k2 Hwfg Hwfg' Hmapg' Habsg) as Habsg'.
      assert (¬ needs_growth p dg' k2) as Hng by (intros [_ ?]; lia).
      destruct (add_new_restart_places p 61 dg' k2 v2 Hwfg' Habsg' Hng) as (i & Hpl & -> & _).
      destruct (place_spec p dg' k2 v2 i Hwfg' Habsg' Hpl) as (Hwf2 & _ & Hext2 & _).
      exists (place p dg' i k2 v2, i). cbn [fst]. split; [done|]. split; [done|].
      split; [cbn [size place]; lia|]. split; [by apply (extends_same_mapping p dg dg')|].
      exists dg'. split; [done|]. cbn [capacity_minus_1 place]. lia.
    - assert (¬ needs_growth p dg k2) as Hng by (by intros [? _]).
      destruct (add_new_restart_places p 62 dg k2 v2 Hwfg Habsg Hng) as (i & Hpl & -> & _).
      destruct (place_spec p dg k2 v2 i Hwfg Habsg Hpl) as (Hwf2 & _ & Hext2 & _).
      exists (place p dg i k2 v2, i). cbn [fst]. split; [done|]. split; [done|].
      split; [cbn [size place]; lia|]. split; [done|]. cbn [capacity_minus_1 place]. lia. }
  destruct d2 as [d2 i2]. cbn [fst] in *.
  exists d0, d1, dg, d2. split; [done|]. split; [done|]. split; [lia|]. split; [done|].
  split; [lia|]. split; [done|]. split; [lia|]. split.
  { rewrite (insert_grows p d1 k2 v2 Hwf1 Habs1). by rewrite Hrun1, Hrun2. }
  split.
  { destruct (decide (state_at p dg (home dg k2) = VALID)); done. }
  split; [done|]. split.
  - apply (maps_to_lookup p d2 k1 v1 Hwf2). apply Hext2. by left.
  - apply (maps_to_lookup p d2 k2 v2 Hwf2). apply Hext2. by right.
Qed.

Lemma growth_from_capacity_one_witness :
  (5 : @K identity_params) ≠ 9 ∧
  ∃ d0 d1 d2 : @data_t identity_params,
    Table.create erase_policy_rehash 1 = Some d0 ∧
    Table.insert erase_policy_rehash (5 : @K identity_params) (10 : @V identity_params) d0 =
      Some (true, d1) ∧
    Table.insert erase_policy_rehash (9 : @K identity_params) (11 : @V identity_params) d1 =
      Some (true, d2) ∧
    lookup_ erase_policy_rehash (5 : @K identity_params) d2 = Some (5, 10) ∧
    lookup_ erase_policy_rehash (9 : @K identity_params) d2 = Some (9, 11).
Proof.
  assert ((5 : @K identity_params) ≠ 9) as Hne by (intros [=]).
  split; [exact Hne|].
  destruct (growth_from_capacity_one (hp := identity_params) erase_policy_rehash 5 9 10 11 Hne)
    as (d0 & d1 & dg & d2 & H0 & H1 & _ & _ & _ & _ & _ & H2 & _ & _ & H3 & H4).
  exists d0, d1, d2. exact (conj H0 (conj H1 (conj H2 (conj H3 H4)))).
Defined.

(** C5: under the marker policy, on a table without element,
    [insert(k, v); erase(k); insert(k, v')] leaves [find(k)] at the pair
    [(k, v')] and [size() == 1]. The erase writes [DELETED] into the slot
    of [k], destroys the two objects of the slot and changes no other
    slot; the lookup that opens the second [insert] reports [k] absent;
    the walk of the second [add_new] ends at the first slot of the probe
    sequence that is not [VALID], which is the slot that carries the
    marker. *)
Theorem tombstone_slot_reused {hp : hash_params} (d : data_t) (k : K) (v v' : V) :
  wf erase_policy_use_marker d → Table.size_ d = 0 →
  ∃ d1 d2 d3 i,
    Table.insert erase_policy_use_marker k v d = Some (true, d1) ∧
    holds erase_policy_use_marker d1 i k v ∧
    Table.erase erase_policy_use_marker k d1 = Some d2 ∧
    valid d2 = set_state erase_policy_use_marker (valid d1) i DELETED ∧
    key_table d2 = delete i (key_table d1) ∧
    value_table d2 = delete i (value_table d1) ∧
    state_at erase_policy_use_marker d2 i = DELETED ∧
    (∀ q, 0 ≤ q → q ≠ i →
          state_at erase_policy_use_marker d2 q = state_at erase_policy_use_marker d1 q) ∧
    Table.get_index erase_policy_use_marker k d2 = Some (false, NPOS) ∧
    Table.insert erase_policy_use_marker k v' d2 = Some (true, d3) ∧
    placeable erase_policy_use_marker d2 k i ∧
    d3 = place erase_policy_use_marker d2 i k v' ∧
    lookup_ erase_policy_use_marker k d3 = Some (k, v') ∧
    Table.size_ d3 = 1.
Proof.
  unfold Table.size_. intros Hwf Hs.
  set (m := erase_policy_use_marker).
  destruct (insert_in_place m d k v Hwf (empty_absent m d k Hwf Hs) (empty_no_growth m d k Hwf Hs))
    as (i & Hpl & Hins & _).
  destruct (place_spec m d k v i Hwf (empty_absent m d k Hwf Hs) Hpl) as (Hwf1 & Hh1 & _ & _).
  pose proof (empty_placeable m d k i Hwf Hs Hpl) as Hi.
  set (d1 := place m d i k v) in *.
  pose proof (erase_marker_eq d1 i k v Hwf1 Hh1) as Herase.
  destruct (do_erase_marker_spec d1 i k v Hwf1 Hh1) as (Hwf2 & Hrem & _ & Hst2).
  set (d2 := with_size _ _) in *.
  assert (size d2 = 0) as Hs2 by (cbn [size d2 d1 with_size place]; lia).
  pose proof (empty_absent m d2 k Hwf2 Hs2) as Habs2.
  destruct (insert_in_place m d2 k v' Hwf2 Habs2 (empty_no_growth m d2 k Hwf2 Hs2))
    as (i' & Hpl' & Hins' & _).
  pose proof (empty_placeable m d2 k i' Hwf2 Hs2 Hpl') as Hi'.
  assert (i' = i) as -> by (rewrite Hi', Hi; done).
  destruct (place_spec m d2 k v' i Hwf2 Habs2 Hpl') as (Hwf3 & Hh3 & _ & _).
  exists d1, d2, (place m d2 i k v'), i.
  split; [done|]. split; [done|]. split; [done|]. split; [done|]. split; [done|].
  split; [done|].
  assert (0 ≤ i) as Hi0 by (destruct Hh1 as (? & _); lia).
  split; [rewrite Hst2 by done; by rewrite decide_True|].
  split; [intros q Hq Hne; rewrite Hst2 by done; by rewrite decide_False|].
  split.
  { destruct (lookup_cases m d2 k Hwf2) as [(j & w & Hh & _)|(_ & Hg & _)]; [|done].
    destruct Hh as (Hj & Hst & Hk & _). by destruct (Habs2 j (proj1 Hj) Hst). }
  split; [done|]. split; [done|]. split; [done|].
  split; [apply (maps_to_lookup m _ k v' Hwf3); by exists i|].
  cbn [size place]. lia.
Qed.

Lemma tombstone_slot_reused_witness :
  wf erase_policy_use_marker (@fresh identity_params erase_policy_use_marker 32) ∧
  ∃ d1 d2 d3 : @data_t identity_params,
    Table.insert erase_policy_use_marker (7 : @K identity_params) (1 : @V identity_params)
      (fresh erase_policy_use_marker 32) = Some (true, d1) ∧
    Table.erase erase_policy_use_marker (7 : @K identity_params) d1 = Some d2 ∧
    Table.insert erase_policy_use_marker (7 : @K identity_params) (2 : @V identity_params) d2 =
      Some (true, d3) ∧
    lookup_ erase_policy_use_marker (7 : @K identity_params) d3 = Some (7, 2) ∧
    Table.size_ d3 = 1.
Proof.
  assert (wf erase_policy_use_marker (@fresh identity_params erase_policy_use_marker 32)) as Hwf.
  { apply (reachable_wf (hp := identity_params) erase_policy_use_marker 32 []);
      [by eexists|by vm_compute|by vm_compute]. }
  split; [exact Hwf|].
  destruct (tombstone_slot_reused (hp := identity_params)
              (fresh erase_policy_use_marker 32) 7 1 2 Hwf eq_refl)
    as (d1 & d2 & d3 & i & H1 & _ & H2 & _ & _ & _ & _ & _ & _ & H3 & _ & _ & H4 & H5).
  exists d1, d2, d3. exact (conj H1 (conj H2 (conj H3 (conj H4 H5)))).
Defined.

(** C8, as the code has it: on a table of the policy-based class with at
    most 2^32 slots, [reserve(n)] with [n <= capacity()] changes nothing;
    with [capacity() < n <= 2^63] it rounds [n] up to the next power of
    two and grows to that capacity in one call of [increase_table_size],
    keeping the elements. On an empty table built for the capacity 32,
    [reserve(3)], [reserve(33)] and [reserve(1023)] leave the capacities
    32, 64 and 1024. *)
Theorem reserve_rounds_up {hp : hash_params} (p : erase_policy) (d : data_t) (n : Z) :
  wf p d → capacity_minus_1 d < 2 ^ 32 → 0 ≤ n ≤ 2 ^ 63 →
  (n ≤ Table.capacity d → Table.reserve p n d = Some d) ∧
  (Table.capacity d < n →
   ∃ r d', next_power_of_2 n r ∧
           Table.increase_table_size p d r = Some d' ∧
           Table.reserve p n d = Some d' ∧
           Table.capacity d' = r ∧ Table.size_ d' = Table.size_ d ∧
           same_mapping p d d' ∧ wf p d') ∧
  ∃ d0 d1 d2,
    Table.create p 32 = Some d0 ∧
    Table.reserve p 3 d0 = Some d0 ∧ Table.capacity d0 = 32 ∧
    Table.reserve p 33 d0 = Some d1 ∧ Table.capacity d1 = 64 ∧
    Table.reserve p 1023 d1 = Some d2 ∧ Table.capacity d2 = 1024.
Proof.
  intros Hwf Hsmall Hn. split; [apply reserve_noop|]. split.
  - intros Hgrow.
    destruct (reserve_grows p d n Hwf Hsmall) as (r & d' & Hr & Hinc & Hres & Hwf' & _ & Hc & Hs & Hmap);
      [lia|].
    exists r, d'. unfold Table.capacity, Table.size_. split_and!; (done || lia).
  - destruct p; eexists _, _, _; (split; [reflexivity|]); (split; [reflexivity|]);
      (split; [reflexivity|]); (split; [vm_compute; reflexivity|]); (split; [reflexivity|]);
      (split; [vm_compute; reflexivity|]); reflexivity.
Qed.

Lemma reserve_rounds_up_witness :
  wf erase_policy_rehash (cluster_table erase_policy_rehash) ∧
  ∃ r d',
    next_power_of_2 100 r ∧
    Table.reserve erase_policy_rehash 100 (cluster_table erase_policy_rehash) = Some d' ∧
    Table.capacity d' = r.
Proof.
  assert (wf erase_policy_rehash (cluster_table erase_policy_rehash)) as Hwf.
  { apply reachable_wf; [by eexists|by vm_compute|by vm_compute]. }
  split; [exact Hwf|].
  destruct (reserve_rounds_up (hp := identity_params) erase_policy_rehash
              (cluster_table erase_policy_rehash) 100 Hwf) as (_ & Hgrow & _).
  - by vm_compute.
  - split; by vm_compute.
  - destruct Hgrow as (r & d' & H1 & _ & H2 & H3 & _); [by vm_compute|].
    exists r, d'. exact (conj H1 (conj H2 H3)).
Defined.

(** A request above 2^63 fails the assertion of the rounding helper. *)
Lemma reserve_counterexample :
  Table.capacity (@fresh identity_params erase_policy_rehash 32) < 2 ^ 63 + 1 ∧
  Table.reserve erase_policy_rehash (2 ^ 63 + 1) (@fresh identity_params erase_policy_rehash 32) =
    None.
Proof. split; [by vm_compute|]. vm_compute. reflexivity. Qed.

(** C7 on a storage of 2^33 slots: after [reserve(2^33)] and the
    insertion of the keys 2^32 and 2^32 + 1 under the identity hash, the
    iteration starts at the slot 2^32, [get_next] leads from there to the
    slot 1, which is not [VALID] and holds no object, and from the slot 1
    back to the slot 2^32; the [VALID] slot 2^32 + 1 is never reached.
    In [old_pos & ~(META_ELEMENTS_PER_WORD - 1)] the mask is a 32-bit
    word. *)
Theorem iteration_leaves_the_occupied_slots (p : erase_policy) :
  ∃ d0 d1 d2 d3 : @data_t identity_params,
    Table.create p 32 = Some d0 ∧
    Table.reserve p (2 ^ 33) d0 = Some d1 ∧
    Table.insert p (2 ^ 32 : @K identity_params) (0 : @V identity_params) d1 = Some (true, d2) ∧
    Table.insert p (2 ^ 32 + 1 : @K identity_params) (0 : @V identity_params) d2 =
      Some (true, d3) ∧
    Table.size_ d3 = 2 ∧
    state_at p d3 (2 ^ 32) = VALID ∧ state_at p d3 (2 ^ 32 + 1) = VALID ∧
    Table.begin_ p d3 = 2 ^ 32 ∧
    Table.iter_next p d3 (2 ^ 32) = Some 1 ∧
    state_at p d3 1 ≠ VALID ∧ Table.iter_deref d3 1 = None ∧
    Table.iter_next p d3 1 = Some (2 ^ 32).
Proof.
  change (2 ^ 32) with 4294967296. change (2 ^ 33) with 8589934592.
  destruct (create_spec (hp := identity_params) p 5)
    as (d0 & Hd0 & Hwf0 & _ & _ & _ & Hs0 & Hc0); [done|].
  change (2 ^ 5) with 32 in *. change (32 - 1) with 31 in Hc0.
  destruct (reserve_grows p d0 8589934592 Hwf0)
    as (r & d1 & Hr & _ & Hres & Hwf1 & Hns1 & Hc1 & Hs1 & _).
  { by rewrite Hc0. }
  { unfold Table.capacity. rewrite Hc0. by vm_compute. }
  rewrite (next_power_of_2_unique _ _ _ Hr (next_power_of_2_self 33 ltac:(done))) in *.
  change (2 ^ 33) with 8589934592 in *. change (8589934592 - 1) with 8589934591 in Hc1.
  rewrite Hs0 in Hs1.
  (* first insertion *)
  assert (home d1 (4294967296 : @K identity_params) = 4294967296) as Hh1
    by (unfold home; rewrite Hc1; reflexivity).
  destruct (insert_at_home p d1 (4294967296 : @K identity_params) (0 : @V identity_params) Hwf1)
    as (Hins1 & Hwf2 & Hext2 & Hns2).
  { by apply empty_absent. }
  { apply empty_not_valid; [done|done|]. by rewrite Hh1. }
  rewrite Hh1 in *. set (d2 := place p d1 4294967296 _ _) in *.
  assert (capacity_minus_1 d2 = 8589934591) as Hc2 by done.
  assert (∀ s, 0 ≤ s → state_at p d2 s = if decide (s = 4294967296) then VALID else state_at p d1 s)
    as Hst2.
  { intros s Hs. apply place_state; [by apply wf_wf_bitmap|rewrite Hc1; lia|done]. }
  (* second insertion *)
  assert (home d2 (4294967296 + 1 : @K identity_params) = 4294967296 + 1) as Hh2
    by (unfold home; rewrite Hc2; reflexivity).
  destruct (insert_at_home p d2 (4294967296 + 1 : @K identity_params) (0 : @V identity_params) Hwf2)
    as (Hins2 & Hwf3 & Hext3 & Hns3).
  { apply (absent_extends p d1 d2 (4294967296 : @K identity_params) _ (0 : @V identity_params));
      [done|done|done|by apply empty_absent|by intros [=]]. }
  { rewrite Hh2, Hst2 by lia. rewrite decide_False by lia. by apply empty_not_valid. }
  rewrite Hh2 in *. set (d3 := place p d2 (4294967296 + 1) _ _) in *.
  assert (capacity_minus_1 d3 = 8589934591) as Hc3 by done.
  assert (∀ s, 0 ≤ s → state_at p d3 s =
            if decide (s = 4294967296 + 1) then VALID
            else if decide (s = 4294967296) then VALID else state_at p d1 s) as Hst3.
  { intros s Hs. unfold d3. rewrite place_state; [|by apply wf_wf_bitmap|rewrite Hc2; lia|done].
    destruct (decide (s = 4294967296 + 1)); [done|]. by apply Hst2. }
  assert (∀ s, 0 ≤ s → s ≠ 4294967296 → s ≠ 4294967296 + 1 → state_at p d3 s ≠ VALID) as Hfree.
  { intros s Hs H1 H2. rewrite Hst3, !decide_False by done. by apply empty_not_valid. }
  assert (state_at p d3 4294967296 = VALID) as Hv1.
  { rewrite Hst3 by lia. rewrite decide_False by lia. by rewrite decide_True. }
  assert (state_at p d3 (4294967296 + 1) = VALID) as Hv2.
  { rewrite Hst3 by lia. by rewrite decide_True. }
  pose proof (wf_wf_bitmap p d3 Hwf3) as Hb3.
  exists d0, d1, d2, d3.
  split; [exact Hd0|]. split; [exact Hres|]. split; [exact Hins1|]. split; [exact Hins2|].
  split; [unfold Table.size_; cbn [size d3 d2 place]; lia|].
  split; [exact Hv1|]. split; [exact Hv2|].
  split; [apply get_first_at; [done|lia|done|intros s Hs; apply Hfree; lia]|].
  split; [apply get_next_truncated; [done|rewrite Hc3; lia|done]|].
  split; [apply Hfree; lia|].
  split; [apply (not_alive p); [by apply Hns3, Hns2|apply Hfree; lia]|].
  apply get_next_reaches_wide; [done|rewrite Hc3; lia| |intros s Hs; apply Hfree; lia|done].
  pose proof (elements_per_word_pos p). assert (1 < META_ELEMENTS_PER_WORD p) by (by destruct p).
  lia.
Qed.

(** C2, at an input where the code departs from it: a table of the
    default capacity reserves 2^33 slots and the keys 2^32, ..., 2^33 - 1
    are inserted under the identity hash; each [insert] returns true.
    The key 2^33 + 2^32 is then absent ([count] is 0) and its home slot
    2^32 is taken while the table is half full, so that [insert] grows
    the table: the migration walks the old storage with [get_next],
    which delivers the slot 1 after the slot 2^32, a slot that holds no
    object. The [insert] of the absent key delivers no result. *)
Theorem insert_of_absent_key_fails_beyond_2_32_slots (p : erase_policy) :
  ∃ d0 d1 d : @data_t identity_params,
    Table.create (hp := identity_params) p 32 = Some d0 ∧
    Table.reserve (hp := identity_params) p 8589934592 d0 = Some d1 ∧
    table_run (hp := identity_params) p (fill_ops 4294967296 4294967296) d1 =
      Some (replicate (Z.to_nat 4294967296) (@OBool identity_params true), d) ∧
    wf (hp := identity_params) p d ∧
    Table.size_ d = 4294967296 ∧ Table.capacity d = 8589934592 ∧
    Table.count (hp := identity_params) p 12884901888 d = Some 0 ∧
    Table.insert (hp := identity_params) p 12884901888 0 d = None.
Proof.
  destruct (reserve_wide p) as (d0 & d1 & Hd0 & Hd1 & Hf1).
  destruct (fill_run p (Z.to_nat 4294967296) 4294967296 d1 Hf1) as (d & Hrun & Hf);
    [lia|rewrite Z2Nat.id; lia|].
  rewrite Z2Nat.id in Hrun, Hf by lia.
  change (4294967296 + 4294967296) with 8589934592 in Hf.
  destruct (filled_insert_fails p d Hf) as [Hcount Hins].
  destruct Hf as (Hwf & _ & Hc & Hs & _).
  exists d0, d1, d. split; [exact Hd0|]. split; [exact Hd1|]. split; [exact Hrun|].
  split; [exact Hwf|].
  split; [unfold Table.size_; by rewrite Hs|].
  split; [unfold Table.capacity; by rewrite Hc|].
  split; [exact Hcount|exact Hins].
Qed.

(** C6: [erase] of a key that the table does not hold ([count] is 0)
    returns the storage as it was; [erase] of a key that the table holds
    ([count] is 1) removes its entry from the mapping and keeps all the
    others, decrements the size by one and leaves [count] at 0. The slot
    of the entry becomes [DELETED] under the marker policy, with nothing
    else changed; under the rehash policy no slot is [DELETED]
    afterwards. The standalone table does the same on the storages of
    the rehash policy. *)
Theorem erase_contract {hp : hash_params} (p : erase_policy) (d : data_t) (key : K) :
  wf p d →
  (Table.count p key d = Some 0 ∨ Table.count p key d = Some 1) ∧
  (Table.count p key d = Some 0 → Table.erase p key d = Some d) ∧
  (Table.count p key d = Some 1 →
     ∃ d' i v,
       holds p d i key v ∧
       Table.erase p key d = Some d' ∧ wf p d' ∧
       Table.size_ d' = Table.size_ d - 1 ∧ Table.capacity d' = Table.capacity d ∧
       Table.count p key d' = Some 0 ∧ removes p d d' key ∧
       (no_stale p d → no_stale p d') ∧
       (p = erase_policy_rehash → ∀ q, state_at p d' q ≠ DELETED) ∧
       (p = erase_policy_use_marker →
          d' = with_size (with_tables d (set_state p (valid d) i DELETED)
                            (delete i (key_table d)) (delete i (value_table d)))
                         (size d - 1) ∧
          state_at p d' i = DELETED)) ∧
  (p = erase_policy_rehash →
     (Table2.count key d = Some 0 → Table2.erase key d = Some d) ∧
     (Table2.count key d = Some 1 →
        ∃ d2, Table2.erase key d = Some d2 ∧ wf p d2 ∧
              Table2.size_ d2 = Table2.size_ d - 1 ∧
              Table2.count key d2 = Some 0 ∧ removes p d d2 key)).
Proof.
  intros Hwf.
  assert (∀ q e, wf q e → removes q d e key → Table.count q key e = Some 0) as Hgone.
  { intros q e Hwfe Hrem.
    destruct (lookup_cases q e key Hwfe) as [(j & v' & Hh' & _)|(_ & _ & Hc & _)]; [|done].
    assert (maps_to q e key v') as Hm by (by exists j). by apply Hrem in Hm as [_ ?]. }
  destruct (lookup_cases p d key Hwf)
    as [(i & v & Hh & _ & Hcount & _)|(Habs & _ & Hcount & _)].
  - split; [by right|]. split; [rewrite Hcount; by intros [=]|]. split.
    + intros _.
      destruct (erase_present p d key i v Hwf Hh) as (d' & Hrun & Hwf' & Hrem & Hs & Hc & Hns).
      exists d', i, v. split; [done|]. split; [done|]. split; [done|].
      split; [done|]. split; [unfold Table.capacity; by rewrite Hc|].
      split; [by apply Hgone|]. split; [done|]. split; [done|]. split.
      * intros -> q. apply rehash_no_deleted.
      * intros ->. rewrite (erase_marker_eq d i key v Hwf Hh) in Hrun. injection Hrun as <-.
        split; [done|].
        destruct (do_erase_marker_spec d i key v Hwf Hh)
          as (_ & _ & _ & Hst).
        destruct Hh as (Hi & _). rewrite (Hst i) by lia. by rewrite decide_True.
    + intros ->. rewrite count2_eq, Hcount. split; [by intros [=]|]. intros _.
      destruct (erase2_present d key i v Hwf Hh) as (d2 & Hrun & Hwf2 & Hrem & Hs & _).
      exists d2. split; [done|]. split; [done|]. split; [done|].
      split; [rewrite count2_eq; by apply Hgone|done].
  - split; [by left|]. split; [intros _; by apply erase_absent|].
    split; [rewrite Hcount; by intros [=]|].
    intros ->. rewrite count2_eq, Hcount. split; [intros _; by apply erase2_absent|by intros [=]].
Qed.

Lemma erase_contract_witness :
  wf erase_policy_rehash (cluster_table erase_policy_rehash) ∧
  ∃ d',
    Table.erase erase_policy_rehash (0 : @K identity_params)
      (cluster_table erase_policy_rehash) = Some d' ∧
    Table.size_ d' = Table.size_ (cluster_table erase_policy_rehash) - 1 ∧
    Table.count erase_policy_rehash (0 : @K identity_params) d' = Some 0.
Proof.
  assert (wf erase_policy_rehash (cluster_table erase_policy_rehash)) as Hwf.
  { apply reachable_wf; [by eexists|by vm_compute|by vm_compute]. }
  assert (Table.count erase_policy_rehash (0 : @K identity_params)
            (cluster_table erase_policy_rehash) = Some 1) as Hcount by (by vm_compute).
  split; [exact Hwf|].
  destruct (erase_contract (hp := identity_params) erase_policy_rehash
              (cluster_table erase_policy_rehash) 0 Hwf) as (_ & _ & Hpresent & _).
  destruct (Hpresent Hcount) as (d' & i & v & _ & H1 & _ & H2 & _ & H3 & _).
  exists d'. exact (conj H1 (conj H2 H3)).
Defined.

(** C9, at the function of src/include/common.h: both overloads compute
    the rounded value and then reach the end of their body without a
    [return] statement, so that no value is delivered, whatever the
    argument; the functions of the namespace [internal], which return
    the computed value, deliver 4 for the argument 3. *)
Theorem round_up_of_common_h_delivers_no_value (v : Z) :
  Common.round_up_to_next_power_of_2_u32 v = None ∧
  Common.round_up_to_next_power_of_2_u64 v = None ∧
  Internal.round_up_to_next_power_of_2_u32 3 = Some 4 ∧
  Internal.round_up_to_next_power_of_2_u64 3 = Some 4.
Proof. split; [done|]. split; [done|]. split; by vm_compute. Qed.

(** C10, at a program on which the two tables differ: both are built for
    2^33 slots and the keys 2^32, ..., 2^33 - 1 are inserted under the
    identity hash, which gives the same observations and the same
    storage in both. The insertion of the key 2^33 + 2^32 then needs a
    larger storage. The standalone table migrates the entries slot by
    slot and stores the key, which [find] locates afterwards; the
    policy-based table migrates them along [get_next], which leaves the
    occupied slots, and delivers no result. *)
Theorem tables_differ_beyond_2_32_slots :
  ∃ (d0 d d2 : @data_t identity_params) (pos : Z),
    Table.create (hp := identity_params) erase_policy_rehash 8589934592 = Some d0 ∧
    Table2.create (hp := identity_params) 8589934592 = Some d0 ∧
    table_run (hp := identity_params) erase_policy_rehash (fill_ops 4294967296 4294967296) d0 =
      Some (replicate (Z.to_nat 4294967296) (@OBool identity_params true), d) ∧
    table2_run (hp := identity_params) (fill_ops 4294967296 4294967296) d0 =
      Some (replicate (Z.to_nat 4294967296) (@OBool identity_params true), d) ∧
    table_step (hp := identity_params) erase_policy_rehash (@Insert identity_params 12884901888 0) d = None ∧
    table2_step (hp := identity_params) (@Insert identity_params 12884901888 0) d = Some (@OBool identity_params true, d2) ∧
    Table2.size_ d2 = 4294967297 ∧
    Table2.find (hp := identity_params) 12884901888 d2 = Some pos ∧ pos ≠ NPOS ∧
    Table2.iter_deref (hp := identity_params) d2 pos = Some (12884901888, 0).
Proof.
  destruct (create_wide erase_policy_rehash) as (d0 & Hd0 & Hf0).
  destruct (fill_run erase_policy_rehash (Z.to_nat 4294967296) 4294967296 d0 Hf0)
    as (d & Hrun & Hf); [lia|rewrite Z2Nat.id; lia|].
  pose proof (fill_run2 (Z.to_nat 4294967296) 4294967296 d0 Hf0) as Hrun2.
  rewrite Z2Nat.id in Hrun, Hf, Hrun2 by lia. rewrite Hrun in Hrun2.
  change (4294967296 + 4294967296) with 8589934592 in Hf.
  destruct (filled_insert_fails erase_policy_rehash d Hf) as [Hcount Hins].
  destruct Hf as (Hwf & _ & Hc & Hs & _).
  assert (absent (hp := identity_params) erase_policy_rehash d 12884901888) as Habs.
  { destruct (lookup_cases (hp := identity_params) erase_policy_rehash d 12884901888 Hwf)
      as [(i & v & _ & _ & Hc1 & _)|(Habs & _)]; [|exact Habs].
    rewrite Hc1 in Hcount. by injection Hcount. }
  destruct (insert2_absent (hp := identity_params) d 12884901888 0 Hwf Habs)
    as (d2 & i & Hins2 & Hwf2 & Hs2 & Hh2 & _).
  destruct (find2_holds (hp := identity_params) d2 i 12884901888 0 Hwf2 Hh2)
    as (Hfind & Hne & Hderef & _).
  exists d0, d, d2, i. split; [exact Hd0|]. split; [exact Hd0|].
  split; [exact Hrun|]. split; [apply Hrun2; lia|].
  split; [cbn [table_step]; by rewrite Hins|].
  split; [cbn [table2_step]; by rewrite Hins2|].
  split; [unfold Table2.size_; rewrite Hs2, Hs; done|].
  split; [exact Hfind|]. split; [exact Hne|exact Hderef].
Qed.

(** * Further properties of the code *)

(** * Further properties of the library *)

Section MoreObservations.
Context {hp : hash_params}.
Variable p : erase_policy.

Lemma count_ext (d d' : data_t) (k : K) :
  wf p d → wf p d' → (∀ v, maps_to p d' k v ↔ maps_to p d k v) →
  Table.count p k d' = Table.count p k d.
Proof.
  intros Hwf Hwf' Hmap.
  destruct (lookup_cases p d' k Hwf') as [(i & v & Hh & _ & -> & _)|(Habs & _ & -> & _)].
  - symmetry. apply count_present; [done|].
    assert (maps_to p d k v) as (j & Hj) by (apply Hmap; by exists i). by exists j, v.
  - symmetry. apply count_absent; [done|]. apply absent_iff; [done|]. intros v Hm.
    apply Hmap in Hm. by apply (absent_iff p d' k Hwf') in Hm.
Qed.

Lemma lookup_holds (d : data_t) (i : Z) (k : K) (v : V) :
  wf p d → holds p d i k v →
  lookup_ p k d = Some (k, v) ∧ Table.find p k d = Some i ∧
  Table.iter_deref d i = Some (k, v) ∧ Table.count p k d = Some 1.
Proof.
  intros Hwf Hh.
  destruct (lookup_cases p d k Hwf) as [(j & w & Hh' & _ & Hc & Hf & _ & Hd & Hl)|(Habs & _)].
  - assert (j = i) as ->.
    { destruct Hh as (Hi & Hst & Hk & _), Hh' as (Hj & Hstj & Hkj & _).
      apply (wf_unique p d Hwf j i k); (lia || done). }
    assert (w = v) as -> by (destruct Hh as (_ & _ & _ & ?), Hh' as (_ & _ & _ & ?); congruence).
    done.
  - destruct Hh as (Hi & Hst & Hk & _). by destruct (Habs i (proj1 Hi) Hst).
Qed.

(** The other elements stay where they are when an element is stored
    without growth. *)
Lemma place_find (d : data_t) (key k : K) (value : V) (i : Z) :
  wf p d → absent p d key → placeable p d key i → k ≠ key →
  Table.find p k (place p d i key value) = Table.find p k d.
Proof.
  intros Hwf Habs Hpl Hne. pose proof (wf_wf_bitmap p d Hwf) as Hb.
  pose proof (placeable_range p d key i (wf_pow2 p d Hwf) Hpl) as Hi.
  assert (state_at p d i ≠ VALID) as Hfree by (by destruct Hpl as (? & _ & _ & ? & _)).
  pose proof (place_wf p d key value i Hwf Habs Hpl) as Hwf'.
  destruct (lookup_cases p d k Hwf) as [(j & w & Hh & _ & _ & -> & _)|(Habsk & _ & _ & -> & _)].
  - apply (lookup_holds (place p d i key value) j k w Hwf'). apply place_holds; [done..|]. by left.
  - pose proof (place_absent p d key value i k Hb Hi Habsk Hne) as Habs'.
    by destruct (lookup_cases p _ k Hwf') as
      [(j & w & (Hj & Hst & Hk & _) & _)|(_ & _ & _ & -> & _)];
      [destruct (Habs' j (proj1 Hj) Hst)|].
Qed.

End MoreObservations.

(** X1: for [0 < v <= 2^31] the 32-bit overload of
    [internal::round_up_to_next_power_of_2] returns the smallest power of
    two that is at least [v]; a result is returned unchanged when it is
    passed again, and the 64-bit overload returns the same value. *)
Theorem internal_round_up_u32_least_power (v : Z) :
  0 < v ≤ 2 ^ 31 →
  ∃ r, Internal.round_up_to_next_power_of_2_u32 v = Some r ∧ next_power_of_2 v r ∧
       Internal.round_up_to_next_power_of_2_u32 r = Some r ∧
       Internal.round_up_to_next_power_of_2_u64 v = Some r.
Proof.
  intros Hv. destruct (round_up_u32_spec v Hv) as (r & Hr & Hnp).
  exists r. split; [done|]. split; [done|].
  pose proof (next_power_of_2_range v r 31 ltac:(lia) Hv Hnp) as Hrr. split.
  - destruct (round_up_u32_spec r Hrr) as (r' & Hr' & Hnp'). rewrite Hr'. f_equal.
    destruct Hnp as ((n & Hn & ->) & _).
    apply (next_power_of_2_unique (2 ^ n)); [done|by apply next_power_of_2_self].
  - destruct (round_up_u64_spec v) as (r' & Hr' & Hnp').
    { split; [lia|]. transitivity (2 ^ 31); [lia|]. by apply Z.pow_le_mono_r. }
    rewrite Hr'. f_equal. by apply (next_power_of_2_unique v).
Qed.

Lemma internal_round_up_u32_least_power_witness :
  0 < 3 ≤ 2 ^ 31 ∧
  ∃ r, Internal.round_up_to_next_power_of_2_u32 3 = Some r ∧ next_power_of_2 3 r.
Proof.
  assert (0 < 3 ≤ 2 ^ 31) as H by (by vm_compute).
  destruct (internal_round_up_u32_least_power 3 H) as (r & H1 & H2 & _).
  exact (conj H (ex_intro _ r (conj H1 H2))).
Defined.

(** X2: for [0 < v <= 2^63] the 64-bit overload of
    [internal::round_up_to_next_power_of_2] returns the smallest power of
    two that is at least [v], and returns a result unchanged. *)
Theorem internal_round_up_u64_least_power (v : Z) :
  0 < v ≤ 2 ^ 63 →
  ∃ r, Internal.round_up_to_next_power_of_2_u64 v = Some r ∧ next_power_of_2 v r ∧
       Internal.round_up_to_next_power_of_2_u64 r = Some r.
Proof.
  intros Hv. destruct (round_up_u64_spec v Hv) as (r & Hr & Hnp).
  exists r. split; [done|]. split; [done|].
  pose proof (next_power_of_2_range v r 63 ltac:(lia) Hv Hnp) as Hrr.
  destruct (round_up_u64_spec r Hrr) as (r' & Hr' & Hnp'). rewrite Hr'. f_equal.
  destruct Hnp as ((n & Hn & ->) & _).
  apply (next_power_of_2_unique (2 ^ n)); [done|by apply next_power_of_2_self].
Qed.

Lemma internal_round_up_u64_least_power_witness :
  0 < 4294967297 ≤ 2 ^ 63 ∧
  ∃ r, Internal.round_up_to_next_power_of_2_u64 4294967297 = Some r ∧
       next_power_of_2 4294967297 r.
Proof.
  assert (0 < 4294967297 ≤ 2 ^ 63) as H by (by vm_compute).
  destruct (internal_round_up_u64_least_power 4294967297 H) as (r & H1 & H2 & _).
  exact (conj H (ex_intro _ r (conj H1 H2))).
Defined.

(** X3: an argument with the top bit set that is not the top bit alone
    fails the first assertion of either overload of
    [internal::round_up_to_next_power_of_2], so that no value above 2^31
    (2^63) is ever returned; the argument 0 passes both assertions and
    gives 0, which is no power of two. *)
Theorem internal_round_up_outside_precondition (v w : Z) :
  2 ^ 31 < v < 2 ^ 32 → 2 ^ 63 < w < 2 ^ 64 →
  Internal.round_up_to_next_power_of_2_u32 v = None ∧
  Internal.round_up_to_next_power_of_2_u64 w = None ∧
  Internal.round_up_to_next_power_of_2_u32 0 = Some 0 ∧
  Internal.round_up_to_next_power_of_2_u64 0 = Some 0.
Proof.
  intros Hv Hw. split; [|split; [|split; by vm_compute]].
  - unfold Internal.round_up_to_next_power_of_2_u32.
    change 2147483648 with (2 ^ 31). rewrite (top_bit_set v 31) by (change (2 ^ (31 + 1)) with (2 ^ 32); lia).
    destruct (Z.eqb_spec (2 ^ 31) 0) as [E|_]; [by vm_compute in E|].
    destruct (Z.eqb_spec v (2 ^ 31)) as [E|_]; [lia|]. done.
  - unfold Internal.round_up_to_next_power_of_2_u64.
    change 9223372036854775808 with (2 ^ 63). rewrite (top_bit_set w 63) by (change (2 ^ (63 + 1)) with (2 ^ 64); lia).
    destruct (Z.eqb_spec (2 ^ 63) 0) as [E|_]; [by vm_compute in E|].
    destruct (Z.eqb_spec w (2 ^ 63)) as [E|_]; [lia|]. done.
Qed.

Lemma internal_round_up_outside_precondition_witness :
  2 ^ 31 < 2147483649 < 2 ^ 32 ∧ 2 ^ 63 < 9223372036854775809 < 2 ^ 64 ∧
  Internal.round_up_to_next_power_of_2_u32 2147483649 = None ∧
  Internal.round_up_to_next_power_of_2_u64 9223372036854775809 = None.
Proof.
  assert (2 ^ 31 < 2147483649 < 2 ^ 32) as H1 by (by vm_compute).
  assert (2 ^ 63 < 9223372036854775809 < 2 ^ 64) as H2 by (by vm_compute).
  destruct (internal_round_up_outside_precondition _ _ H1 H2) as (H3 & H4 & _).
  exact (conj H1 (conj H2 (conj H3 H4))).
Defined.

(** X4: the constructor succeeds exactly when [default_size] is a power
    of two, and then gives a table without element: the size is 0, the
    capacity is [default_size], [begin()] is [end()], an iteration visits
    nothing, and every key has the count 0 and is searched in vain. *)
Theorem constructor_gives_empty_table {hp : hash_params} (p : erase_policy) (n : Z) :
  (∃ m, 0 ≤ m ∧ n = 2 ^ m) ↔
  ∃ d, Table.create p n = Some d ∧ wf p d ∧ no_stale p d ∧
       Table.size_ d = 0 ∧ Table.capacity d = n ∧
       Table.begin_ p d = Table.end_ ∧ Table.iterate p d = Some [] ∧
       ∀ k, Table.count p k d = Some 0 ∧ Table.find p k d = Some Table.end_.
Proof.
  split.
  - intros (m & Hm & ->).
    destruct (create_spec p m Hm) as (d & Hd & Hwf & Hns & _ & _ & Hs & Hc).
    assert (Table.begin_ p d = Table.end_) as Hb by (by apply begin_end_iff).
    exists d. split; [done|]. split; [done|]. split; [done|]. split; [done|].
    split; [unfold Table.capacity; lia|]. split; [done|]. split.
    + unfold Table.iterate. fold (Table.begin_ p d). rewrite Hb.
      pose proof (capacity_pos d (wf_pow2 p d Hwf)).
      destruct (Z.to_nat (capacity_minus_1 d + 2)) eqn:E; [lia|]. done.
    + intros k.
      destruct (lookup_cases p d k Hwf) as [(i & v & (Hi & Hst & _) & _)|(_ & _ & Hc0 & Hf & _)];
        [|done].
      by destruct (empty_not_valid p d i Hwf Hs (proj1 Hi)).
  - intros (d & Hd & _). unfold Table.create in Hd.
    destruct (Z.ltb_spec 0 n) as [Hp|]; [|done].
    destruct (Z.eqb_spec (Z.land n (n - 1)) 0) as [Hpow|]; [|done].
    by apply pow2_test.
Qed.

(** X5: every sequence of calls of [insert], [erase], [operator[]] (read
    or written through), [find], [count], [size], [capacity], [clear] and
    iteration on a table built for at most 2^31 slots runs without
    failing an assertion or reading a slot that holds no object, as long
    as four times the number of calls is at most 2^31. After it the
    invariants of the storage hold, no object is alive outside the
    occupied slots, the size is at most the number of calls and at most
    the capacity, and the capacity is a power of two that is at least
    [default_size]. *)
Theorem public_calls_keep_invariants {hp : hash_params} (p : erase_policy) (n : Z)
    (ops : list op) (d0 : data_t) :
  Table.create p n = Some d0 → n ≤ 2 ^ 31 → 4 * Z.of_nat (length ops) ≤ 2 ^ 31 →
  ∃ obs d, table_run p ops d0 = Some (obs, d) ∧ length obs = length ops ∧
    wf p d ∧ no_stale p d ∧
    0 ≤ Table.size_ d ≤ Table.capacity d ∧ Table.size_ d ≤ Z.of_nat (length ops) ∧
    n ≤ Table.capacity d ≤ Z.max n (4 * Z.of_nat (length ops)) ∧
    ∃ m, 0 ≤ m ∧ Table.capacity d = 2 ^ m.
Proof.
  intros Hd0 Hn Hlen.
  destruct (create_wf p n d0 Hd0) as (Hwf & Hns & _ & Hs & Hc).
  destruct (table_run_tidy p ops d0 0 Hwf Hns) as
    (obs & d & Hrun & Hwf' & Hns' & Hl & Hs' & Hc1 & Hc2); [lia|lia|lia|].
  exists obs, d. split; [done|]. split; [done|]. split; [done|]. split; [done|].
  unfold Table.size_, Table.capacity. pose proof (size_le_capacity p d Hwf').
  split; [lia|]. split; [lia|]. split; [lia|]. apply (wf_capacity p d Hwf').
Qed.

Lemma public_calls_keep_invariants_witness :
  Table.create (hp := identity_params) erase_policy_use_marker 4 =
    Some (fresh erase_policy_use_marker 4) ∧
  ∃ obs d, table_run (hp := identity_params) erase_policy_use_marker cluster_ops
             (fresh erase_policy_use_marker 4) = Some (obs, d) ∧
           wf (hp := identity_params) erase_policy_use_marker d.
Proof.
  assert (Table.create (hp := identity_params) erase_policy_use_marker 4 =
            Some (fresh erase_policy_use_marker 4)) as H by reflexivity.
  destruct (public_calls_keep_invariants (hp := identity_params) erase_policy_use_marker 4
              cluster_ops _ H) as (obs & d & H1 & _ & H2 & _); [by vm_compute|by vm_compute|].
  exact (conj H (ex_intro _ obs (ex_intro _ d (conj H1 H2)))).
Defined.

(** X6: on a table of at most 2^31 slots [insert] returns true exactly
    when the key was absent. When it returns false the storage is
    unchanged; when it returns true the key is found with the value, the
    size has grown by one and the capacity is one, two or four times
    what it was. In both cases the key is present afterwards and every
    other key is found with the value it had. *)
Theorem insert_contract {hp : hash_params} (p : erase_policy) (d : data_t)
    (key : K) (value : V) :
  wf p d → capacity_minus_1 d < 2 ^ 31 →
  ∃ b d',
    Table.insert p key value d = Some (b, d') ∧ wf p d' ∧
    (b = true ↔ Table.count p key d = Some 0) ∧
    (b = false → d' = d) ∧
    (b = true → lookup_ p key d' = Some (key, value) ∧
                Table.size_ d' = Table.size_ d + 1) ∧
    Table.count p key d' = Some 1 ∧
    (∀ k, k ≠ key → lookup_ p k d' = lookup_ p k d ∧
                    Table.count p k d' = Table.count p k d) ∧
    (Table.capacity d' = Table.capacity d ∨ Table.capacity d' = 2 * Table.capacity d ∨
     Table.capacity d' = 4 * Table.capacity d).
Proof.
  intros Hwf Hsmall.
  destruct (lookup_cases p d key Hwf) as [(i & v & Hh & _ & Hc & _)|(Habs & _ & Hc & _)].
  - exists false, d. rewrite (insert_present p d key value i v Hwf Hh), Hc.
    split; [done|]. split; [done|]. split; [done|]. split; [done|]. split; [done|].
    split; [done|]. split; [done|]. by left.
  - destruct (insert_absent p d key value Hwf Habs Hsmall)
      as (d' & i & g & Hins & Hwf' & _ & Hs & Hh & Hext & Hg & Hcap & _).
    exists true, d'. rewrite Hins, Hc.
    destruct (lookup_holds p d' i key value Hwf' Hh) as (Hl & _ & _ & Hc').
    split; [done|]. split; [done|]. split; [done|]. split; [done|]. split; [done|].
    split; [done|]. split.
    + intros k Hne. split; [by apply (lookup_extends p d d' key k value)|].
      apply count_ext; [done..|]. intros w. rewrite (Hext k w).
      split; [intros [?|[? _]]; done|by left].
    + unfold Table.capacity.
      assert (g = 0 ∨ g = 1 ∨ g = 2) as [-> | [-> | ->]] by lia;
        [change (2 ^ 0) with 1 in Hcap|change (2 ^ 1) with 2 in Hcap
        |change (2 ^ 2) with 4 in Hcap]; lia.
Qed.

Lemma insert_contract_witness :
  wf erase_policy_rehash (cluster_table erase_policy_rehash) ∧
  capacity_minus_1 (cluster_table erase_policy_rehash) < 2 ^ 31 ∧
  ∃ b d',
    Table.insert erase_policy_rehash (8 : @K identity_params) (99 : @V identity_params)
      (cluster_table erase_policy_rehash) = Some (b, d') ∧
    (b = false → d' = cluster_table erase_policy_rehash).
Proof.
  assert (wf erase_policy_rehash (cluster_table erase_policy_rehash)) as Hwf.
  { apply reachable_wf; [by eexists|by vm_compute|by vm_compute]. }
  assert (capacity_minus_1 (cluster_table erase_policy_rehash) < 2 ^ 31) as Hsmall
    by (by vm_compute).
  destruct (insert_contract (hp := identity_params) erase_policy_rehash
              (cluster_table erase_policy_rehash) 8 99 Hwf Hsmall)
    as (b & d' & H1 & _ & _ & H2 & _).
  exact (conj Hwf (conj Hsmall (ex_intro _ b (ex_intro _ d' (conj H1 H2))))).
Defined.

(** X7: at any capacity, [insert] of an absent key whose home slot is
    free, or into a table that is less than half full, never grows the
    table: the element goes into the first slot of the probe sequence of
    the key that is not occupied, whether empty or a tombstone, the
    capacity stays, and every other key is found at the position where
    it was. *)
Theorem insert_without_growth {hp : hash_params} (p : erase_policy) (d : data_t)
    (key : K) (value : V) :
  wf p d → Table.count p key d = Some 0 →
  state_at p d (home d key) ≠ VALID ∨ 2 * Table.size_ d < Table.capacity d →
  ∃ d' pos,
    Table.insert p key value d = Some (true, d') ∧ wf p d' ∧
    Table.capacity d' = Table.capacity d ∧
    placeable p d key pos ∧ d' = place p d pos key value ∧
    Table.find p key d' = Some pos ∧ Table.iter_deref d' pos = Some (key, value) ∧
    ∀ k, k ≠ key → Table.find p k d' = Table.find p k d.
Proof.
  intros Hwf Hcount Hcase. apply (count_absent p d key Hwf) in Hcount as Habs.
  assert (¬ needs_growth p d key) as Hng.
  { intros [Hv Hload]. unfold Table.size_, Table.capacity in Hcase. destruct Hcase; [done|lia]. }
  destruct (insert_in_place p d key value Hwf Habs Hng) as (i & Hpl & Hins & _).
  destruct (place_spec p d key value i Hwf Habs Hpl) as (Hwf' & Hh & _).
  exists (place p d i key value), i.
  destruct (lookup_holds p _ i key value Hwf' Hh) as (_ & Hf & Hd & _).
  split; [done|]. split; [done|]. split; [done|]. split; [done|]. split; [done|].
  split; [done|]. split; [done|]. intros k Hne. by apply place_find.
Qed.

Lemma insert_without_growth_witness :
  wf erase_policy_rehash (cluster_table erase_policy_rehash) ∧
  Table.count erase_policy_rehash (5 : @K identity_params)
    (cluster_table erase_policy_rehash) = Some 0 ∧
  ∃ d' pos,
    Table.insert erase_policy_rehash (5 : @K identity_params) (50 : @V identity_params)
      (cluster_table erase_policy_rehash) = Some (true, d') ∧
    Table.capacity d' = Table.capacity (cluster_table erase_policy_rehash) ∧
    Table.find erase_policy_rehash (5 : @K identity_params) d' = Some pos.
Proof.
  assert (wf erase_policy_rehash (cluster_table erase_policy_rehash)) as Hwf.
  { apply reachable_wf; [by eexists|by vm_compute|by vm_compute]. }
  assert (Table.count erase_policy_rehash (5 : @K identity_params)
            (cluster_table erase_policy_rehash) = Some 0) as Hcount by (by vm_compute).
  destruct (insert_without_growth (hp := identity_params) erase_policy_rehash
              (cluster_table erase_policy_rehash) 5 50 Hwf Hcount)
    as (d' & pos & H1 & _ & H2 & _ & _ & H3 & _).
  { left. by vm_compute. }
  exact (conj Hwf (conj Hcount (ex_intro _ d' (ex_intro _ pos (conj H1 (conj H2 H3)))))).
Defined.

(** X8: [count] returns 0 or 1 and agrees with [find]: the count is 0
    exactly when [find] returns [end()]; when it is 1, [find] returns the
    position of an occupied slot within the capacity that holds the key,
    and no other occupied slot holds it. *)
Theorem find_agrees_with_count {hp : hash_params} (p : erase_policy) (d : data_t) (key : K) :
  wf p d →
  ∃ n pos,
    Table.count p key d = Some n ∧ Table.find p key d = Some pos ∧
    (n = 0 ∨ n = 1) ∧ (n = 0 ↔ pos = Table.end_) ∧
    (n = 1 →
       0 ≤ pos < Table.capacity d ∧ state_at p d pos = VALID ∧
       (∃ v, Table.iter_deref d pos = Some (key, v)) ∧
       ∀ pos' v', 0 ≤ pos' → state_at p d pos' = VALID →
                  Table.iter_deref d pos' = Some (key, v') → pos' = pos).
Proof.
  intros Hwf.
  destruct (lookup_cases p d key Hwf)
    as [(i & v & Hh & _ & Hc & Hf & Hne & Hd & _)|(Habs & _ & Hc & Hf & _)].
  - exists 1, i. split; [done|]. split; [done|]. split; [by right|].
    split; [split; [done|by intros ->]|]. intros _.
    destruct Hh as (Hi & Hst & Hk & Hv). split; [done|]. split; [done|].
    split; [by exists v|]. intros pos' v' Hp Hst' Hd'.
    apply (wf_unique p d Hwf pos' i key); [done|lia|done|done| |done].
    unfold Table.iter_deref in Hd'. destruct (key_table d !! pos') as [k'|]; [|done].
    destruct (value_table d !! pos'); [|done]. by simplify_eq.
  - exists 0, NPOS. split; [done|]. split; [done|]. split; [by left|]. split; [done|done].
Qed.

Lemma find_agrees_with_count_witness :
  wf erase_policy_rehash (cluster_table erase_policy_rehash) ∧
  ∃ n pos,
    Table.count erase_policy_rehash (1 : @K identity_params)
      (cluster_table erase_policy_rehash) = Some n ∧
    Table.find erase_policy_rehash (1 : @K identity_params)
      (cluster_table erase_policy_rehash) = Some pos ∧
    (n = 0 ↔ pos = Table.end_).
Proof.
  assert (wf erase_policy_rehash (cluster_table erase_policy_rehash)) as Hwf.
  { apply reachable_wf; [by eexists|by vm_compute|by vm_compute]. }
  destruct (find_agrees_with_count (hp := identity_params) erase_policy_rehash
              (cluster_table erase_policy_rehash) 1 Hwf) as (n & pos & H1 & H2 & _ & H3 & _).
  exact (conj Hwf (ex_intro _ n (ex_intro _ pos (conj H1 (conj H2 H3))))).
Defined.

(** X9: on a table of at most 2^31 slots [operator[]] returns the
    position of the value of the key: for a key that the table holds the
    storage is unchanged; for an absent key the call does what
    [insert(key, V())] does and the value is the default one. The key is
    found at the returned position afterwards and every other key is
    found with the value it had. *)
Theorem index_finds_or_inserts_default {hp : hash_params} (p : erase_policy) (d : data_t)
    (key : K) :
  wf p d → capacity_minus_1 d < 2 ^ 31 →
  ∃ pos d' v,
    Table.index p key d = Some (pos, d') ∧ wf p d' ∧
    Table.find p key d' = Some pos ∧ Table.iter_deref d' pos = Some (key, v) ∧
    (Table.count p key d = Some 1 → d' = d ∧ lookup_ p key d = Some (key, v)) ∧
    (Table.count p key d = Some 0 →
       v = V_default ∧ Table.insert p key V_default d = Some (true, d')) ∧
    ∀ k, k ≠ key → lookup_ p k d' = lookup_ p k d.
Proof.
  intros Hwf Hsmall.
  destruct (lookup_cases p d key Hwf) as [(i & v & Hh & _ & Hc & _)|(Habs & Hg & Hc & _)].
  - exists i, d, v. rewrite (index_present p d key i v Hwf Hh), Hc.
    destruct (lookup_holds p d i key v Hwf Hh) as (Hl & Hf & Hd & _).
    split; [done|]. split; [done|]. split; [done|]. split; [done|]. split; [done|].
    split; [done|done].
  - destruct (index_absent p d key Hwf Habs Hsmall)
      as (d' & i & Hidx & Hwf' & _ & _ & Hh & Hext & _).
    exists i, d', V_default. rewrite Hc.
    destruct (lookup_holds p d' i key V_default Hwf' Hh) as (_ & Hf & Hd & _).
    split; [done|]. split; [done|]. split; [done|]. split; [done|]. split; [done|]. split.
    + intros _. split; [done|]. unfold Table.index, Table.insert in *.
      unfold Table.get_index in Hg. rewrite Hg in *.
      destruct (Table.add_new_hash p key V_default d (hash_functor key)) as [[e j]|]; [|done].
      destruct (key_table e !! j) as [k'|]; [|done].
      destruct (bool_decide (k' = key)); [|done]. by simplify_eq.
    + intros k Hne. by apply (lookup_extends p d d' key k V_default).
Qed.

Lemma index_finds_or_inserts_default_witness :
  wf erase_policy_rehash (cluster_table erase_policy_rehash) ∧
  capacity_minus_1 (cluster_table erase_policy_rehash) < 2 ^ 31 ∧
  ∃ pos d' v,
    Table.index erase_policy_rehash (3 : @K identity_params)
      (cluster_table erase_policy_rehash) = Some (pos, d') ∧
    Table.iter_deref d' pos = Some (3, v).
Proof.
  assert (wf erase_policy_rehash (cluster_table erase_policy_rehash)) as Hwf.
  { apply reachable_wf; [by eexists|by vm_compute|by vm_compute]. }
  assert (capacity_minus_1 (cluster_table erase_policy_rehash) < 2 ^ 31) as Hsmall
    by (by vm_compute).
  destruct (index_finds_or_inserts_default (hp := identity_params) erase_policy_rehash
              (cluster_table erase_policy_rehash) 3 Hwf Hsmall)
    as (pos & d' & v & H1 & _ & _ & H2 & _).
  exact (conj Hwf (conj Hsmall (ex_intro _ pos (ex_intro _ d' (ex_intro _ v (conj H1 H2)))))).
Defined.

(** X10: an assignment through the reference that [operator[]] returns,
    [t[key] = value], on a table of at most 2^31 slots: the key is found
    with the new value afterwards, whether it was present or not, every
    other key is found with the value it had, and the size grows by one
    exactly when the key was absent. *)
Theorem assignment_through_index {hp : hash_params} (p : erase_policy) (d : data_t)
    (key : K) (value : V) :
  wf p d → capacity_minus_1 d < 2 ^ 31 →
  ∃ pos d',
    Table.index p key d = Some (pos, d') ∧
    wf p (Table.assign pos value d') ∧
    lookup_ p key (Table.assign pos value d') = Some (key, value) ∧
    (∀ k, k ≠ key → lookup_ p k (Table.assign pos value d') = lookup_ p k d) ∧
    (Table.count p key d = Some 1 → Table.size_ (Table.assign pos value d') = Table.size_ d) ∧
    (Table.count p key d = Some 0 →
       Table.size_ (Table.assign pos value d') = Table.size_ d + 1).
Proof.
  intros Hwf Hsmall.
  destruct (index_cases p d key Hwf Hsmall)
    as (d' & i & v0 & Hidx & Hwf' & Hh & _ & _ & _ & _ & Hcase).
  destruct (assign_spec p d' i key v0 value Hwf' Hh) as (Hwf2 & Hh2 & Hmap & _).
  exists i, d'. split; [done|]. split; [done|].
  split; [by apply (lookup_holds p _ i key value Hwf2 Hh2)|]. split.
  - intros k Hne. transitivity (lookup_ p k d').
    + apply lookup_ext; [done..|]. intros w. rewrite (Hmap k w).
      split; [intros [[? _]|[_ ?]]; done|by right].
    + destruct Hcase as [[_ ->]|(_ & _ & Hext)]; [done|].
      by apply (lookup_extends p d d' key k V_default).
  - unfold Table.size_. cbn [size Table.assign].
    destruct Hcase as [[Hm ->]|(Habs & _ & Hext)].
    + split; [done|]. intros Hc0. apply (count_absent p d key Hwf) in Hc0.
      by apply (absent_iff p d key Hwf) in Hm.
    + apply (count_absent p d key Hwf) in Habs as Hc0. rewrite Hc0.
      split; [by intros [=]|]. intros _.
      destruct (index_absent p d key Hwf Habs Hsmall) as (e & j & He & _ & _ & Hs & _).
      rewrite Hidx in He. by simplify_eq.
Qed.

Lemma assignment_through_index_witness :
  wf erase_policy_rehash (cluster_table erase_policy_rehash) ∧
  capacity_minus_1 (cluster_table erase_policy_rehash) < 2 ^ 31 ∧
  ∃ pos d',
    Table.index erase_policy_rehash (8 : @K identity_params)
      (cluster_table erase_policy_rehash) = Some (pos, d') ∧
    lookup_ erase_policy_rehash (8 : @K identity_params)
      (Table.assign pos (77 : @V identity_params) d') = Some (8, 77).
Proof.
  assert (wf erase_policy_rehash (cluster_table erase_policy_rehash)) as Hwf.
  { apply reachable_wf; [by eexists|by vm_compute|by vm_compute]. }
  assert (capacity_minus_1 (cluster_table erase_policy_rehash) < 2 ^ 31) as Hsmall
    by (by vm_compute).
  destruct (assignment_through_index (hp := identity_params) erase_policy_rehash
              (cluster_table erase_policy_rehash) 8 77 Hwf Hsmall)
    as (pos & d' & H1 & _ & H2 & _).
  exact (conj Hwf (conj Hsmall (ex_intro _ pos (ex_intro _ d' (conj H1 H2))))).
Defined.

(** X11: [insert] does not overwrite: after [insert(key, v)] of an
    absent key into a table of at most 2^31 slots, a second
    [insert(key, v')] returns false, leaves the storage as it is, and the
    key is still found with the first value [v]. *)
Theorem insert_keeps_the_first_value {hp : hash_params} (p : erase_policy) (d : data_t)
    (key : K) (v v' : V) :
  wf p d → capacity_minus_1 d < 2 ^ 31 → Table.count p key d = Some 0 →
  ∃ d1, Table.insert p key v d = Some (true, d1) ∧
        Table.insert p key v' d1 = Some (false, d1) ∧
        lookup_ p key d1 = Some (key, v).
Proof.
  intros Hwf Hsmall Hcount. apply (count_absent p d key Hwf) in Hcount as Habs.
  destruct (insert_absent p d key v Hwf Habs Hsmall)
    as (d1 & i & g & Hins & Hwf1 & _ & _ & Hh & _).
  exists d1. split; [done|]. split; [by apply (insert_present p d1 key v' i v)|].
  by apply (lookup_holds p d1 i key v).
Qed.

Lemma insert_keeps_the_first_value_witness :
  wf erase_policy_use_marker (cluster_table erase_policy_use_marker) ∧
  capacity_minus_1 (cluster_table erase_policy_use_marker) < 2 ^ 31 ∧
  Table.count erase_policy_use_marker (16 : @K identity_params)
    (cluster_table erase_policy_use_marker) = Some 0 ∧
  ∃ d1,
    Table.insert erase_policy_use_marker (16 : @K identity_params) (1 : @V identity_params)
      (cluster_table erase_policy_use_marker) = Some (true, d1) ∧
    Table.insert erase_policy_use_marker (16 : @K identity_params) (2 : @V identity_params)
      d1 = Some (false, d1).
Proof.
  assert (wf erase_policy_use_marker (cluster_table erase_policy_use_marker)) as Hwf.
  { apply reachable_wf; [by eexists|by vm_compute|by vm_compute]. }
  assert (capacity_minus_1 (cluster_table erase_policy_use_marker) < 2 ^ 31) as Hsmall
    by (by vm_compute).
  assert (Table.count erase_policy_use_marker (16 : @K identity_params)
            (cluster_table erase_policy_use_marker) = Some 0) as Hcount by (by vm_compute).
  destruct (insert_keeps_the_first_value (hp := identity_params) erase_policy_use_marker
              (cluster_table erase_policy_use_marker) 16 1 2 Hwf Hsmall Hcount)
    as (d1 & H1 & H2 & _).
  exact (conj Hwf (conj Hsmall (conj Hcount (ex_intro _ d1 (conj H1 H2))))).
Defined.

(** X12: [clear] leaves a table without element and with the capacity
    it had: the size is 0, every slot is empty (the tombstones of the
    marker policy are gone as well), every key has the count 0,
    [begin()] is [end()], and the objects of all the elements have been
    destroyed. *)
Theorem clear_empties_the_table {hp : hash_params} (p : erase_policy) (d : data_t) :
  wf p d →
  wf p (Table.clear p d) ∧
  Table.size_ (Table.clear p d) = 0 ∧
  Table.capacity (Table.clear p d) = Table.capacity d ∧
  (∀ i, state_at p (Table.clear p d) i = INVALID) ∧
  (∀ k, Table.count p k (Table.clear p d) = Some 0 ∧
        Table.find p k (Table.clear p d) = Some Table.end_) ∧
  Table.begin_ p (Table.clear p d) = Table.end_ ∧
  (no_stale p d →
   key_table (Table.clear p d) = ∅ ∧ value_table (Table.clear p d) = ∅).
Proof.
  intros Hwf. destruct (clear_spec p d Hwf) as (Hwf' & Hst & Hs & Hc & _).
  split; [done|]. split; [done|]. split; [unfold Table.capacity; by rewrite Hc|].
  split; [done|]. split.
  - intros k.
    destruct (lookup_cases p _ k Hwf') as [(i & v & (Hi & Hv & _) & _)|(_ & _ & Hc0 & Hf & _)];
      [|done].
    rewrite Hst in Hv. by unfold INVALID, VALID in Hv.
  - split; [by apply begin_end_iff|]. intros Hns.
    destruct (clear_tables p d) as [-> ->]. by apply destructor_tidy.
Qed.

Lemma clear_empties_the_table_witness :
  wf erase_policy_use_marker (cluster_table erase_policy_use_marker) ∧
  Table.size_ (Table.clear erase_policy_use_marker
                 (cluster_table erase_policy_use_marker)) = 0 ∧
  Table.capacity (Table.clear erase_policy_use_marker
                    (cluster_table erase_policy_use_marker)) =
    Table.capacity (cluster_table erase_policy_use_marker).
Proof.
  assert (wf erase_policy_use_marker (cluster_table erase_policy_use_marker)) as Hwf.
  { apply reachable_wf; [by eexists|by vm_compute|by vm_compute]. }
  destruct (clear_empties_the_table (hp := identity_params) erase_policy_use_marker
              (cluster_table erase_policy_use_marker) Hwf) as (_ & H1 & H2 & _).
  exact (conj Hwf (conj H1 H2)).
Defined.

(** X13: [insert] of an absent key followed by [erase] of the same key,
    on a table of at most 2^31 slots, gives back the size and the
    contents the table had: every key is found, or not found, as before,
    with the same value. The capacity is the one that the [insert] left. *)
Theorem insert_then_erase_restores_contents {hp : hash_params} (p : erase_policy)
    (d : data_t) (key : K) (value : V) :
  wf p d → capacity_minus_1 d < 2 ^ 31 → Table.count p key d = Some 0 →
  ∃ d1 d2,
    Table.insert p key value d = Some (true, d1) ∧ Table.erase p key d1 = Some d2 ∧
    wf p d2 ∧ Table.size_ d2 = Table.size_ d ∧
    Table.capacity d2 = Table.capacity d1 ∧
    ∀ k, lookup_ p k d2 = lookup_ p k d ∧ Table.count p k d2 = Table.count p k d.
Proof.
  intros Hwf Hsmall Hcount. apply (count_absent p d key Hwf) in Hcount as Habs.
  destruct (insert_absent p d key value Hwf Habs Hsmall)
    as (d1 & i & g & Hins & Hwf1 & _ & Hs1 & Hh & Hext & _).
  destruct (erase_present p d1 key i value Hwf1 Hh) as (d2 & Her & Hwf2 & Hrem & Hs2 & Hc2 & _).
  exists d1, d2. split; [done|]. split; [done|]. split; [done|].
  split; [unfold Table.size_; lia|]. split; [unfold Table.capacity; by rewrite Hc2|].
  assert (∀ k w, maps_to p d2 k w ↔ maps_to p d k w) as Hmap.
  { intros k w. rewrite (Hrem k w), (Hext k w). split.
    - intros [[?|[? _]] ?]; done.
    - intros Hm. split; [by left|]. intros ->. by apply (absent_iff p d key Hwf) in Hm. }
  intros k. split; [by apply lookup_ext|by apply count_ext].
Qed.

Lemma insert_then_erase_restores_contents_witness :
  wf erase_policy_rehash (cluster_table erase_policy_rehash) ∧
  capacity_minus_1 (cluster_table erase_policy_rehash) < 2 ^ 31 ∧
  Table.count erase_policy_rehash (9 : @K identity_params)
    (cluster_table erase_policy_rehash) = Some 0 ∧
  ∃ d1 d2,
    Table.insert erase_policy_rehash (9 : @K identity_params) (90 : @V identity_params)
      (cluster_table erase_policy_rehash) = Some (true, d1) ∧
    Table.erase erase_policy_rehash (9 : @K identity_params) d1 = Some d2 ∧
    Table.size_ d2 = Table.size_ (cluster_table erase_policy_rehash).
Proof.
  assert (wf erase_policy_rehash (cluster_table erase_policy_rehash)) as Hwf.
  { apply reachable_wf; [by eexists|by vm_compute|by vm_compute]. }
  assert (capacity_minus_1 (cluster_table erase_policy_rehash) < 2 ^ 31) as Hsmall
    by (by vm_compute).
  assert (Table.count erase_policy_rehash (9 : @K identity_params)
            (cluster_table erase_policy_rehash) = Some 0) as Hcount by (by vm_compute).
  destruct (insert_then_erase_restores_contents (hp := identity_params) erase_policy_rehash
              (cluster_table erase_policy_rehash) 9 90 Hwf Hsmall Hcount)
    as (d1 & d2 & H1 & H2 & _ & H3 & _).
  exact (conj Hwf (conj Hsmall (conj Hcount
           (ex_intro _ d1 (ex_intro _ d2 (conj H1 (conj H2 H3))))))).
Defined.

(** X14: [erase] composes: a second [erase] of the same key changes
    nothing, and two keys erased in either order leave tables of the
    same size in which every key is found, or not found, alike. *)
Theorem erase_composes {hp : hash_params} (p : erase_policy) (d : data_t) (k1 k2 : K) :
  wf p d →
  ∃ d1 d2 d12 d21,
    Table.erase p k1 d = Some d1 ∧ Table.erase p k1 d1 = Some d1 ∧
    Table.erase p k2 d = Some d2 ∧
    Table.erase p k2 d1 = Some d12 ∧ Table.erase p k1 d2 = Some d21 ∧
    Table.size_ d12 = Table.size_ d21 ∧
    ∀ k, lookup_ p k d12 = lookup_ p k d21 ∧ Table.count p k d12 = Table.count p k d21.
Proof.
  intros Hwf.
  assert (∀ e key, wf p e →
            ∃ e', Table.erase p key e = Some e' ∧ wf p e' ∧ removes p e e' key ∧
                  (size e' = size e - 1 ∧ (∃ v, maps_to p e key v) ∨
                   e' = e ∧ absent p e key)) as Herase.
  { intros e key Hwfe.
    destruct (lookup_cases p e key Hwfe) as [(i & v & Hh & _)|(Habs & _)].
    - destruct (erase_present p e key i v Hwfe Hh) as (e' & Hr & Hwf' & Hrem & Hs & _).
      exists e'. split; [done|]. split; [done|]. split; [done|]. left. split; [done|].
      exists v. by exists i.
    - exists e. split; [by apply erase_absent|]. split; [done|]. split; [|by right].
      intros k w. split; [|by intros [? _]]. intros Hm. split; [done|]. intros ->.
      by apply (absent_iff p e key Hwfe) in Hm. }
  destruct (Herase d k1 Hwf) as (d1 & He1 & Hwf1 & Hrem1 & Hcase1).
  destruct (Herase d k2 Hwf) as (d2 & He2 & Hwf2 & Hrem2 & Hcase2).
  destruct (Herase d1 k2 Hwf1) as (d12 & He12 & Hwf12 & Hrem12 & Hcase12).
  destruct (Herase d2 k1 Hwf2) as (d21 & He21 & Hwf21 & Hrem21 & Hcase21).
  exists d1, d2, d12, d21. split; [done|]. split.
  { apply erase_absent; [done|]. by apply (removed_absent p d d1). }
  split; [done|]. split; [done|]. split; [done|].
  assert (∀ k w, maps_to p d12 k w ↔ maps_to p d21 k w) as Hmap.
  { intros k w. rewrite (Hrem12 k w), (Hrem1 k w), (Hrem21 k w), (Hrem2 k w). tauto. }
  split.
  - unfold Table.size_.
    assert (∀ e key, wf p e → (∃ v, maps_to p e key v) → absent p e key → False) as Hno.
    { intros e key Hwfe [v Hm] Ha. by apply (absent_iff p e key Hwfe) in Hm. }
    assert (∀ key, (∃ v, maps_to p d key v) ∨ absent p d key) as Hdec.
    { intros key. destruct (lookup_cases p d key Hwf) as [(i & v & Hh & _)|(Ha & _)];
        [left; exists v; by exists i|by right]. }
    destruct (decide (k1 = k2)) as [->|Hne].
    + destruct Hcase1 as [[Hs1 Hm1]|[-> Ha1]], Hcase2 as [[Hs2 Hm2]|[-> Ha2]];
        try (by destruct (Hno d k2)).
      * destruct Hcase12 as [[_ [v Hm]]|[-> _]]; [by apply Hrem1 in Hm as [_ ?]|].
        destruct Hcase21 as [[_ [v Hm]]|[-> _]]; [by apply Hrem2 in Hm as [_ ?]|]. lia.
      * rewrite He12 in He21. by simplify_eq.
    + assert (∀ e e' ka kb, wf p e → removes p e e' ka → ka ≠ kb →
                ((∃ v, maps_to p e' kb v) ↔ (∃ v, maps_to p e kb v))) as Hkeep.
      { intros e e' ka kb _ Hr Hab. split; intros [v Hm]; exists v; apply Hr; [done|].
        split; [done|]. by intros ->. }
      assert (∀ e e' ka kb, wf p e → wf p e' → removes p e e' ka → ka ≠ kb →
                absent p e kb → absent p e' kb) as Habs.
      { intros e e' ka kb Hwfe Hwfe' Hr Hab Ha. apply absent_iff; [done|]. intros v Hm.
        apply Hr in Hm as [Hm _]. by apply (absent_iff p e kb Hwfe) in Hm. }
      destruct Hcase1 as [[Hs1 Hm1]|[-> Ha1]], Hcase2 as [[Hs2 Hm2]|[-> Ha2]].
      * destruct Hcase12 as [[Hs12 _]|[-> Ha]];
          [|destruct (Hno d1 k2 Hwf1); [by apply (Hkeep d d1 k1 k2)|done]].
        destruct Hcase21 as [[Hs21 _]|[-> Ha]];
          [|destruct (Hno d2 k1 Hwf2); [by apply (Hkeep d d2 k2 k1)|done]]. lia.
      * destruct Hcase12 as [[_ Hm]|[-> _]];
          [destruct (Hno d k2 Hwf); [by apply (Hkeep d d1 k1 k2)|done]|].
        rewrite He1 in He21. by simplify_eq.
      * destruct Hcase21 as [[_ Hm]|[-> _]];
          [destruct (Hno d k1 Hwf); [by apply (Hkeep d d2 k2 k1)|done]|].
        rewrite He2 in He12. by simplify_eq.
      * rewrite He1 in He21. rewrite He2 in He12. by simplify_eq.
  - intros k. split; [by apply lookup_ext|by apply count_ext].
Qed.

Lemma erase_composes_witness :
  wf erase_policy_rehash (cluster_table erase_policy_rehash) ∧
  ∃ d1 d2 d12 d21,
    Table.erase erase_policy_rehash (0 : @K identity_params)
      (cluster_table erase_policy_rehash) = Some d1 ∧
    Table.erase erase_policy_rehash (8 : @K identity_params)
      (cluster_table erase_policy_rehash) = Some d2 ∧
    Table.erase erase_policy_rehash (8 : @K identity_params) d1 = Some d12 ∧
    Table.erase erase_policy_rehash (0 : @K identity_params) d2 = Some d21 ∧
    Table.size_ d12 = Table.size_ d21.
Proof.
  assert (wf erase_policy_rehash (cluster_table erase_policy_rehash)) as Hwf.
  { apply reachable_wf; [by eexists|by vm_compute|by vm_compute]. }
  destruct (erase_composes (hp := identity_params) erase_policy_rehash
              (cluster_table erase_policy_rehash) 0 8 Hwf)
    as (d1 & d2 & d12 & d21 & H1 & _ & H2 & H3 & H4 & H5 & _).
  exact (conj Hwf (ex_intro _ d1 (ex_intro _ d2 (ex_intro _ d12 (ex_intro _ d21
           (conj H1 (conj H2 (conj H3 (conj H4 H5))))))))).
Defined.

(** X15: [begin()] is [end()] exactly when the table has no element;
    otherwise it is the position of the lowest occupied slot, which is
    within the capacity and holds an entry. This holds at any capacity. *)
Theorem begin_is_the_first_element {hp : hash_params} (p : erase_policy) (d : data_t) :
  wf p d →
  (Table.begin_ p d = Table.end_ ↔ Table.size_ d = 0) ∧
  (Table.begin_ p d ≠ Table.end_ →
     0 ≤ Table.begin_ p d < Table.capacity d ∧
     state_at p d (Table.begin_ p d) = VALID ∧
     is_Some (Table.iter_deref d (Table.begin_ p d)) ∧
     ∀ s, 0 ≤ s < Table.begin_ p d → state_at p d s ≠ VALID).
Proof. intros Hwf. split; [by apply begin_end_iff|by apply begin_first]. Qed.

Lemma begin_is_the_first_element_witness :
  wf erase_policy_use_marker (cluster_table erase_policy_use_marker) ∧
  (Table.begin_ erase_policy_use_marker (cluster_table erase_policy_use_marker) = Table.end_ ↔
   Table.size_ (cluster_table erase_policy_use_marker) = 0).
Proof.
  assert (wf erase_policy_use_marker (cluster_table erase_policy_use_marker)) as Hwf.
  { apply reachable_wf; [by eexists|by vm_compute|by vm_compute]. }
  destruct (begin_is_the_first_element (hp := identity_params) erase_policy_use_marker
              (cluster_table erase_policy_use_marker) Hwf) as [H1 _].
  exact (conj Hwf H1).
Defined.

(** X16: on a table of at most 2^32 slots the loop
    [for (it = begin(); it != end(); ++it)] visits the occupied slots in
    increasing order, each once, and no other slot (no tombstone of the
    marker policy); every visited position dereferences to an entry, the
    number of entries is [size()], no key comes twice, and the entries
    are exactly the pairs that [find] delivers. *)
Theorem iteration_visits_each_element_once {hp : hash_params} (p : erase_policy)
    (d : data_t) :
  wf p d → capacity_minus_1 d < 2 ^ 32 →
  ∃ es,
    Table.iterate p d =
      Some (filter (λ i, state_at p d i = VALID) (seqZ 0 (Table.capacity d))) ∧
    mapM (Table.iter_deref d)
      (filter (λ i, state_at p d i = VALID) (seqZ 0 (Table.capacity d))) = Some es ∧
    Z.of_nat (length es) = Table.size_ d ∧
    NoDup es.*1 ∧
    ∀ k v, (k, v) ∈ es ↔ lookup_ p k d = Some (k, v).
Proof.
  intros Hwf Hsmall. destruct (iterate_deref p d Hwf Hsmall) as (es & Hit & Hes).
  exists es. split; [done|]. split; [done|].
  destruct (iterate_entries p d es Hwf Hes) as [Hlen Hin].
  split; [unfold Table.size_; by rewrite (wf_size p d Hwf), Hlen|]. split.
  - apply mapM_Some in Hes. apply NoDup_alt. intros a b k Ha Hb.
    apply list_lookup_fmap_Some in Ha as ([k1 v1] & E1 & Ha).
    apply list_lookup_fmap_Some in Hb as ([k2 v2] & E2 & Hb). cbn in E1, E2. subst k1 k2.
    destruct (Forall2_lookup_r _ _ _ _ _ Hes Ha) as (sa & Hsa & Hda).
    destruct (Forall2_lookup_r _ _ _ _ _ Hes Hb) as (sb & Hsb & Hdb).
    assert (∀ s w, s ∈ occupied_slots p d → Table.iter_deref d s = Some (k, w) →
              0 ≤ s ∧ state_at p d s = VALID ∧ key_table d !! s = Some k) as Hslot.
    { intros s w Hs Hd. apply list_elem_of_filter in Hs as [Hst Hs]. apply elem_of_seqZ in Hs.
      split; [lia|]. split; [done|]. unfold Table.iter_deref in Hd.
      destruct (key_table d !! s); [|done]. destruct (value_table d !! s); [|done].
      by simplify_eq. }
    destruct (Hslot sa v1 (list_elem_of_lookup_2 _ _ _ Hsa) Hda) as (? & ? & ?).
    destruct (Hslot sb v2 (list_elem_of_lookup_2 _ _ _ Hsb) Hdb) as (? & ? & ?).
    assert (sa = sb) as -> by (by apply (wf_unique p d Hwf sa sb k)).
    assert (NoDup (occupied_slots p d)) as Hnd by (apply NoDup_filter, NoDup_seqZ).
    by apply (NoDup_lookup _ _ _ _ Hnd Hsa Hsb).
  - intros k v. rewrite (Hin k v). by apply maps_to_lookup.
Qed.

Lemma iteration_visits_each_element_once_witness :
  wf erase_policy_use_marker (cluster_table erase_policy_use_marker) ∧
  capacity_minus_1 (cluster_table erase_policy_use_marker) < 2 ^ 32 ∧
  ∃ es,
    mapM (Table.iter_deref (cluster_table erase_policy_use_marker))
      (filter (λ i, state_at erase_policy_use_marker
                      (cluster_table erase_policy_use_marker) i = VALID)
         (seqZ 0 (Table.capacity (cluster_table erase_policy_use_marker)))) = Some es ∧
    Z.of_nat (length es) = Table.size_ (cluster_table erase_policy_use_marker).
Proof.
  assert (wf erase_policy_use_marker (cluster_table erase_policy_use_marker)) as Hwf.
  { apply reachable_wf; [by eexists|by vm_compute|by vm_compute]. }
  assert (capacity_minus_1 (cluster_table erase_policy_use_marker) < 2 ^ 32) as Hsmall
    by (by vm_compute).
  destruct (iteration_visits_each_element_once (hp := identity_params) erase_policy_use_marker
              (cluster_table erase_policy_use_marker) Hwf Hsmall) as (es & _ & H1 & H2 & _).
  exact (conj Hwf (conj Hsmall (ex_intro _ es (conj H1 H2)))).
Defined.

(** X17: [increase_table_size] to a power of two above the capacity, on
    a table of at most 2^32 slots, gives a table of that capacity with
    the same size in which every key is found as before with the same
    value; the new storage holds no tombstone and no object outside its
    occupied slots. An argument that is not a positive power of two
    fails the assertions. *)
Theorem growth_keeps_elements_and_drops_tombstones {hp : hash_params} (p : erase_policy)
    (d : data_t) (m : Z) :
  wf p d → capacity_minus_1 d < 2 ^ 32 → 0 ≤ m → Table.capacity d < 2 ^ m →
  ∃ d',
    Table.increase_table_size p d (2 ^ m) = Some d' ∧ wf p d' ∧ no_stale p d' ∧
    Table.capacity d' = 2 ^ m ∧ Table.size_ d' = Table.size_ d ∧
    (∀ k, lookup_ p k d' = lookup_ p k d ∧ Table.count p k d' = Table.count p k d) ∧
    (∀ i, 0 ≤ i → state_at p d' i ≠ DELETED) ∧
    ∀ n, n ≤ 0 ∨ Z.land n (n - 1) ≠ 0 → Table.increase_table_size p d n = None.
Proof.
  intros Hwf Hsmall Hm Hgrow. unfold Table.capacity in Hgrow.
  destruct (increase_table_size_spec p d m Hwf Hsmall Hm Hgrow)
    as (d' & Hrun & Hwf' & Hns & Hc & Hs & Hmap).
  exists d'. split; [done|]. split; [done|]. split; [done|].
  split; [unfold Table.capacity; lia|]. split; [done|]. split.
  - intros k. split; [by apply lookup_same_mapping|].
    apply count_ext; [done..|]. intros v. by rewrite (Hmap k v).
  - split; [|intros n; apply increase_table_size_asserts].
    by apply (increase_table_size_no_deleted p d d' (2 ^ m)); [apply wf_wf_bitmap|..].
Qed.

Lemma growth_keeps_elements_and_drops_tombstones_witness :
  wf erase_policy_use_marker (cluster_table erase_policy_use_marker) ∧
  capacity_minus_1 (cluster_table erase_policy_use_marker) < 2 ^ 32 ∧
  Table.capacity (cluster_table erase_policy_use_marker) < 2 ^ 5 ∧
  ∃ d',
    Table.increase_table_size erase_policy_use_marker
      (cluster_table erase_policy_use_marker) (2 ^ 5) = Some d' ∧
    Table.capacity d' = 2 ^ 5 ∧
    Table.size_ d' = Table.size_ (cluster_table erase_policy_use_marker).
Proof.
  assert (wf erase_policy_use_marker (cluster_table erase_policy_use_marker)) as Hwf.
  { apply reachable_wf; [by eexists|by vm_compute|by vm_compute]. }
  assert (capacity_minus_1 (cluster_table erase_policy_use_marker) < 2 ^ 32) as Hsmall
    by (by vm_compute).
  assert (Table.capacity (cluster_table erase_policy_use_marker) < 2 ^ 5) as Hgrow
    by (by vm_compute).
  destruct (growth_keeps_elements_and_drops_tombstones (hp := identity_params)
              erase_policy_use_marker (cluster_table erase_policy_use_marker) 5 Hwf Hsmall)
    as (d' & H1 & _ & _ & H2 & H3 & _); [by vm_compute|exact Hgrow|].
  exact (conj Hwf (conj Hsmall (conj Hgrow (ex_intro _ d' (conj H1 (conj H2 H3)))))).
Defined.

(** X18: under the marker policy [erase] moves nothing: every other key
    is found at the position where it was, a position that designated
    the entry of another key designates the same entry afterwards, and
    the capacity is unchanged. *)
Theorem marker_erase_keeps_positions {hp : hash_params} (d : data_t) (key : K) :
  wf erase_policy_use_marker d →
  ∃ d',
    Table.erase erase_policy_use_marker key d = Some d' ∧ wf erase_policy_use_marker d' ∧
    Table.capacity d' = Table.capacity d ∧
    (∀ k, k ≠ key →
       Table.find erase_policy_use_marker k d' = Table.find erase_policy_use_marker k d) ∧
    ∀ pos k v, k ≠ key → Table.iter_deref d pos = Some (k, v) →
               Table.iter_deref d' pos = Some (k, v).
Proof.
  intros Hwf.
  assert (∃ d', Table.erase erase_policy_use_marker key d = Some d' ∧
                capacity_minus_1 d' = capacity_minus_1 d) as (d' & Hrun & Hc).
  { destruct (lookup_cases erase_policy_use_marker d key Hwf) as [(i & v & Hh & _)|(Habs & _)].
    - destruct (erase_present erase_policy_use_marker d key i v Hwf Hh)
        as (d' & Hr & _ & _ & _ & Hc & _). by exists d'.
    - exists d. split; [by apply erase_absent|done]. }
  destruct (marker_erase_positions d d' key Hwf Hrun) as (Hwf' & Hfind & Hderef).
  exists d'. split; [done|]. split; [done|]. split; [unfold Table.capacity; by rewrite Hc|].
  done.
Qed.

Lemma marker_erase_keeps_positions_witness :
  wf erase_policy_use_marker (cluster_table erase_policy_use_marker) ∧
  ∃ d',
    Table.erase erase_policy_use_marker (0 : @K identity_params)
      (cluster_table erase_policy_use_marker) = Some d' ∧
    Table.find erase_policy_use_marker (8 : @K identity_params) d' =
      Table.find erase_policy_use_marker (8 : @K identity_params)
        (cluster_table erase_policy_use_marker).
Proof.
  assert (wf erase_policy_use_marker (cluster_table erase_policy_use_marker)) as Hwf.
  { apply reachable_wf; [by eexists|by vm_compute|by vm_compute]. }
  destruct (marker_erase_keeps_positions (hp := identity_params)
              (cluster_table erase_policy_use_marker) 0 Hwf) as (d' & H1 & _ & _ & H2 & _).
  assert ((8 : @K identity_params) ≠ 0) as Hne by (intros [=]).
  exact (conj Hwf (ex_intro _ d' (conj H1 (H2 8 Hne)))).
Defined.

(** X19: as long as the tables stay at or below 2^31 slots, the
    policy-based table under the rehash policy and the standalone table
    are observationally equivalent: built for the same [default_size]
    and given the same calls of [insert], [erase], [operator[]], [find],
    [count], [size], [capacity], [clear] and iteration, both deliver the
    same results, and end with the same bitmap, size and capacity and
    with every key found at the same position with the same entry. *)
Theorem tables_agree_up_to_2_31_slots {hp : hash_params} (n : Z) (ops : list op)
    (d0 : data_t) :
  Table.create erase_policy_rehash n = Some d0 → n ≤ 2 ^ 31 →
  4 * Z.of_nat (length ops) ≤ 2 ^ 31 →
  Table2.create n = Some d0 ∧
  ∃ obs d1 d2,
    table_run erase_policy_rehash ops d0 = Some (obs, d1) ∧
    table2_run ops d0 = Some (obs, d2) ∧
    valid d2 = valid d1 ∧ Table2.size_ d2 = Table.size_ d1 ∧
    Table2.capacity d2 = Table.capacity d1 ∧
    ∀ k, Table2.count k d2 = Table.count erase_policy_rehash k d1 ∧
         Table2.find k d2 = Table.find erase_policy_rehash k d1 ∧
         ∀ pos, Table.find erase_policy_rehash k d1 = Some pos → pos ≠ Table.end_ →
                Table2.iter_deref d2 pos = Table.iter_deref d1 pos.
Proof.
  intros Hd0 Hn Hlen. split; [exact Hd0|].
  destruct (create_wf erase_policy_rehash n d0 Hd0) as (Hwf & _ & _ & Hs & Hc).
  destruct (run_sim ops d0 d0 0 (agree_refl d0) Hwf) as (obs & d1 & d2 & H1 & H2 & Ha & Hwf1);
    [lia|lia|lia|].
  exists obs, d1, d2. split; [done|]. split; [done|].
  split; [apply (agree_valid _ _ Ha)|]. split; [apply (agree_size _ _ Ha)|].
  split; [unfold Table2.capacity, Table.capacity; by rewrite (agree_capacity _ _ Ha)|].
  intros k.
  split; [unfold Table2.count, Table.count; by rewrite (get_index2_agree d1 d2 k Ha Hwf1)|].
  split; [unfold Table2.find, Table.find; by rewrite (get_index2_agree d1 d2 k Ha Hwf1)|].
  intros pos Hfind Hne.
  destruct (lookup_cases erase_policy_rehash d1 k Hwf1)
    as [(i & v & Hh & _ & _ & Hf & _)|(_ & _ & _ & Hf & _)]; rewrite Hf in Hfind;
    injection Hfind as <-; [|done].
  destruct Hh as (Hi & Hst & _). apply iter_deref_agree; [done|lia|done].
Qed.

Lemma tables_agree_up_to_2_31_slots_witness :
  Table.create (hp := identity_params) erase_policy_rehash 4 =
    Some (fresh erase_policy_rehash 4) ∧
  ∃ obs d1 d2,
    table_run (hp := identity_params) erase_policy_rehash cluster_ops
      (fresh erase_policy_rehash 4) = Some (obs, d1) ∧
    table2_run (hp := identity_params) cluster_ops (fresh erase_policy_rehash 4) =
      Some (obs, d2) ∧
    valid d2 = valid d1.
Proof.
  assert (Table.create (hp := identity_params) erase_policy_rehash 4 =
            Some (fresh erase_policy_rehash 4)) as H by reflexivity.
  destruct (tables_agree_up_to_2_31_slots (hp := identity_params) 4 cluster_ops _ H)
    as (_ & obs & d1 & d2 & H1 & H2 & H3 & _); [by vm_compute|by vm_compute|].
  exact (conj H (ex_intro _ obs (ex_intro _ d1 (ex_intro _ d2 (conj H1 (conj H2 H3)))))).
Defined.

(** X20: [insert] of the standalone table, at any capacity: it returns
    true exactly when the key was absent; when it returns false the
    storage is unchanged; when it returns true the key is found with the
    value and the size has grown by one. Every other key keeps its count
    and is found with the value it had. *)
Theorem standalone_insert_contract {hp : hash_params} (d : data_t) (key : K) (value : V) :
  wf erase_policy_rehash d →
  ∃ b d',
    Table2.insert key value d = Some (b, d') ∧ wf erase_policy_rehash d' ∧
    (b = true ↔ Table2.count key d = Some 0) ∧
    (b = false → d' = d) ∧
    (b = true →
       ∃ pos, Table2.find key d' = Some pos ∧ pos ≠ NPOS ∧
              Table2.iter_deref d' pos = Some (key, value) ∧
              Table2.size_ d' = Table2.size_ d + 1) ∧
    ∀ k, k ≠ key →
      Table2.count k d' = Table2.count k d ∧ lookup2_ k d' = lookup2_ k d.
Proof.
  intros Hwf. rewrite count2_eq.
  assert (∀ k e, lookup2_ k e = lookup_ erase_policy_rehash k e) as Hl.
  { intros k e. unfold lookup2_, lookup_. by rewrite find2_eq. }
  destruct (lookup_cases erase_policy_rehash d key Hwf)
    as [(i & v & Hh & Hg & Hc & _)|(Habs & _ & Hc & _)].
  - exists false, d. rewrite Hc. split.
    { unfold Table2.insert. rewrite get_index_hash2_eq.
      fold (Table.get_index erase_policy_rehash key d). by rewrite Hg. }
    split; [done|]. split; [done|]. split; [done|]. split; [done|]. done.
  - destruct (insert2_absent d key value Hwf Habs) as (d' & i & Hins & Hwf' & Hs & Hh & Hext).
    exists true, d'. rewrite Hc. split; [done|]. split; [done|]. split; [done|].
    split; [done|]. split.
    + intros _. exists i. destruct (find2_holds d' i key value Hwf' Hh) as (? & ? & ? & _).
      done.
    + intros k Hne. rewrite !count2_eq. split.
      * apply count_ext; [done..|]. intros w. rewrite (Hext k w).
        split; [intros [?|[? _]]; done|by left].
      * rewrite !Hl. by apply (lookup_extends erase_policy_rehash d d' key k value).
Qed.

Lemma standalone_insert_contract_witness :
  wf erase_policy_rehash (cluster_table erase_policy_rehash) ∧
  ∃ b d',
    Table2.insert (16 : @K identity_params) (5 : @V identity_params)
      (cluster_table erase_policy_rehash) = Some (b, d') ∧
    (b = true ↔ Table2.count (16 : @K identity_params)
                  (cluster_table erase_policy_rehash) = Some 0).
Proof.
  assert (wf erase_policy_rehash (cluster_table erase_policy_rehash)) as Hwf.
  { apply reachable_wf; [by eexists|by vm_compute|by vm_compute]. }
  destruct (standalone_insert_contract (hp := identity_params)
              (cluster_table erase_policy_rehash) 16 5 Hwf) as (b & d' & H1 & _ & H2 & _).
  exact (conj Hwf (ex_intro _ b (ex_intro _ d' (conj H1 H2)))).
Defined.

(** X21: the destructor hands to [internal::destroy] the key and the
    value of every occupied slot and of no other slot. When no object is
    alive outside the occupied slots, as after any sequence of calls on
    a table, no object is left when the memory is released. *)
Theorem destructor_destroys_the_elements {hp : hash_params} (p : erase_policy) (d : data_t) :
  wf p d →
  (∀ q, key_table (destructor p d) !! q =
          (if decide (0 ≤ q < capacity_minus_1 d + 1 ∧ state_at p d q = VALID)
           then None else key_table d !! q) ∧
        value_table (destructor p d) !! q =
          (if decide (0 ≤ q < capacity_minus_1 d + 1 ∧ state_at p d q = VALID)
           then None else value_table d !! q)) ∧
  (no_stale p d → key_table (destructor p d) = ∅ ∧ value_table (destructor p d) = ∅).
Proof.
  intros Hwf. split; [intros q; by apply clear_loop_all, wf_wf_bitmap|].
  by apply destructor_tidy.
Qed.

Lemma destructor_destroys_the_elements_witness :
  wf erase_policy_use_marker (cluster_table erase_policy_use_marker) ∧
  (no_stale erase_policy_use_marker (cluster_table erase_policy_use_marker) →
   key_table (destructor erase_policy_use_marker
                (cluster_table erase_policy_use_marker)) = ∅ ∧
   value_table (destructor erase_policy_use_marker
                  (cluster_table erase_policy_use_marker)) = ∅).
Proof.
  assert (wf erase_policy_use_marker (cluster_table erase_policy_use_marker)) as Hwf.
  { apply reachable_wf; [by eexists|by vm_compute|by vm_compute]. }
  destruct (destructor_destroys_the_elements (hp := identity_params) erase_policy_use_marker
              (cluster_table erase_policy_use_marker) Hwf) as [_ H].
  exact (conj Hwf H).
Defined.

(** * The rehashing erase after an insertion *)

(** Filling an empty field and emptying it again gives the word back. *)
Lemma set_word_undo (w b sh : Z) :
  0 ≤ sh → 0 < b → 0 ≤ w < 2 ^ 32 →
  Z.land (Z.shiftr w sh) (Z.ones b) = 0 →
  Z.lor (Z.land (Z.lor (Z.land w (not32 (shl32 (Z.ones b) sh))) (shl32 1 sh))
                (not32 (shl32 (Z.ones b) sh)))
        (shl32 0 sh) = w.
Proof.
  intros Hsh Hb Hw Hfield.
  assert (0 ≤ Z.lor (Z.land w (not32 (shl32 (Z.ones b) sh))) (shl32 1 sh) < 2 ^ 32) as Hx.
  { apply set_word_range; [done|apply shl32_range]. }
  apply Z.bits_inj'. intros n Hn. rewrite (set_word_bits _ b sh 0 n) by (done || lia).
  rewrite Z.bits_0, andb_false_r, orb_false_r.
  destruct ((sh <=? n) && (n <? sh + b)) eqn:E.
  - apply andb_true_iff in E as [E1 E2]. apply Z.leb_le in E1. apply Z.ltb_lt in E2.
    assert (Z.testbit (Z.land (Z.shiftr w sh) (Z.ones b)) (n - sh) = false) as Hbit
      by (by rewrite Hfield, Z.bits_0).
    rewrite field_bits in Hbit by lia. replace (n - sh + sh) with n in Hbit by lia.
    destruct (Z.ltb_spec (n - sh) b); [|lia]. by rewrite <- Hbit.
  - rewrite (set_word_bits w b sh 1 n) by (done || lia). rewrite E.
    destruct (Z.testbit w n); [done|]. cbn [orb].
    destruct (Z.ltb_spec n 32); [|done]. cbn [andb].
    apply andb_false_iff in E as [E|E].
    + apply Z.leb_gt in E. by rewrite Z.testbit_neg_r by lia.
    + apply Z.ltb_ge in E. by rewrite Z.bits_above_log2 by (cbn; lia).
Qed.

Section UndoInsert.
Context {hp : hash_params}.
Local Abbreviation r := erase_policy_rehash.

Lemma set_state_undo (d : data_t) (i : Z) :
  wf_bitmap r d → 0 ≤ i < capacity_minus_1 d + 1 → state_at r d i = INVALID →
  set_state r (set_state r (valid d) i VALID) i INVALID = valid d.
Proof.
  intros Hb Hi Hst. unfold set_state, wr.
  pose proof (word_index_in_range r d i (wfb_length r d Hb) Hi) as Hw.
  rewrite list_insert_insert_eq.
  destruct (lookup_lt_is_Some_2 (valid d) (Z.to_nat (i / META_ELEMENTS_PER_WORD r)))
    as [w Hlw]; [lia|].
  apply list_insert_id. rewrite Hlw. f_equal.
  assert (rd (valid d) (i / META_ELEMENTS_PER_WORD r) = w) as Hrd by (unfold rd; by rewrite Hlw).
  unfold rd at 1. rewrite list_lookup_insert_eq by (by apply lookup_lt_Some in Hlw).
  cbn [default from_option]. fold (rd (valid d) (i / META_ELEMENTS_PER_WORD r)). rewrite Hrd.
  unfold field_mask. rewrite elem_mask_ones. change VALID with 1. change INVALID with 0.
  pose proof (elem_shift_range r i) as Hsh.
  cbn [id]. symmetry. apply set_word_undo; [lia|done| |].
  - apply (wfb_range r d Hb). by apply list_elem_of_lookup_2 in Hlw.
  - unfold state_at, slot_state in Hst. rewrite Hrd, elem_mask_ones in Hst. exact Hst.
Qed.

(** With the hole in a slot that was empty, every entry that the scan
    of [do_erase] meets keeps its place. *)
Lemma scan_moves_nothing (d : data_t) (i : Z) :
  wf r d → 0 ≤ i < capacity_minus_1 d + 1 → state_at r d i = INVALID →
  ∀ (fuel : nat) (t : Z),
    0 ≤ t < capacity_minus_1 d + 1 → capacity_minus_1 d + 1 - t ≤ Z.of_nat fuel →
    Rehash.do_erase_next_entry fuel i (probe d i t) (valid d) (capacity_minus_1 d)
      (key_table d) (value_table d) = Some (valid d, key_table d, value_table d).
Proof.
  intros Hwf Hi Hhole. pose proof (wf_pow2 r d Hwf) as Hc.
  pose proof (capacity_pos d Hc) as Hpos.
  induction fuel as [|fuel IH]; intros t Ht Hfuel; [lia|].
  assert (Z.land (probe d i t + 1) (capacity_minus_1 d) = probe d i (t + 1)) as Hnext.
  { rewrite land_capacity_mask by done. by apply probe_step. }
  pose proof (probe_range d i (t + 1) Hc) as Hj.
  destruct (Z.eq_dec (Z.land (rd (valid d) (probe d i (t + 1) / META_ELEMENTS_PER_WORD r))
                        (field_mask r (probe d i (t + 1)))) 0) as [E|E].
  { cbn [Rehash.do_erase_next_entry]. rewrite Hnext, E. done. }
  assert (state_at r d (probe d i (t + 1)) = VALID) as Hv.
  { pose proof (state_at_range r d (probe d i (t + 1))) as Hr.
    change (elem_mask r) with 1 in Hr.
    assert (state_at r d (probe d i (t + 1)) ≠ INVALID) by (by rewrite <- (field_test r)).
    unfold INVALID, VALID in *. lia. }
  assert (probe d i (t + 1) ≠ i) as Hne.
  { intros E'. rewrite E', Hhole in Hv. by unfold INVALID, VALID in Hv. }
  assert (t + 1 < capacity_minus_1 d + 1) as Ht1.
  { destruct (Z.eq_dec (t + 1) (capacity_minus_1 d + 1)) as [E'|]; [|lia].
    destruct Hne. apply (probe_back_to_start d i (t + 1) Hc Hi); lia. }
  destruct (wf_live r d Hwf _ (proj1 Hj) Hv) as [[k2 Hk2] [v2 Hv2]].
  rewrite <- Hnext in E, Hk2, Hv2.
  rewrite (do_erase_next_entry_turn fuel i (probe d i t) (valid d) (capacity_minus_1 d)
             (key_table d) (value_table d) k2 v2); [|lia|lia|done|done|done].
  rewrite Hnext in *. fold (home d k2).
  rewrite decide_True; [apply IH; lia|].
  pose proof (home_range d k2 Hc) as Hh.
  assert (¬ (i - home d k2) mod (capacity_minus_1 d + 1) <
            (probe d i (t + 1) - home d k2) mod (capacity_minus_1 d + 1)) as Hfar.
  { intros Hlt.
    by apply (wf_chain_slots r d Hwf (probe d i (t + 1)) k2 i (proj1 Hj) Hv Hk2 Hi Hlt). }
  unfold in_ring_interval. revert Hfar Hne. generalize (probe d i (t + 1)) Hj.
  intros j Hj' Hfar Hne'. revert Hfar.
  set (c := capacity_minus_1 d + 1) in *. mod_split c; lia.
Qed.

Lemma erase_after_insert (d : data_t) (key : K) (value : V) (i : Z) :
  wf r d → no_stale r d → absent r d key → placeable r d key i →
  Table.erase r key (place r d i key value) = Some d.
Proof.
  intros Hwf Hns Habs Hpl. pose proof (wf_wf_bitmap r d Hwf) as Hb.
  pose proof (wf_pow2 r d Hwf) as Hc. pose proof (capacity_pos d Hc) as Hpos.
  pose proof (placeable_range r d key i Hc Hpl) as Hi.
  assert (state_at r d i = INVALID) as Hhole.
  { destruct Hpl as (? & _ & _ & Hfree & _).
    pose proof (state_at_range r d i) as Hr. change (elem_mask r) with 1 in Hr.
    unfold INVALID, VALID in *. lia. }
  destruct (place_spec r d key value i Hwf Habs Hpl) as (Hwf1 & Hh & _).
  assert (key_table d !! i = None ∧ value_table d !! i = None) as [Hki Hvi].
  { split.
    - destruct (key_table d !! i) eqn:E; [|done].
      destruct (Hns i) as [_ Hv]; [left; by rewrite E|].
      rewrite Hhole in Hv. by unfold INVALID, VALID in Hv.
    - destruct (value_table d !! i) eqn:E; [|done].
      destruct (Hns i) as [_ Hv]; [right; by rewrite E|].
      rewrite Hhole in Hv. by unfold INVALID, VALID in Hv. }
  unfold Table.erase. fold (Table.get_index r key (place r d i key value)).
  destruct Hh as (_ & Hst1 & Hk1 & _).
  rewrite (get_index_present r _ key i Hwf1 (proj1 Hi) Hst1 Hk1).
  pose proof (size_le_capacity r d Hwf) as Hsz.
  destruct (Z.eqb_spec (size (place r d i key value)) 0) as [E|_];
    [cbn [size place] in E; lia|].
  rewrite Hk1, bool_decide_eq_true_2 by done. cbn [negb].
  unfold Table.do_erase, Rehash.do_erase.
  cbn [valid key_table value_table capacity_minus_1 size place].
  rewrite clear_is_set_invalid, (set_state_undo d i Hb Hi Hhole).
  rewrite !delete_insert_id by done.
  pose proof (scan_moves_nothing d i Hwf Hi Hhole
                (Rehash.do_erase_fuel (capacity_minus_1 d)) 0) as Hscan.
  rewrite (probe_0 d i Hc Hi) in Hscan. rewrite Hscan.
  - f_equal. destruct d. cbn. f_equal. lia.
  - lia.
  - unfold Rehash.do_erase_fuel. rewrite Z2Nat.id by nia. nia.
Qed.

End UndoInsert.

Lemma cluster_table_tidy (p : erase_policy) :
  wf p (cluster_table p) ∧ no_stale p (cluster_table p).
Proof.
  assert (Table.create (hp := identity_params) p 4 = Some (fresh p 4)) as Hc
    by (by destruct p).
  destruct (create_wf p 4 _ Hc) as (Hwf & Hns & _ & Hs & Hcap).
  destruct (table_run_tidy p cluster_ops (fresh p 4) 0 Hwf Hns) as
    (obs & d & Hrun & Hwf' & Hns' & _); [lia|lia|by vm_compute|].
  unfold cluster_table, after. by rewrite Hrun.
Qed.

(** X22: under the rehash policy [erase] undoes an [insert] that did not
    grow the table: after [insert] of an absent key, into a table whose
    home slot for the key is free or that is less than half full,
    [erase] of the key gives back the very storage the table had, bitmap
    and arrays included. No entry is moved. This holds at any capacity. *)
Theorem rehash_erase_undoes_insert {hp : hash_params} (d : data_t) (key : K) (value : V) :
  wf erase_policy_rehash d → no_stale erase_policy_rehash d →
  Table.count erase_policy_rehash key d = Some 0 →
  state_at erase_policy_rehash d (home d key) ≠ VALID ∨
    2 * Table.size_ d < Table.capacity d →
  ∃ d1, Table.insert erase_policy_rehash key value d = Some (true, d1) ∧
        Table.erase erase_policy_rehash key d1 = Some d.
Proof.
  intros Hwf Hns Hcount Hcase.
  apply (count_absent erase_policy_rehash d key Hwf) in Hcount as Habs.
  assert (¬ needs_growth erase_policy_rehash d key) as Hng.
  { intros [Hv Hload]. unfold Table.size_, Table.capacity in Hcase. destruct Hcase; [done|lia]. }
  destruct (insert_in_place erase_policy_rehash d key value Hwf Habs Hng) as (i & Hpl & Hins & _).
  exists (place erase_policy_rehash d i key value). split; [done|].
  by apply erase_after_insert.
Qed.

Lemma rehash_erase_undoes_insert_witness :
  wf erase_policy_rehash (cluster_table erase_policy_rehash) ∧
  Table.count erase_policy_rehash (3 : @K identity_params)
    (cluster_table erase_policy_rehash) = Some 0 ∧
  ∃ d1,
    Table.insert erase_policy_rehash (3 : @K identity_params) (30 : @V identity_params)
      (cluster_table erase_policy_rehash) = Some (true, d1) ∧
    Table.erase erase_policy_rehash (3 : @K identity_params) d1 =
      Some (cluster_table erase_policy_rehash).
Proof.
  destruct (cluster_table_tidy erase_policy_rehash) as [Hwf Hns].
  assert (Table.count erase_policy_rehash (3 : @K identity_params)
            (cluster_table erase_policy_rehash) = Some 0) as Hcount by (by vm_compute).
  destruct (rehash_erase_undoes_insert (hp := identity_params)
              (cluster_table erase_policy_rehash) 3 30 Hwf Hns Hcount)
    as (d1 & H1 & H2).
  { left. by vm_compute. }
  exact (conj Hwf (conj Hcount (ex_intro _ d1 (conj H1 H2)))).
Defined.
